(** * replaceDOMText: a shallow embedding of [src/replaceDOMText.ts]

    The engine searches the text of a DOM subtree for matches of a pattern,
    replaces or wraps every portion of every match, and records inverse
    operations for [revert].

    The DOM and the pattern engine are external collaborators.  The DOM is
    modelled as a store of node records addressed by node identity; the
    pattern engine as a function from an input string and a start offset to
    an optional match. *)

From Stdlib Require Import ZArith Ascii String Lia Bool DecimalString.
From stdpp Require Import base option list gmap.

Local Open Scope Z_scope.
Local Open Scope nat_scope.

(** * Strings

    JavaScript strings are sequences of code units; they are modelled as
    lists of characters so that [substring] is a matter of [take] and
    [drop]. *)

Abbreviation str := (list ascii).

Definition txt (s : string) : str := list_ascii_of_string s.

Module JS.

(** [clamp len z]: an index argument of [String.prototype.substring],
    clamped to [0 .. len]. *)
Definition clamp (len : nat) (z : Z) : nat :=
  Nat.min (Z.to_nat z) len.

(** [s.substring(a, b)]: both ends clamped, swapped when [a > b]. *)
Definition substring (s : str) (a b : Z) : str :=
  let a' := clamp (length s) a in
  let b' := clamp (length s) b in
  take (Nat.max a' b' - Nat.min a' b') (drop (Nat.min a' b') s).

(** [s.substring(a)]: to the end of the string. *)
Definition substringFrom (s : str) (a : Z) : str :=
  drop (clamp (length s) a) s.

(** The length of a string, as a JavaScript number. *)
Definition len (s : str) : Z := Z.of_nat (length s).

End JS.

(** * Outcomes

    A computation returns a value, throws, or exhausts the fuel that bounds
    the loops of the model. *)

Inductive Exn :=
| ZeroLengthMatch   (* Error('findAndReplaceDOMText cannot handle zero-length matches') *)
| TypeError         (* a property read or a call on null *)
| NotFoundError     (* DOMException of insertBefore, removeChild, replaceChild *)
| InvalidCharacterError.
                    (* DOMException of createElement for a string that is no name *)

Inductive Res (A : Type) :=
| Ok (a : A)
| Throw (e : Exn)
| OutOfFuel.
Arguments Ok {A} a.
Arguments Throw {A} e.
Arguments OutOfFuel {A}.

(** * The DOM store *)

Module Dom.

Inductive NodeKind :=
| TextNode (data : str) (realm : bool)
  (* nodeType 3; [realm] tells whether [node instanceof Text] holds for
     the Text constructor of the engine's global object (it does not for
     a node that belongs to another frame) *)
| ElementNode (nodeName : str) (className : str)   (* nodeType 1 *)
| OtherNode.                                      (* comments and the like *)

Record Node := mkNode {
  kind : NodeKind;
  parentNode : option nat;
  childNodes : list nat
}.

(** A document: node identities are indices into the store, and a new
    node takes the next index. *)
Abbreviation DOM := (list Node).

Definition setParent (n : nat) (p : option nat) (s : DOM) : DOM :=
  alter (fun nd => mkNode (kind nd) p (childNodes nd)) n s.

Definition mapChildren (n : nat) (f : list nat -> list nat) (s : DOM) : DOM :=
  alter (fun nd => mkNode (kind nd) (parentNode nd) (f (childNodes nd))) n s.

Definition setKind (n : nat) (k : NodeKind) (s : DOM) : DOM :=
  alter (fun nd => mkNode k (parentNode nd) (childNodes nd)) n s.

Definition parentOf (s : DOM) (n : nat) : option nat :=
  match s !! n with
  | Some nd => parentNode nd
  | None => None
  end.

Definition childrenOf (s : DOM) (n : nat) : list nat :=
  match s !! n with
  | Some nd => childNodes nd
  | None => []
  end.

Definition kindOf (s : DOM) (n : nat) : option NodeKind :=
  match s !! n with
  | Some nd => Some (kind nd)
  | None => None
  end.

Definition firstChild (s : DOM) (n : nat) : option nat :=
  head (childrenOf s n).

Fixpoint nextAfter (x : nat) (l : list nat) : option nat :=
  match l with
  | [] => None
  | y :: l' => if Nat.eqb y x then head l' else nextAfter x l'
  end.

Definition nextSibling (s : DOM) (n : nat) : option nat :=
  match parentOf s n with
  | Some p => nextAfter n (childrenOf s p)
  | None => None
  end.

(** A node occurs at most once among the children of its parent, so the
    list operations of the DOM are substitutions of one child by a list
    of children. *)
Definition substChild (x : nat) (xs : list nat) (l : list nat) : list nat :=
  l ≫= (fun y => if Nat.eqb y x then xs else [y]).

(** The "remove" step that precedes every insertion of a node that
    already has a parent. *)
Definition detach (c : nat) (s : DOM) : DOM :=
  match parentOf s c with
  | Some q => setParent c None (mapChildren q (substChild c []) s)
  | None => s
  end.

Definition alloc (k : NodeKind) (s : DOM) : nat * DOM :=
  (length s, s ++ [mkNode k None []]).

(** [document.createTextNode(data)] *)
Definition createTextNode (data : str) (s : DOM) : nat * DOM :=
  alloc (TextNode data true) s.

(** The names that [document.createElement] takes are those of the
    production [Name] of XML: a first character that is a letter, [:] or
    [_] (or one of the letters above U+00BF), then such characters,
    digits, [-], [.] or U+00B7. *)
Definition nameStartChar (c : ascii) : bool :=
  let n := nat_of_ascii c in
  Nat.eqb n 58 || (Nat.leb 65 n && Nat.leb n 90) || Nat.eqb n 95 ||
  (Nat.leb 97 n && Nat.leb n 122) || (Nat.leb 192 n && Nat.leb n 214) ||
  (Nat.leb 216 n && Nat.leb n 246) || Nat.leb 248 n.

Definition nameChar (c : ascii) : bool :=
  let n := nat_of_ascii c in
  nameStartChar c || Nat.eqb n 45 || Nat.eqb n 46 ||
  (Nat.leb 48 n && Nat.leb n 57) || Nat.eqb n 183.

Definition validName (name : str) : bool :=
  match name with
  | [] => false
  | c :: cs => nameStartChar c && forallb nameChar cs
  end.

(** [document.createElement(name)]: a new element without a class, or the
    exception for a string that is no name. *)
Definition createElement (name : str) (s : DOM) : Res (nat * DOM) :=
  if validName name then Ok (alloc (ElementNode name []) s)
  else Throw InvalidCharacterError.

(** [el.cloneNode(false)]: a copy of the node itself, without parent and
    without children. *)
Definition cloneNode (el : nat) (s : DOM) : Res (nat * DOM) :=
  match s !! el with
  | Some nd => Ok (alloc (kind nd) s)
  | None => Throw TypeError
  end.

(** [el.className = c] *)
Definition setClassName (el : nat) (c : str) (s : DOM) : DOM :=
  match s !! el with
  | Some nd =>
      match kind nd with
      | ElementNode name _ => setKind el (ElementNode name c) s
      | _ => s
      end
  | None => s
  end.

(** [p.insertBefore(new, ref)] with a non-null reference child. *)
Definition insertBefore (p new ref : nat) (s : DOM) : Res DOM :=
  match parentOf s ref with
  | Some q =>
      if Nat.eqb q p then
        if Nat.eqb new ref then Ok s
        else Ok (setParent new (Some p)
                   (mapChildren p (substChild ref [new; ref]) (detach new s)))
      else Throw NotFoundError
  | None => Throw NotFoundError
  end.

(** [p.appendChild(c)] *)
Definition appendChild (p c : nat) (s : DOM) : DOM :=
  setParent c (Some p) (mapChildren p (fun l => l ++ [c]) (detach c s)).

(** [p.removeChild(c)] *)
Definition removeChild (p c : nat) (s : DOM) : Res DOM :=
  match parentOf s c with
  | Some q =>
      if Nat.eqb q p then
        Ok (setParent c None (mapChildren p (substChild c []) s))
      else Throw NotFoundError
  | None => Throw NotFoundError
  end.

(** [p.replaceChild(new, old)] *)
Definition replaceChild (p new old : nat) (s : DOM) : Res DOM :=
  match parentOf s old with
  | Some q =>
      if Nat.eqb q p then
        if Nat.eqb new old then Ok s
        else Ok (setParent new (Some p)
                   (setParent old None
                      (mapChildren p (substChild old [new]) (detach new s))))
      else Throw NotFoundError
  | None => Throw NotFoundError
  end.

Definition isTextNode (s : DOM) (n : nat) : bool :=
  match s !! n with
  | Some (mkNode (TextNode _ _) _ _) => true
  | _ => false
  end.

Definition isElementNode (s : DOM) (n : nat) : bool :=
  match s !! n with
  | Some (mkNode (ElementNode _ _) _ _) => true
  | _ => false
  end.

(** [node instanceof Text] *)
Definition instanceofText (s : DOM) (n : nat) : bool :=
  match s !! n with
  | Some (mkNode (TextNode _ r) _ _) => r
  | _ => false
  end.

(** [node.data] of a text node *)
Definition dataOf (s : DOM) (n : nat) : str :=
  match s !! n with
  | Some (mkNode (TextNode d _) _ _) => d
  | _ => []
  end.

(** [el.nodeName] *)
Definition nodeNameOf (s : DOM) (n : nat) : str :=
  match s !! n with
  | Some (mkNode (ElementNode name _) _ _) => name
  | Some (mkNode (TextNode _ _) _ _) => txt "#text"
  | _ => txt "#comment"
  end.

End Dom.
Import Dom.

(** * The pattern engine (external)

    [exec re input lastIndex] is [re.exec(input)] for a pattern whose
    [lastIndex] is [lastIndex]; for a pattern without the global flag,
    [input.match(re)] is [exec re input 0]. *)

Record RegExpMatch := mkRegExpMatch {
  r0 : str;                        (* match[0] *)
  rcaptures : list (option str);   (* match[1], match[2], ...; None = undefined *)
  rindex : nat;                    (* match.index *)
  rinput : str                     (* match.input *)
}.

Record RegExp := mkRegExp {
  global : bool;
  exec : str -> nat -> option RegExpMatch
}.

(** What every pattern engine guarantees of a match: it starts at or after
    [lastIndex], it is the substring of the input at its index, and its
    input is the string that was searched. *)
Definition sane (re : RegExp) : Prop :=
  forall s L m, exec re s L = Some m ->
    L <= rindex m /\ rindex m + length (r0 m) <= length s /\
    r0 m = take (length (r0 m)) (drop (rindex m) s) /\ rinput m = s.

(** The pattern [new RegExp(escapeRegExp(rawFind), 'g')]: every character
    of [rawFind] that is special in a pattern is escaped, so the pattern
    matches the occurrences of [rawFind] itself. *)
Fixpoint isPrefix (p s : str) : bool :=
  match p, s with
  | [], _ => true
  | a :: p', b :: s' => Ascii.eqb a b && isPrefix p' s'
  | _ :: _, [] => false
  end.

Fixpoint indexOf (needle s : str) : option nat :=
  if isPrefix needle s then Some 0
  else match s with
       | [] => None
       | _ :: s' => option_map S (indexOf needle s')
       end.

Definition literal (rawFind : str) : RegExp :=
  mkRegExp true (fun s L =>
    if Nat.leb L (length s) then
      match indexOf rawFind (drop L s) with
      | Some i => Some (mkRegExpMatch rawFind [] (L + i) s)
      | None => None
      end
    else None).

(** * Options, matches and portions *)

Inductive PortionMode := RETAIN | FIRST.

Inductive Preset := PROSE.

Record Portion := mkPortion {
  node : nat;
  pindex : Z;           (* the field [index] of a portion *)
  text : str;
  indexInMatch : Z;
  indexInNode : Z;
  endIndexInNode : Z;
  isEnd : bool          (* an absent [isEnd] reads as false *)
}.

(** A match with its meta data: the array of the pattern engine with
    [startIndex], [endIndex], [index] and [input] assigned onto it. *)
Record MatchWithMeta := mkMatch {
  m0 : str;                        (* match[0] *)
  captures : list (option str);    (* match[1], match[2], ... *)
  startIndex : Z;
  endIndex : Z;
  index : Z;
  input : str
}.

Inductive Find :=
| FindString (s : str)
| FindRegExp (re : RegExp).

(** What a replacement function returns. *)
Inductive ReplResult :=
| RString (s : str)
| RNumber (z : Z)
| RNode (n : nat).

(** A replacement function runs against the document: it may create nodes
    before it returns. *)
Definition ReplaceFn := Portion -> MatchWithMeta -> DOM -> DOM * ReplResult.

Inductive Replace :=
| ReplString (s : str)
| ReplFunction (f : ReplaceFn).

Inductive Wrap :=
| WrapName (name : str)
| WrapStencil (el : nat).

Definition ElementPredicate := DOM -> nat -> bool.

Inductive ForceContext :=
| FCBool (b : bool)
| FCFunction (f : ElementPredicate).

Record Options := mkOptions {
  find : Find;
  replace : option Replace;
  wrap : option Wrap;
  wrapClass : option str;
  portionMode : option PortionMode;
  filterElements : option ElementPredicate;
  forceContext : option ForceContext;
  preset : option Preset
}.

(** ** Presets *)

Definition NON_PROSE_ELEMENTS : list string :=
  ["br"; "hr";
   "script"; "style"; "img"; "video"; "audio"; "canvas"; "svg"; "map"; "object";
   "input"; "textarea"; "select"; "option"; "optgroup"; "button"]%string.

Definition NON_CONTIGUOUS_PROSE_ELEMENTS : list string :=
  ["address"; "article"; "aside"; "blockquote"; "dd"; "div"; "dl"; "fieldset";
   "figcaption"; "figure"; "footer"; "form"; "h1"; "h2"; "h3"; "h4"; "h5"; "h6";
   "header"; "hgroup"; "hr"; "main"; "nav"; "noscript"; "ol"; "output"; "p";
   "pre"; "section"; "ul";
   "br"; "li"; "summary"; "dt"; "details"; "rp"; "rt"; "rtc";
   "script"; "style"; "img"; "video"; "audio"; "canvas"; "svg"; "map"; "object";
   "input"; "textarea"; "select"; "option"; "optgroup"; "button";
   "table"; "tbody"; "thead"; "th"; "tr"; "td"; "caption"; "col"; "tfoot";
   "colgroup"]%string.

(** The keys that every object literal inherits and that a lower-cased
    node name can spell: [key in obj] looks through the prototype chain. *)
Definition inheritedKeys : list string := ["constructor"; "__proto__"]%string.

Definition toLowerAscii (c : ascii) : ascii :=
  let n := nat_of_ascii c in
  if Nat.leb 65 n && Nat.leb n 90 then ascii_of_nat (n + 32) else c.

(** [s.toLocaleLowerCase()] on the characters of a node name *)
Definition toLocaleLowerCase (s : str) : str := map toLowerAscii s.

Fixpoint streq (a b : str) : bool :=
  match a, b with
  | [], [] => true
  | x :: a', y :: b' => Ascii.eqb x y && streq a' b'
  | _, _ => false
  end.

(** [key in obj] *)
Definition keyIn (key : str) (obj : list string) : bool :=
  existsb (fun k => streq key (txt k)) (obj ++ inheritedKeys).

Definition NON_INLINE_PROSE : ElementPredicate :=
  fun s el => keyIn (toLocaleLowerCase (nodeNameOf s el)) NON_CONTIGUOUS_PROSE_ELEMENTS.

Definition proseFilter : ElementPredicate :=
  fun s el => negb (keyIn (toLocaleLowerCase (nodeNameOf s el)) NON_PROSE_ELEMENTS).

(** [{ ...options, ...preset }] for [PRESETS.prose], whose keys are
    [forceContext] and [filterElements]. *)
Definition applyPreset (options : Options) (p : Preset) : Options :=
  match p with
  | PROSE =>
      mkOptions (find options) (replace options) (wrap options)
        (wrapClass options) (portionMode options)
        (Some proseFilter) (Some (FCFunction NON_INLINE_PROSE)) (preset options)
  end.

(** The first statements of the constructor: the options the engine works
    with. *)
Definition effectiveOptions (options : Options) : Options :=
  let options :=
    mkOptions (find options) (replace options) (wrap options)
      (wrapClass options)
      (Some (match portionMode options with Some m => m | None => RETAIN end))
      (filterElements options) (forceContext options) (preset options) in
  match preset options with
  | Some p => applyPreset options p
  | None => options
  end.

(** * Text aggregation ([getAggregateText]) *)

#[warnings="-register-all"]
Inductive TextAggItem :=
| AggStr (s : str)
| AggNested (l : list TextAggItem).

Definition TextAgg := list TextAggItem.

(** [forceContext && (forceContext === true ||
     (typeof forceContext === 'function' && forceContext(child)))] *)
Definition forcesContext (fc : option ForceContext) (s : DOM) (child : nat) : bool :=
  match fc with
  | Some (FCBool b) => b
  | Some (FCFunction f) => f s child
  | None => false
  end.

(** [filterElements && !filterElements(el)] *)
Definition filteredOut (fe : option ElementPredicate) (s : DOM) (el : nat) : bool :=
  match fe with
  | Some f => negb (f s el)
  | None => false
  end.

Section Aggregate.

Variable options : Options.
Variable s : DOM.

(** The array [txt] is kept as the items before its last string and that
    last string [cur], which is [txt[i]]. *)
Fixpoint getText (fuel : nat) (n : nat) : Res TextAgg :=
  match fuel with
  | 0 => OutOfFuel
  | S fuel' =>
      if isTextNode s n then Ok [AggStr (dataOf s n)]
      else if negb (isElementNode s n) then Ok []
      else if filteredOut (filterElements options) s n then Ok []
      else
        (fix children (cs : list nat) (items : TextAgg) (cur : str) : Res TextAgg :=
           match cs with
           | [] => Ok (items ++ [AggStr cur])
           | child :: cs' =>
               if isTextNode s child then
                 children cs' items (cur ++ dataOf s child)
               else
                 match getText fuel' child with
                 | Ok innerText =>
                     if forcesContext (forceContext options) s child then
                       children cs' (items ++ [AggStr cur; AggNested innerText]) []
                     else
                       match innerText with
                       | AggStr first :: ((_ :: _) as rest) =>
                           children cs'
                             (items ++ [AggStr (cur ++ first); AggNested rest]) []
                       | [AggStr first] => children cs' items (cur ++ first)
                       | _ :: _ =>
                           children cs' (items ++ [AggStr cur; AggNested innerText]) []
                       | [] => children cs' items cur
                       end
                 | Throw e => Throw e
                 | OutOfFuel => OutOfFuel
                 end
           end) (childrenOf s n) [] []
  end.

End Aggregate.

Definition getAggregateText (fuel : nat) (options : Options) (s : DOM) (root : nat)
  : Res TextAgg :=
  getText options s fuel root.

(** The leaf strings of an aggregation, in order. *)
Fixpoint leavesOfItem (it : TextAggItem) : list str :=
  match it with
  | AggStr s => [s]
  | AggNested l => flat_map leavesOfItem l
  end.

Definition leaves (agg : TextAgg) : list str := flat_map leavesOfItem agg.

(** * Search *)

(** [prepMatch(match, matchIndex, characterOffset)] *)
Definition prepMatch (m : RegExpMatch) (matchIndex characterOffset : Z)
  : Res MatchWithMeta :=
  match r0 m with
  | [] => Throw ZeroLengthMatch
  | _ :: _ =>
      let startIndex := Z.of_nat (rindex m) in
      let endIndex := (characterOffset + startIndex + JS.len (r0 m))%Z in
      Ok (mkMatch (r0 m) (rcaptures m) (characterOffset + startIndex)%Z endIndex
            matchIndex (rinput m))
  end.

(** The variables that [matchAggregation] closes over. *)
Record SearchState := mkSearch {
  matchIndex : Z;
  offset : Z;
  matches : list MatchWithMeta
}.

(** The loop [while (m) { ...; m = regex.exec(item) }] of a global pattern:
    a successful [exec] leaves [lastIndex] at the end of its match. *)
Fixpoint execLoop (fuel : nat) (regex : RegExp) (item : str) (lastIndex : nat)
    (st : SearchState) : Res SearchState :=
  match fuel with
  | 0 => OutOfFuel
  | S fuel' =>
      match exec regex item lastIndex with
      | None => Ok st
      | Some m =>
          match prepMatch m (matchIndex st) (offset st) with
          | Ok mm =>
              execLoop fuel' regex item (rindex m + length (r0 m))
                (mkSearch (matchIndex st + 1)%Z (offset st) (matches st ++ [mm]))
          | Throw e => Throw e
          | OutOfFuel => OutOfFuel
          end
      end
  end.

(** One string item of the aggregation. *)
Definition matchString (fuel : nat) (regex : RegExp) (item : str) (st : SearchState)
  : Res SearchState :=
  let after (st : SearchState) :=
    mkSearch (matchIndex st) (offset st + JS.len item)%Z (matches st) in
  if global regex then
    match execLoop fuel regex item 0 st with
    | Ok st' => Ok (after st')
    | Throw e => Throw e
    | OutOfFuel => OutOfFuel
    end
  else
    match exec regex item 0 with
    | Some m =>
        match prepMatch m 0 (offset st) with
        | Ok mm => Ok (after (mkSearch (matchIndex st) (offset st) (matches st ++ [mm])))
        | Throw e => Throw e
        | OutOfFuel => OutOfFuel
        end
    | None => Ok (after st)
    end.

Fixpoint matchItem (fuel : nat) (regex : RegExp) (it : TextAggItem) (st : SearchState)
  : Res SearchState :=
  match it with
  | AggStr item => matchString fuel regex item st
  | AggNested l =>
      (fix go (l : list TextAggItem) (st : SearchState) : Res SearchState :=
         match l with
         | [] => Ok st
         | it' :: l' =>
             match matchItem fuel regex it' st with
             | Ok st' => go l' st'
             | Throw e => Throw e
             | OutOfFuel => OutOfFuel
             end
         end) l st
  end.

Fixpoint matchAggregation (fuel : nat) (regex : RegExp) (textAgg : TextAgg)
    (st : SearchState) : Res SearchState :=
  match textAgg with
  | [] => Ok st
  | it :: rest =>
      match matchItem fuel regex it st with
      | Ok st' => matchAggregation fuel regex rest st'
      | Throw e => Throw e
      | OutOfFuel => OutOfFuel
      end
  end.

Definition regexOf (rawFind : Find) : RegExp :=
  match rawFind with
  | FindString s => literal s
  | FindRegExp re => re
  end.

(** [search()] *)
Definition search (fuel : nat) (options : Options) (s : DOM) (root : nat)
  : Res (list MatchWithMeta) :=
  match getAggregateText fuel options s root with
  | Ok textAggregation =>
      match matchAggregation fuel (regexOf (find options)) textAggregation
              (mkSearch 0 0 []) with
      | Ok st => Ok (matches st)
      | Throw e => Throw e
      | OutOfFuel => OutOfFuel
      end
  | Throw e => Throw e
  | OutOfFuel => OutOfFuel
  end.

(** * The engine's state

    The document, the list [reverts] of inverse operations and the set
    [createdNodes] of a Finder.  [resolved] is a ghost record of the calls of
    [replaceMatch]; no code reads it. *)

(** The closures pushed onto [reverts], with the variables they capture. *)
Inductive RevertOp :=
| RevertSingle (precedingTextNode followingTextNode : option nat)
    (newNode node parent : nat)
| RevertInner (innerNode portionNode : nat)
| RevertSpan (startPreceding : option nat) (firstNode matchStartNode : nat)
    (startFollowing endPreceding : option nat) (lastNode matchEndNode : nat)
    (endFollowing : option nat).

Record Resolved := mkResolved {
  rmatch : MatchWithMeta;
  rstart : Portion;
  rinner : list Portion;
  rend : Portion
}.

Record World := mkWorld {
  dom : DOM;
  reverts : list RevertOp;
  createdNodes : list nat;
  resolved : list Resolved
}.

Definition M (A : Type) : Type := World -> Res A * World.

Definition ret {A} (a : A) : M A := fun w => (Ok a, w).

Definition bind {A B} (m : M A) (k : A -> M B) : M B :=
  fun w =>
    match m w with
    | (Ok a, w') => k a w'
    | (Throw e, w') => (Throw e, w')
    | (OutOfFuel, w') => (OutOfFuel, w')
    end.

Definition throw {A} (e : Exn) : M A := fun w => (Throw e, w).

Notation "'do' x <- m ; k" := (bind m (fun x => k))
  (at level 10, x name, m at level 100, k at level 200).

Definition getDom : M DOM := fun w => (Ok (dom w), w).

Definition withDom (s : DOM) (w : World) : World :=
  mkWorld s (reverts w) (createdNodes w) (resolved w).

(** A DOM operation that creates a node. *)
Definition liftAlloc (f : DOM -> nat * DOM) : M nat :=
  fun w => let '(n, s) := f (dom w) in (Ok n, withDom s w).

(** A DOM operation that may throw; the document is unchanged when it does. *)
Definition liftDom (f : DOM -> Res DOM) : M unit :=
  fun w =>
    match f (dom w) with
    | Ok s => (Ok tt, withDom s w)
    | Throw e => (Throw e, w)
    | OutOfFuel => (OutOfFuel, w)
    end.

(** [this.createdNodes.add(n)] *)
Definition addCreated (n : nat) : M unit :=
  fun w => (Ok tt, mkWorld (dom w) (reverts w) (n :: createdNodes w) (resolved w)).

(** [this.reverts.push(op)] *)
Definition pushRevert (op : RevertOp) : M unit :=
  fun w => (Ok tt, mkWorld (dom w) (reverts w ++ [op]) (createdNodes w) (resolved w)).

Definition logResolved (r : Resolved) : M unit :=
  fun w => (Ok tt, mkWorld (dom w) (reverts w) (createdNodes w) (resolved w ++ [r])).

(** [parent.insertBefore(new, ref)] where [parent] was read from
    [parentNode] and may be null. *)
Definition insertBeforeM (parent : option nat) (new ref : nat) : M unit :=
  match parent with
  | Some p => liftDom (insertBefore p new ref)
  | None => throw TypeError
  end.

Definition removeChildM (parent : option nat) (c : nat) : M unit :=
  match parent with
  | Some p => liftDom (removeChild p c)
  | None => throw TypeError
  end.

Definition replaceChildM (parent : option nat) (new old : nat) : M unit :=
  match parent with
  | Some p => liftDom (replaceChild p new old)
  | None => throw TypeError
  end.

(** * Replacement content *)

Definition isDigit (c : ascii) : bool :=
  let n := nat_of_ascii c in Nat.leb 48 n && Nat.leb n 57.

Definition digitValue (c : ascii) : nat := nat_of_ascii c - 48.

(** [match[+t] || ''] *)
Definition groupText (match_ : MatchWithMeta) (t : nat) : str :=
  match t with
  | 0 => m0 match_
  | S t' =>
      match captures match_ !! t' with
      | Some (Some g) => g
      | _ => []
      end
  end.

(** The replacement of one token [$&], [$`] or [$']. *)
Definition tokenText (match_ : MatchWithMeta) (t : ascii) : option str :=
  if Ascii.eqb t "&" then Some (m0 match_)
  else if Ascii.eqb t "`" then
    Some (JS.substring (input match_) 0 (startIndex match_))
  else if Ascii.eqb t "'" then
    Some (JS.substringFrom (input match_) (endIndex match_))
  else None.

(** [str.replace(/\$(\d+|[&`'])/g, ...)]: [digits] is the value of the run
    of digits read after a dollar sign, when the scan is inside one. *)
Fixpoint interpolate (match_ : MatchWithMeta) (tpl : str) (digits : option nat) : str :=
  match tpl with
  | [] =>
      match digits with
      | Some t => groupText match_ t
      | None => []
      end
  | c :: rest =>
      let plain :=
        if Ascii.eqb c "$" then
          match rest with
          | d :: rest' =>
              if isDigit d then interpolate match_ rest' (Some (digitValue d))
              else
                match tokenText match_ d with
                | Some r => r ++ interpolate match_ rest' None
                | None => c :: interpolate match_ rest None
                end
          | [] => [c]
          end
        else c :: interpolate match_ rest None in
      match digits with
      | Some t =>
          if isDigit c then interpolate match_ rest (Some (10 * t + digitValue c))
          else groupText match_ t ++ plain
      | None => plain
      end
  end.

Definition modeOf (options : Options) : PortionMode :=
  match portionMode options with
  | Some m => m
  | None => RETAIN
  end.

Definition isFirstMode (options : Options) : bool :=
  match portionMode options with
  | Some FIRST => true
  | _ => false
  end.

(** [prepareReplacementString(str, portion, match)] *)
Definition prepareReplacementString (options : Options) (tpl : str)
    (portion : Portion) (match_ : MatchWithMeta) : str :=
  if isFirstMode options && (0 <? indexInMatch portion)%Z then []
  else
    let tpl := interpolate match_ tpl None in
    if isFirstMode options then tpl
    else if isEnd portion then JS.substringFrom tpl (indexInMatch portion)
    else JS.substring tpl (indexInMatch portion)
           (indexInMatch portion + JS.len (text portion))%Z.

(** [String(n)] for an integral number *)
Definition stringOfNumber (z : Z) : str :=
  txt (NilZero.string_of_int (Z.to_int z)).

(** [getPortionReplacementNode(portion, match)] *)
Definition getPortionReplacementNode (options : Options) (portion : Portion)
    (match_ : MatchWithMeta) : M nat :=
  match default (ReplString (txt "$&")) (replace options) with
  | ReplFunction f =>
      fun w =>
        let '(s, result) := f portion match_ (dom w) in
        match result with
        | RNode n => (Ok n, withDom s w)
        | RString r => liftAlloc (createTextNode r) (withDom s w)
        | RNumber z => liftAlloc (createTextNode (stringOfNumber z)) (withDom s w)
        end
  | ReplString r =>
      let replacementText := prepareReplacementString options r portion match_ in
      do textNode <- liftAlloc (createTextNode replacementText);
      match wrap options with
      | None | Some (WrapName []) => ret textNode
      | Some wrap =>
          if Nat.eqb (length replacementText) 0 then liftAlloc (createTextNode [])
          else
            do el <- match wrap with
                     | WrapName name =>
                         fun w =>
                           match createElement name (dom w) with
                           | Ok (n, s) => (Ok n, withDom s w)
                           | Throw e => (Throw e, w)
                           | OutOfFuel => (OutOfFuel, w)
                           end
                     | WrapStencil stencil =>
                         fun w =>
                           match cloneNode stencil (dom w) with
                           | Ok (n, s) => (Ok n, withDom s w)
                           | Throw e => (Throw e, w)
                           | OutOfFuel => (OutOfFuel, w)
                           end
                     end;
            do _ <- match wrapClass options with
                    | Some (c :: cs) =>
                        fun w => (Ok tt, withDom (setClassName el (c :: cs) (dom w)) w)
                    | _ => ret tt
                    end;
            do _ <- (fun w => (Ok tt, withDom (appendChild el textNode (dom w)) w));
            ret el
      end
  end.

(** * The rewriter ([replaceMatch]) *)

(** [cond ? document.createTextNode(data) : null] *)
Definition createTextNodeIf (cond : bool) (data : str) : M (option nat) :=
  if cond then do n <- liftAlloc (createTextNode data); ret (Some n)
  else ret None.

(** [if (n) parent.insertBefore(n, ref)], the parent being that of [ref] *)
Definition insertIfSome (n : option nat) (ref : nat) : M unit :=
  match n with
  | Some n => do s <- getDom; insertBeforeM (parentOf s ref) n ref
  | None => ret tt
  end.

(** The statements that put the leftover text before a match, the
    replacement and the leftover text after the match in the place of the
    text node [n]; each of them reads the parent of [n] anew:

      if (preceding) n.parentNode!.insertBefore(preceding, n)
      n.parentNode!.insertBefore(replacement, n)
      if (following) n.parentNode!.insertBefore(following, n)
      n.parentNode!.removeChild(n) *)
Definition splitAround (preceding : option nat) (replacement : nat)
    (following : option nat) (n : nat) : M unit :=
  do _ <- insertIfSome preceding n;
  do _ <- insertIfSome (Some replacement) n;
  do _ <- insertIfSome following n;
  do s <- getDom;
  removeChildM (parentOf s n) n.

(** [a || b] on nodes *)
Definition orNode (a : option nat) (b : nat) : nat :=
  match a with
  | Some n => n
  | None => b
  end.

Section Rewriter.

Variable options : Options.

(** The loop over [innerPortions]. *)
Fixpoint replaceInner (match_ : MatchWithMeta) (innerPortions : list Portion)
  : M unit :=
  match innerPortions with
  | [] => ret tt
  | portion :: rest =>
      do innerNode <- getPortionReplacementNode options portion match_;
      do s <- getDom;
      do _ <- replaceChildM (parentOf s (node portion)) innerNode (node portion);
      do _ <- addCreated innerNode;
      do _ <- pushRevert (RevertInner innerNode (node portion));
      replaceInner match_ rest
  end.

(** [replaceMatch(match, startPortion, innerPortions, endPortion)] *)
Definition replaceMatch (match_ : MatchWithMeta) (startPortion : Portion)
    (innerPortions : list Portion) (endPortion : Portion) : M (option nat) :=
  let matchStartNode := node startPortion in
  let matchEndNode := node endPortion in
  do s <- getDom;
  if negb (instanceofText s matchStartNode) || negb (instanceofText s matchEndNode)
  then ret None
  else if Nat.eqb matchStartNode matchEndNode then
    let node := matchStartNode in
    let parent := parentOf s node in
    do precedingTextNode <-
      (if (0 <? indexInNode startPortion)%Z then
         do n <- liftAlloc
                   (createTextNode
                      (JS.substring (dataOf s node) 0 (indexInNode startPortion)));
         do _ <- insertBeforeM parent n node;
         ret (Some n)
       else ret None);
    do newNode <- getPortionReplacementNode options endPortion match_;
    do _ <- insertBeforeM parent newNode node;
    do _ <- addCreated newNode;
    do s' <- getDom;
    do followingTextNode <-
      (if (endIndexInNode endPortion <? JS.len (dataOf s' node))%Z then
         do n <- liftAlloc
                   (createTextNode
                      (JS.substringFrom (dataOf s' node) (endIndexInNode endPortion)));
         do _ <- insertBeforeM parent n node;
         ret (Some n)
       else ret None);
    do _ <- removeChildM parent node;
    do _ <- match parent with
            | Some parent =>
                pushRevert
                  (RevertSingle precedingTextNode followingTextNode newNode node parent)
            | None => throw TypeError
            end;
    ret (Some (orNode followingTextNode newNode))
  else
    let startData := dataOf s matchStartNode in
    do startPreceding <-
      createTextNodeIf (0 <? indexInNode startPortion)%Z
        (JS.substring startData 0 (indexInNode startPortion));
    do startFollowing <-
      createTextNodeIf (endIndexInNode startPortion <? JS.len startData)%Z
        (JS.substringFrom startData (endIndexInNode startPortion));
    do firstNode <- getPortionReplacementNode options startPortion match_;
    do _ <- addCreated firstNode;
    do _ <- splitAround startPreceding firstNode startFollowing matchStartNode;
    do _ <- replaceInner match_ innerPortions;
    do lastNode <- getPortionReplacementNode options endPortion match_;
    do _ <- addCreated lastNode;
    do s2 <- getDom;
    let endData := dataOf s2 matchEndNode in
    do endPreceding <-
      createTextNodeIf (0 <? indexInNode endPortion)%Z
        (JS.substring endData 0 (indexInNode endPortion));
    do endFollowing <-
      createTextNodeIf (endIndexInNode endPortion <? JS.len endData)%Z
        (JS.substringFrom endData (endIndexInNode endPortion));
    do _ <- splitAround endPreceding lastNode endFollowing matchEndNode;
    do _ <- pushRevert
              (RevertSpan startPreceding firstNode matchStartNode startFollowing
                 endPreceding lastNode matchEndNode endFollowing);
    ret (Some (orNode endFollowing lastNode)).

End Rewriter.

(** * The reverter *)

(** [n?.parentNode?.removeChild(n)] *)
Definition removeFromParent (n : option nat) (s : DOM) : Res DOM :=
  match n with
  | Some n =>
      match parentOf s n with
      | Some p => removeChild p n s
      | None => Ok s
      end
  | None => Ok s
  end.

(** [if (n?.parentNode === parent) parent.removeChild(n)] *)
Definition removeFrom (parent : nat) (n : option nat) (s : DOM) : Res DOM :=
  match n with
  | Some n =>
      match parentOf s n with
      | Some p => if Nat.eqb p parent then removeChild parent n s else Ok s
      | None => Ok s
      end
  | None => Ok s
  end.

(** [new.parentNode?.replaceChild(old, new)] *)
Definition putBack (old new : nat) (s : DOM) : Res DOM :=
  match parentOf s new with
  | Some p => replaceChild p old new s
  | None => Ok s
  end.

Definition andThen (r : Res DOM) (f : DOM -> Res DOM) : Res DOM :=
  match r with
  | Ok s => f s
  | Throw e => Throw e
  | OutOfFuel => OutOfFuel
  end.

(** Calling one closure of [reverts]. *)
Definition runRevert (op : RevertOp) (s : DOM) : Res DOM :=
  match op with
  | RevertSingle precedingTextNode followingTextNode newNode node parent =>
      andThen (removeFrom parent precedingTextNode s) (fun s =>
      andThen (removeFrom parent followingTextNode s) (fun s =>
      putBack node newNode s))
  | RevertInner innerNode portionNode => putBack portionNode innerNode s
  | RevertSpan startPreceding firstNode matchStartNode startFollowing
      endPreceding lastNode matchEndNode endFollowing =>
      andThen (removeFromParent startPreceding s) (fun s =>
      andThen (putBack matchStartNode firstNode s) (fun s =>
      andThen (removeFromParent startFollowing s) (fun s =>
      andThen (removeFromParent endPreceding s) (fun s =>
      andThen (putBack matchEndNode lastNode s) (fun s =>
      removeFromParent endFollowing s)))))
  end.

(** [for (let i = this.reverts.length; i--;) this.reverts[i]()], given the
    closures from the last to the first. *)
Fixpoint runReverts (ops : list RevertOp) (s : DOM) : Res DOM :=
  match ops with
  | [] => Ok s
  | op :: ops' => andThen (runRevert op s) (runReverts ops')
  end.

(** [revert()]: the closures run one after the other, so what the earlier
    ones did stays done when a later one throws. *)
Fixpoint revertFrom (ops : list RevertOp) : M unit :=
  match ops with
  | [] => ret tt
  | op :: ops' => do _ <- liftDom (runRevert op); revertFrom ops'
  end.

Definition revert : M unit :=
  fun w =>
    match revertFrom (rev (reverts w)) w with
    | (Ok _, w') => (Ok tt, mkWorld (dom w') [] (createdNodes w') (resolved w'))
    | r => r
    end.

(** * The portion resolver ([processMatches]) *)

(** The local variables of [processMatches]. *)
Record Loop := mkLoop {
  startPortion : option Portion;
  endPortion : option Portion;
  innerPortions : list Portion;
  curNode : option nat;
  curMatch : option MatchWithMeta;   (* the variable [match] *)
  queue : list MatchWithMeta;        (* the local copy [matches] *)
  atIndex : Z;
  portionIndex : Z;
  consumedInMatch : Z;
  nodeStack : list nat;              (* the top of the stack first *)
  done : bool
}.

Definition isNone {A} (o : option A) : bool :=
  match o with
  | Some _ => false
  | None => true
  end.

(** The block [if (curNode.nodeType === Node.TEXT_NODE && match)]. *)
Definition textStep (cur : nat) (curText : str) (match_ : MatchWithMeta)
    (st : Loop) : Loop :=
  let textLength := JS.len curText in
  let st1 :=
    if isNone (endPortion st) && (endIndex match_ <=? atIndex st + textLength)%Z then
      mkLoop (startPortion st)
        (Some (mkPortion cur (portionIndex st)
                 (JS.substring curText (startIndex match_ - atIndex st)
                    (endIndex match_ - atIndex st))
                 (consumedInMatch st)
                 (startIndex match_ - atIndex st)
                 (endIndex match_ - atIndex st) true))
        (innerPortions st) (curNode st) (curMatch st) (queue st)
        (atIndex st) (portionIndex st + 1) (consumedInMatch st)
        (nodeStack st) (done st)
    else if negb (isNone (startPortion st)) then
      mkLoop (startPortion st) (endPortion st)
        (innerPortions st ++
           [mkPortion cur (portionIndex st) curText (consumedInMatch st)
              0 (JS.len curText) false])
        (curNode st) (curMatch st) (queue st)
        (atIndex st) (portionIndex st + 1)
        (consumedInMatch st + JS.len curText)
        (nodeStack st) (done st)
    else st in
  let st2 :=
    if isNone (startPortion st1) && (startIndex match_ <? atIndex st1 + textLength)%Z
    then
      let startText :=
        JS.substring curText (startIndex match_ - atIndex st1)
          (endIndex match_ - atIndex st1) in
      mkLoop
        (Some (mkPortion cur (portionIndex st1) startText 0
                 (startIndex match_ - atIndex st1)
                 (endIndex match_ - atIndex st1) false))
        (endPortion st1) (innerPortions st1) (curNode st1) (curMatch st1)
        (queue st1) (atIndex st1) (portionIndex st1 + 1) (JS.len startText)
        (nodeStack st1) (done st1)
    else st1 in
  mkLoop (startPortion st2) (endPortion st2) (innerPortions st2)
    (curNode st2) (curMatch st2) (queue st2)
    (atIndex st2 + textLength) (portionIndex st2) (consumedInMatch st2)
    (nodeStack st2) (done st2).

(** The loop that pops [nodeStack] until a parent has a next sibling or is
    the root: the new stack, [curNode] and [done]. *)
Fixpoint popUp (s : DOM) (root : nat) (stack : list nat) (cur : option nat)
    (done : bool) : list nat * option nat * bool :=
  match stack with
  | [] => ([], cur, done)
  | parent :: stack' =>
      match nextSibling s parent with
      | Some sibling => (stack', Some sibling, done)
      | None =>
          if Nat.eqb parent root then (stack', None, true)
          else popUp s root stack' cur done
      end
  end.

Definition moveTo (st : Loop) (stack : list nat) (cur : option nat) (done : bool)
  : Loop :=
  mkLoop (startPortion st) (endPortion st) (innerPortions st) cur (curMatch st)
    (queue st) (atIndex st) (portionIndex st) (consumedInMatch st) stack done.

Definition popUpFrom (s : DOM) (root : nat) (st : Loop) : Loop :=
  let '(stack, cur, done) := popUp s root (nodeStack st) (curNode st) (done st) in
  moveTo st stack cur done.

Definition inb (n : nat) (l : list nat) : bool := existsb (Nat.eqb n) l.

(** The loop variables after the block
    [if (curNode.nodeType === Node.TEXT_NODE && match)] of a turn at [cur]. *)
Definition afterText (s : DOM) (cur : nat) (st : Loop) : Loop :=
  match curMatch st with
  | Some match_ =>
      if isTextNode s cur then textStep cur (dataOf s cur) match_ st else st
  | None => st
  end.

Section Resolver.

Variable options : Options.
Variable root : nat.     (* [this.node] *)

(** One turn of the [while] loop, for a non-null [curNode]. *)
Definition iteration (cur : nat) (st : Loop) : M Loop :=
  fun w =>
    let s := dom w in
    if inb cur (createdNodes w) then
      match nextSibling s cur with
      | Some sibling => (Ok (moveTo st (nodeStack st) (Some sibling) (done st)), w)
      | None => (Ok (popUpFrom s root st), w)
      end
    else
      let st := afterText s cur st in
      let doAvoidNode :=
        isElementNode s cur && filteredOut (filterElements options) s cur in
      match startPortion st, endPortion st, curMatch st with
      | Some startPortion, Some endPortion, Some match_ =>
          (do _ <- logResolved
                     (mkResolved match_ startPortion (innerPortions st) endPortion);
           do nextNode <-
             replaceMatch options match_ startPortion (innerPortions st) endPortion;
           ret (mkLoop None None [] nextNode (head (queue st)) (tail (queue st))
                  (endIndex match_) 0 0 (nodeStack st)
                  (match head (queue st) with
                   | Some _ => done st
                   | None => true
                   end))) w
      | _, _, _ =>
          match (if doAvoidNode then None else firstChild s cur) with
          | Some child => (Ok (moveTo st (cur :: nodeStack st) (Some child) (done st)), w)
          | None =>
              match nextSibling s cur with
              | Some sibling =>
                  (Ok (moveTo st (nodeStack st) (Some sibling) (done st)), w)
              | None => (Ok (popUpFrom s root st), w)
              end
          end
      end.

(** [while (curNode && !done)] *)
Fixpoint processLoop (fuel : nat) (st : Loop) : M Loop :=
  match fuel with
  | 0 => fun w => (OutOfFuel, w)
  | S fuel' =>
      match curNode st with
      | Some cur =>
          if done st then ret st
          else do st' <- iteration cur st; processLoop fuel' st'
      | None => ret st
      end
  end.

(** [processMatches()] *)
Definition processMatches (fuel : nat) (matches : list MatchWithMeta) : M Loop :=
  processLoop fuel
    (mkLoop None None [] (Some root) (head matches) (tail matches) 0 0 0 [root] false).

End Resolver.

(** * The entry point *)

Record Finder := mkFinder {
  finderNode : nat;
  finderOptions : Options;
  finderMatches : list MatchWithMeta
}.

(** [new Finder(node, options)] *)
Definition newFinder (fuel : nat) (root : nat) (options : Options) : M Finder :=
  let options := effectiveOptions options in
  fun w =>
    match search fuel options (dom w) root with
    | Ok matches =>
        match matches with
        | [] => (Ok (mkFinder root options matches), w)
        | _ :: _ =>
            (do _ <- processMatches options root fuel matches;
             ret (mkFinder root options matches)) w
        end
    | Throw e => (Throw e, w)
    | OutOfFuel => (OutOfFuel, w)
    end.

Definition freshWorld (s : DOM) : World := mkWorld s [] [] [].

(** [findAndReplaceDOMText(node, options)] on the document [s] *)
Definition findAndReplaceDOMText (fuel : nat) (s : DOM) (root : nat)
    (options : Options) : Res Finder * World :=
  newFinder fuel root options (freshWorld s).

(** * Documents for examples

    Markup trees, the store they lay out (the root is node 0, the nodes are
    numbered in document order) and the markup of a subtree of a store. *)

Module Html.

#[warnings="-register-all"]
Inductive Html :=
| T (data : string)                      (* a text node *)
| F (data : string)                      (* a text node of another frame *)
| E (name : string) (kids : list Html)   (* an element *)
| C.                                     (* a comment *)

Fixpoint build (h : Html) (parent : option nat) (s : DOM) : nat * DOM :=
  match h with
  | T d => (length s, s ++ [mkNode (TextNode (txt d) true) parent []])
  | F d => (length s, s ++ [mkNode (TextNode (txt d) false) parent []])
  | C => (length s, s ++ [mkNode OtherNode parent []])
  | E name kids =>
      let id := length s in
      let '(ids, s') :=
        (fix go (kids : list Html) (s : DOM) : list nat * DOM :=
           match kids with
           | [] => ([], s)
           | k :: ks =>
               let '(i, s1) := build k (Some id) s in
               let '(js, s2) := go ks s1 in
               (i :: js, s2)
           end) kids (s ++ [mkNode (ElementNode (txt name) []) parent []]) in
      (id, mapChildren id (fun _ => ids) s')
  end.

(** The document whose root element has the given children. *)
Definition document (name : string) (kids : list Html) : DOM :=
  snd (build (E name kids) None []).

Fixpoint outerHTML (fuel : nat) (s : DOM) (n : nat) : str :=
  match fuel with
  | 0 => []
  | S fuel' =>
      match s !! n with
      | Some (mkNode (TextNode d _) _ _) => d
      | Some (mkNode (ElementNode name cls) _ kids) =>
          txt "<" ++ name ++
          (match cls with
           | [] => []
           | _ :: _ => txt " class=" ++ cls
           end) ++ txt ">" ++
          flat_map (outerHTML fuel' s) kids ++
          txt "</" ++ name ++ txt ">"
      | Some (mkNode OtherNode _ _) => txt "<!---->"
      | None => []
      end
  end.

(** [el.innerHTML] *)
Definition innerHTML (s : DOM) (el : nat) : str :=
  flat_map (outerHTML (length s) s) (childrenOf s el).

End Html.

(** * Definitions for the statements *)

(** A pattern engine for the examples: the occurrences of a literal string,
    with or without the global flag. *)
Definition lit (g : bool) (s : string) : RegExp :=
  mkRegExp g (exec (literal (txt s))).

Definition plainOptions (f : Find) : Options :=
  mkOptions f None None None None None None None.

Definition markupAfter (r : Res Finder * World) : string :=
  string_of_list_ascii (Html.innerHTML (dom (snd r)) 0).

(** ** Presets *)

Definition keepAll : ElementPredicate := fun _ _ => true.

(** The prose preset together with an explicit filter and an explicit
    context rule. *)
Definition proseWithExplicit : Options :=
  mkOptions (FindString (txt "foo")) None None None None
    (Some keepAll) (Some (FCBool false)) (Some PROSE).

Definition scriptDoc : DOM :=
  Html.document "div" [Html.E "script" [Html.T "foo"]].

(** ** Context tokens *)

Definition contextDoc : DOM :=
  Html.document "div" [Html.E "p" [Html.T "hello"]; Html.T "xa"].

Definition contextOptions (template : string) : Options :=
  mkOptions (FindRegExp (lit false "a")) (Some (ReplString (txt template)))
    None None None None (Some (FCBool true)) None.

(** The text of the character stream: the leaf strings one after the
    other. *)
Definition streamOf (agg : TextAgg) : str := concat (leaves agg).

Definition contextDoc2 : DOM :=
  Html.document "div" [Html.E "p" [Html.T "hello"]; Html.T "xay"].

(** ** Search *)

(** The strings of an aggregation searched one after the other. *)
Fixpoint matchLeaves (fuel : nat) (regex : RegExp) (ls : list str) (st : SearchState)
  : Res SearchState :=
  match ls with
  | [] => Ok st
  | l :: ls' =>
      match matchString fuel regex l st with
      | Ok st' => matchLeaves fuel regex ls' st'
      | Throw e => Throw e
      | OutOfFuel => OutOfFuel
      end
  end.




(** The scan of one string by a global pattern meets a match of length
    zero: at [lastIndex], or after the matches that precede it. *)
Inductive hitsZeroLength (regex : RegExp) (item : str) : nat -> Prop :=
| hitsHere lastIndex m :
    exec regex item lastIndex = Some m -> r0 m = [] ->
    hitsZeroLength regex item lastIndex
| hitsLater lastIndex m :
    exec regex item lastIndex = Some m -> r0 m <> [] ->
    hitsZeroLength regex item (rindex m + length (r0 m)) ->
    hitsZeroLength regex item lastIndex.

(** The pattern produces a match of length zero on a leaf string. *)
Definition zeroLengthIn (regex : RegExp) (item : str) : Prop :=
  if global regex then hitsZeroLength regex item 0
  else exists m, exec regex item 0 = Some m /\ r0 m = [].

Definition emptyNeedle : Options := plainOptions (FindString []).

Definition oneWord : DOM := Html.document "div" [Html.T "word"].

(** ** Nodes that are no instances of Text *)

Definition foreignFirst : DOM :=
  Html.document "div" [Html.F "a"; Html.T "a"].

Definition replaceAllA : Options :=
  mkOptions (FindRegExp (lit true "a")) (Some (ReplString (txt "b")))
    None None None None None None.

(** The loop variables of [processMatches] on [foreignFirst] when the
    cursor enters the first text node. *)
Definition atForeignText : Loop :=
  mkLoop None None [] (Some 1)
    (Some (mkMatch (txt "a") [] 0 1 0 (txt "aa")))
    [mkMatch (txt "a") [] 1 2 1 (txt "aa")] 0 0 0 [0; 0] false.

(** ** Stores and replacement functions the engine can rely on *)

(** Every child of every node is a node of the store. *)
Definition closed (s : DOM) : Prop :=
  forall i c, c ∈ childrenOf s i -> c < length s.

(** A replacement function leaves the nodes of the document alone: it
    may create nodes, and a node it returns is one of them, without a
    parent. *)
Definition wellBehaved (f : ReplaceFn) : Prop :=
  forall portion match_ s,
    (exists ext, fst (f portion match_ s) = s ++ ext) /\
    (closed s -> closed (fst (f portion match_ s))) /\
    match snd (f portion match_ s) with
    | RNode n =>
        length s <= n < length (fst (f portion match_ s)) /\
        parentOf (fst (f portion match_ s)) n = None
    | _ => True
    end.

Definition wellBehavedReplace (options : Options) : Prop :=
  match replace options with
  | Some (ReplFunction f) => wellBehaved f
  | _ => True
  end.

(** ** The state of a document under edit

    [K] maps an original child [n] of [p] that the rewriter has touched to
    the nodes that stand in its place among the children of [p]. *)

Definition sigma (K : gmap nat (nat * list nat)) (i y : nat) : list nat :=
  match K !! y with
  | Some (p, ys) => if Nat.eqb p i then ys else [y]
  | None => [y]
  end.

Definition expectedParent (K : gmap nat (nat * list nat)) (s0 : DOM) (i : nat)
  : option nat :=
  match K !! i with
  | Some (p, ys) => if inb i ys then parentOf s0 i else None
  | None => parentOf s0 i
  end.

Record Rel (s0 t : DOM) (K : gmap nat (nat * list nat)) : Prop := mkRel {
  rel_len : length s0 <= length t;
  rel_kind : forall i, i < length s0 -> kindOf t i = kindOf s0 i;
  rel_children : forall i, i < length s0 ->
    childrenOf t i = childrenOf s0 i ≫= sigma K i;
  rel_parent : forall i, i < length s0 -> parentOf t i = expectedParent K s0 i;
  rel_key : forall n p ys, K !! n = Some (p, ys) ->
    n < length s0 /\ parentOf s0 n = Some p /\
    forall z, z ∈ ys -> z = n \/ (length s0 <= z < length t /\ parentOf t z = Some p);
  rel_disj : forall n n' p p' ys ys' z,
    K !! n = Some (p, ys) -> K !! n' = Some (p', ys') ->
    z ∈ ys -> z ∈ ys' -> n = n'
}.

(** A created node that stands in for no child yet. *)
Definition loose (s0 t : DOM) (K : gmap nat (nat * list nat)) (z : nat) : Prop :=
  length s0 <= z < length t /\
  forall n p ys, K !! n = Some (p, ys) -> z ∉ ys.

(** Every touched child stands in its own place again. *)
Definition restored (K : gmap nat (nat * list nat)) : Prop :=
  forall n p ys, K !! n = Some (p, ys) -> ys = [n].

(** A created node without a parent that stands in for no child. *)
Definition unused (s0 t : DOM) (K : gmap nat (nat * list nat)) (z : nat) : Prop :=
  loose s0 t K z /\ parentOf t z = None.

(** ** Reasoning about runs of the engine *)

(** What holds of the result of a computation when it returns. *)
Definition wp {A} (m : M A) (Q : A -> World -> Prop) (w : World) : Prop :=
  match m w with
  | (Ok a, w') => Q a w'
  | _ => True
  end.

Definition optlist (o : option nat) : list nat :=
  match o with
  | Some n => [n]
  | None => []
  end.

(** The nodes that stand in for a split text node: the leftover text before
    the match, the replacement, the leftover text after the match. *)
Definition standins (pre : option nat) (new : nat) (post : option nat) : list nat :=
  optlist pre ++ [new] ++ optlist post.

(** A list of stand-ins after [if (o) parent.removeChild(o)]. *)
Definition without (o : option nat) (l : list nat) : list nat :=
  match o with
  | Some a => substChild a [] l
  | None => l
  end.

(** The original nodes that a closure of [reverts] puts back. *)
Definition keysOf (op : RevertOp) : list nat :=
  match op with
  | RevertSingle _ _ _ n _ => [n]
  | RevertInner _ n => [n]
  | RevertSpan _ _ st _ _ _ e _ => [st; e]
  end.

(** The child [n] is out of the tree and the nodes [ys] stand in its place. *)
Definition gone (K : gmap nat (nat * list nat)) (n : nat) (ys : list nat) : Prop :=
  (exists p, K !! n = Some (p, ys)) /\ (n ∉ ys) /\ NoDup ys.

(** The state of the document is the one a closure was made for. *)
Definition Valid (K : gmap nat (nat * list nat)) (op : RevertOp) : Prop :=
  match op with
  | RevertSingle pre foll new n p =>
      K !! n = Some (p, standins pre new foll) /\
      (n ∉ standins pre new foll) /\ NoDup (standins pre new foll)
  | RevertInner inner n => gone K n [inner]
  | RevertSpan sp first st sf ep last e ef =>
      gone K st (standins sp first sf) /\ gone K e (standins ep last ef)
  end.

(** The state of a run of [replaceMatch] that started in [w0]: the edits so
    far are [K], the closures pushed so far are [ops], the nodes added to
    [createdNodes] so far are [cr]. *)
Record Mid (w0 : World) (K : gmap nat (nat * list nat)) (ops : list RevertOp)
    (cr : list nat) (w : World) : Prop := mkMid {
  mid_rel : Rel (dom w0) (dom w) K;
  mid_closed : closed (dom w);
  mid_reverts : reverts w = reverts w0 ++ ops;
  mid_created : createdNodes w = cr ++ createdNodes w0;
  mid_resolved : resolved w = resolved w0
}.

(** The node [n] was created on the way from [w] to [w'], it has no
    parent, and nothing else changed. *)
Definition isNewNode (w : World) (n : nat) (w' : World) : Prop :=
  take (length (dom w)) (dom w') = dom w /\
  length (dom w) <= n < length (dom w') /\
  parentOf (dom w') n = None /\
  (closed (dom w) -> closed (dom w')) /\
  reverts w' = reverts w /\ createdNodes w' = createdNodes w /\
  resolved w' = resolved w.

(** Every touched child is out of the tree. *)
Definition allGone (K : gmap nat (nat * list nat)) : Prop :=
  forall n p ys, K !! n = Some (p, ys) -> n ∉ ys.

(** The edits [K'] are the edits [K] and those that the closures [ops]
    undo, on children that [K] had not touched. *)
Definition Extends (K : gmap nat (nat * list nat)) (ops : list RevertOp)
    (K' : gmap nat (nat * list nat)) : Prop :=
  K ⊆ K' /\ Forall (Valid K') ops /\ NoDup (ops ≫= keysOf) /\
  (forall k, k ∈ ops ≫= keysOf -> K !! k = None) /\
  (forall k, is_Some (K' !! k) -> is_Some (K !! k) \/ k ∈ ops ≫= keysOf).

(** What a run of [replaceMatch] leaves behind: the edits of the document
    and the closures that undo them. *)
Definition Edited (w : World) (ops : list RevertOp) (w' : World) : Prop :=
  exists K cr, Mid w K ops cr w' /\ Extends ∅ ops K.

(** The nodes of [t] are the nodes of [t'], of the same kinds, and a node
    without children in [t] has none in [t']. *)
Definition sameNodes (t t' : DOM) : Prop :=
  length t' = length t /\
  (forall i, kindOf t' i = kindOf t i) /\
  (forall i, childrenOf t i = [] -> childrenOf t' i = []).

(** The same of the nodes of [t], when [t'] may have more nodes. *)
Definition grows (t t' : DOM) : Prop :=
  length t <= length t' /\
  (forall i, i < length t -> kindOf t' i = kindOf t i) /\
  (forall i, i < length t -> childrenOf t i = [] -> childrenOf t' i = []).

(** What a run of [replaceMatch] that replaced its match leaves behind.
    [pre], [new] and [post] are the nodes in the place of the end node of
    the match; [r] is the node from which the traversal continues. *)
Definition Replaced (w : World) (sp : Portion) (ips : list Portion) (ep : Portion)
    (r : option nat) (ops : list RevertOp) (w' : World) : Prop :=
  exists K cr pre new post p,
    Mid w K ops cr w' /\ Extends ∅ ops K /\ grows (dom w) (dom w') /\
    (forall k, is_Some (K !! k) ->
       k = node sp \/ k = node ep \/ k ∈ map node ips) /\
    K !! node ep = Some (p, standins pre new post) /\
    r = Some (orNode post new) /\ new ∈ cr /\
    (forall c, c ∈ cr -> length (dom w) <= c < length (dom w')) /\
    NoDup (standins pre new post) /\ (node ep ∉ standins pre new post) /\
    (forall z, post = Some z ->
       (z ∉ cr) /\ length (dom w) <= z /\
       kindOf (dom w') z =
         Some (TextNode
                 (JS.substringFrom (dataOf (dom w) (node ep)) (endIndexInNode ep))
                 true) /\
       childrenOf (dom w') z = []) /\
    (post = None <->
     (endIndexInNode ep <? JS.len (dataOf (dom w) (node ep)))%Z = false).

(** ** Reverting a run

    The closures [ops], called from the last to the first, take the document
    [t], and any document with more nodes than [t], back to [s]. *)
Definition Undoable (s : DOM) (ops : list RevertOp) (t : DOM) : Prop :=
  forall ext, exists t',
    runReverts (rev ops) (t ++ ext) = Ok t' /\ take (length s) t' = s.

(** What holds between the turns of the loop of [processMatches] on the
    document [s]. *)
Definition Revertible (s : DOM) (st : Loop) (w : World) : Prop :=
  closed (dom w) /\ Undoable s (reverts w) (dom w) /\
  Forall (fun p => node p < length (dom w)) (innerPortions st).

(** The children of every node are nodes of the store. *)
Definition closedb (s : DOM) : bool :=
  forallb (fun nd => forallb (fun c => c <? length s) (childNodes nd)) s.

(** A document in which one match spans five text nodes. *)
Definition spanDoc : DOM :=
  Html.document "div"
    [Html.T "Testing 123"; Html.E "a" [Html.T "442"]; Html.T "35432";
     Html.E "b" [Html.T "342"]; Html.T "3dg"].

Definition spanOptions : Options :=
  mkOptions (FindString (txt "12344235432342")) None (Some (WrapName (txt "x")))
    None None None None None.

(** ** Portions without replacement text *)

(** The text node [document.createTextNode('')]. *)
Definition emptyText : Node := mkNode (TextNode [] true) None [].

Definition helloMatch : MatchWithMeta :=
  mkMatch (txt "HELLO") [] 12 17 0 (txt "Testing 123 HELLO there").

(** The second portion of [helloMatch] in [Testing 123 HE<em>LLO there</em>]. *)
Definition secondPortion : Portion :=
  mkPortion 3 1 (txt "LLO") 2 0 3 true.

(** ** The document as a tree

    The subtree that the engine works on, as the traversal sees it: the
    text nodes, the elements it goes into, the elements that
    [filterElements] keeps it out of, the nodes that are neither, and the
    nodes of [createdNodes], which it passes over. *)

#[warnings="-register-all"]
Inductive Tree :=
| Txt (id : nat) (data : str) (realm : bool)
| Cmt (id : nat)
| Skp (id : nat)
| Elt (id : nat) (avoid : bool) (kids : list Tree).

Definition idOf (t : Tree) : nat :=
  match t with
  | Txt i _ _ | Cmt i | Skp i | Elt i _ _ => i
  end.

(** The text that the traversal reads in a tree. *)
Fixpoint textOf (t : Tree) : str :=
  match t with
  | Txt _ d _ => d
  | Elt _ false kids => flat_map textOf kids
  | _ => []
  end.

Fixpoint idsOf (t : Tree) : list nat :=
  match t with
  | Elt i _ kids => i :: flat_map idsOf kids
  | Txt i _ _ | Cmt i | Skp i => [i]
  end.

(** The store [s] holds the tree [t]; [cr] is [createdNodes]. *)
#[warnings="-register-all"]
Inductive Repr (fe : option ElementPredicate) (s : DOM) (cr : list nat)
  : Tree -> Prop :=
| ReprTxt id d r :
    kindOf s id = Some (TextNode d r) -> childrenOf s id = [] -> id ∉ cr ->
    Repr fe s cr (Txt id d r)
| ReprCmt id :
    kindOf s id = Some OtherNode -> childrenOf s id = [] -> id ∉ cr ->
    Repr fe s cr (Cmt id)
| ReprSkp id : id ∈ cr -> id < length s -> Repr fe s cr (Skp id)
| ReprAvoid id :
    isElementNode s id = true -> id ∉ cr -> filteredOut fe s id = true ->
    Repr fe s cr (Elt id true [])
| ReprElt id kids :
    isElementNode s id = true -> id ∉ cr -> filteredOut fe s id = false ->
    childrenOf s id = map idOf kids ->
    Forall (fun k => parentOf s (idOf k) = Some id) kids ->
    Forall (Repr fe s cr) kids ->
    Repr fe s cr (Elt id false kids).

(** The answer of [filterElements] for a node depends on the node alone, not
    on where it is in the document. *)
Definition kindOnly (fe : option ElementPredicate) : Prop :=
  forall s s' n, kindOf s' n = kindOf s n -> filteredOut fe s' n = filteredOut fe s n.

(** The nodes [xs] are the last children of [p], in this order. *)
Definition Suffix (s : DOM) (p : nat) (xs : list nat) : Prop :=
  exists ls, childrenOf s p = ls ++ xs /\ NoDup xs /\
    forall x, x ∈ xs -> (x ∉ ls) /\ parentOf s x = Some p.

(** ** Matches in the text of the document *)

(** The matches [ms] lie in [stream] one after the other, between [lo] and
    [hi], none of them empty, each with the text of its range. *)
Fixpoint chain (stream : str) (lo : Z) (ms : list MatchWithMeta) (hi : Z) : Prop :=
  match ms with
  | [] => (lo <= hi)%Z
  | m :: ms' =>
      (lo <= startIndex m)%Z /\ (startIndex m < endIndex m)%Z /\
      m0 m = JS.substring stream (startIndex m) (endIndex m) /\
      chain stream (endIndex m) ms' hi
  end.

(** The same, to the end of [stream]. *)
Definition inOrder (stream : str) (lo : Z) (ms : list MatchWithMeta) : Prop :=
  (0 <= lo)%Z /\ chain stream lo ms (JS.len stream).

(** ** The traversal of [processMatches]

    A level of the traversal: the children [frest] of [fparent] that come
    after its child [fself]. *)
Record Frame := mkFrame {
  fparent : nat;
  fself : nat;
  frest : list Tree
}.

(** The levels from that of [curNode] up to the children of the root, and
    [nodeStack]. *)
Inductive Linked (root : nat) : list Frame -> list nat -> Prop :=
| LinkedTop f : fparent f = root -> Linked root [f] [root; root]
| LinkedCons f g fs st :
    fself g = fparent f -> fself g <> root -> Linked root (g :: fs) st ->
    Linked root (f :: g :: fs) (fparent f :: st).

(** Where the traversal goes from a node it does not go into: to the next
    child of the lowest level that has one. *)
Fixpoint popFrames (fs : list Frame) : option (Tree * list Frame) :=
  match fs with
  | [] => None
  | g :: fs' =>
      match frest g with
      | r :: rs => Some (r, mkFrame (fparent g) (idOf r) rs :: fs')
      | [] => popFrames fs'
      end
  end.

(** The trees that the traversal has before it: that of [curNode] and those
    of the levels. *)
Definition ahead (c : Tree) (fs : list Frame) : list Tree :=
  c :: flat_map frest fs.

Definition agendaIds (c : Tree) (fs : list Frame) : list nat :=
  map fself (tail fs) ++ flat_map idsOf (ahead c fs).

Record Agenda (fe : option ElementPredicate) (s : DOM) (cr : list nat)
    (root : nat) (c : Tree) (fs : list Frame) (stack : list nat) : Prop :=
  mkAgenda {
  ag_self : option_map fself (head fs) = Some (idOf c);
  ag_linked : Linked root fs stack;
  ag_suffix :
    Forall (fun f => Suffix s (fparent f) (fself f :: map idOf (frest f))) fs;
  ag_repr : Forall (Repr fe s cr) (ahead c fs);
  ag_nodup : NoDup (agendaIds c fs);
  ag_root : root ∉ agendaIds c fs
}.

(** The end of a turn of the loop that does not go into [curNode]:
    [if (curNode.nextSibling) ... ] and the loop that pops the stack. *)
Definition nextOf (s : DOM) (root : nat) (st : Loop) (cur : nat) : Loop :=
  match nextSibling s cur with
  | Some sibling => moveTo st (nodeStack st) (Some sibling) (done st)
  | None => popUpFrom s root st
  end.

(** ** The portions of a match

    The portions that [replaceMatch] hands to the replacement: the end
    portion alone when the match lies in one text node, and the start
    portion, the inner portions and the end portion otherwise. *)
Definition portionsOf (e : Resolved) : list Portion :=
  if Nat.eqb (node (rstart e)) (node (rend e)) then [rend e]
  else rstart e :: rinner e ++ [rend e].

(** Every portion is at the offset [acc] plus the length of the texts of
    the portions before it. *)
Fixpoint offsetsFrom (acc : Z) (ps : list Portion) : Prop :=
  match ps with
  | [] => True
  | p :: ps' =>
      indexInMatch p = acc /\ offsetsFrom (acc + JS.len (text p))%Z ps'
  end.

Definition reconstructs (e : Resolved) : Prop :=
  concat (map text (portionsOf e)) = m0 (rmatch e) /\
  offsetsFrom 0 (portionsOf e).

(** The variables of the loop while the match [m] is pending: [stream] is
    the text that was searched, [ids] are the nodes that the traversal has
    before it. *)
Record Pending (stream : str) (ids : list nat) (st : Loop) (m : MatchWithMeta)
  : Prop := mkPending {
  pd_match : curMatch st = Some m;
  pd_lo : (0 <= startIndex m)%Z;
  pd_chain : chain stream (startIndex m) (m :: queue st) (JS.len stream);
  pd_at : (0 <= atIndex st < endIndex m)%Z;
  pd_end : endPortion st = None;
  pd_start :
    match startPortion st with
    | None =>
        (atIndex st <= startIndex m)%Z /\ innerPortions st = [] /\
        consumedInMatch st = 0%Z
    | Some sp =>
        (startIndex m < atIndex st)%Z /\ text sp <> [] /\
        consumedInMatch st = (atIndex st - startIndex m)%Z /\
        offsetsFrom 0 (sp :: innerPortions st) /\
        concat (map text (sp :: innerPortions st)) =
          JS.substring stream (startIndex m) (atIndex st) /\
        Forall (fun p => node p ∉ ids) (sp :: innerPortions st)
    end
}.

(** The traversal and the search agree: the text that the traversal has
    before it is the text that was searched, from [atIndex] on. *)
Definition Aligned (fe : option ElementPredicate) (root : nat) (stream : str)
    (st : Loop) (w : World) : Prop :=
  exists c fs m,
    curNode st = Some (idOf c) /\
    Agenda fe (dom w) (createdNodes w) root c fs (nodeStack st) /\
    Pending stream (agendaIds c fs) st m /\
    flat_map textOf (ahead c fs) = drop (Z.to_nat (atIndex st)) stream.

(** A computation that leaves the record of the resolved matches alone,
    whatever its outcome. *)
Definition keeps {A} (m : M A) : Prop :=
  forall w, resolved (snd (m w)) = resolved w.

(** The start portion of a match that goes on in another node has text. *)
Definition firstHasText (e : Resolved) : Prop :=
  node (rstart e) = node (rend e) \/ text (rstart e) <> [].

(** Every resolved match so far has portions that give its text back. *)
Definition LogOK (w : World) : Prop :=
  Forall (fun e => reconstructs e /\ firstHasText e) (resolved w).

(** Under [portionMode: 'first'], with the replacement template [r]: the
    first portion of a match has the whole interpolated replacement as its
    replacement text, the other portions have the empty text. *)
Definition firstGetsAll (options : Options) (r : str) (e : Resolved) : Prop :=
  match portionsOf e with
  | first :: later =>
      prepareReplacementString options r first (rmatch e) =
        interpolate (rmatch e) r None /\
      Forall (fun p => prepareReplacementString options r p (rmatch e) = []) later
  | [] => True
  end.

(** [spanOptions] with a replacement template and [portionMode: 'first']. *)
Definition firstSpan : Options :=
  mkOptions (FindString (txt "12344235432342")) (Some (ReplString (txt "[$&]")))
    (Some (WrapName (txt "x"))) None (Some FIRST) None None None.

(** The nodes of [createdNodes] are nodes of the store. *)
Definition CreatedOK (w : World) : Prop :=
  Forall (fun c => c < length (dom w)) (createdNodes w).

(** The tree of [spanDoc]. *)
Definition spanTree : Tree :=
  Elt 0 false
    [Txt 1 (txt "Testing 123") true;
     Elt 2 false [Txt 3 (txt "442") true];
     Txt 4 (txt "35432") true;
     Elt 5 false [Txt 6 (txt "342") true];
     Txt 7 (txt "3dg") true].

(** ** Definitions for more of the code *)

(** The tree of [contextDoc2]. *)
Definition contextTree : Tree :=
  Elt 0 false [Elt 1 false [Txt 2 (txt "hello") true]; Txt 3 (txt "xay") true].

(** A match with one group that took part in it and one that did not. *)
Definition groupMatch : MatchWithMeta :=
  mkMatch (txt "ab") [Some (txt "a"); None] 3 5 0 (txt "xxxabyy").

(** The number that a run of digits spells, read after [acc]: the value of
    [+t] for the digits [t]. *)
Fixpoint numberOf (acc : nat) (ds : str) : nat :=
  match ds with
  | [] => acc
  | d :: ds' => numberOf (10 * acc + digitValue d) ds'
  end.

(** The value of [el.className] after [if (wrapClass) el.className =
    wrapClass] for an element whose class was [cls]. *)
Definition classAfter (wrapClass : option str) (cls : str) : str :=
  match wrapClass with
  | Some (c :: cs) => c :: cs
  | _ => cls
  end.

(** The document [s] with a wrapper element of the kind [k] that holds one
    new text node with the data [data]: the text node is the node
    [length s], the wrapper is the node after it. *)
Definition withWrapped (s : DOM) (data : str) (k : NodeKind) : DOM :=
  s ++ [mkNode (TextNode data true) (Some (S (length s))) [];
        mkNode k None [length s]].

(** A document with an element that serves as a stencil, outside of the
    tree that is searched. *)
Definition stencilDoc : DOM :=
  Html.document "div" [Html.T "word"] ++
  [mkNode (ElementNode (txt "mark") (txt "hit")) None []].

Definition wordMatch : MatchWithMeta :=
  mkMatch (txt "or") [] 1 3 0 (txt "word").

Definition wordPortion : Portion :=
  mkPortion 1 0 (txt "or") 0 1 3 true.

Definition nameOptions : Options :=
  mkOptions (FindString (txt "or")) None (Some (WrapName (txt "em")))
    (Some (txt "found")) None None None None.

Definition stencilOptions : Options :=
  mkOptions (FindString (txt "or")) None (Some (WrapStencil 2))
    None None None None None.

(** ** The turns of the loop of [processMatches] *)

(** The world with one more entry in the record of the resolved matches. *)
Definition logged (w : World) (e : Resolved) : World :=
  mkWorld (dom w) (reverts w) (createdNodes w) (resolved w ++ [e]).

(** The variables of the loop that a move of the traversal leaves alone. *)
Definition sameWork (a b : Loop) : Prop :=
  startPortion a = startPortion b /\ endPortion a = endPortion b /\
  innerPortions a = innerPortions b /\ curMatch a = curMatch b /\
  queue a = queue b /\ atIndex a = atIndex b /\
  portionIndex a = portionIndex b /\ consumedInMatch a = consumedInMatch b.

(** The variables of the loop after the call of [replaceMatch] for the
    match [m] has returned [nextNode]. *)
Definition afterMatch (st : Loop) (m : MatchWithMeta) (nextNode : option nat) : Loop :=
  mkLoop None None [] nextNode (head (queue st)) (tail (queue st))
    (endIndex m) 0 0 (nodeStack st)
    (match head (queue st) with
     | Some _ => done st
     | None => true
     end).

(** The outcome of a turn of the loop in terms of that of the call of
    [replaceMatch] in it. *)
Definition turnOf (st : Loop) (m : MatchWithMeta) (rr : Res (option nat)) : Res Loop :=
  match rr with
  | Ok nextNode => Ok (afterMatch st m nextNode)
  | Throw e => Throw e
  | OutOfFuel => OutOfFuel
  end.

(** The portion that [processMatches] makes of the part of the match [m]
    in the text node [cur] with the data [d], when the text before that node
    has the length [at_]. *)
Definition portionHere (cur : nat) (d : str) (m : MatchWithMeta) (at_ : Z)
    (ix inMatch : Z) (e : bool) : Portion :=
  mkPortion cur ix
    (JS.substring d (startIndex m - at_) (endIndex m - at_))
    inMatch (startIndex m - at_)%Z (endIndex m - at_)%Z e.

(** The variables of the loop when [processMatches] enters it, with the
    matches [m :: ms]. *)
Definition firstLoop (root : nat) (m : MatchWithMeta) (ms : list MatchWithMeta) : Loop :=
  mkLoop None None [] (Some root) (Some m) ms 0 0 0 [root] false.

(** The outcome of the constructor in terms of that of the loop. *)
Definition finderOf (root : nat) (options : Options) (ms : list MatchWithMeta)
    (r : Res Loop) : Res Finder :=
  match r with
  | Ok _ => Ok (mkFinder root options ms)
  | Throw e => Throw e
  | OutOfFuel => OutOfFuel
  end.

(** The matches that the loop has before it. *)
Definition pendingMatches (st : Loop) : list MatchWithMeta :=
  option_list (curMatch st) ++ queue st.

(** ** Portions and their nodes *)

(** What a portion says of its node: the node is a text node that the
    engine has not made as a replacement, and the text of the portion is
    the part of the data of the node between the two offsets of the
    portion. *)
Definition portionOK (w : World) (p : Portion) : Prop :=
  (node p ∉ createdNodes w) /\
  exists d r, kindOf (dom w) (node p) = Some (TextNode d r) /\
    text p = JS.substring d (indexInNode p) (endIndexInNode p).

(** The portions that the loop holds. *)
Definition workPortions (st : Loop) : list Portion :=
  option_list (startPortion st) ++ innerPortions st ++ option_list (endPortion st).

(** The portions of a resolved match. *)
Definition allPortions (e : Resolved) : list Portion :=
  rstart e :: rinner e ++ [rend e].

(** What holds between the turns of the loop on the document [s]: the
    nodes of [s] are as they were, the nodes of [createdNodes] are new, and
    the portions are parts of text nodes. *)
Definition Kept (s : DOM) (st : Loop) (w : World) : Prop :=
  Revertible s st w /\ grows s (dom w) /\
  Forall (fun c => length s <= c < length (dom w)) (createdNodes w) /\
  Forall (portionOK w) (workPortions st) /\
  Forall (fun e => Forall (portionOK w) (allPortions e)) (resolved w).

(** ** The numbers and the marks of the portions *)

(** The portions that the loop holds before the end of the match. *)
Definition heldPortions (st : Loop) : list Portion :=
  option_list (startPortion st) ++ innerPortions st.

(** The portions that the loop holds are numbered in the order in which
    they were made, none of them is marked as the end of the match, and
    [portionIndex] is the number of the next one. *)
Definition Numbered (st : Loop) : Prop :=
  endPortion st = None /\
  map pindex (heldPortions st) = map Z.of_nat (seq 0 (length (heldPortions st))) /\
  portionIndex st = Z.of_nat (length (heldPortions st)) /\
  Forall (fun p => isEnd p = false) (heldPortions st) /\
  (startPortion st = None -> innerPortions st = []).

(** The portions that are handed to the replacement are numbered from 0 in
    their order, and the last of them, and no other, is marked as the
    end. *)
Definition shaped (e : Resolved) : Prop :=
  map pindex (portionsOf e) = map Z.of_nat (seq 0 (length (portionsOf e))) /\
  map isEnd (portionsOf e) = replicate (length (portionsOf e) - 1) false ++ [true].

(** ** The replacement text of the portions *)

(** The replacement texts of the portions of a match, one after the other,
    are the replacement string [r] with its tokens replaced. *)
Definition spreadsAll (options : Options) (r : str) (e : Resolved) : Prop :=
  concat (map (fun p => prepareReplacementString options r p (rmatch e))
            (portionsOf e)) =
  interpolate (rmatch e) r None.

(** [spanOptions] with a replacement string. *)
Definition retainSpan : Options :=
  mkOptions (FindString (txt "12344235432342")) (Some (ReplString (txt "[$&]")))
    (Some (WrapName (txt "x"))) None None None None None.

(** ** Text nodes of the engine's own global object *)

(** Every text node of the store is an instance of the [Text] of the
    global object of the engine. *)
Definition allText (s : DOM) : Prop :=
  forall n d r, kindOf s n = Some (TextNode d r) -> r = true.

(** A replacement function makes no text node of another global object. *)
Definition sameRealm (options : Options) : Prop :=
  match replace options with
  | Some (ReplFunction f) =>
      forall portion match_ s, allText s -> allText (fst (f portion match_ s))
  | _ => True
  end.

(** A computation that makes no text node of another global object,
    whatever its outcome. *)
Definition keepsText {A} (m : M A) : Prop :=
  forall w, allText (dom w) -> allText (dom (snd (m w))).

(** A computation that returns a node when it returns. *)
Definition yields (m : M (option nat)) : Prop :=
  forall w n w', m w = (Ok n, w') -> n <> None.

Definition allTextb (s : DOM) : bool :=
  forallb (fun nd => match kind nd with TextNode _ r => r | _ => true end) s.

(** What holds between the turns of a run in which every match is
    replaced; [ms] are the matches of the search. *)
Definition Replacing (ms : list MatchWithMeta) (st : Loop) (w : World) : Prop :=
  ms = map rmatch (resolved w) ++ pendingMatches st /\
  allText (dom w) /\
  Forall (fun p => instanceofText (dom w) (node p) = true) (workPortions st) /\
  length (resolved w) <= length (createdNodes w) /\
  length (resolved w) <= length (reverts w) /\
  ((curNode st = None \/ done st = true) -> pendingMatches st = []).

(** ** The depth of a tree *)

Fixpoint height (t : Tree) : nat :=
  match t with
  | Elt _ _ kids => S (foldr Nat.max 0 (map height kids))
  | _ => 1
  end.

(** ** The work that the traversal has before it *)

(** The number of the nodes of a tree. *)
Fixpoint sizeOf (t : Tree) : nat :=
  match t with
  | Elt _ _ kids => S (foldr Nat.add 0 (map sizeOf kids))
  | _ => 1
  end.

(** The number of the nodes that the traversal has before it. *)
Definition load (c : Tree) (fs : list Frame) : nat :=
  foldr Nat.add 0 (map sizeOf (ahead c fs)).

(** A bound of the number of the turns that the loop has before it: a turn
    passes a node, or goes into an element, or replaces a match. *)
Definition workLeft (c : Tree) (fs : list Frame) (st : Loop) : nat :=
  load c fs + 2 * length (queue st).

(** The traversal and the search agree, with the trees [c] and [fs] that
    the traversal has before it and with the pending match [m]. *)
Definition AlignedAt (fe : option ElementPredicate) (root : nat) (stream : str)
    (st : Loop) (w : World) (c : Tree) (fs : list Frame) (m : MatchWithMeta) : Prop :=
  curNode st = Some (idOf c) /\
  Agenda fe (dom w) (createdNodes w) root c fs (nodeStack st) /\
  Pending stream (agendaIds c fs) st m /\
  flat_map textOf (ahead c fs) = drop (Z.to_nat (atIndex st)) stream.

(** A computation that does not run out of fuel. *)
Definition fueled {A} (m : M A) : Prop :=
  forall w, fst (m w) <> OutOfFuel.

(** ** Calls that return *)

(** The computation returns, with a result and a state of which [Q]
    holds. *)
Definition returns {A} (m : M A) (Q : A -> World -> Prop) (w : World) : Prop :=
  match m w with
  | (Ok a, w') => Q a w'
  | _ => False
  end.

(** The [wrap] of the options is one that the DOM takes: a string that is
    not empty is a name for [document.createElement], and an element that
    serves as a stencil is a node of the store. *)
Definition wrapIn (options : Options) (s : DOM) : Prop :=
  match wrap options with
  | Some (WrapName (c :: cs)) => validName (c :: cs) = true
  | Some (WrapStencil el) => el < length s
  | _ => True
  end.

(** The store [s] has the nodes of [s0], and those of them that are not in
    [gone] have the parent that they have in [s0]. *)
Definition steady (s0 : DOM) (gone : list nat) (s : DOM) : Prop :=
  length s0 <= length s /\
  forall x, x < length s0 -> x ∉ gone -> parentOf s x = parentOf s0 x.

(** The nodes [xs] of [s0] have a parent. *)
Definition attached (s0 : DOM) (xs : list nat) : Prop :=
  Forall (fun x => x < length s0 /\ is_Some (parentOf s0 x)) xs.

(** The portions that the loop holds lie in nodes that differ and that
    have a parent. *)
Definition Held (st : Loop) (w : World) : Prop :=
  NoDup (map node (heldPortions st)) /\
  attached (dom w) (map node (heldPortions st)).

(** ** A text node that is cut around a match *)

(** The store [s'] has the nodes of [s], with the kinds they have in [s]. *)
Definition kept (s s' : DOM) : Prop :=
  length s <= length s' /\ forall i, i < length s -> kindOf s' i = kindOf s i.

(** The state of a run of [replaceMatch] for a match in the text node [n],
    a child of [p] between the children [l1] and [l2], that started in
    [w0]: the nodes [mid] are new children of [p] before [n], and the nodes
    [cr] were added to [createdNodes]. *)
Record Cut (w0 : World) (p n : nat) (l1 mid l2 : list nat) (cr : list nat)
    (w : World) : Prop := mkCut {
  cut_kept : kept (dom w0) (dom w);
  cut_children : childrenOf (dom w) p = l1 ++ mid ++ n :: l2;
  cut_parent : parentOf (dom w) n = Some p;
  cut_mid :
    Forall (fun z => length (dom w0) <= z < length (dom w) /\
                     parentOf (dom w) z = Some p) mid;
  cut_reverts : reverts w = reverts w0;
  cut_created : createdNodes w = cr ++ createdNodes w0
}.

(** The text node that [replaceMatch] makes of the text [data] of a text
    node before or after a match, when there is such text ([cond]). *)
Definition leftover (s : DOM) (o : option nat) (cond : bool) (data : str) : Prop :=
  if cond then exists z, o = Some z /\ kindOf s z = Some (TextNode data true)
  else o = None.

(** ** A replacement function that hands out a node of its own *)

(** Documents with the element of node 2 in them: an element [b] outside
    of the tree that is searched, and an element [i] within it. *)
Definition reusedDoc : DOM :=
  Html.document "div" [Html.T "a-a"] ++ [mkNode (ElementNode (txt "b") []) None []].

Definition movedDoc : DOM :=
  Html.document "div" [Html.T "xa"; Html.E "i" [Html.T "bc"]; Html.T "zzaqq"].

(** [{ find: 'a', replace: () => el }], where [el] is the element of node
    2, which was made before the run. *)
Definition reuseOptions : Options :=
  mkOptions (FindString (txt "a")) (Some (ReplFunction (fun _ _ s => (s, RNode 2))))
    None None None None None None.

(** * Properties *)

(** ** The reverter never throws *)

Lemma removeChild_of_parent p c s :
  parentOf s c = Some p -> exists s', removeChild p c s = Ok s'.
Proof.
  intros H. unfold removeChild. rewrite H, Nat.eqb_refl. eauto.
Qed.

Lemma removeFrom_ok parent n s : exists s', removeFrom parent n s = Ok s'.
Proof.
  unfold removeFrom. destruct n as [n|]; [|eauto].
  destruct (parentOf s n) as [p|] eqn:Hp; [|eauto].
  destruct (Nat.eqb p parent) eqn:E; [|eauto].
  apply Nat.eqb_eq in E. subst. by apply removeChild_of_parent.
Qed.

Lemma removeFromParent_ok n s : exists s', removeFromParent n s = Ok s'.
Proof.
  unfold removeFromParent. destruct n as [n|]; [|eauto].
  destruct (parentOf s n) as [p|] eqn:Hp; [|eauto].
  by apply removeChild_of_parent.
Qed.

Lemma putBack_ok old new s : exists s', putBack old new s = Ok s'.
Proof.
  unfold putBack. destruct (parentOf s new) as [p|] eqn:Hp; [|eauto].
  unfold replaceChild. rewrite Hp, Nat.eqb_refl.
  destruct (Nat.eqb old new); eauto.
Qed.

Ltac step_ok H :=
  let s' := fresh "s" in
  let E := fresh "E" in
  destruct H as [s' E]; rewrite E; simpl.

Lemma runRevert_ok op s : exists s', runRevert op s = Ok s'.
Proof.
  destruct op; simpl.
  - step_ok (removeFrom_ok parent precedingTextNode s).
    step_ok (removeFrom_ok parent followingTextNode s0).
    apply putBack_ok.
  - apply putBack_ok.
  - step_ok (removeFromParent_ok startPreceding s).
    step_ok (putBack_ok matchStartNode firstNode s0).
    step_ok (removeFromParent_ok startFollowing s1).
    step_ok (removeFromParent_ok endPreceding s2).
    step_ok (putBack_ok matchEndNode lastNode s3).
    apply removeFromParent_ok.
Qed.

Lemma runReverts_ok ops : forall s, exists s', runReverts ops s = Ok s'.
Proof.
  induction ops as [|op ops IH]; intros s; simpl; [eauto|].
  step_ok (runRevert_ok op s). apply IH.
Qed.

(** [revert] runs the closures of [runReverts] against the document. *)
Lemma revertFrom_runReverts ops : forall w s',
  runReverts ops (dom w) = Ok s' ->
  revertFrom ops w = (Ok tt, withDom s' w).
Proof.
  induction ops as [|op ops IH]; intros w s' H; simpl in *.
  - inversion H; subst. unfold ret, withDom. by destruct w.
  - unfold bind, liftDom. destruct (runRevert op (dom w)) as [s1| |] eqn:E; simpl in H; try discriminate.
    rewrite (IH (withDom s1 w) s' H). by destruct w.
Qed.

Lemma revert_spec w :
  exists s', runReverts (rev (reverts w)) (dom w) = Ok s' /\
    revert w = (Ok tt, mkWorld s' [] (createdNodes w) (resolved w)).
Proof.
  destruct (runReverts_ok (rev (reverts w)) (dom w)) as [s' E].
  exists s'. split; [done|]. unfold revert.
  by rewrite (revertFrom_runReverts _ _ _ E).
Qed.

(** ** C9 *)

(** C9: [revert] is idempotent after its first call.  The first call
    returns with an empty list of inverse operations, and a second call
    returns with the same document and the same empty list. *)
Theorem revert_idempotent (w : World) :
  exists w1, revert w = (Ok tt, w1) /\ reverts w1 = [] /\
    revert w1 = (Ok tt, w1) /\ dom (snd (revert w1)) = dom w1.
Proof.
  destruct (revert_spec w) as (s' & _ & E). eexists. split; [exact E|].
  split; [done|]. split; reflexivity.
Qed.

(** ** C4 *)

(** C4, as the code has it: when a preset is selected, the effective
    [filterElements] and [forceContext] are those of the preset, whatever
    the caller supplied for them. *)
Theorem preset_overrides_explicit (options : Options) :
  preset options = Some PROSE ->
  filterElements (effectiveOptions options) = Some proseFilter /\
  forceContext (effectiveOptions options) = Some (FCFunction NON_INLINE_PROSE).
Proof.
  intros H. unfold effectiveOptions. simpl. rewrite H. by split.
Qed.

Lemma preset_overrides_explicit_witness :
  preset proseWithExplicit = Some PROSE /\
  filterElements (effectiveOptions proseWithExplicit) = Some proseFilter /\
  forceContext (effectiveOptions proseWithExplicit) =
    Some (FCFunction NON_INLINE_PROSE).
Proof.
  split; [reflexivity|].
  apply (preset_overrides_explicit proseWithExplicit). reflexivity.
Defined.

(** C4, as stated, fails: the caller's [keepAll] filter keeps the script
    element, the effective filter of the same options drops it. *)
Lemma explicit_filter_lost :
  preset proseWithExplicit = Some PROSE /\
  filterElements proseWithExplicit = Some keepAll /\
  keepAll scriptDoc 1 = true /\
  exists f, filterElements (effectiveOptions proseWithExplicit) = Some f /\
    f scriptDoc 1 = false.
Proof.
  split; [reflexivity|]. split; [reflexivity|]. split; [reflexivity|].
  eexists. split; [reflexivity|]. vm_compute. reflexivity.
Qed.

(** ** C10 *)


(** ** C5 *)

(** C5 at a failing input: the document [<div><p>hello</p>xay</div>] with
    every element its own context, the pattern [/a/].  The match is at
    offsets 6 to 7 of the stream ["helloxay"]; its [input] is its leaf
    ["xay"].  The left-context token yields ["xay"] where the stream has
    ["hellox"] before the match, and the right-context token yields nothing
    where the stream has ["y"] after it. *)
Theorem context_tokens_of_a_later_leaf :
  streamOf
    [AggStr []; AggNested [AggStr (txt "hello")]; AggStr (txt "xay")] =
    txt "helloxay" /\
  search 10 (effectiveOptions (contextOptions "[$`]")) contextDoc2 0 =
    Ok [mkMatch (txt "a") [] 6 7 0 (txt "xay")] /\
  tokenText (mkMatch (txt "a") [] 6 7 0 (txt "xay")) "`" = Some (txt "xay") /\
  tokenText (mkMatch (txt "a") [] 6 7 0 (txt "xay")) "'" = Some [] /\
  markupAfter (findAndReplaceDOMText 10 contextDoc2 0 (contextOptions "[$`]")) =
    "<p>hello</p>x[xay]y"%string /\
  markupAfter (findAndReplaceDOMText 10 contextDoc2 0 (contextOptions "[$']")) =
    "<p>hello</p>x[]y"%string.
Proof. repeat split; vm_compute; reflexivity. Qed.

(** ** Search over the leaves *)

Lemma TextAggItem_nested_ind (P : TextAggItem -> Prop) :
  (forall s, P (AggStr s)) ->
  (forall l, Forall P l -> P (AggNested l)) ->
  forall it, P it.
Proof.
  intros Hs Hn. fix IH 1. intros [s|l]; [apply Hs|].
  apply Hn. induction l as [|it l IHl]; constructor; [apply IH|apply IHl].
Qed.

Lemma matchLeaves_app fuel regex l1 : forall l2 st,
  matchLeaves fuel regex (l1 ++ l2) st =
  match matchLeaves fuel regex l1 st with
  | Ok st' => matchLeaves fuel regex l2 st'
  | Throw e => Throw e
  | OutOfFuel => OutOfFuel
  end.
Proof.
  induction l1 as [|l l1 IH]; intros l2 st; simpl; [done|].
  destruct (matchString fuel regex l st); auto.
Qed.

Lemma matchItem_leaves fuel regex it : forall st,
  matchItem fuel regex it st = matchLeaves fuel regex (leavesOfItem it) st.
Proof.
  induction it as [s|l IH] using TextAggItem_nested_ind; intros st; simpl.
  - by destruct (matchString fuel regex s st).
  - revert st. induction IH as [|it l Hit _ IHl]; intros st; simpl; [done|].
    rewrite matchLeaves_app, Hit.
    destruct (matchLeaves fuel regex (leavesOfItem it) st); auto.
Qed.

Lemma matchAggregation_leaves fuel regex agg : forall st,
  matchAggregation fuel regex agg st = matchLeaves fuel regex (leaves agg) st.
Proof.
  induction agg as [|it agg IH]; intros st; simpl; [done|].
  unfold leaves in *. simpl. rewrite matchLeaves_app, matchItem_leaves.
  destruct (matchLeaves fuel regex (leavesOfItem it) st); auto.
Qed.

(** ** C6 *)






(** ** The literal pattern is a sane pattern *)

Lemma isPrefix_take p : forall s,
  isPrefix p s = true -> length p <= length s /\ p = take (length p) s.
Proof.
  induction p as [|a p IH]; intros s H; simpl in *.
  - split; [lia|done].
  - destruct s as [|b s]; [discriminate|].
    apply andb_true_iff in H as [Hab Hp]. apply Ascii.eqb_eq in Hab. subst.
    destruct (IH s Hp) as [Hl Ht]. simpl. split; [lia|]. by rewrite <- Ht.
Qed.

Lemma indexOf_spec needle s : forall i,
  indexOf needle s = Some i ->
  i + length needle <= length s /\ needle = take (length needle) (drop i s).
Proof.
  induction s as [|c s IH]; intros i H; simpl in H.
  - destruct (isPrefix needle []) eqn:E; [|discriminate].
    inversion H; subst. apply isPrefix_take in E. simpl in *. tauto.
  - destruct (isPrefix needle (c :: s)) eqn:E.
    + inversion H; subst. apply isPrefix_take in E. simpl. tauto.
    + destruct (indexOf needle s) as [j|] eqn:Ej; [|discriminate].
      inversion H; subst. destruct (IH j eq_refl). simpl. split; [lia|done].
Qed.

Lemma literal_sane rawFind : sane (literal rawFind).
Proof.
  intros s L m H. simpl in H.
  destruct (Nat.leb L (length s)) eqn:HL; [|discriminate].
  apply Nat.leb_le in HL.
  destruct (indexOf rawFind (drop L s)) as [i|] eqn:E; [|discriminate].
  inversion H; subst; simpl. apply indexOf_spec in E as [Hl Ht].
  rewrite length_drop in Hl. rewrite drop_drop in Ht.
  repeat split; try lia. done.
Qed.

Lemma lit_sane g s : sane (lit g s).
Proof. intros x L m H. by apply (literal_sane (txt s)). Qed.

(** ** C2 *)

Lemma prepMatch_zero m i o : r0 m = [] -> prepMatch m i o = Throw ZeroLengthMatch.
Proof. intros H. unfold prepMatch. by rewrite H. Qed.

Lemma prepMatch_nonzero m i o :
  r0 m <> [] ->
  prepMatch m i o =
    Ok (mkMatch (r0 m) (rcaptures m) (o + Z.of_nat (rindex m))%Z
          (o + Z.of_nat (rindex m) + JS.len (r0 m))%Z i (rinput m)).
Proof. intros H. unfold prepMatch. by destruct (r0 m). Qed.

(** With a sane pattern and fuel beyond the length of the string, the scan
    of a string ends: with the matches, or with the error of a zero-length
    match. *)
Lemma execLoop_ends regex item : sane regex -> forall fuel L st,
  length item < fuel + L -> L <= length item ->
  (exists st', execLoop fuel regex item L st = Ok st') \/
  execLoop fuel regex item L st = Throw ZeroLengthMatch.
Proof.
  intros Hs. induction fuel as [|fuel IH]; intros L st Hf HL; [lia|]. simpl.
  destruct (exec regex item L) as [m|] eqn:E; [|eauto].
  destruct (Hs _ _ _ E) as (H1 & H2 & _).
  assert (r0 m = [] \/ r0 m <> []) as [Er|Er]
    by (destruct (r0 m); [left|right]; done).
  - right. by rewrite prepMatch_zero.
  - rewrite prepMatch_nonzero by done.
    assert (0 < length (r0 m)) by (destruct (r0 m); [done|simpl; lia]).
    apply IH; lia.
Qed.

Lemma execLoop_hits regex item : sane regex -> forall L,
  hitsZeroLength regex item L -> forall fuel st,
  length item < fuel + L -> L <= length item ->
  execLoop fuel regex item L st = Throw ZeroLengthMatch.
Proof.
  intros Hs L H. induction H as [L m E Er|L m E Er _ IH]; intros fuel st Hf HL;
    (destruct fuel as [|fuel]; [lia|]); simpl; rewrite E.
  - by rewrite prepMatch_zero.
  - rewrite prepMatch_nonzero by done.
    destruct (Hs _ _ _ E) as (H1 & H2 & _).
    assert (0 < length (r0 m)) by (destruct (r0 m); [done|simpl; lia]).
    apply IH; lia.
Qed.

Lemma matchString_ends regex item fuel st :
  sane regex -> length item < fuel ->
  (exists st', matchString fuel regex item st = Ok st') \/
  matchString fuel regex item st = Throw ZeroLengthMatch.
Proof.
  intros Hs Hf. unfold matchString. destruct (global regex).
  - destruct (execLoop_ends regex item Hs fuel 0 st) as [[st' E]|E];
      try lia; rewrite E; eauto.
  - destruct (exec regex item 0) as [m|]; [|eauto].
    unfold prepMatch. destruct (r0 m); eauto.
Qed.

Lemma matchString_hits regex item fuel st :
  sane regex -> length item < fuel -> zeroLengthIn regex item ->
  matchString fuel regex item st = Throw ZeroLengthMatch.
Proof.
  intros Hs Hf Hz. unfold matchString, zeroLengthIn in *. destruct (global regex).
  - rewrite (execLoop_hits regex item Hs 0 Hz); [done|lia..].
  - destruct Hz as (m & E & Er). rewrite E. by rewrite prepMatch_zero.
Qed.

Lemma matchLeaves_hits regex fuel ls : sane regex ->
  Forall (fun l => length l < fuel) ls ->
  Exists (zeroLengthIn regex) ls ->
  forall st, matchLeaves fuel regex ls st = Throw ZeroLengthMatch.
Proof.
  intros Hs Hf Hz. induction Hz as [l ls Hl|l ls Hz IH]; intros st;
    inversion Hf; subst; simpl.
  - by rewrite matchString_hits.
  - destruct (matchString_ends regex l fuel st Hs) as [[st' E]|E];
      [done|rewrite E..]; auto.
Qed.

Lemma find_effectiveOptions options :
  find (effectiveOptions options) = find options.
Proof. unfold effectiveOptions. simpl. by destruct (preset options) as [[]|]. Qed.

(** C2: when the pattern produces a match of length zero on a leaf string
    of the aggregation, the operation throws during the search, and the
    document is as it was: no node was created, moved or removed, and no
    inverse operation was recorded. *)
Theorem zero_length_match_aborts_before_mutation
    (fuel : nat) (s : DOM) (root : nat) (options : Options) (agg : TextAgg) :
  sane (regexOf (find options)) ->
  getAggregateText fuel (effectiveOptions options) s root = Ok agg ->
  Forall (fun l => length l < fuel) (leaves agg) ->
  Exists (zeroLengthIn (regexOf (find options))) (leaves agg) ->
  findAndReplaceDOMText fuel s root options = (Throw ZeroLengthMatch, freshWorld s).
Proof.
  intros Hs Hagg Hf Hz. unfold findAndReplaceDOMText, newFinder, search. simpl.
  rewrite Hagg, matchAggregation_leaves, find_effectiveOptions.
  by rewrite matchLeaves_hits.
Qed.

Lemma zero_length_match_aborts_before_mutation_witness :
  findAndReplaceDOMText 10 oneWord 0 emptyNeedle =
    (Throw ZeroLengthMatch, freshWorld oneWord).
Proof.
  apply (zero_length_match_aborts_before_mutation 10 oneWord 0 emptyNeedle
           [AggStr (txt "word")]).
  - apply literal_sane.
  - reflexivity.
  - repeat constructor.
  - constructor. apply (hitsHere _ _ 0 (mkRegExpMatch [] [] 0 (txt "word")));
      reflexivity.
Defined.

(** ** C7 *)

Lemma replaceMatch_skips options match_ sp ips ep w :
  instanceofText (dom w) (node sp) = false \/
  instanceofText (dom w) (node ep) = false ->
  replaceMatch options match_ sp ips ep w = (Ok None, w).
Proof.
  intros H. unfold replaceMatch, bind, getDom.
  destruct H as [H|H]; rewrite H; simpl; [done|].
  by rewrite orb_true_r.
Qed.

Ltac split_ifs :=
  repeat match goal with
         | |- context [if ?b then _ else _] => destruct b; simpl
         end.

(** The text step changes the portions and the counters only. *)
Lemma textStep_frame cur curText match_ st :
  let st' := textStep cur curText match_ st in
  queue st' = queue st /\ nodeStack st' = nodeStack st /\
  curNode st' = curNode st /\ curMatch st' = curMatch st /\ done st' = done st.
Proof. unfold textStep. simpl. split_ifs; done. Qed.

Lemma afterText_frame s cur st :
  let st' := afterText s cur st in
  queue st' = queue st /\ nodeStack st' = nodeStack st /\
  curNode st' = curNode st /\ curMatch st' = curMatch st /\ done st' = done st.
Proof.
  unfold afterText. destruct (curMatch st) eqn:E; [|done].
  destruct (isTextNode s cur); [|by rewrite E].
  rewrite <- E. apply textStep_frame.
Qed.

Lemma afterText_queue s cur st : queue (afterText s cur st) = queue st.
Proof. apply afterText_frame. Qed.

(** C7, as the code has it: when the start node or the end node of a
    resolved match is no instance of Text, [replaceMatch] returns null
    without an error and without touching the document or the inverse
    operations, and the loop of [processMatches] ends with that turn: the
    matches still in the queue are not processed. *)
Theorem non_text_match_ends_the_pass
    (options : Options) (root : nat) (fuel : nat) (st : Loop) (cur : nat)
    (w : World) (sp ep : Portion) (match_ : MatchWithMeta) :
  curNode st = Some cur -> done st = false ->
  inb cur (createdNodes w) = false ->
  startPortion (afterText (dom w) cur st) = Some sp ->
  endPortion (afterText (dom w) cur st) = Some ep ->
  curMatch (afterText (dom w) cur st) = Some match_ ->
  instanceofText (dom w) (node sp) = false \/
  instanceofText (dom w) (node ep) = false ->
  replaceMatch options match_ sp (innerPortions (afterText (dom w) cur st)) ep w
    = (Ok None, w) /\
  exists st' w',
    processLoop options root (S (S fuel)) st w = (Ok st', w') /\
    dom w' = dom w /\ reverts w' = reverts w /\
    createdNodes w' = createdNodes w /\
    curNode st' = None /\
    curMatch st' = head (queue st) /\ queue st' = tail (queue st).
Proof.
  intros Hcur Hdone Hcreated Hsp Hep Hm Hinst.
  split; [by apply replaceMatch_skips|].
  simpl. rewrite Hcur, Hdone. unfold bind at 1, iteration at 1.
  rewrite Hcreated, Hsp, Hep, Hm. unfold bind at 1, logResolved at 1.
  unfold bind at 1. rewrite replaceMatch_skips by done.
  unfold ret at 1. simpl. rewrite afterText_queue.
  eexists _, _. split; [reflexivity|]. simpl. done.
Qed.

Lemma non_text_match_ends_the_pass_witness :
  instanceofText foreignFirst 1 = false /\
  exists st' w',
    processLoop replaceAllA 0 2 atForeignText (freshWorld foreignFirst) = (Ok st', w') /\
    dom w' = foreignFirst /\ reverts w' = [] /\ createdNodes w' = [] /\
    curNode st' = None /\
    curMatch st' = Some (mkMatch (txt "a") [] 1 2 1 (txt "aa")) /\
    queue st' = [].
Proof.
  split; [reflexivity|].
  apply (non_text_match_ends_the_pass replaceAllA 0 0 atForeignText 1
           (freshWorld foreignFirst)
           (mkPortion 1 1 (txt "a") 0 0 1 false)
           (mkPortion 1 0 (txt "a") 0 0 1 true)
           (mkMatch (txt "a") [] 0 1 0 (txt "aa")));
    try reflexivity.
  left. reflexivity.
Defined.

(** C7, as stated, fails: the first of two matches lies in a text node of
    another frame, the second in a text node of the engine's own frame;
    the run returns without an error and the second match is not replaced. *)
Lemma later_match_not_replaced :
  search 10 (effectiveOptions replaceAllA) foreignFirst 0 =
    Ok [mkMatch (txt "a") [] 0 1 0 (txt "aa");
        mkMatch (txt "a") [] 1 2 1 (txt "aa")] /\
  instanceofText foreignFirst 1 = false /\
  instanceofText foreignFirst 2 = true /\
  (exists f, fst (findAndReplaceDOMText 10 foreignFirst 0 replaceAllA) = Ok f) /\
  dom (snd (findAndReplaceDOMText 10 foreignFirst 0 replaceAllA)) = foreignFirst /\
  markupAfter (findAndReplaceDOMText 10 foreignFirst 0 replaceAllA) = "aa"%string.
Proof.
  repeat split; try (vm_compute; reflexivity).
  eexists. vm_compute. reflexivity.
Qed.

(** ** Reading an updated store *)

Lemma lookup_lt_Some' (s : DOM) i : i < length s -> exists nd, s !! i = Some nd.
Proof. intros H. by apply lookup_lt_is_Some_2 in H as [nd ?]; eauto. Qed.

Lemma kindOf_setParent a pa s i : kindOf (setParent a pa s) i = kindOf s i.
Proof.
  unfold kindOf, setParent. rewrite list_lookup_alter. case_decide; [|done].
  subst. by destruct (s !! i).
Qed.

Lemma kindOf_mapChildren p f s i : kindOf (mapChildren p f s) i = kindOf s i.
Proof.
  unfold kindOf, mapChildren. rewrite list_lookup_alter. case_decide; [|done].
  subst. by destruct (s !! i).
Qed.

Lemma childrenOf_setParent a pa s i : childrenOf (setParent a pa s) i = childrenOf s i.
Proof.
  unfold childrenOf, setParent. rewrite list_lookup_alter. case_decide; [|done].
  subst. by destruct (s !! i).
Qed.

Lemma childrenOf_mapChildren p f s i :
  f [] = [] ->
  childrenOf (mapChildren p f s) i =
    if Nat.eqb i p then f (childrenOf s i) else childrenOf s i.
Proof.
  intros Hf. unfold childrenOf, mapChildren. rewrite list_lookup_alter.
  destruct (Nat.eqb_spec i p) as [->|Hne]; case_decide; try congruence.
  by destruct (s !! p).
Qed.

Lemma parentOf_mapChildren p f s i : parentOf (mapChildren p f s) i = parentOf s i.
Proof.
  unfold parentOf, mapChildren. rewrite list_lookup_alter. case_decide; [|done].
  subst. by destruct (s !! i).
Qed.

Lemma parentOf_setParent a pa s i :
  parentOf (setParent a pa s) i =
    if Nat.eqb i a && Nat.ltb a (length s) then pa else parentOf s i.
Proof.
  unfold parentOf, setParent. rewrite list_lookup_alter.
  destruct (Nat.eqb_spec i a) as [->|Hne]; case_decide; try congruence; simpl.
  - destruct (Nat.ltb_spec a (length s)) as [Hlt|Hge].
    + by destruct (lookup_lt_Some' s a Hlt) as [nd ->].
    + by rewrite (lookup_ge_None_2 s a Hge).
  - done.
Qed.

Lemma length_setParent a pa s : length (setParent a pa s) = length s.
Proof. apply length_alter. Qed.

Lemma length_mapChildren p f s : length (mapChildren p f s) = length s.
Proof. apply length_alter. Qed.

Lemma substChild_nil x xs : substChild x xs [] = [].
Proof. done. Qed.

Lemma substChild_cons x xs y l :
  substChild x xs (y :: l) = (if Nat.eqb y x then xs else [y]) ++ substChild x xs l.
Proof. done. Qed.

Lemma substChild_app x xs l1 l2 :
  substChild x xs (l1 ++ l2) = substChild x xs l1 ++ substChild x xs l2.
Proof. unfold substChild. apply bind_app. Qed.

Lemma substChild_absent x xs l : x ∉ l -> substChild x xs l = l.
Proof.
  induction l as [|y l IH]; intros H; [done|].
  rewrite substChild_cons. apply not_elem_of_cons in H as [Hne Hl].
  destruct (Nat.eqb_spec y x); [congruence|]. simpl. by rewrite IH.
Qed.

Lemma elem_of_substChild x xs l z :
  z ∈ substChild x xs l <-> (z ∈ l /\ z <> x) \/ (x ∈ l /\ z ∈ xs).
Proof.
  induction l as [|y l IH].
  - split; [inversion 1|]. intros [[H _]|[H _]]; inversion H.
  - rewrite substChild_cons, elem_of_app, IH, !elem_of_cons.
    destruct (Nat.eqb_spec y x) as [->|Hne].
    + naive_solver.
    + rewrite list_elem_of_singleton. naive_solver.
Qed.

Lemma inb_elem_of n l : inb n l = true <-> n ∈ l.
Proof.
  unfold inb. rewrite existsb_exists. split.
  - intros (x & Hin & E). apply Nat.eqb_eq in E. subst. by apply list_elem_of_In.
  - intros H. exists n. split; [by apply list_elem_of_In|apply Nat.eqb_refl].
Qed.

Lemma inb_false n l : inb n l = false <-> n ∉ l.
Proof.
  rewrite <- inb_elem_of. destruct (inb n l); split; congruence.
Qed.

Lemma bind_bind (f g : nat -> list nat) (l : list nat) :
  (l ≫= f) ≫= g = l ≫= (fun y => f y ≫= g).
Proof.
  induction l as [|y l IH]; [done|].
  rewrite !bind_cons, bind_app. by rewrite IH.
Qed.

Lemma bind_unit (l : list nat) : l ≫= (fun y => [y]) = l.
Proof. induction l as [|y l IH]; [done|]. rewrite bind_cons. simpl. by f_equal. Qed.

(** ** One step of an edit *)

Lemma sigma_insert_eq K n p ys i :
  sigma (<[n := (p, ys)]> K) i n = if Nat.eqb p i then ys else [n].
Proof. unfold sigma. by rewrite lookup_insert_eq. Qed.

Lemma sigma_insert_ne K n v i y :
  y <> n -> sigma (<[n := v]> K) i y = sigma K i y.
Proof. intros H. unfold sigma. by rewrite lookup_insert_ne. Qed.

Lemma expectedParent_insert_ne K n v s0 i :
  i <> n -> expectedParent (<[n := v]> K) s0 i = expectedParent K s0 i.
Proof. intros H. unfold expectedParent. by rewrite lookup_insert_ne. Qed.

Lemma substChild_singleton x xs y :
  substChild x xs [y] = if Nat.eqb y x then xs else [y].
Proof. rewrite substChild_cons. simpl. by rewrite app_nil_r. Qed.

(** The elements of a stand-in list are the child itself or created nodes. *)
Lemma rel_key_old s0 t K n p ys z :
  Rel s0 t K -> K !! n = Some (p, ys) -> z ∈ ys -> z < length s0 -> z = n.
Proof.
  intros HR HK Hz Hlt. destruct (rel_key _ _ _ HR _ _ _ HK) as (_ & _ & H).
  destruct (H z Hz) as [?|[? _]]; [done|lia].
Qed.

Lemma Rel_step s0 t t' K n p ys x xs :
  closed s0 -> Rel s0 t K -> K !! n = Some (p, ys) -> x ∈ ys ->
  (forall z, z ∈ xs -> z = x \/ (z = n /\ n ∉ ys) \/ loose s0 t K z) ->
  length t' = length t ->
  (forall i, kindOf t' i = kindOf t i) ->
  (forall i, childrenOf t' i =
     if Nat.eqb i p then substChild x xs (childrenOf t i) else childrenOf t i) ->
  (forall i, i < length t ->
     parentOf t' i =
       if inb i xs then Some p else if Nat.eqb i x then None else parentOf t i) ->
  Rel s0 t' (<[n := (p, substChild x xs ys)]> K).
Proof.
  intros Hcl HR HK Hx Hxs Hlen Hkind Hch Hpar.
  destruct (rel_key _ _ _ HR _ _ _ HK) as (Hn & Hpn & Hys).
  assert (Hxn : x < length s0 -> x = n) by (intros; by eapply rel_key_old).
  assert (Hxt : x < length t).
  { destruct (Hys x Hx) as [->|[? _]]; [|lia]. pose proof (rel_len _ _ _ HR). lia. }
  split.
  - rewrite Hlen. apply HR.
  - intros i Hi. rewrite Hkind. by apply HR.
  - intros i Hi. rewrite Hch, (rel_children _ _ _ HR i Hi).
    destruct (Nat.eqb_spec i p) as [->|Hip].
    + unfold substChild at 1. rewrite bind_bind. apply Forall_bind_ext.
      apply Forall_forall. intros y Hy. apply Hcl in Hy.
      destruct (decide (y = n)) as [->|Hyn].
      * rewrite sigma_insert_eq, Nat.eqb_refl. unfold sigma.
        by rewrite HK, Nat.eqb_refl.
      * rewrite sigma_insert_ne by done. unfold sigma.
        destruct (K !! y) as [[p' ys']|] eqn:HKy.
        -- destruct (Nat.eqb p' p).
           ++ apply substChild_absent. intros Hin.
              by pose proof (rel_disj _ _ _ HR _ _ _ _ _ _ _ HK HKy Hx Hin).
           ++ rewrite bind_singleton.
              destruct (Nat.eqb_spec y x) as [->|]; [|done]. by specialize (Hxn Hy).
        -- rewrite bind_singleton.
           destruct (Nat.eqb_spec y x) as [->|]; [|done]. by specialize (Hxn Hy).
    + apply Forall_bind_ext, Forall_forall. intros y _.
      destruct (decide (y = n)) as [->|Hyn].
      * rewrite sigma_insert_eq. unfold sigma. rewrite HK.
        destruct (Nat.eqb_spec p i); [congruence|done].
      * by rewrite sigma_insert_ne.
  - intros i Hi. pose proof (rel_len _ _ _ HR) as Hl.
    rewrite Hpar by lia. rewrite (rel_parent _ _ _ HR i Hi).
    destruct (decide (i = n)) as [->|Hin].
    + unfold expectedParent. rewrite lookup_insert_eq, HK.
      destruct (inb n xs) eqn:Enxs.
      * apply inb_elem_of in Enxs.
        assert (n ∈ substChild x xs ys) as Hn'
          by (apply elem_of_substChild; by right).
        apply inb_elem_of in Hn'. by rewrite Hn', Hpn.
      * apply inb_false in Enxs. destruct (Nat.eqb_spec n x) as [->|Hnx].
        -- assert (x ∉ substChild x xs ys) as Hn'.
           { rewrite elem_of_substChild. naive_solver. }
           apply inb_false in Hn'. by rewrite Hn'.
        -- destruct (inb n ys) eqn:Enys.
           ++ apply inb_elem_of in Enys.
              assert (n ∈ substChild x xs ys) as Hn'
                by (apply elem_of_substChild; by left).
              apply inb_elem_of in Hn'. by rewrite Hn'.
           ++ apply inb_false in Enys.
              assert (n ∉ substChild x xs ys) as Hn'.
              { rewrite elem_of_substChild. naive_solver. }
              apply inb_false in Hn'. by rewrite Hn'.
    + rewrite expectedParent_insert_ne by done.
      assert (inb i xs = false) as ->.
      { apply inb_false. intros Hixs.
        destruct (Hxs i Hixs) as [->|[[-> _]|[? _]]]; [|done|lia].
        by specialize (Hxn Hi). }
      destruct (Nat.eqb_spec i x) as [->|]; [|done]. by specialize (Hxn Hi).
  - intros n' p' ys' HK'. destruct (decide (n' = n)) as [->|Hne].
    + rewrite lookup_insert_eq in HK'. inversion HK'; subst. clear HK'.
      split; [done|]. split; [done|]. intros z Hz.
      apply elem_of_substChild in Hz.
      destruct (decide (z = n)) as [|Hzn]; [by left|right].
      assert (Hzb : length s0 <= z < length t /\ (z ∈ xs \/ (z ∈ ys /\ z <> x))).
      { destruct Hz as [[Hz Hzx]|[_ Hz]].
        - destruct (Hys z Hz) as [|[? _]]; [done|]. split; [done|]. by right.
        - destruct (Hxs z Hz) as [->|[[-> _]|[? _]]]; [|done|].
          + destruct (Hys x Hx) as [|[? _]]; [done|]. split; [done|]. by left.
          + split; [done|]. by left. }
      destruct Hzb as [Hb Hz']. rewrite Hlen. split; [done|].
      rewrite Hpar by lia.
      destruct (inb z xs) eqn:Ezxs; [done|]. apply inb_false in Ezxs.
      destruct Hz' as [|[Hzys Hzx]]; [done|].
      destruct (Nat.eqb_spec z x); [done|].
      destruct (Hys z Hzys) as [|[_ ?]]; done.
    + rewrite lookup_insert_ne in HK' by done.
      destruct (rel_key _ _ _ HR _ _ _ HK') as (Hn' & Hpn' & Hys').
      split; [done|]. split; [done|]. intros z Hz.
      destruct (Hys' z Hz) as [|[Hb Hpz]]; [by left|right].
      rewrite Hlen. split; [done|]. rewrite Hpar by lia.
      assert (inb z xs = false) as ->.
      { apply inb_false. intros Hzxs.
        destruct (Hxs z Hzxs) as [->|[[-> _]|[_ Hl]]].
        - by pose proof (rel_disj _ _ _ HR _ _ _ _ _ _ _ HK HK' Hx Hz).
        - lia.
        - by apply (Hl _ _ _ HK'). }
      destruct (Nat.eqb_spec z x) as [->|]; [|done].
      by pose proof (rel_disj _ _ _ HR _ _ _ _ _ _ _ HK HK' Hx Hz).
  - intros n1 n2 p1 p2 ys1 ys2 z H1 H2 Hz1 Hz2.
    assert (Hnew : forall n' p' ys', n' <> n -> K !! n' = Some (p', ys') ->
              z ∈ substChild x xs ys -> z ∈ ys' -> False).
    { intros n' p' ys' Hne HK' Hz Hz'. apply elem_of_substChild in Hz.
      destruct Hz as [[Hz _]|[_ Hz]].
      - by pose proof (rel_disj _ _ _ HR _ _ _ _ _ _ _ HK HK' Hz Hz').
      - destruct (Hxs z Hz) as [->|[[-> _]|[_ Hl]]].
        + by pose proof (rel_disj _ _ _ HR _ _ _ _ _ _ _ HK HK' Hx Hz').
        + by pose proof (rel_key_old _ _ _ _ _ _ _ HR HK' Hz' Hn).
        + by apply (Hl _ _ _ HK'). }
    destruct (decide (n1 = n)) as [->|Hne1]; destruct (decide (n2 = n)) as [->|Hne2];
      [done|..].
    + rewrite lookup_insert_eq in H1. rewrite lookup_insert_ne in H2 by done.
      inversion H1; subst. by destruct (Hnew _ _ _ Hne2 H2 Hz1 Hz2).
    + rewrite lookup_insert_eq in H2. rewrite lookup_insert_ne in H1 by done.
      inversion H2; subst. by destruct (Hnew _ _ _ Hne1 H1 Hz2 Hz1).
    + rewrite lookup_insert_ne in H1, H2 by done.
      by apply (rel_disj _ _ _ HR _ _ _ _ _ _ _ H1 H2 Hz1 Hz2).
Qed.

(** ** Edits keep the relation *)

Lemma sigma_empty i y : sigma ∅ i y = [y].
Proof. unfold sigma. by rewrite lookup_empty. Qed.

Lemma Rel_refl s : Rel s s ∅.
Proof.
  split.
  - done.
  - done.
  - intros i _. rewrite <- (bind_unit (childrenOf s i)) at 1.
    apply Forall_bind_ext, Forall_forall. intros y _. by rewrite sigma_empty.
  - intros i _. unfold expectedParent. by rewrite lookup_empty.
  - intros n p ys H. by rewrite lookup_empty in H.
  - intros n n' p p' ys ys' z H. by rewrite lookup_empty in H.
Qed.

(** The relation reads the original nodes and the parents of the
    stand-ins only. *)
Lemma Rel_frame s0 t t' K :
  Rel s0 t K -> length t <= length t' ->
  (forall i, i < length s0 ->
     kindOf t' i = kindOf t i /\ childrenOf t' i = childrenOf t i /\
     parentOf t' i = parentOf t i) ->
  (forall n p ys z, K !! n = Some (p, ys) -> z ∈ ys -> parentOf t' z = parentOf t z) ->
  Rel s0 t' K.
Proof.
  intros HR Hlen Hold Hkey. pose proof (rel_len _ _ _ HR). split.
  - lia.
  - intros i Hi. destruct (Hold i Hi) as (-> & _ & _). by apply HR.
  - intros i Hi. destruct (Hold i Hi) as (_ & -> & _). by apply HR.
  - intros i Hi. destruct (Hold i Hi) as (_ & _ & ->). by apply HR.
  - intros n p ys HK. destruct (rel_key _ _ _ HR _ _ _ HK) as (Hn & Hp & Hys).
    split; [done|]. split; [done|]. intros z Hz.
    destruct (Hys z Hz) as [|[Hb Hpz]]; [by left|right].
    split; [lia|]. by rewrite (Hkey _ _ _ _ HK Hz).
  - apply HR.
Qed.

Lemma kindOf_app_l (s ext : DOM) i : i < length s -> kindOf (s ++ ext) i = kindOf s i.
Proof. intros H. unfold kindOf. by rewrite lookup_app_l. Qed.

Lemma childrenOf_app_l (s ext : DOM) i :
  i < length s -> childrenOf (s ++ ext) i = childrenOf s i.
Proof. intros H. unfold childrenOf. by rewrite lookup_app_l. Qed.

Lemma parentOf_app_l (s ext : DOM) i :
  i < length s -> parentOf (s ++ ext) i = parentOf s i.
Proof. intros H. unfold parentOf. by rewrite lookup_app_l. Qed.

Lemma Rel_app s0 t K ext : Rel s0 t K -> Rel s0 (t ++ ext) K.
Proof.
  intros HR. pose proof (rel_len _ _ _ HR). eapply Rel_frame; [done|..].
  - rewrite length_app. lia.
  - intros i Hi. rewrite kindOf_app_l, childrenOf_app_l, parentOf_app_l by lia. done.
  - intros n p ys z HK Hz. destruct (rel_key _ _ _ HR _ _ _ HK) as (Hn & _ & Hys).
    destruct (Hys z Hz) as [->|[Hb _]]; apply parentOf_app_l; lia.
Qed.

(** A state that agrees with [t] on the nodes of [t]. *)
Lemma Rel_take s0 t t2 K : Rel s0 t K -> take (length t) t2 = t -> Rel s0 t2 K.
Proof.
  intros HR Ht. rewrite <- (take_drop (length t) t2), Ht. by apply Rel_app.
Qed.

(** An untouched child stands in its own place. *)
Lemma Rel_add_key s0 t K n p :
  Rel s0 t K -> K !! n = None -> n < length s0 -> parentOf s0 n = Some p ->
  Rel s0 t (<[n := (p, [n])]> K).
Proof.
  intros HR HK Hn Hp. split.
  - apply HR.
  - apply HR.
  - intros i Hi. rewrite (rel_children _ _ _ HR i Hi).
    apply Forall_bind_ext, Forall_forall. intros y _.
    destruct (decide (y = n)) as [->|Hne].
    + rewrite sigma_insert_eq. unfold sigma. rewrite HK. by destruct (Nat.eqb p i).
    + by rewrite sigma_insert_ne.
  - intros i Hi. rewrite (rel_parent _ _ _ HR i Hi).
    destruct (decide (i = n)) as [->|Hne].
    + unfold expectedParent. rewrite lookup_insert_eq, HK.
      assert (inb n [n] = true) as -> by (apply inb_elem_of; by left). done.
    + by rewrite expectedParent_insert_ne.
  - intros n' p' ys' HK'. destruct (decide (n' = n)) as [->|Hne].
    + rewrite lookup_insert_eq in HK'. inversion HK'; subst.
      split; [done|]. split; [done|]. intros z Hz.
      apply list_elem_of_singleton in Hz. by left.
    + rewrite lookup_insert_ne in HK' by done. by apply (rel_key _ _ _ HR).
  - intros n1 n2 p1 p2 ys1 ys2 z H1 H2 Hz1 Hz2.
    destruct (decide (n1 = n)) as [->|Hne1]; destruct (decide (n2 = n)) as [->|Hne2];
      [done|..].
    + rewrite lookup_insert_eq in H1. rewrite lookup_insert_ne in H2 by done.
      inversion H1; subst. apply list_elem_of_singleton in Hz1. subst.
      by pose proof (rel_key_old _ _ _ _ _ _ _ HR H2 Hz2 Hn).
    + rewrite lookup_insert_eq in H2. rewrite lookup_insert_ne in H1 by done.
      inversion H2; subst. apply list_elem_of_singleton in Hz2. subst.
      symmetry. by pose proof (rel_key_old _ _ _ _ _ _ _ HR H1 Hz1 Hn).
    + rewrite lookup_insert_ne in H1, H2 by done.
      by apply (rel_disj _ _ _ HR _ _ _ _ _ _ _ H1 H2 Hz1 Hz2).
Qed.

(** When every touched child stands in its own place, the original nodes
    are as they were. *)
Lemma Rel_restored s0 t K : Rel s0 t K -> restored K -> take (length s0) t = s0.
Proof.
  intros HR Hres. apply list_eq. intros i.
  destruct (decide (i < length s0)) as [Hi|Hi].
  - rewrite lookup_take_lt by done.
    pose proof (rel_kind _ _ _ HR i Hi) as Hk.
    pose proof (rel_children _ _ _ HR i Hi) as Hc.
    pose proof (rel_parent _ _ _ HR i Hi) as Hp.
    assert (childrenOf s0 i ≫= sigma K i = childrenOf s0 i) as Hc'.
    { rewrite <- (bind_unit (childrenOf s0 i)) at 2.
      apply Forall_bind_ext, Forall_forall. intros y _. unfold sigma.
      destruct (K !! y) as [[p ys]|] eqn:E; [|done].
      rewrite (Hres _ _ _ E). by destruct (Nat.eqb p i). }
    assert (expectedParent K s0 i = parentOf s0 i) as Hp'.
    { unfold expectedParent. destruct (K !! i) as [[p ys]|] eqn:E; [|done].
      rewrite (Hres _ _ _ E).
      assert (inb i [i] = true) as -> by (apply inb_elem_of; by left). done. }
    rewrite Hc' in Hc. rewrite Hp' in Hp.
    unfold kindOf, childrenOf, parentOf in *.
    destruct (lookup_lt_Some' s0 i Hi) as [nd0 E0]. rewrite E0 in *.
    destruct (t !! i) as [nd|]; [|done].
    destruct nd, nd0; simpl in *. by simplify_eq.
  - rewrite lookup_take_ge by lia. symmetry. apply lookup_ge_None_2. lia.
Qed.

(** ** The DOM operations of the rewriter and of the reverter *)

Lemma detach_unattached c s : parentOf s c = None -> detach c s = s.
Proof. intros H. unfold detach. by rewrite H. Qed.

Lemma standin_parent s0 t K n p ys x :
  Rel s0 t K -> K !! n = Some (p, ys) -> x ∈ ys ->
  parentOf t x = Some p /\ x < length t.
Proof.
  intros HR HK Hx. destruct (rel_key _ _ _ HR _ _ _ HK) as (Hn & Hp & Hys).
  pose proof (rel_len _ _ _ HR).
  destruct (Hys x Hx) as [->|[Hb Hpx]]; [|split; [done|lia]].
  split; [|lia]. rewrite (rel_parent _ _ _ HR n Hn). unfold expectedParent.
  rewrite HK. apply inb_elem_of in Hx. by rewrite Hx.
Qed.

Lemma gone_parent s0 t K n p ys :
  Rel s0 t K -> K !! n = Some (p, ys) -> n ∉ ys ->
  parentOf t n = None /\ n < length t.
Proof.
  intros HR HK Hx. destruct (rel_key _ _ _ HR _ _ _ HK) as (Hn & Hp & Hys).
  pose proof (rel_len _ _ _ HR). split; [|lia].
  rewrite (rel_parent _ _ _ HR n Hn). unfold expectedParent.
  rewrite HK. apply inb_false in Hx. by rewrite Hx.
Qed.

Ltac eqb_cases :=
  repeat match goal with
         | |- context [Nat.eqb ?a ?b] => destruct (Nat.eqb_spec a b); subst; simpl
         | |- context [Nat.ltb ?a ?b] => destruct (Nat.ltb_spec a b); simpl
         end.

Lemma insertBefore_Rel s0 t K n p ys z :
  closed s0 -> Rel s0 t K -> K !! n = Some (p, ys) -> n ∈ ys ->
  unused s0 t K z ->
  insertBefore p z n t =
    Ok (setParent z (Some p) (mapChildren p (substChild n [z; n]) t)) /\
  Rel s0 (setParent z (Some p) (mapChildren p (substChild n [z; n]) t))
    (<[n := (p, substChild n [z; n] ys)]> K).
Proof.
  intros Hcl HR HK Hn [[Hzb Hzl] Hzp].
  destruct (standin_parent _ _ _ _ _ _ _ HR HK Hn) as [Hpn Hnt].
  destruct (rel_key _ _ _ HR _ _ _ HK) as (Hn0 & _ & _).
  assert (z <> n) by lia. split.
  - unfold insertBefore. rewrite Hpn, Nat.eqb_refl.
    destruct (Nat.eqb_spec z n); [done|]. by rewrite detach_unattached.
  - eapply Rel_step; eauto.
    + intros z' Hz'. apply elem_of_cons in Hz' as [->|Hz'].
      * right. right. by split.
      * apply list_elem_of_singleton in Hz'. by left.
    + by rewrite length_setParent, length_mapChildren.
    + intros i. by rewrite kindOf_setParent, kindOf_mapChildren.
    + intros i. by rewrite childrenOf_setParent, childrenOf_mapChildren.
    + intros i Hi. rewrite parentOf_setParent, parentOf_mapChildren, length_mapChildren.
      unfold inb. simpl. eqb_cases; try done; try lia.
Qed.

Lemma removeChild_Rel s0 t K n p ys x :
  closed s0 -> Rel s0 t K -> K !! n = Some (p, ys) -> x ∈ ys ->
  removeChild p x t = Ok (setParent x None (mapChildren p (substChild x []) t)) /\
  Rel s0 (setParent x None (mapChildren p (substChild x []) t))
    (<[n := (p, substChild x [] ys)]> K).
Proof.
  intros Hcl HR HK Hx.
  destruct (standin_parent _ _ _ _ _ _ _ HR HK Hx) as [Hpx Hxt]. split.
  - unfold removeChild. by rewrite Hpx, Nat.eqb_refl.
  - eapply Rel_step; eauto.
    + intros z Hz. inversion Hz.
    + by rewrite length_setParent, length_mapChildren.
    + intros i. by rewrite kindOf_setParent, kindOf_mapChildren.
    + intros i. by rewrite childrenOf_setParent, childrenOf_mapChildren.
    + intros i Hi. rewrite parentOf_setParent, parentOf_mapChildren, length_mapChildren.
      unfold inb. simpl. eqb_cases; try done; try lia.
Qed.

Lemma replaceChild_Rel s0 t K n p ys x z :
  closed s0 -> Rel s0 t K -> K !! n = Some (p, ys) -> x ∈ ys ->
  (z = n /\ n ∉ ys) \/ unused s0 t K z ->
  replaceChild p z x t =
    Ok (setParent z (Some p) (setParent x None
          (mapChildren p (substChild x [z]) t))) /\
  Rel s0 (setParent z (Some p) (setParent x None
            (mapChildren p (substChild x [z]) t)))
    (<[n := (p, substChild x [z] ys)]> K).
Proof.
  intros Hcl HR HK Hx Hz.
  destruct (standin_parent _ _ _ _ _ _ _ HR HK Hx) as [Hpx Hxt].
  assert (parentOf t z = None /\ z < length t /\ z <> x) as (Hpz & Hzt & Hzx).
  { destruct Hz as [[-> Hn]|[[Hb Hl] Hp]].
    - destruct (gone_parent _ _ _ _ _ _ HR HK Hn). repeat split; try done.
      intros ->. done.
    - repeat split; try done; try lia. intros ->. by apply (Hl _ _ _ HK). }
  split.
  - unfold replaceChild. rewrite Hpx, Nat.eqb_refl.
    destruct (Nat.eqb_spec z x); [done|]. by rewrite detach_unattached.
  - eapply Rel_step; eauto.
    + intros z' Hz'. apply list_elem_of_singleton in Hz'. subst.
      destruct Hz as [?|[? _]]; [right; by left|right; by right].
    + by rewrite !length_setParent, length_mapChildren.
    + intros i. by rewrite !kindOf_setParent, kindOf_mapChildren.
    + intros i. by rewrite !childrenOf_setParent, childrenOf_mapChildren.
    + intros i Hi.
      rewrite !parentOf_setParent, parentOf_mapChildren, length_setParent,
        length_mapChildren.
      unfold inb. simpl. eqb_cases; try done; try lia.
Qed.

(** ** Closed stores *)

Lemma closed_app s k : closed s -> closed (s ++ [mkNode k None []]).
Proof.
  intros H i c Hc. rewrite length_app. simpl.
  destruct (decide (i < length s)) as [Hi|Hi].
  - rewrite childrenOf_app_l in Hc by done. apply H in Hc. lia.
  - unfold childrenOf in Hc. destruct (decide (i = length s)) as [->|Hne].
    + rewrite lookup_app_r, Nat.sub_diag in Hc by lia. simpl in Hc. inversion Hc.
    + rewrite lookup_ge_None_2 in Hc; [inversion Hc|]. rewrite length_app. simpl. lia.
Qed.

Lemma closed_setParent a pa s : closed s -> closed (setParent a pa s).
Proof.
  intros H i c Hc. rewrite childrenOf_setParent in Hc. rewrite length_setParent.
  by apply H in Hc.
Qed.

Lemma closed_setKind a k s : closed s -> closed (setKind a k s).
Proof.
  intros H i c Hc. unfold setKind in *. rewrite length_alter.
  apply (H i). unfold childrenOf in *. rewrite list_lookup_alter in Hc.
  case_decide; [|done]. subst. by destruct (s !! i).
Qed.

Lemma closed_setClassName a c s : closed s -> closed (setClassName a c s).
Proof.
  intros H. unfold setClassName. destruct (s !! a) as [nd|]; [|done].
  destruct (kind nd); try done. by apply closed_setKind.
Qed.

Lemma closed_subst p x xs s :
  closed s -> (forall z, z ∈ xs -> z < length s) ->
  closed (mapChildren p (substChild x xs) s).
Proof.
  intros H Hxs i c Hc. rewrite length_mapChildren.
  rewrite childrenOf_mapChildren in Hc by done.
  destruct (Nat.eqb i p); [|by apply H in Hc].
  apply elem_of_substChild in Hc as [[Hc _]|[_ Hc]]; [by apply H in Hc|by apply Hxs].
Qed.

Lemma closed_append p c s :
  closed s -> c < length s -> closed (mapChildren p (fun l => l ++ [c]) s).
Proof.
  intros H Hc i c' Hc'. rewrite length_mapChildren.
  unfold childrenOf, mapChildren in Hc'. rewrite list_lookup_alter in Hc'.
  case_decide; [subst|by apply (H i)].
  destruct (s !! i) as [nd|] eqn:E; simpl in Hc'; [|inversion Hc'].
  apply elem_of_app in Hc' as [Hc'|Hc'].
  - apply (H i). unfold childrenOf. by rewrite E.
  - apply list_elem_of_singleton in Hc'. by subst.
Qed.

(** ** Rules for runs *)

Lemma wp_bind {A B} (m : M A) (k : A -> M B) Q w :
  wp m (fun a w1 => wp (k a) Q w1) w -> wp (bind m k) Q w.
Proof. unfold wp, bind. by destruct (m w) as [[a| |] w1]. Qed.

Lemma wp_ret {A} (a : A) (Q : A -> World -> Prop) w : Q a w -> wp (ret a) Q w.
Proof. done. Qed.

Lemma wp_getDom (Q : DOM -> World -> Prop) w : Q (dom w) w -> wp getDom Q w.
Proof. done. Qed.

Lemma wp_mono {A} (m : M A) (Q Q' : A -> World -> Prop) w :
  wp m Q w -> (forall a w', Q a w' -> Q' a w') -> wp m Q' w.
Proof. unfold wp. destruct (m w) as [[a| |] w1]; auto. Qed.

Lemma wp_elim {A} (m : M A) Q w a w' : wp m Q w -> m w = (Ok a, w') -> Q a w'.
Proof. unfold wp. intros H E. by rewrite E in H. Qed.

Lemma wp_intro {A} (m : M A) (Q : A -> World -> Prop) w :
  (forall a w', m w = (Ok a, w') -> Q a w') -> wp m Q w.
Proof. unfold wp. destruct (m w) as [[a| |] w1]; auto. Qed.

Lemma wp_liftDom f (Q : unit -> World -> Prop) w :
  (forall s', f (dom w) = Ok s' -> Q tt (withDom s' w)) -> wp (liftDom f) Q w.
Proof. unfold wp, liftDom. intros H. destruct (f (dom w)); auto. Qed.

(** ** Created nodes that are not yet in the tree *)

Lemma standin_lt s0 t K n p ys z :
  Rel s0 t K -> K !! n = Some (p, ys) -> z ∈ ys -> z < length t.
Proof. intros HR HK Hz. by destruct (standin_parent _ _ _ _ _ _ _ HR HK Hz). Qed.

Lemma unused_fresh s0 t t' K z :
  Rel s0 t K -> length t <= z < length t' -> parentOf t' z = None ->
  unused s0 t' K z.
Proof.
  intros HR Hz Hp. pose proof (rel_len _ _ _ HR). split; [split; [lia|]|done].
  intros n p ys HK Hin. pose proof (standin_lt _ _ _ _ _ _ _ HR HK Hin). lia.
Qed.

Lemma unused_app s0 t K z ext : unused s0 t K z -> unused s0 (t ++ ext) K z.
Proof.
  intros [[Hb Hl] Hp]. split; [split; [rewrite length_app; lia|done]|].
  rewrite parentOf_app_l by lia. done.
Qed.

Lemma unused_alloc s0 t K k :
  Rel s0 t K -> unused s0 (t ++ [mkNode k None []]) K (length t).
Proof.
  intros HR. eapply unused_fresh; [done|rewrite length_app; simpl; lia|].
  unfold parentOf. by rewrite lookup_app_r, Nat.sub_diag by lia.
Qed.

Lemma unused_subst s0 t t' K n p ys x xs z :
  Rel s0 t K -> K !! n = Some (p, ys) -> unused s0 t K z ->
  z ∉ xs -> length t' = length t -> parentOf t' z = parentOf t z ->
  unused s0 t' (<[n := (p, substChild x xs ys)]> K) z.
Proof.
  intros HR HK [[Hb Hl] Hp] Hxs Hlen Hpar. split; [split; [lia|]|congruence].
  intros n' p' ys' HK' Hin. destruct (decide (n' = n)) as [->|Hne].
  - rewrite lookup_insert_eq in HK'. inversion HK'; subst.
    apply elem_of_substChild in Hin as [[Hin _]|[_ Hin]]; [|done].
    by apply (Hl _ _ _ HK).
  - rewrite lookup_insert_ne in HK' by done. by apply (Hl _ _ _ HK').
Qed.

Lemma unused_add_key s0 t K n p z :
  unused s0 t K z -> n < length s0 -> unused s0 t (<[n := (p, [n])]> K) z.
Proof.
  intros [[Hb Hl] Hp] Hn. split; [split; [done|]|done].
  intros n' p' ys' HK' Hin. destruct (decide (n' = n)) as [->|Hne].
  - rewrite lookup_insert_eq in HK'. inversion HK'; subst.
    apply list_elem_of_singleton in Hin. lia.
  - rewrite lookup_insert_ne in HK' by done. by apply (Hl _ _ _ HK').
Qed.

(** ** Edits keep the kinds of the nodes *)

Lemma sameNodes_subst a pa p x xs t :
  sameNodes t (setParent a pa (mapChildren p (substChild x xs) t)).
Proof.
  split; [|split].
  - by rewrite length_setParent, length_mapChildren.
  - intros i. by rewrite kindOf_setParent, kindOf_mapChildren.
  - intros i Hi. rewrite childrenOf_setParent, childrenOf_mapChildren by done.
    rewrite Hi. by destruct (Nat.eqb i p).
Qed.

Lemma sameNodes_subst2 a pa b pb p x xs t :
  sameNodes t (setParent a pa (setParent b pb (mapChildren p (substChild x xs) t))).
Proof.
  split; [|split].
  - by rewrite !length_setParent, length_mapChildren.
  - intros i. by rewrite !kindOf_setParent, kindOf_mapChildren.
  - intros i Hi. rewrite !childrenOf_setParent, childrenOf_mapChildren by done.
    rewrite Hi. by destruct (Nat.eqb i p).
Qed.

Lemma sameNodes_refl t : sameNodes t t.
Proof. done. Qed.

Lemma sameNodes_trans t1 t2 t3 :
  sameNodes t1 t2 -> sameNodes t2 t3 -> sameNodes t1 t3.
Proof.
  intros (H1 & H2 & H3) (G1 & G2 & G3). split; [congruence|]. split.
  - intros i. by rewrite G2.
  - intros i Hi. by apply G3, H3.
Qed.

Lemma grows_refl t : grows t t.
Proof. done. Qed.

Lemma grows_trans t1 t2 t3 : grows t1 t2 -> grows t2 t3 -> grows t1 t3.
Proof.
  intros (H1 & H2 & H3) (G1 & G2 & G3). split; [lia|]. split.
  - intros i Hi. rewrite G2 by lia. by apply H2.
  - intros i Hi Hc. apply G3; [lia|]. by apply H3.
Qed.

Lemma sameNodes_grows t t' : sameNodes t t' -> grows t t'.
Proof.
  intros (H1 & H2 & H3). split; [lia|]. split; [by intros|]. intros i _. apply H3.
Qed.

Lemma grows_take (t t' : DOM) : take (length t) t' = t -> grows t t'.
Proof.
  intros Ht. split; [|split].
  - rewrite <- Ht at 1. rewrite length_take. lia.
  - intros i Hi. unfold kindOf.
    rewrite <- (lookup_take_lt t' (length t) i) by done. by rewrite Ht.
  - intros i Hi. unfold childrenOf.
    rewrite <- (lookup_take_lt t' (length t) i) by done. by rewrite Ht.
Qed.

Lemma grows_app (t ext : DOM) : grows t (t ++ ext).
Proof. apply grows_take, take_app_length. Qed.

(** ** Steps of [replaceMatch] *)

Lemma Mid_start w : closed (dom w) -> Mid w ∅ [] [] w.
Proof. intros H. split; try done; [apply Rel_refl|by rewrite app_nil_r]. Qed.

Lemma Mid_add_key w0 K ops cr w n p :
  Mid w0 K ops cr w -> K !! n = None -> n < length (dom w0) ->
  parentOf (dom w0) n = Some p ->
  Mid w0 (<[n := (p, [n])]> K) ops cr w.
Proof. intros [HR Hc Hrev Hcr Hres] ???. split; try done. by apply Rel_add_key. Qed.

(** [document.createTextNode(data)] *)
Lemma wp_createTextNode w0 K ops cr w data :
  Mid w0 K ops cr w ->
  wp (liftAlloc (createTextNode data))
    (fun n w' =>
       n = length (dom w) /\
       dom w' = dom w ++ [mkNode (TextNode data true) None []] /\
       Mid w0 K ops cr w' /\ unused (dom w0) (dom w') K n /\
       forall z, unused (dom w0) (dom w) K z -> unused (dom w0) (dom w') K z) w.
Proof.
  intros [HR Hc Hrev Hcr Hres]. unfold wp, liftAlloc, createTextNode, alloc. simpl.
  split; [done|]. split; [done|]. split; [|split].
  - split; simpl; try done; [by apply Rel_app|by apply closed_app].
  - by apply unused_alloc.
  - intros z Hz. by apply unused_app.
Qed.

Lemma wp_createTextNodeIf w0 K ops cr w cond data :
  Mid w0 K ops cr w ->
  wp (createTextNodeIf cond data)
    (fun o w' =>
       (exists ext, dom w' = dom w ++ ext) /\
       Mid w0 K ops cr w' /\
       (forall n, o = Some n ->
          n = length (dom w) /\ unused (dom w0) (dom w') K n /\
          kindOf (dom w') n = Some (TextNode data true) /\
          childrenOf (dom w') n = []) /\
       (o = None <-> cond = false) /\
       forall z, unused (dom w0) (dom w) K z -> unused (dom w0) (dom w') K z) w.
Proof.
  intros HM. unfold createTextNodeIf. destruct cond.
  - apply wp_bind. eapply wp_mono; [by apply wp_createTextNode|].
    intros n w' (-> & Hd & HM' & Hu & Hz). apply wp_ret.
    split; [eauto|]. split; [done|]. split; [|done].
    intros n [= <-]. split; [done|]. split; [done|].
    unfold kindOf, childrenOf. by rewrite Hd, lookup_app_r, Nat.sub_diag by lia.
  - apply wp_ret. split; [exists []; by rewrite app_nil_r|]. split; [done|].
    split; [by intros n [=]|done].
Qed.

(** [this.createdNodes.add(n)] *)
Lemma wp_addCreated w0 K ops cr w n :
  Mid w0 K ops cr w ->
  wp (addCreated n)
    (fun _ w' => dom w' = dom w /\ Mid w0 K ops (n :: cr) w') w.
Proof.
  intros [HR Hc Hrev Hcr Hres]. unfold wp, addCreated. simpl.
  split; [done|]. split; simpl; try done. by f_equal.
Qed.

(** [this.reverts.push(op)] *)
Lemma wp_pushRevert w0 K ops cr w op :
  Mid w0 K ops cr w ->
  wp (pushRevert op)
    (fun _ w' => dom w' = dom w /\ Mid w0 K (ops ++ [op]) cr w') w.
Proof.
  intros [HR Hc Hrev Hcr Hres]. unfold wp, pushRevert. simpl.
  split; [done|]. split; simpl; try done. by rewrite Hrev, app_assoc.
Qed.

(** [parent.insertBefore(z, n)] for a created node [z] and a child [n]
    that is in its place. *)
Lemma wp_insertBefore w0 K ops cr w n p l z parent :
  closed (dom w0) -> Mid w0 K ops cr w ->
  K !! n = Some (p, l ++ [n]) -> n ∉ l ->
  unused (dom w0) (dom w) K z -> parent = Some p ->
  wp (insertBeforeM parent z n)
    (fun _ w' =>
       Mid w0 (<[n := (p, (l ++ [z]) ++ [n])]> K) ops cr w' /\
       sameNodes (dom w) (dom w') /\
       forall z', z' <> z -> unused (dom w0) (dom w) K z' ->
         unused (dom w0) (dom w') (<[n := (p, (l ++ [z]) ++ [n])]> K) z') w.
Proof.
  intros Hcl [HR0 Hclo Hrev Hcr Hres] HK Hnl Hz ->. unfold insertBeforeM. apply wp_liftDom. intros s' Hs'.
  assert (Hn : n ∈ l ++ [n]) by (apply elem_of_app; right; by left).
  destruct (insertBefore_Rel _ _ _ _ _ _ _ Hcl HR0 HK Hn Hz) as [E HR].
  rewrite E in Hs'. inversion Hs'; subst s'. clear Hs' E.
  assert (Hys : substChild n [z; n] (l ++ [n]) = (l ++ [z]) ++ [n]).
  { rewrite substChild_app, substChild_absent by done.
    rewrite substChild_cons, Nat.eqb_refl. simpl. by rewrite <- app_assoc. }
  rewrite Hys in HR.
  pose proof (standin_lt _ _ _ _ _ _ _ HR0 HK Hn) as Hnt.
  destruct Hz as [[Hzb Hzl] Hzp].
  split; [|split].
  - split; simpl; try done.
    apply closed_setParent, closed_subst; [done|].
    intros c Hc. apply elem_of_cons in Hc as [->|Hc]; [lia|].
    apply list_elem_of_singleton in Hc. by subst.
  - apply sameNodes_subst.
  - intros z' Hne Hz'. simpl. rewrite <- Hys.
    eapply unused_subst; eauto.
    + destruct (rel_key _ _ _ HR0 _ _ _ HK) as (Hn0 & _).
      destruct Hz' as [[Hb' _] _].
      intros Hin. apply elem_of_cons in Hin as [?|Hin]; [done|].
      apply list_elem_of_singleton in Hin. lia.
    + by rewrite length_setParent, length_mapChildren.
    + rewrite parentOf_setParent, parentOf_mapChildren.
      destruct (Nat.eqb_spec z' z); [done|]. done.
Qed.

(** [parent.removeChild(n)] for a child [n] that is in its place. *)
Lemma wp_removeChild w0 K ops cr w n p l parent :
  closed (dom w0) -> Mid w0 K ops cr w ->
  K !! n = Some (p, l ++ [n]) -> n ∉ l -> parent = Some p ->
  wp (removeChildM parent n)
    (fun _ w' =>
       Mid w0 (<[n := (p, l)]> K) ops cr w' /\
       sameNodes (dom w) (dom w') /\
       forall z', unused (dom w0) (dom w) K z' ->
         unused (dom w0) (dom w') (<[n := (p, l)]> K) z') w.
Proof.
  intros Hcl [HR0 Hclo Hrev Hcr Hres] HK Hnl ->. unfold removeChildM. apply wp_liftDom. intros s' Hs'.
  assert (Hn : n ∈ l ++ [n]) by (apply elem_of_app; right; by left).
  destruct (removeChild_Rel _ _ _ _ _ _ _ Hcl HR0 HK Hn) as [E HR].
  rewrite E in Hs'. inversion Hs'; subst s'. clear Hs' E.
  assert (Hys : substChild n [] (l ++ [n]) = l).
  { rewrite substChild_app, substChild_absent by done.
    rewrite substChild_cons, Nat.eqb_refl. simpl. by rewrite app_nil_r. }
  rewrite Hys in HR.
  split; [|split].
  - split; simpl; try done.
    apply closed_setParent, closed_subst; [done|]. intros c Hc. inversion Hc.
  - apply sameNodes_subst.
  - intros z' Hz'. simpl. rewrite <- Hys.
    eapply unused_subst; eauto.
    + intros Hin. inversion Hin.
    + by rewrite length_setParent, length_mapChildren.
    + rewrite parentOf_setParent, parentOf_mapChildren.
      destruct (Nat.eqb_spec z' n) as [->|]; [|done]. simpl.
      destruct (rel_key _ _ _ HR0 _ _ _ HK) as (Hn0 & _).
      destruct Hz' as [[Hb' _] _]. lia.
Qed.

(** ** The replacement node is a new node *)

Lemma parentOf_setKind a k s i : parentOf (setKind a k s) i = parentOf s i.
Proof.
  unfold parentOf, setKind. rewrite list_lookup_alter. case_decide; [|done].
  subst. by destruct (s !! i).
Qed.

Lemma parentOf_setClassName a c s i : parentOf (setClassName a c s) i = parentOf s i.
Proof.
  unfold setClassName. destruct (s !! a) as [nd|]; [|done].
  destruct (kind nd); try done. apply parentOf_setKind.
Qed.

Lemma length_setClassName a c s : length (setClassName a c s) = length s.
Proof.
  unfold setClassName. destruct (s !! a) as [nd|]; [|done].
  destruct (kind nd); try done. apply length_alter.
Qed.

Lemma take_setClassName n a c s :
  n <= a -> take n (setClassName a c s) = take n s.
Proof.
  intros H. unfold setClassName. destruct (s !! a) as [nd|]; [|done].
  destruct (kind nd); try done. by apply take_alter_ge.
Qed.

Lemma take_setParent n a pa s : n <= a -> take n (setParent a pa s) = take n s.
Proof. intros H. by apply take_alter_ge. Qed.

Lemma take_mapChildren n a f s : n <= a -> take n (mapChildren a f s) = take n s.
Proof. intros H. by apply take_alter_ge. Qed.

Lemma parentOf_alloc s k : parentOf (s ++ [mkNode k None []]) (length s) = None.
Proof. unfold parentOf. by rewrite lookup_app_r, Nat.sub_diag by lia. Qed.

(** A new text node inside a new wrapper element. *)
Lemma wrapped_spec s kt ke (wrapClass : option str) :
  let s2 := (s ++ [mkNode kt None []]) ++ [mkNode ke None []] in
  let s3 := match wrapClass with
            | Some (c :: cs) => setClassName (S (length s)) (c :: cs) s2
            | _ => s2
            end in
  let s4 := appendChild (S (length s)) (length s) s3 in
  take (length s) s4 = s /\ length s4 = S (S (length s)) /\
  parentOf s4 (S (length s)) = None /\ (closed s -> closed s4).
Proof.
  intros s2 s3 s4.
  assert (Hl2 : length s2 = S (S (length s))).
  { unfold s2. rewrite !length_app. simpl. lia. }
  assert (Hl3 : length s3 = S (S (length s))).
  { unfold s3. destruct wrapClass as [[|c cs]|]; try done.
    by rewrite length_setClassName. }
  assert (Ht3 : take (length s) s3 = s).
  { assert (take (length s) s2 = s).
    { unfold s2. rewrite <- app_assoc. apply take_app_length. }
    unfold s3. destruct wrapClass as [[|c cs]|]; try done.
    rewrite take_setClassName by lia. done. }
  assert (Hp3 : forall i, parentOf s3 i = parentOf s2 i).
  { intros i. unfold s3. destruct wrapClass as [[|c cs]|]; try done.
    apply parentOf_setClassName. }
  assert (Hpa : parentOf s3 (length s) = None).
  { rewrite Hp3. unfold s2. rewrite parentOf_app_l by (rewrite length_app; simpl; lia).
    apply parentOf_alloc. }
  assert (Hpb : parentOf s3 (S (length s)) = None).
  { rewrite Hp3. unfold s2.
    replace (S (length s)) with (length (s ++ [mkNode kt None []]))
      by (rewrite length_app; simpl; lia).
    apply parentOf_alloc. }
  assert (Hs4 : s4 = setParent (length s) (Some (S (length s)))
                   (mapChildren (S (length s)) (fun l => l ++ [length s]) s3)).
  { unfold s4, appendChild. by rewrite detach_unattached. }
  rewrite Hs4. repeat split.
  - rewrite take_setParent, take_mapChildren by lia. done.
  - by rewrite length_setParent, length_mapChildren.
  - rewrite parentOf_setParent, parentOf_mapChildren.
    destruct (Nat.eqb_spec (S (length s)) (length s)); [lia|]. done.
  - intros Hc. apply closed_setParent, closed_append; [|lia].
    unfold s3. destruct wrapClass as [[|c cs]|]; try apply closed_setClassName;
      unfold s2; by repeat apply closed_app.
Qed.

Lemma take_app_prefix (s ext : DOM) : take (length s) (s ++ ext) = s.
Proof. apply take_app_length. Qed.


Lemma newNode_text w data :
  isNewNode w (length (dom w))
    (withDom (dom w ++ [mkNode (TextNode data true) None []]) w).
Proof.
  unfold isNewNode. simpl. rewrite length_app. simpl.
  repeat split; try done; try lia.
  - apply take_app_length.
  - apply parentOf_alloc.
  - apply closed_app.
Qed.

Lemma getPortionReplacementNode_new options portion match_ w :
  wellBehavedReplace options ->
  wp (getPortionReplacementNode options portion match_)
    (fun n w' => isNewNode w n w') w.
Proof.
  intros Hwb. unfold getPortionReplacementNode.
  assert (Hstr : forall tpl,
    wp (do textNode <- liftAlloc (createTextNode tpl);
        match wrap options with
        | None | Some (WrapName []) => ret textNode
        | Some wrap0 =>
            if Nat.eqb (length tpl) 0 then liftAlloc (createTextNode [])
            else
              do el <- match wrap0 with
                       | WrapName name =>
                           fun w =>
                             match createElement name (dom w) with
                             | Ok (n, s) => (Ok n, withDom s w)
                             | Throw e => (Throw e, w)
                             | OutOfFuel => (OutOfFuel, w)
                             end
                       | WrapStencil stencil =>
                           fun w =>
                             match cloneNode stencil (dom w) with
                             | Ok (n, s) => (Ok n, withDom s w)
                             | Throw e => (Throw e, w)
                             | OutOfFuel => (OutOfFuel, w)
                             end
                       end;
              do _ <- match wrapClass options with
                      | Some (c :: cs) =>
                          fun w => (Ok tt, withDom (setClassName el (c :: cs) (dom w)) w)
                      | _ => ret tt
                      end;
              do _ <- (fun w => (Ok tt, withDom (appendChild el textNode (dom w)) w));
              ret el
        end) (fun n w' => isNewNode w n w') w).
  { intros tpl.
    assert (Hsecond : forall k,
      isNewNode w (S (length (dom w)))
        (withDom ((dom w ++ [mkNode (TextNode tpl true) None []]) ++
                  [mkNode k None []]) w)).
    { intros k. unfold isNewNode. simpl. rewrite !length_app. simpl.
      repeat split; try done; try lia.
      - rewrite <- app_assoc. apply take_app_length.
      - replace (S (length (dom w)))
          with (length (dom w ++ [mkNode (TextNode tpl true) None []]))
          by (rewrite length_app; simpl; lia).
        apply parentOf_alloc.
      - intros. by repeat apply closed_app. }
    assert (Hwrapped : forall ke,
      isNewNode w (S (length (dom w)))
        (withDom
           (appendChild (S (length (dom w))) (length (dom w))
              match wrapClass options with
              | Some (c :: cs) =>
                  setClassName (S (length (dom w))) (c :: cs)
                    ((dom w ++ [mkNode (TextNode tpl true) None []]) ++
                     [mkNode ke None []])
              | _ => (dom w ++ [mkNode (TextNode tpl true) None []]) ++
                     [mkNode ke None []]
              end) w)).
    { intros ke.
      destruct (wrapped_spec (dom w) (TextNode tpl true) ke (wrapClass options))
        as (H1 & H2 & H3 & H4).
      unfold isNewNode. simpl. rewrite H2. repeat split; try done; lia. }
    unfold wp, bind, liftAlloc, createTextNode, alloc, ret. simpl.
    destruct (wrap options) as [[[|c cs]|stencil]|]; try apply newNode_text.
    - destruct (Nat.eqb (length tpl) 0); simpl.
      + rewrite length_app. simpl. rewrite Nat.add_1_r. apply Hsecond.
      + unfold createElement. destruct (validName (c :: cs)); [|done]. unfold alloc.
        rewrite length_app. simpl. rewrite Nat.add_1_r.
        specialize (Hwrapped (ElementNode (c :: cs) [])).
        destruct (wrapClass options) as [[|c' cs']|]; simpl; apply Hwrapped.
    - destruct (Nat.eqb (length tpl) 0); simpl.
      + rewrite length_app. simpl. rewrite Nat.add_1_r. apply Hsecond.
      + unfold cloneNode, alloc.
        destruct ((dom w ++ [mkNode (TextNode tpl true) None []]) !! stencil)
          as [nd|]; [|done].
        rewrite length_app. simpl. rewrite Nat.add_1_r.
        specialize (Hwrapped (kind nd)).
        destruct (wrapClass options) as [[|c' cs']|]; simpl; apply Hwrapped. }
  destruct (replace options) as [[tpl|f]|] eqn:Er; simpl; try apply Hstr.
  unfold wellBehavedReplace in Hwb. rewrite Er in Hwb.
  specialize (Hwb portion match_ (dom w)). unfold wp.
  destruct (f portion match_ (dom w)) as [s result]. simpl in Hwb.
  destruct Hwb as ([ext ->] & Hcl & Hres).
  destruct result as [r|z|n]; simpl.
  - unfold isNewNode. simpl. repeat split; try done.
    + rewrite <- app_assoc. apply take_app_length.
    + rewrite length_app. lia.
    + rewrite !length_app. simpl. lia.
    + apply parentOf_alloc.
    + intros. by apply closed_app, Hcl.
  - unfold isNewNode. simpl. repeat split; try done.
    + rewrite <- app_assoc. apply take_app_length.
    + rewrite length_app. lia.
    + rewrite !length_app. simpl. lia.
    + apply parentOf_alloc.
    + intros. by apply closed_app, Hcl.
  - destruct Hres as [Hb Hp]. unfold isNewNode. simpl.
    repeat split; try done; try lia. apply take_app_length.
Qed.

(** ** Steps of [replaceMatch], continued *)

Lemma wp_getPortionReplacementNode w0 K ops cr w options portion match_ :
  wellBehavedReplace options -> Mid w0 K ops cr w ->
  wp (getPortionReplacementNode options portion match_)
    (fun n w' =>
       take (length (dom w)) (dom w') = dom w /\ length (dom w) <= n /\
       Mid w0 K ops cr w' /\ unused (dom w0) (dom w') K n /\
       forall z, unused (dom w0) (dom w) K z -> unused (dom w0) (dom w') K z) w.
Proof.
  intros Hwb [HR Hc Hrev Hcr Hres].
  eapply wp_mono; [by apply getPortionReplacementNode_new|].
  intros n w' (Ht & Hn & Hp & Hcl & Hrev' & Hcr' & Hres').
  assert (Hext : dom w' = dom w ++ drop (length (dom w)) (dom w')).
  { rewrite <- Ht at 1. by rewrite take_drop. }
  split; [done|]. split; [lia|]. split; [|split].
  - split; try congruence; [|by apply Hcl]. eapply Rel_take; eauto.
  - eapply unused_fresh; eauto.
  - intros z Hz. rewrite Hext. by apply unused_app.
Qed.

Lemma wp_insertIfSome w0 K ops cr w n p l o :
  closed (dom w0) -> Mid w0 K ops cr w ->
  K !! n = Some (p, l ++ [n]) -> n ∉ l ->
  (forall z, o = Some z -> unused (dom w0) (dom w) K z) ->
  wp (insertIfSome o n)
    (fun _ w' =>
       Mid w0 (<[n := (p, (l ++ optlist o) ++ [n])]> K) ops cr w' /\
       sameNodes (dom w) (dom w') /\
       forall z', z' ∉ optlist o -> unused (dom w0) (dom w) K z' ->
         unused (dom w0) (dom w') (<[n := (p, (l ++ optlist o) ++ [n])]> K) z') w.
Proof.
  intros Hcl HM HK Hnl Ho. unfold insertIfSome. destruct o as [z|]; simpl.
  - apply wp_bind, wp_getDom.
    assert (Hn : n ∈ l ++ [n]) by (apply elem_of_app; right; by left).
    destruct (standin_parent _ _ _ _ _ _ _ (mid_rel _ _ _ _ _ HM) HK Hn) as [Hp _].
    eapply wp_mono; [by eapply wp_insertBefore; eauto|].
    intros _ w' (HM' & Hs & Hu). split; [done|]. split; [done|].
    intros z' Hz'. apply Hu. intros ->. apply Hz'. by left.
  - apply wp_ret. rewrite app_nil_r, insert_id by done. done.
Qed.

Lemma splitAround_detached pre new post n w (Q : unit -> World -> Prop) :
  parentOf (dom w) n = None -> wp (splitAround pre new post n) Q w.
Proof.
  intros H. unfold wp, splitAround, bind, insertIfSome, getDom, insertBeforeM, ret.
  destruct pre; cbn -[parentOf]; rewrite H; done.
Qed.

Lemma untouched_parent s0 t K n :
  Rel s0 t K -> K !! n = None -> n < length s0 -> parentOf t n = parentOf s0 n.
Proof.
  intros HR HK Hn. rewrite (rel_parent _ _ _ HR n Hn). unfold expectedParent.
  by rewrite HK.
Qed.

Lemma NoDup_standins pre new post :
  (forall a, pre = Some a -> a <> new) ->
  (forall b, post = Some b -> b <> new) ->
  (forall a b, pre = Some a -> post = Some b -> a <> b) ->
  NoDup (standins pre new post).
Proof.
  intros H1 H2 H3. unfold standins.
  destruct pre as [a|], post as [b|]; simpl; repeat constructor;
    rewrite ?elem_of_cons, ?elem_of_nil; naive_solver.
Qed.

Lemma standins_elem pre new post z :
  z ∈ standins pre new post <-> pre = Some z \/ z = new \/ post = Some z.
Proof.
  unfold standins. destruct pre as [a|], post as [b|]; simpl;
    rewrite ?elem_of_cons, ?elem_of_nil; naive_solver.
Qed.

Lemma unused_old s0 t K z : unused s0 t K z -> length s0 <= z.
Proof. intros [[[? ?] _] _]. done. Qed.

(** The statements that split a text node around a match. *)
Lemma wp_splitAround w0 K ops cr w n pre new post :
  closed (dom w0) -> Mid w0 K ops cr w -> allGone K -> n < length (dom w0) ->
  (forall z, z ∈ standins pre new post -> unused (dom w0) (dom w) K z) ->
  NoDup (standins pre new post) ->
  wp (splitAround pre new post n)
    (fun _ w' =>
       exists p, K !! n = None /\ parentOf (dom w0) n = Some p /\
         Mid w0 (<[n := (p, standins pre new post)]> K) ops cr w' /\
         sameNodes (dom w) (dom w') /\
         forall z', z' ∉ standins pre new post ->
           unused (dom w0) (dom w) K z' ->
           unused (dom w0) (dom w') (<[n := (p, standins pre new post)]> K) z') w.
Proof.
  intros Hcl HM Hgone Hn Hun Hnd.
  pose proof (mid_rel _ _ _ _ _ HM) as HR.
  destruct (K !! n) as [[q ys]|] eqn:HK.
  { apply splitAround_detached.
    by destruct (gone_parent _ _ _ _ _ _ HR HK (Hgone _ _ _ HK)). }
  pose proof (untouched_parent _ _ _ _ HR HK Hn) as Hpar.
  destruct (parentOf (dom w0) n) as [p|] eqn:Hp;
    [|by apply splitAround_detached].
  assert (Hge : forall z, z ∈ standins pre new post -> z <> n).
  { intros z Hz ->. apply Hun, unused_old in Hz. lia. }
  assert (HM0 : Mid w0 (<[n := (p, [] ++ [n])]> K) ops cr w)
    by (by apply Mid_add_key).
  assert (Hun0 : forall z, unused (dom w0) (dom w) K z ->
            unused (dom w0) (dom w) (<[n := (p, [] ++ [n])]> K) z)
    by (intros z Hz; by apply unused_add_key).
  unfold splitAround.
  (* the leftover text before the match *)
  apply wp_bind. eapply wp_mono.
  { eapply (wp_insertIfSome w0 _ ops cr w n p [] pre); eauto.
    - by rewrite lookup_insert_eq.
    - intros Hin. inversion Hin.
    - intros z ->. apply Hun0, Hun, standins_elem. by left. }
  intros _ w1 (HM1 & Hs1 & Hu1). rewrite insert_insert_eq in HM1, Hu1.
  (* the replacement *)
  apply wp_bind. eapply wp_mono.
  { eapply (wp_insertIfSome w0 _ ops cr w1 n p ([] ++ optlist pre) (Some new)); eauto.
    - by rewrite lookup_insert_eq.
    - simpl. intros Hin. apply (Hge n); [|done]. apply standins_elem. left.
      destruct pre; simpl in Hin; [|inversion Hin].
      apply list_elem_of_singleton in Hin. by subst.
    - intros z [= <-]. apply Hu1.
      + intros Hin. destruct pre as [a|]; simpl in Hin; [|inversion Hin].
        apply list_elem_of_singleton in Hin. subst.
        unfold standins in Hnd. simpl in Hnd. apply NoDup_cons in Hnd as [Hnd _].
        apply Hnd. by left.
      + apply Hun0, Hun, standins_elem. right. by left. }
  intros _ w2 (HM2 & Hs2 & Hu2). rewrite insert_insert_eq in HM2, Hu2.
  (* the leftover text after the match *)
  apply wp_bind. eapply wp_mono.
  { eapply (wp_insertIfSome w0 _ ops cr w2 n p
              (([] ++ optlist pre) ++ optlist (Some new)) post); eauto.
    - by rewrite lookup_insert_eq.
    - simpl. intros Hin. apply (Hge n); [|done]. apply standins_elem.
      apply elem_of_app in Hin as [Hin|Hin].
      + left. destruct pre; simpl in Hin; [|inversion Hin].
        apply list_elem_of_singleton in Hin. by subst.
      + right. left. apply list_elem_of_singleton in Hin. by subst.
    - intros z ->.
      assert (Hzn : z <> new /\ z ∉ optlist pre).
      { unfold standins in Hnd. destruct pre as [a|]; simpl in *.
        - apply NoDup_cons in Hnd as [H1 Hnd]. apply NoDup_cons in Hnd as [H2 _].
          split.
          + intros ->. apply H2. by left.
          + intros Hin. apply list_elem_of_singleton in Hin. subst.
            apply H1. right. by left.
        - apply NoDup_cons in Hnd as [H2 _]. split.
          + intros ->. apply H2. by left.
          + intros Hin. inversion Hin. }
      destruct Hzn as [Hz1 Hz2]. apply Hu2.
      { simpl. intros Hin. apply list_elem_of_singleton in Hin. done. }
      apply Hu1; [done|]. apply Hun0, Hun, standins_elem. by right; right. }
  intros _ w3 (HM3 & Hs3 & Hu3). rewrite insert_insert_eq in HM3, Hu3.
  (* the text node itself *)
  apply wp_bind, wp_getDom.
  assert (Hl : n ∉ (([] ++ optlist pre) ++ optlist (Some new)) ++ optlist post).
  { intros Hin. apply (Hge n); [|done]. apply standins_elem.
    rewrite !elem_of_app in Hin. destruct Hin as [[[Hin|Hin]|Hin]|Hin].
    - inversion Hin.
    - left. destruct pre; simpl in Hin; [|inversion Hin].
      apply list_elem_of_singleton in Hin. by subst.
    - right. left. apply list_elem_of_singleton in Hin. by subst.
    - right. right. destruct post; simpl in Hin; [|inversion Hin].
      apply list_elem_of_singleton in Hin. by subst. }
  assert (HK3 : (<[n := (p, ((([] ++ optlist pre) ++ optlist (Some new)) ++
                             optlist post) ++ [n])]> K) !! n =
                Some (p, ((([] ++ optlist pre) ++ optlist (Some new)) ++
                          optlist post) ++ [n]))
    by (by rewrite lookup_insert_eq).
  assert (Hp3 : parentOf (dom w3) n = Some p).
  { eapply standin_parent; [apply HM3|apply HK3|].
    apply elem_of_app. right. by left. }
  eapply wp_mono; [eapply wp_removeChild; eauto|].
  intros _ w4 (HM4 & Hs4 & Hu4). rewrite insert_insert_eq in HM4, Hu4.
  assert (Hst : (([] ++ optlist pre) ++ optlist (Some new)) ++ optlist post =
                standins pre new post).
  { unfold standins. simpl. by rewrite <- app_assoc. }
  rewrite Hst in HM4, Hu4, Hu3.
  exists p. split; [done|]. split; [done|]. split; [done|].
  split; [by repeat (eapply sameNodes_trans; [|eassumption])|].
  intros z' Hz' Hu. apply Hu4. apply Hu3.
  { intros Hin. apply Hz', standins_elem. right. right.
    destruct post; simpl in Hin; [|inversion Hin].
    apply list_elem_of_singleton in Hin. by subst. }
  apply Hu2.
  { simpl. intros Hin. apply Hz', standins_elem. right. left.
    apply list_elem_of_singleton in Hin. by subst. }
  apply Hu1.
  { intros Hin. apply Hz', standins_elem. left.
    destruct pre; simpl in Hin; [|inversion Hin].
    apply list_elem_of_singleton in Hin. by subst. }
  by apply Hun0.
Qed.

(** ** Closures and the edits they undo *)

Lemma gone_weaken K K' n ys : K ⊆ K' -> gone K n ys -> gone K' n ys.
Proof.
  intros Hsub ([p HK] & H1 & H2). split; [|done]. exists p.
  by eapply lookup_weaken.
Qed.

Lemma Valid_weaken K K' op : K ⊆ K' -> Valid K op -> Valid K' op.
Proof.
  intros Hsub. destruct op; simpl.
  - intros (H1 & H2 & H3). split; [|done]. by eapply lookup_weaken.
  - by apply gone_weaken.
  - intros [H1 H2]. split; by eapply gone_weaken.
Qed.

Lemma Valid_key K op k : Valid K op -> k ∈ keysOf op -> is_Some (K !! k).
Proof.
  destruct op; simpl.
  - intros (H1 & _) Hk. apply list_elem_of_singleton in Hk. subst. eauto.
  - intros ([p H1] & _) Hk. apply list_elem_of_singleton in Hk. subst. eauto.
  - intros [([p H1] & _) ([q H2] & _)] Hk.
    apply elem_of_cons in Hk as [->|Hk]; [eauto|].
    apply list_elem_of_singleton in Hk. subst. eauto.
Qed.

Lemma Extends_refl K : Extends K [] K.
Proof.
  split; [done|]. split; [constructor|]. split; [constructor|].
  split; [intros k Hk; inversion Hk|]. intros k Hk. by left.
Qed.

Lemma Extends_trans K a K' b K'' :
  Extends K a K' -> Extends K' b K'' -> Extends K (a ++ b) K''.
Proof.
  intros (H1 & H2 & H3 & H4 & H5) (G1 & G2 & G3 & G4 & G5).
  split; [by etrans|]. split; [|split; [|split]].
  - apply Forall_app. split; [|done].
    eapply Forall_impl; [exact H2|]. intros op. by apply Valid_weaken.
  - rewrite bind_app. apply NoDup_app. split; [done|]. split; [|done].
    intros k Hka Hkb. apply G4 in Hkb.
    apply list_elem_of_bind in Hka as (op & Hk & Hop).
    rewrite Forall_forall in H2. specialize (H2 op Hop).
    destruct (Valid_key _ _ _ H2 Hk) as [v Hv]. congruence.
  - intros k Hk. rewrite bind_app in Hk. apply elem_of_app in Hk as [Hk|Hk].
    + by apply H4.
    + apply G4 in Hk. destruct (K !! k) as [v|] eqn:E; [|done].
      by rewrite (lookup_weaken _ _ _ _ E H1) in Hk.
  - intros k Hk. rewrite bind_app, elem_of_app.
    destruct (G5 k Hk) as [Hk'|Hk']; [|by right; right].
    destruct (H5 k Hk'); [by left|by right; left].
Qed.

Lemma Extends_one K n v op :
  K !! n = None -> keysOf op = [n] -> Valid (<[n := v]> K) op ->
  Extends K [op] (<[n := v]> K).
Proof.
  intros HK Hkeys HV. split; [by apply insert_subseteq|].
  split; [by constructor|].
  assert (Hb : [op] ≫= keysOf = [n]).
  { rewrite bind_singleton. done. }
  rewrite Hb. split; [apply NoDup_singleton|]. split.
  - intros k Hk. apply list_elem_of_singleton in Hk. by subst.
  - intros k Hk. destruct (decide (k = n)) as [->|Hne]; [right; by left|].
    left. by rewrite lookup_insert_ne in Hk.
Qed.

Lemma allGone_insert K n p ys : allGone K -> n ∉ ys -> allGone (<[n := (p, ys)]> K).
Proof.
  intros H Hn k q zs Hk. destruct (decide (k = n)) as [->|Hne].
  - rewrite lookup_insert_eq in Hk. by inversion Hk; subst.
  - rewrite lookup_insert_ne in Hk by done. by apply (H _ _ _ Hk).
Qed.

Lemma allGone_empty : allGone ∅.
Proof. intros k q zs Hk. by rewrite lookup_empty in Hk. Qed.

(** ** The inner portions *)

Lemma wp_replaceChild_inner w0 K ops cr w n z :
  closed (dom w0) -> Mid w0 K ops cr w -> allGone K -> n < length (dom w0) ->
  unused (dom w0) (dom w) K z ->
  wp (replaceChildM (parentOf (dom w) n) z n)
    (fun _ w' =>
       exists q, K !! n = None /\ parentOf (dom w0) n = Some q /\
         Mid w0 (<[n := (q, [z])]> K) ops cr w' /\
         sameNodes (dom w) (dom w')) w.
Proof.
  intros Hcl HM Hgone Hn Hz. pose proof (mid_rel _ _ _ _ _ HM) as HR.
  destruct (K !! n) as [[q ys]|] eqn:HK.
  { destruct (gone_parent _ _ _ _ _ _ HR HK (Hgone _ _ _ HK)) as [-> _]. done. }
  rewrite (untouched_parent _ _ _ _ HR HK Hn).
  destruct (parentOf (dom w0) n) as [q|] eqn:Hq; [|done].
  destruct (Mid_add_key _ _ _ _ _ _ _ HM HK Hn Hq) as [HR0 Hclo Hrev Hcr Hres].
  unfold replaceChildM. apply wp_liftDom. intros s' Hs'.
  assert (HK0 : (<[n := (q, [n])]> K) !! n = Some (q, [n]))
    by (by rewrite lookup_insert_eq).
  assert (Hin : n ∈ [n]) by (by left).
  destruct (replaceChild_Rel _ _ _ _ _ _ n z Hcl HR0 HK0 Hin) as [E HR'].
  { right. by apply unused_add_key. }
  rewrite E in Hs'. inversion Hs'; subst s'. clear Hs' E.
  rewrite insert_insert_eq, substChild_singleton, Nat.eqb_refl in HR'.
  destruct Hz as [[Hzb _] _].
  exists q. split; [done|]. split; [done|]. split.
  - split; simpl; try done.
    apply closed_setParent, closed_setParent, closed_subst; [done|].
    intros c Hc. apply list_elem_of_singleton in Hc. subst. lia.
  - apply sameNodes_subst2.
Qed.

Lemma wp_replaceInner options match_ w0 :
  closed (dom w0) -> wellBehavedReplace options ->
  forall ips K ops cr w,
    Mid w0 K ops cr w -> allGone K ->
    Forall (fun p => node p < length (dom w0)) ips ->
    (forall c, c ∈ cr -> length (dom w0) <= c < length (dom w)) ->
    wp (replaceInner options match_ ips)
      (fun _ w' =>
         exists K' ops' cr',
           Mid w0 K' (ops ++ ops') cr' w' /\ allGone K' /\ Extends K ops' K' /\
           grows (dom w) (dom w') /\
           (forall c, c ∈ cr' -> length (dom w0) <= c < length (dom w')) /\
           (forall k, k ∈ ops' ≫= keysOf -> k ∈ map node ips)) w.
Proof.
  intros Hcl Hwb. induction ips as [|portion ips IH];
    intros K ops cr w HM Hgone Hips Hcr.
  - simpl. apply wp_ret. exists K, [], cr. rewrite app_nil_r.
    split; [done|]. split; [done|]. split; [apply Extends_refl|].
    split; [done|]. split; [done|]. intros k Hk. inversion Hk.
  - inversion Hips as [|? ? Hn Hips']; subst. simpl.
    apply wp_bind. eapply wp_mono; [by apply wp_getPortionReplacementNode|].
    intros innerNode w1 (Ht1 & Hge1 & HM1 & Hu1 & _).
    apply wp_bind, wp_getDom. apply wp_bind.
    eapply wp_mono; [by apply wp_replaceChild_inner|].
    intros _ w2 (q & HK & Hq & HM2 & Hs2).
    apply wp_bind. eapply wp_mono; [by apply wp_addCreated|].
    intros _ w3 (Hd3 & HM3).
    apply wp_bind. eapply wp_mono; [by apply wp_pushRevert|].
    intros _ w4 (Hd4 & HM4).
    assert (Hne : node portion <> innerNode)
      by (apply unused_old in Hu1; lia).
    assert (Hgone1 : allGone (<[node portion := (q, [innerNode])]> K)).
    { apply allGone_insert; [done|]. intros Hin.
      apply list_elem_of_singleton in Hin. done. }
    assert (Hg14 : grows (dom w) (dom w4)).
    { rewrite Hd4, Hd3. eapply grows_trans; [by apply grows_take|].
      by apply sameNodes_grows. }
    assert (Hcr4 : forall c, c ∈ innerNode :: cr ->
              length (dom w0) <= c < length (dom w4)).
    { destruct Hg14 as [Hle _]. intros c Hc. apply elem_of_cons in Hc as [->|Hc].
      - rewrite Hd4, Hd3. destruct Hs2 as [-> _]. by destruct Hu1 as [[? _] _].
      - apply Hcr in Hc. lia. }
    eapply wp_mono; [by apply (IH _ _ _ _ HM4 Hgone1 Hips' Hcr4)|].
    intros _ w5 (K' & ops' & cr' & HM5 & Hgone5 & Hext5 & Hg5 & Hcr5 & Hkeys5).
    exists K', ([RevertInner innerNode (node portion)] ++ ops'), cr'.
    rewrite app_assoc. split; [done|]. split; [done|]. split; [|split; [|split]].
    + eapply Extends_trans; [|exact Hext5]. apply Extends_one; [done|done|].
      simpl. split; [exists q; by rewrite lookup_insert_eq|].
      split; [|apply NoDup_singleton]. intros Hin.
      apply list_elem_of_singleton in Hin. done.
    + by eapply grows_trans.
    + done.
    + intros k Hk. rewrite bind_app, bind_singleton in Hk. simpl in Hk.
      apply elem_of_cons in Hk as [->|Hk]; [by left|]. right. by apply Hkeys5.
Qed.

(** ** A match inside one text node *)

Lemma dataOf_kind (s s' : DOM) n : kindOf s' n = kindOf s n -> dataOf s' n = dataOf s n.
Proof.
  unfold kindOf, dataOf. destruct (s' !! n) as [[k' ? ?]|], (s !! n) as [[k ? ?]|];
    simpl; intros H; try done; by simplify_eq.
Qed.

Lemma instanceofText_lt (s : DOM) n : instanceofText s n = true -> n < length s.
Proof.
  unfold instanceofText. intros H. apply lookup_lt_is_Some.
  destruct (s !! n); [eauto|done].
Qed.

Lemma kindOf_alloc (s : DOM) k : kindOf (s ++ [mkNode k None []]) (length s) = Some k.
Proof. unfold kindOf. by rewrite lookup_app_r, Nat.sub_diag by lia. Qed.

Lemma childrenOf_alloc (s : DOM) k : childrenOf (s ++ [mkNode k None []]) (length s) = [].
Proof. unfold childrenOf. by rewrite lookup_app_r, Nat.sub_diag by lia. Qed.

(** [if (cond) { z = document.createTextNode(data); parent.insertBefore(z, n) }] *)
Lemma wp_splitOff w0 K ops cr w n p l (cond : bool) data :
  closed (dom w0) -> Mid w0 K ops cr w ->
  K !! n = Some (p, l ++ [n]) -> n ∉ l ->
  wp (if cond then
        do z <- liftAlloc (createTextNode data);
        do _ <- insertBeforeM (Some p) z n;
        ret (Some z)
      else ret None)
    (fun o w' =>
       Mid w0 (<[n := (p, (l ++ optlist o) ++ [n])]> K) ops cr w' /\
       grows (dom w) (dom w') /\
       (o = None <-> cond = false) /\
       forall z, o = Some z ->
         length (dom w) <= z < length (dom w') /\ length (dom w0) <= z /\
         kindOf (dom w') z = Some (TextNode data true) /\
         childrenOf (dom w') z = []) w.
Proof.
  intros Hcl HM HK Hnl. destruct cond.
  - apply wp_bind. eapply wp_mono; [by apply wp_createTextNode|].
    intros z w1 (-> & Hd1 & HM1 & Hu1 & _).
    apply wp_bind. eapply wp_mono; [by eapply wp_insertBefore; eauto|].
    intros _ w2 (HM2 & Hs2 & _). apply wp_ret. simpl.
    split; [done|]. split; [|split; [done|]].
    + eapply grows_trans; [|by apply sameNodes_grows]. rewrite Hd1. apply grows_app.
    + intros z [= <-]. destruct Hs2 as (Hl2 & Hk2 & Hc2).
      rewrite Hl2, Hk2, Hd1, length_app. simpl.
      split; [lia|]. split; [by apply unused_old in Hu1|].
      split; [apply kindOf_alloc|]. apply Hc2. rewrite Hd1. apply childrenOf_alloc.
  - apply wp_ret. simpl. rewrite app_nil_r, insert_id by done.
    split; [done|]. split; [apply grows_refl|]. split; [done|]. by intros z [=].
Qed.

Lemma replaceMatch_single options match_ sp ips ep w n :
  wellBehavedReplace options -> closed (dom w) ->
  node sp = n -> node ep = n -> n < length (dom w) ->
  wp (do precedingTextNode <-
        (if (0 <? indexInNode sp)%Z then
           do z <- liftAlloc
                     (createTextNode (JS.substring (dataOf (dom w) n) 0 (indexInNode sp)));
           do _ <- insertBeforeM (parentOf (dom w) n) z n;
           ret (Some z)
         else ret None);
      do newNode <- getPortionReplacementNode options ep match_;
      do _ <- insertBeforeM (parentOf (dom w) n) newNode n;
      do _ <- addCreated newNode;
      do s' <- getDom;
      do followingTextNode <-
        (if (endIndexInNode ep <? JS.len (dataOf s' n))%Z then
           do z <- liftAlloc
                     (createTextNode (JS.substringFrom (dataOf s' n) (endIndexInNode ep)));
           do _ <- insertBeforeM (parentOf (dom w) n) z n;
           ret (Some z)
         else ret None);
      do _ <- removeChildM (parentOf (dom w) n) n;
      do _ <- match parentOf (dom w) n with
              | Some parent =>
                  pushRevert
                    (RevertSingle precedingTextNode followingTextNode newNode n parent)
              | None => throw TypeError
              end;
      ret (Some (orNode followingTextNode newNode)))
    (fun r w' => exists ops, Replaced w sp ips ep r ops w') w.
Proof.
  intros Hwb Hcl Hsp Hep Hn.
  destruct (parentOf (dom w) n) as [p|] eqn:Hp.
  2:{ apply wp_bind. destruct (0 <? indexInNode sp)%Z.
      - apply wp_bind. apply wp_intro. intros z w1 _. by apply wp_bind.
      - apply wp_ret. apply wp_bind. apply wp_intro. intros z w1 _.
        by apply wp_bind. }
  pose proof (Mid_add_key _ _ _ _ _ n p (Mid_start w Hcl) (lookup_empty n) Hn Hp)
    as HM0.
  (* the text before the match *)
  apply wp_bind. eapply wp_mono.
  { eapply (wp_splitOff w _ [] [] w n p []); eauto.
    - by rewrite lookup_insert_eq.
    - intros Hin; inversion Hin. }
  intros pre w1 (HM1 & Hg1 & _ & Hpre). rewrite insert_insert_eq in HM1.
  (* the replacement *)
  apply wp_bind. eapply wp_mono; [by apply wp_getPortionReplacementNode|].
  intros new w2 (Ht2 & Hge2 & HM2 & Hu2 & _).
  assert (Hnpre : n ∉ [] ++ optlist pre).
  { simpl. intros Hin. destruct pre as [a|]; [|inversion Hin].
    apply list_elem_of_singleton in Hin. subst a.
    destruct (Hpre n eq_refl) as (? & _). lia. }
  apply wp_bind. eapply wp_mono.
  { eapply (wp_insertBefore w _ [] [] w2 n p ([] ++ optlist pre) new); eauto.
    by rewrite lookup_insert_eq. }
  intros _ w3 (HM3 & Hs3 & _). rewrite insert_insert_eq in HM3.
  apply wp_bind. eapply wp_mono; [by apply wp_addCreated|].
  intros _ w4 (Hd4 & HM4).
  apply wp_bind, wp_getDom.
  assert (Hg4 : grows (dom w) (dom w4)).
  { rewrite Hd4. eapply grows_trans; [exact Hg1|].
    eapply grows_trans; [by apply grows_take|]. by apply sameNodes_grows. }
  assert (Hdata : dataOf (dom w4) n = dataOf (dom w) n).
  { apply dataOf_kind. by apply Hg4. }
  rewrite Hdata.
  assert (Hnew : length (dom w) <= new < length (dom w4)).
  { destruct Hg1 as [Hle1 _]. split; [lia|]. rewrite Hd4.
    destruct Hs3 as [-> _]. by destruct Hu2 as [[[_ ?] _] _]. }
  assert (Hn2 : n ∉ ([] ++ optlist pre) ++ [new]).
  { intros Hin. apply elem_of_app in Hin as [Hin|Hin]; [done|].
    apply list_elem_of_singleton in Hin. lia. }
  (* the text after the match *)
  apply wp_bind. eapply wp_mono.
  { eapply (wp_splitOff w _ [] [new] w4 n p (([] ++ optlist pre) ++ [new])); eauto.
    by rewrite lookup_insert_eq. }
  intros post w5 (HM5 & Hg5 & Hnone & Hpost). rewrite insert_insert_eq in HM5.
  assert (Hn3 : n ∉ (([] ++ optlist pre) ++ [new]) ++ optlist post).
  { intros Hin. apply elem_of_app in Hin as [Hin|Hin]; [done|].
    destruct post as [b|]; [|inversion Hin].
    apply list_elem_of_singleton in Hin. subst b.
    destruct (Hpost n eq_refl) as (_ & ? & _). lia. }
  apply wp_bind. eapply wp_mono.
  { eapply (wp_removeChild w _ [] [new] w5 n p); eauto. by rewrite lookup_insert_eq. }
  intros _ w6 (HM6 & Hs6 & _).
  assert (Hst : (([] ++ optlist pre) ++ [new]) ++ optlist post = standins pre new post).
  { unfold standins. simpl. by rewrite <- app_assoc. }
  rewrite insert_insert_eq, Hst in HM6.
  apply wp_bind. eapply wp_mono; [by apply wp_pushRevert|].
  intros _ w7 (Hd7 & HM7). apply wp_ret. simpl in HM7.
  exists [RevertSingle pre post new n p].
  exists (<[n := (p, standins pre new post)]> ∅), [new], pre, new, post, p.
  assert (Hnd : NoDup (standins pre new post)).
  { apply NoDup_standins.
    - intros a ->. destruct (Hpre a eq_refl) as (? & _).
      apply grows_take in Ht2 as [? _]. lia.
    - intros b ->. destruct (Hpost b eq_refl) as (? & _). lia.
    - intros a b -> ->. destruct (Hpre a eq_refl) as (? & _).
      destruct (Hpost b eq_refl) as (? & _). apply grows_take in Ht2 as [? _].
      destruct Hs3 as [Hl3 _]. rewrite Hd4, Hl3 in *.
      destruct Hu2 as [[[_ ?] _] _]. lia. }
  split; [done|]. split.
  { apply Extends_one; [apply lookup_empty|done|].
    simpl. split; [by rewrite lookup_insert_eq|]. split; [|done].
    by rewrite <- Hst. }
  assert (Hg7 : grows (dom w) (dom w7)).
  { rewrite Hd7. eapply grows_trans; [exact Hg4|].
    eapply grows_trans; [exact Hg5|]. by apply sameNodes_grows. }
  split; [done|]. split.
  { intros k [v Hk]. destruct (decide (k = n)) as [->|Hne]; [by left|].
    rewrite lookup_insert_ne, lookup_empty in Hk by done. done. }
  rewrite Hep. split; [by rewrite lookup_insert_eq|]. split; [done|].
  split; [by left|]. split.
  { intros c Hc. apply list_elem_of_singleton in Hc. subst.
    destruct Hg5 as [? _]. destruct Hs6 as [Hl6 _]. rewrite Hd7, Hl6. lia. }
  split; [done|]. split; [by rewrite <- Hst|].
  split; [|done].
  intros z ->. destruct (Hpost z eq_refl) as (Hz1 & Hz2 & Hz3 & Hz4).
  destruct Hs6 as (Hl6 & Hk6 & Hc6). rewrite Hd7.
  split; [|split; [lia|split]].
  - intros Hin. apply list_elem_of_singleton in Hin. lia.
  - by rewrite Hk6.
  - by apply Hc6.
Qed.

(** ** A match that spans several text nodes *)

Lemma unused_lt s0 t K z : unused s0 t K z -> z < length t.
Proof. intros [[[? ?] _] _]. done. Qed.

Lemma Extends_span K1 K2 ops st e p q ys zs op :
  Extends K1 ops K2 -> K1 = <[st := (p, ys)]> ∅ -> K2 !! e = None ->
  keysOf op = [st; e] ->
  Valid (<[e := (q, zs)]> K2) op ->
  Extends ∅ (ops ++ [op]) (<[e := (q, zs)]> K2).
Proof.
  intros (H1 & H2 & H3 & H4 & H5) -> He Hkeys HV.
  assert (Hst : K2 !! st = Some (p, ys)).
  { eapply lookup_weaken; [|exact H1]. by rewrite lookup_insert_eq. }
  assert (Hne : st <> e) by congruence.
  assert (Hsub : K2 ⊆ <[e := (q, zs)]> K2) by by apply insert_subseteq.
  split; [apply map_empty_subseteq|]. split; [|split; [|split]].
  - apply Forall_app. split; [|by constructor].
    eapply Forall_impl; [exact H2|]. intros o. by apply Valid_weaken.
  - rewrite bind_app, bind_singleton, Hkeys. apply NoDup_app.
    split; [done|]. split.
    + intros k Hk Hin. apply elem_of_cons in Hin as [->|Hin].
      * apply H4 in Hk. by rewrite lookup_insert_eq in Hk.
      * apply list_elem_of_singleton in Hin. subst k.
        apply list_elem_of_bind in Hk as (o & Hk & Ho).
        rewrite Forall_forall in H2.
        destruct (Valid_key _ _ _ (H2 o Ho) Hk) as [v Hv]. congruence.
    + apply NoDup_cons. split; [|apply NoDup_singleton].
      intros Hin. apply list_elem_of_singleton in Hin. done.
  - intros k _. apply lookup_empty.
  - intros k Hk. right. rewrite bind_app, bind_singleton, Hkeys, elem_of_app.
    destruct (decide (k = e)) as [->|Hke]; [right; right; by left|].
    rewrite lookup_insert_ne in Hk by done.
    destruct (H5 k Hk) as [Hk1|Hk1]; [|by left].
    right. destruct (decide (k = st)) as [->|Hks]; [by left|].
    rewrite lookup_insert_ne, lookup_empty in Hk1 by done. by destruct Hk1.
Qed.

Lemma replaceMatch_multi options match_ sp ips ep w :
  wellBehavedReplace options -> closed (dom w) ->
  node sp < length (dom w) -> node ep < length (dom w) ->
  Forall (fun p => node p < length (dom w)) ips ->
  wp (do startPreceding <-
        createTextNodeIf (0 <? indexInNode sp)%Z
          (JS.substring (dataOf (dom w) (node sp)) 0 (indexInNode sp));
      do startFollowing <-
        createTextNodeIf (endIndexInNode sp <? JS.len (dataOf (dom w) (node sp)))%Z
          (JS.substringFrom (dataOf (dom w) (node sp)) (endIndexInNode sp));
      do firstNode <- getPortionReplacementNode options sp match_;
      do _ <- addCreated firstNode;
      do _ <- splitAround startPreceding firstNode startFollowing (node sp);
      do _ <- replaceInner options match_ ips;
      do lastNode <- getPortionReplacementNode options ep match_;
      do _ <- addCreated lastNode;
      do s2 <- getDom;
      do endPreceding <-
        createTextNodeIf (0 <? indexInNode ep)%Z
          (JS.substring (dataOf s2 (node ep)) 0 (indexInNode ep));
      do endFollowing <-
        createTextNodeIf (endIndexInNode ep <? JS.len (dataOf s2 (node ep)))%Z
          (JS.substringFrom (dataOf s2 (node ep)) (endIndexInNode ep));
      do _ <- splitAround endPreceding lastNode endFollowing (node ep);
      do _ <- pushRevert
                (RevertSpan startPreceding firstNode (node sp) startFollowing
                   endPreceding lastNode (node ep) endFollowing);
      ret (Some (orNode endFollowing lastNode)))
    (fun r w' => exists ops, Replaced w sp ips ep r ops w') w.
Proof.
  intros Hwb Hcl Hsp Hep Hips.
  pose proof (Mid_start w Hcl) as HM0.
  (* the nodes in the place of the start node *)
  apply wp_bind. eapply wp_mono; [by apply wp_createTextNodeIf|].
  intros a w1 ([x1 Hd1] & HM1 & Ha & _ & _).
  apply wp_bind. eapply wp_mono; [by apply wp_createTextNodeIf|].
  intros b w2 ([x2 Hd2] & HM2 & Hb & _ & Hk2).
  apply wp_bind. eapply wp_mono; [by apply wp_getPortionReplacementNode|].
  intros first w3 (Ht3 & Hge3 & HM3 & Hu3 & Hk3).
  apply wp_bind. eapply wp_mono; [by apply wp_addCreated|].
  intros _ w4 (Hd4 & HM4).
  assert (Hua : forall z, a = Some z -> z = length (dom w) /\ unused (dom w) (dom w4) ∅ z).
  { intros z Hz. destruct (Ha z Hz) as (? & Hu & _). split; [done|].
    rewrite Hd4. by apply Hk3, Hk2. }
  assert (Hub : forall z, b = Some z -> z = length (dom w1) /\ unused (dom w) (dom w4) ∅ z).
  { intros z Hz. destruct (Hb z Hz) as (? & Hu & _). split; [done|].
    rewrite Hd4. by apply Hk3. }
  assert (Hl1 : forall z, a = Some z -> z < length (dom w1)).
  { intros z Hz. destruct (Ha z Hz) as (_ & Hu & _). by apply unused_lt in Hu. }
  assert (Hl2 : forall z, b = Some z -> z < length (dom w2)).
  { intros z Hz. destruct (Hb z Hz) as (_ & Hu & _). by apply unused_lt in Hu. }
  assert (Hlen12 : length (dom w1) <= length (dom w2)).
  { rewrite Hd2, length_app. lia. }
  assert (Hlen01 : length (dom w) <= length (dom w1)).
  { rewrite Hd1, length_app. lia. }
  assert (Hnd1 : NoDup (standins a first b)).
  { apply NoDup_standins.
    - intros z Hz. specialize (Hl1 z Hz). lia.
    - intros z Hz. specialize (Hl2 z Hz). lia.
    - intros x y Hx Hy. specialize (Hl1 x Hx). destruct (Hub y Hy) as [-> _]. lia. }
  assert (Hun1 : forall z, z ∈ standins a first b -> unused (dom w) (dom w4) ∅ z).
  { intros z Hz. apply standins_elem in Hz as [Hz|[->|Hz]].
    - by apply Hua. - by rewrite Hd4. - by apply Hub. }
  apply wp_bind. eapply wp_mono.
  { eapply (wp_splitAround w ∅ [] [first] w4 (node sp) a first b); eauto.
    apply allGone_empty. }
  intros _ w5 (p & _ & Hp & HM5 & Hs5 & _).
  set (K1 := <[node sp := (p, standins a first b)]> ∅) in *.
  assert (Hg1 : allGone K1).
  { apply allGone_insert; [apply allGone_empty|].
    intros Hin. apply Hun1, unused_old in Hin. lia. }
  assert (Hlen5 : length (dom w5) = length (dom w4)) by apply Hs5.
  assert (Hfirst : length (dom w) <= first < length (dom w5)).
  { rewrite Hlen5, Hd4. split; [by apply unused_old in Hu3|by apply unused_lt in Hu3]. }
  (* the nodes between the start node and the end node *)
  apply wp_bind. eapply wp_mono.
  { eapply (wp_replaceInner options match_ w Hcl Hwb ips K1 [] [first] w5); eauto.
    intros c Hc. apply list_elem_of_singleton in Hc. by subst. }
  intros _ w6 (K2 & ops & cr & HM6 & Hg2 & Hext & Hgr6 & Hcr6 & Hkeys).
  simpl in HM6.
  (* the nodes in the place of the end node *)
  apply wp_bind. eapply wp_mono; [by apply wp_getPortionReplacementNode|].
  intros last w7 (Ht7 & Hge7 & HM7 & Hu7 & Hk7).
  apply wp_bind. eapply wp_mono; [by apply wp_addCreated|].
  intros _ w8 (Hd8 & HM8).
  apply wp_bind, wp_getDom.
  assert (Hg08 : grows (dom w) (dom w8)).
  { rewrite Hd8. eapply grows_trans; [|by apply grows_take].
    eapply grows_trans; [|exact Hgr6].
    eapply grows_trans; [|by apply sameNodes_grows].
    rewrite Hd4. eapply grows_trans; [|by apply grows_take].
    rewrite Hd2, Hd1, <- app_assoc. apply grows_app. }
  assert (Hdata : dataOf (dom w8) (node ep) = dataOf (dom w) (node ep)).
  { apply dataOf_kind. by apply Hg08. }
  rewrite Hdata.
  apply wp_bind. eapply wp_mono; [by apply wp_createTextNodeIf|].
  intros c w9 ([x9 Hd9] & HM9 & Hc & _ & Hk9).
  apply wp_bind. eapply wp_mono; [by apply wp_createTextNodeIf|].
  intros d w10 ([x10 Hd10] & HM10 & Hdd & Hnone & Hk10).
  assert (Hl9 : forall z, c = Some z -> z = length (dom w8) /\ z < length (dom w9)).
  { intros z Hz. destruct (Hc z Hz) as (? & Hu & _). split; [done|].
    by apply unused_lt in Hu. }
  assert (Hl10 : forall z, d = Some z -> z = length (dom w9) /\ z < length (dom w10)).
  { intros z Hz. destruct (Hdd z Hz) as (? & Hu & _). split; [done|].
    by apply unused_lt in Hu. }
  assert (Hlast : length (dom w) <= last < length (dom w8)).
  { rewrite Hd8. split; [by apply unused_old in Hu7|by apply unused_lt in Hu7]. }
  assert (Hlen89 : length (dom w8) <= length (dom w9)).
  { rewrite Hd9, length_app. lia. }
  assert (Hnd2 : NoDup (standins c last d)).
  { apply NoDup_standins.
    - intros z Hz. destruct (Hl9 z Hz). lia.
    - intros z Hz. destruct (Hl10 z Hz). lia.
    - intros x y Hx Hy. destruct (Hl9 x Hx), (Hl10 y Hy). lia. }
  assert (Hun2 : forall z, z ∈ standins c last d -> unused (dom w) (dom w10) K2 z).
  { intros z Hz. apply standins_elem in Hz as [Hz|[->|Hz]].
    - apply Hk10. by destruct (Hc z Hz) as (_ & ? & _).
    - apply Hk10, Hk9. by rewrite Hd8.
    - by destruct (Hdd z Hz) as (_ & ? & _). }
  apply wp_bind. eapply wp_mono.
  { eapply (wp_splitAround w K2 ops (last :: cr) w10 (node ep) c last d); eauto. }
  intros _ w11 (q & HK2e & Hq & HM11 & Hs11 & _).
  apply wp_bind. eapply wp_mono; [by apply wp_pushRevert|].
  intros _ w12 (Hd12 & HM12). apply wp_ret.
  set (op := RevertSpan a first (node sp) b c last (node ep) d) in *.
  exists (ops ++ [op]), (<[node ep := (q, standins c last d)]> K2),
    (last :: cr), c, last, d, q.
  assert (HK2s : K2 !! node sp = Some (p, standins a first b)).
  { destruct Hext as (Hsub & _). eapply lookup_weaken; [|exact Hsub].
    unfold K1. by rewrite lookup_insert_eq. }
  assert (Hne : node sp <> node ep) by congruence.
  assert (Hnotin2 : node ep ∉ standins c last d).
  { intros Hin. apply Hun2, unused_old in Hin. lia. }
  split; [done|]. split.
  { eapply (Extends_span K1 K2 ops (node sp) (node ep) p q
              (standins a first b) (standins c last d) op);
      [exact Hext|done|done|done|].
    simpl. split.
    - split; [exists p; by rewrite lookup_insert_ne|]. split; [|done].
      intros Hin. apply Hun1, unused_old in Hin. lia.
    - split; [exists q; by rewrite lookup_insert_eq|]. done. }
  assert (Hg12 : grows (dom w) (dom w12)).
  { rewrite Hd12. eapply grows_trans; [exact Hg08|].
    eapply grows_trans; [|by apply sameNodes_grows].
    rewrite Hd10, Hd9, <- app_assoc. apply grows_app. }
  split; [done|]. split.
  { intros k Hk. destruct (decide (k = node ep)) as [->|Hke]; [right; by left|].
    rewrite lookup_insert_ne in Hk by done.
    destruct Hext as (_ & _ & _ & _ & H5).
    destruct (H5 k Hk) as [Hk1|Hk1]; [|right; right; by apply Hkeys].
    left. destruct (decide (k = node sp)) as [->|Hks]; [done|].
    unfold K1 in Hk1. rewrite lookup_insert_ne, lookup_empty in Hk1 by done.
    by destruct Hk1. }
  split; [by rewrite lookup_insert_eq|]. split; [done|].
  split; [by left|]. split.
  { assert (length (dom w8) <= length (dom w12)).
    { rewrite Hd12. destruct Hs11 as [-> _]. rewrite Hd10, Hd9, !length_app. lia. }
    assert (length (dom w6) <= length (dom w8)).
    { rewrite Hd8. apply grows_take in Ht7 as [? _]. done. }
    intros z Hz. apply elem_of_cons in Hz as [->|Hz]; [lia|].
    apply Hcr6 in Hz. lia. }
  split; [done|]. split; [done|].
  split; [|by rewrite Hnone].
  intros z ->. destruct (Hdd z eq_refl) as (-> & Hu & Hkz & Hcz).
  destruct Hs11 as (Hl11 & Hk11 & Hc11). rewrite Hd12.
  split; [|split; [|split]].
  - intros Hin. apply elem_of_cons in Hin as [Hin|Hin]; [lia|].
    apply Hcr6 in Hin. assert (length (dom w6) <= length (dom w8)); [|lia].
    rewrite Hd8. apply grows_take in Ht7 as [? _]. done.
  - apply grows_take in Ht7 as [? _]. destruct Hgr6 as [? _].
    rewrite <- Hd8 in *. lia.
  - by rewrite Hk11.
  - by apply Hc11.
Qed.

(** ** [replaceMatch] *)

Lemma replaceMatch_spec options match_ sp ips ep w :
  wellBehavedReplace options -> closed (dom w) ->
  Forall (fun p => node p < length (dom w)) ips ->
  wp (replaceMatch options match_ sp ips ep)
    (fun r w' =>
       (r = None /\ w' = w) \/ exists ops, Replaced w sp ips ep r ops w') w.
Proof.
  intros Hwb Hcl Hips. unfold replaceMatch. apply wp_bind, wp_getDom.
  destruct (instanceofText (dom w) (node sp)) eqn:Hs; simpl;
    [|apply wp_ret; by left].
  destruct (instanceofText (dom w) (node ep)) eqn:He; simpl;
    [|apply wp_ret; by left].
  apply instanceofText_lt in Hs, He.
  destruct (Nat.eqb (node sp) (node ep)) eqn:E.
  - apply Nat.eqb_eq in E. eapply wp_mono.
    + by apply (replaceMatch_single options match_ sp ips ep w (node sp)).
    + intros r w' H. by right.
  - apply Nat.eqb_neq in E. eapply wp_mono.
    + by apply (replaceMatch_multi options match_ sp ips ep w).
    + intros r w' H. by right.
Qed.

Lemma Replaced_Edited w sp ips ep r ops w' :
  Replaced w sp ips ep r ops w' -> Edited w ops w'.
Proof. intros (K & cr & pre & new & post & p & HM & HE & _). by exists K, cr. Qed.

(** ** Undoing the edits *)

Lemma removeChild_standin s0 t K n p ys a :
  closed s0 -> Rel s0 t K -> K !! n = Some (p, ys) -> a ∈ ys ->
  parentOf t a = Some p /\
  exists t', removeChild p a t = Ok t' /\
    Rel s0 t' (<[n := (p, substChild a [] ys)]> K).
Proof.
  intros Hcl HR HK Ha.
  destruct (standin_parent _ _ _ _ _ _ _ HR HK Ha) as [Hp _].
  destruct (removeChild_Rel _ _ _ _ _ _ _ Hcl HR HK Ha) as [E HR'].
  split; [done|]. eauto.
Qed.

Lemma removeFrom_Rel s0 t K n p ys o :
  closed s0 -> Rel s0 t K -> K !! n = Some (p, ys) ->
  (forall a, o = Some a -> a ∈ ys) ->
  exists t', removeFrom p o t = Ok t' /\
    Rel s0 t' (<[n := (p, without o ys)]> K).
Proof.
  intros Hcl HR HK Ho. destruct o as [a|]; simpl.
  - destruct (removeChild_standin _ _ _ _ _ _ _ Hcl HR HK (Ho a eq_refl))
      as (Hp & t' & E & HR').
    rewrite Hp, Nat.eqb_refl. eauto.
  - exists t. split; [done|]. by rewrite insert_id.
Qed.

Lemma removeFromParent_Rel s0 t K n p ys o :
  closed s0 -> Rel s0 t K -> K !! n = Some (p, ys) ->
  (forall a, o = Some a -> a ∈ ys) ->
  exists t', removeFromParent o t = Ok t' /\
    Rel s0 t' (<[n := (p, without o ys)]> K).
Proof.
  intros Hcl HR HK Ho. destruct o as [a|]; simpl.
  - destruct (removeChild_standin _ _ _ _ _ _ _ Hcl HR HK (Ho a eq_refl))
      as (Hp & t' & E & HR').
    rewrite Hp. eauto.
  - exists t. split; [done|]. by rewrite insert_id.
Qed.

Lemma putBack_Rel s0 t K n p ys new :
  closed s0 -> Rel s0 t K -> K !! n = Some (p, ys) -> new ∈ ys -> n ∉ ys ->
  exists t', putBack n new t = Ok t' /\
    Rel s0 t' (<[n := (p, substChild new [n] ys)]> K).
Proof.
  intros Hcl HR HK Hnew Hn.
  destruct (standin_parent _ _ _ _ _ _ _ HR HK Hnew) as [Hp _].
  destruct (replaceChild_Rel s0 t K n p ys new n Hcl HR HK Hnew) as [E HR'];
    [by left|].
  unfold putBack. rewrite Hp. eauto.
Qed.

(** The stand-ins of a split text node, taken out one after the other. *)
Lemma standins_undone pre new post n :
  NoDup (standins pre new post) -> n ∉ standins pre new post ->
  new ∈ without pre (standins pre new post) /\
  (forall b, post = Some b -> b ∈ without pre (standins pre new post)) /\
  (n ∉ without pre (standins pre new post)) /\
  new ∈ without post (without pre (standins pre new post)) /\
  (n ∉ without post (without pre (standins pre new post))) /\
  substChild new [n] (without post (without pre (standins pre new post))) = [n] /\
  (forall b, post = Some b ->
     b ∈ substChild new [n] (without pre (standins pre new post))) /\
  without post (substChild new [n] (without pre (standins pre new post))) = [n].
Proof.
  intros Hnd Hn. unfold standins, without in *.
  destruct pre as [a|], post as [b|]; simpl in *;
    repeat match goal with
           | H : NoDup (_ :: _) |- _ => apply NoDup_cons in H as [? H]
           | H : _ ∉ _ :: _ |- _ => apply not_elem_of_cons in H as [? H]
           end;
    unfold substChild; simpl;
    repeat match goal with
           | |- context [Nat.eqb ?x ?x] => rewrite (Nat.eqb_refl x)
           | |- context [Nat.eqb ?x ?y] =>
               rewrite (proj2 (Nat.eqb_neq x y)) by congruence
           | _ => progress simpl
           end;
    repeat split; try (intros ? [= <-]); try done;
    rewrite ?elem_of_cons, ?elem_of_nil; try set_solver.
Qed.

Ltac chain E := rewrite E; clear E; simpl.

Lemma undo_single s0 t K pre post new n p :
  closed s0 -> Rel s0 t K ->
  K !! n = Some (p, standins pre new post) ->
  n ∉ standins pre new post -> NoDup (standins pre new post) ->
  exists t', runRevert (RevertSingle pre post new n p) t = Ok t' /\
    Rel s0 t' (<[n := (p, [n])]> K).
Proof.
  intros Hcl HR HK Hn Hnd.
  destruct (standins_undone pre new post n Hnd Hn)
    as (Hnew1 & Hpost1 & Hn1 & Hnew2 & Hn2 & E2 & _).
  destruct (removeFrom_Rel s0 t K n p (standins pre new post) pre Hcl HR HK)
    as (t1 & E & HR1).
  { intros a ->. apply standins_elem. by left. }
  simpl. chain E.
  destruct (removeFrom_Rel s0 t1 _ n p (without pre (standins pre new post))
              post Hcl HR1) as (t2 & E & HR2);
    [by rewrite lookup_insert_eq|done|].
  chain E. rewrite insert_insert_eq in HR2.
  destruct (putBack_Rel s0 t2 _ n p
              (without post (without pre (standins pre new post))) new Hcl HR2)
    as (t3 & E & HR3); [by rewrite lookup_insert_eq|done|done|].
  rewrite insert_insert_eq, E2 in HR3. eauto.
Qed.

Lemma undo_split s0 t K pre post new n p :
  closed s0 -> Rel s0 t K -> gone K n (standins pre new post) ->
  parentOf s0 n = Some p ->
  exists t',
    andThen (removeFromParent pre t) (fun s =>
    andThen (putBack n new s) (fun s => removeFromParent post s)) = Ok t' /\
    Rel s0 t' (<[n := (p, [n])]> K).
Proof.
  intros Hcl HR ([q HK] & Hn & Hnd) Hp.
  assert (q = p) as ->.
  { destruct (rel_key _ _ _ HR _ _ _ HK) as (_ & Hq & _). congruence. }
  destruct (standins_undone pre new post n Hnd Hn)
    as (Hnew1 & Hpost1 & Hn1 & _ & _ & _ & Hpost3 & E3).
  destruct (removeFromParent_Rel s0 t K n p (standins pre new post) pre Hcl HR HK)
    as (t1 & E & HR1).
  { intros a ->. apply standins_elem. by left. }
  chain E.
  destruct (putBack_Rel s0 t1 _ n p (without pre (standins pre new post))
              new Hcl HR1) as (t2 & E & HR2);
    [by rewrite lookup_insert_eq|done|done|].
  chain E. rewrite insert_insert_eq in HR2.
  destruct (removeFromParent_Rel s0 t2 _ n p
              (substChild new [n] (without pre (standins pre new post)))
              post Hcl HR2) as (t3 & E & HR3);
    [by rewrite lookup_insert_eq|done|].
  rewrite insert_insert_eq, E3 in HR3. eauto.
Qed.

(** One closure puts its original nodes back and leaves the other edits
    alone. *)
Lemma runRevert_Rel s0 t K op :
  closed s0 -> Rel s0 t K -> Valid K op -> NoDup (keysOf op) ->
  exists t' K', runRevert op t = Ok t' /\ Rel s0 t' K' /\
    (forall k, k ∈ keysOf op -> exists p, K' !! k = Some (p, [k])) /\
    (forall k, k ∉ keysOf op -> K' !! k = K !! k).
Proof.
  intros Hcl HR HV Hnd. destruct op as [pre post new n p|inner n|a f st b c l e d].
  - destruct HV as (HK & Hn & Hnd').
    destruct (undo_single _ _ _ _ _ _ _ _ Hcl HR HK Hn Hnd') as (t' & E & HR').
    exists t', (<[n := (p, [n])]> K). split; [done|]. split; [done|]. split.
    + intros k Hk. apply list_elem_of_singleton in Hk. subst.
      exists p. by rewrite lookup_insert_eq.
    + intros k Hk. apply not_elem_of_cons in Hk as [Hk _].
      by rewrite lookup_insert_ne.
  - destruct HV as ([p HK] & Hn & _).
    destruct (putBack_Rel s0 t K n p [inner] inner Hcl HR HK) as (t' & E & HR');
      [by left|done|].
    rewrite substChild_singleton, Nat.eqb_refl in HR'.
    exists t', (<[n := (p, [n])]> K). split; [done|]. split; [done|]. split.
    + intros k Hk. apply list_elem_of_singleton in Hk. subst.
      exists p. by rewrite lookup_insert_eq.
    + intros k Hk. apply not_elem_of_cons in Hk as [Hk _].
      by rewrite lookup_insert_ne.
  - destruct HV as [H1 H2]. simpl in Hnd.
    apply NoDup_cons in Hnd as [Hne _]. apply not_elem_of_cons in Hne as [Hne _].
    pose proof H1 as ([p HK1] & _). pose proof H2 as ([q HK2] & Hn2 & Hnd2).
    destruct (rel_key _ _ _ HR _ _ _ HK1) as (_ & Hp & _).
    destruct (rel_key _ _ _ HR _ _ _ HK2) as (_ & Hq & _).
    destruct (undo_split _ _ _ _ _ _ _ _ Hcl HR H1 Hp) as (t1 & E1 & HR1).
    assert (H2' : gone (<[st := (p, [st])]> K) e (standins c l d)).
    { split; [|done]. exists q. by rewrite lookup_insert_ne. }
    destruct (undo_split _ _ _ _ _ _ _ _ Hcl HR1 H2' Hq) as (t2 & E2 & HR2).
    exists t2, (<[e := (q, [e])]> (<[st := (p, [st])]> K)). split.
    + simpl. destruct (removeFromParent a t) as [u1| |]; simpl in *; try done.
      destruct (putBack st f u1) as [u2| |]; simpl in *; try done.
      by rewrite E1.
    + split; [done|]. split.
      * intros k Hk. apply elem_of_cons in Hk as [->|Hk].
        -- exists p. by rewrite lookup_insert_ne, lookup_insert_eq.
        -- apply list_elem_of_singleton in Hk. subst.
           exists q. by rewrite lookup_insert_eq.
      * intros k Hk. apply not_elem_of_cons in Hk as [Hk1 Hk].
        apply not_elem_of_cons in Hk as [Hk2 _].
        by rewrite !lookup_insert_ne.
Qed.

Lemma Valid_same K K' op :
  (forall k, k ∈ keysOf op -> K' !! k = K !! k) -> Valid K op -> Valid K' op.
Proof.
  intros H. destruct op; simpl in *.
  - intros (H1 & H2). split; [|done]. rewrite H; [done|by left].
  - intros ([p H1] & H2). split; [|done]. exists p. rewrite H; [done|by left].
  - intros [([p H1] & H2) ([q H3] & H4)]. split; (split; [|done]).
    + exists p. rewrite H; [done|by left].
    + exists q. rewrite H; [done|right; by left].
Qed.

Lemma runReverts_Rel s0 :
  closed s0 -> forall ops t K,
  Rel s0 t K -> Forall (Valid K) ops -> NoDup (ops ≫= keysOf) ->
  exists t' K', runReverts ops t = Ok t' /\ Rel s0 t' K' /\
    (forall k, k ∈ ops ≫= keysOf -> exists p, K' !! k = Some (p, [k])) /\
    (forall k, k ∉ ops ≫= keysOf -> K' !! k = K !! k).
Proof.
  intros Hcl. induction ops as [|op ops IH]; intros t K HR HV Hnd.
  - exists t, K. split; [done|]. split; [done|]. split; [|done].
    intros k Hk. inversion Hk.
  - rewrite bind_cons in Hnd. apply NoDup_app in Hnd as (Hnd1 & Hdisj & Hnd2).
    inversion HV as [|? ? HV1 HV2]; subst.
    destruct (runRevert_Rel _ _ _ _ Hcl HR HV1 Hnd1)
      as (t1 & K1 & E1 & HR1 & Hk1 & Hs1).
    destruct (IH t1 K1 HR1) as (t2 & K2 & E2 & HR2 & Hk2 & Hs2); [|done|].
    { rewrite Forall_forall in HV2 |- *. intros o Ho.
      apply (Valid_same K); [|by apply HV2].
      intros k Hk. apply Hs1. intros Hin. apply (Hdisj k Hin).
      apply list_elem_of_bind. eauto. }
    exists t2, K2. split; [simpl; by rewrite E1|]. split; [done|]. split.
    + intros k Hk. rewrite bind_cons in Hk.
      destruct (decide (k ∈ ops ≫= keysOf)) as [Hin|Hin]; [by apply Hk2|].
      apply elem_of_app in Hk as [Hk|Hk]; [|done].
      rewrite Hs2 by done. by apply Hk1.
    + intros k Hk. rewrite bind_cons in Hk. apply not_elem_of_app in Hk as [Ha Hb].
      rewrite Hs2 by done. by apply Hs1.
Qed.

Lemma keysOf_rev (ops : list RevertOp) : rev ops ≫= keysOf ≡ₚ ops ≫= keysOf.
Proof.
  induction ops as [|op ops IH]; [done|].
  simpl. rewrite bind_app, bind_singleton, IH.
  apply Permutation_app_comm.
Qed.

(** The closures of a run of [replaceMatch], called from the last to the
    first, give the document of before the run, also when nodes were
    created since. *)
Lemma undo_edits w ops w' ext :
  closed (dom w) -> Edited w ops w' ->
  exists t', runReverts (rev ops) (dom w' ++ ext) = Ok t' /\
    take (length (dom w)) t' = dom w.
Proof.
  intros Hcl (K & cr & HM & Hsub & HV & Hnd & Hnone & Hall).
  pose proof (Rel_app _ _ _ ext (mid_rel _ _ _ _ _ HM)) as HR.
  destruct (runReverts_Rel _ Hcl (rev ops) _ K HR) as (t' & K' & E & HR' & Hk & Hs).
  { apply Forall_forall. intros o Ho. rewrite Forall_forall in HV.
    apply HV. apply list_elem_of_In. apply in_rev. by apply list_elem_of_In. }
  { by rewrite keysOf_rev. }
  exists t'. split; [done|]. apply (Rel_restored _ _ K' HR').
  intros n p ys HK'.
  destruct (decide (n ∈ rev ops ≫= keysOf)) as [Hin|Hin].
  - destruct (Hk n Hin) as [q Hq]. congruence.
  - rewrite Hs in HK' by done. destruct (Hall n) as [Hn|Hn]; [eauto| |].
    + rewrite lookup_empty in Hn. by destruct Hn.
    + rewrite keysOf_rev in Hin. done.
Qed.

(** ** C1: the run of the engine and [revert] *)

Lemma closedb_closed s : closedb s = true -> closed s.
Proof.
  unfold closedb, closed, childrenOf. intros H i c Hc.
  rewrite forallb_forall in H.
  destruct (s !! i) as [nd|] eqn:E; [|inversion Hc].
  apply list_elem_of_lookup_2, list_elem_of_In, H in E.
  rewrite forallb_forall in E. apply list_elem_of_In, E in Hc.
  by apply Nat.ltb_lt.
Qed.

Lemma runReverts_app l1 l2 t :
  runReverts (l1 ++ l2) t = andThen (runReverts l1 t) (runReverts l2).
Proof.
  revert t. induction l1 as [|op l1 IH]; intros t; simpl; [done|].
  destruct (runRevert op t); simpl; [apply IH|done..].
Qed.

Lemma Undoable_start s : Undoable s [] s.
Proof. intros ext. exists (s ++ ext). split; [done|]. apply take_app_length. Qed.

Lemma Undoable_step s w ops w' :
  closed (dom w) -> Undoable s (reverts w) (dom w) -> Edited w ops w' ->
  Undoable s (reverts w') (dom w').
Proof.
  intros Hcl Hu He ext.
  destruct (undo_edits w ops w' ext Hcl He) as (t1 & E1 & Ht1).
  destruct He as (K & cr & HM & _).
  rewrite (mid_reverts _ _ _ _ _ HM), rev_app_distr, runReverts_app, E1. simpl.
  rewrite <- (take_drop (length (dom w)) t1), Ht1. apply Hu.
Qed.

Lemma textStep_inner cur curText match_ st :
  innerPortions (textStep cur curText match_ st) = innerPortions st \/
  exists p, node p = cur /\
    innerPortions (textStep cur curText match_ st) = innerPortions st ++ [p].
Proof.
  unfold textStep. simpl.
  split_ifs; first [by left|right; eexists; split; [|reflexivity]; done].
Qed.

Lemma isTextNode_lt (s : DOM) n : isTextNode s n = true -> n < length s.
Proof.
  unfold isTextNode. intros H. apply lookup_lt_is_Some.
  destruct (s !! n); [eauto|done].
Qed.

Lemma afterText_inner (s : DOM) cur st :
  Forall (fun p => node p < length s) (innerPortions st) ->
  Forall (fun p => node p < length s) (innerPortions (afterText s cur st)).
Proof.
  intros H. unfold afterText. destruct (curMatch st) as [m|]; [|done].
  destruct (isTextNode s cur) eqn:E; [|done]. apply isTextNode_lt in E.
  destruct (textStep_inner cur (dataOf s cur) m st) as [->|(p & Hp & ->)]; [done|].
  apply Forall_app. split; [done|]. constructor; [lia|constructor].
Qed.

Lemma popUpFrom_inner s root st :
  innerPortions (popUpFrom s root st) = innerPortions st.
Proof.
  unfold popUpFrom. by destruct (popUp s root (nodeStack st) (curNode st) (done st))
    as [[? ?] ?].
Qed.

Lemma iteration_Revertible options root s cur st w st' w' :
  wellBehavedReplace options -> Revertible s st w ->
  iteration options root cur st w = (Ok st', w') ->
  Revertible s st' w'.
Proof.
  intros Hwb (Hcl & Hu & Hin) E. unfold iteration in E.
  destruct (inb cur (createdNodes w)).
  { destruct (nextSibling (dom w) cur); inversion E; subst; clear E;
      (split; [done|]; split; [done|]); [done|by rewrite popUpFrom_inner]. }
  pose proof (afterText_inner (dom w) cur st Hin) as Hin'.
  set (st1 := afterText (dom w) cur st) in *.
  assert (Hmove : forall st2 : Loop,
            innerPortions st2 = innerPortions st1 -> Revertible s st2 w).
  { intros st2 E2. split; [done|]. split; [done|]. by rewrite E2. }
  destruct (startPortion st1) as [sp|] eqn:Esp;
    [destruct (endPortion st1) as [ep|] eqn:Eep;
     [destruct (curMatch st1) as [m|] eqn:Em|]|].
  2-4: destruct (if _ : bool then None else firstChild (dom w) cur);
         [|destruct (nextSibling (dom w) cur)]; inversion E; subst;
         apply Hmove; try done; apply popUpFrom_inner.
  unfold bind at 1, logResolved at 1 in E. unfold bind at 1 in E.
  set (w1 := mkWorld (dom w) (reverts w) (createdNodes w)
               (resolved w ++ [mkResolved m sp (innerPortions st1) ep])) in *.
  pose proof (replaceMatch_spec options m sp (innerPortions st1) ep w1 Hwb Hcl Hin')
    as Hwp.
  destruct (replaceMatch options m sp (innerPortions st1) ep w1)
    as [[r| |] w2] eqn:Er; try discriminate.
  unfold wp in Hwp. rewrite Er in Hwp. unfold ret in E. inversion E; subst; clear E.
  destruct Hwp as [[-> ->]|[ops Hrep]].
  - split; [done|]. split; [done|]. constructor.
  - apply Replaced_Edited in Hrep. pose proof Hrep as (K & cr & HM & _).
    split; [apply (mid_closed _ _ _ _ _ HM)|]. split; [|constructor].
    by apply (Undoable_step s w1 ops w').
Qed.

Lemma processLoop_Revertible options root s :
  wellBehavedReplace options ->
  forall fuel st w st' w',
    Revertible s st w -> processLoop options root fuel st w = (Ok st', w') ->
    Revertible s st' w'.
Proof.
  intros Hwb. induction fuel as [|fuel IH]; intros st w st' w' HI E; [done|].
  simpl in E. destruct (curNode st) as [cur|]; [|by inversion E; subst].
  destruct (done st); [by inversion E; subst|].
  unfold bind in E.
  destruct (iteration options root cur st w) as [[st1| |] w1] eqn:E1; try done.
  eapply IH; [|exact E]. by eapply iteration_Revertible.
Qed.

Lemma wellBehavedReplace_effective options :
  wellBehavedReplace options -> wellBehavedReplace (effectiveOptions options).
Proof.
  unfold wellBehavedReplace, effectiveOptions.
  by destruct (preset options) as [[]|].
Qed.

Lemma newFinder_Revertible fuel root options s f w :
  closed s -> wellBehavedReplace options ->
  newFinder fuel root options (freshWorld s) = (Ok f, w) ->
  closed (dom w) /\ Undoable s (reverts w) (dom w).
Proof.
  intros Hcl Hwb E. unfold newFinder in E.
  assert (H0 : closed (dom (freshWorld s)) /\
               Undoable s (reverts (freshWorld s)) (dom (freshWorld s))).
  { split; [done|apply Undoable_start]. }
  destruct (search fuel (effectiveOptions options) (dom (freshWorld s)) root)
    as [ms| |]; try done.
  destruct ms as [|m ms]; [by inversion E; subst|].
  unfold bind, processMatches in E.
  destruct (processLoop _ _ _ _ _) as [[st| |] w1] eqn:E1; try done.
  unfold ret in E. inversion E; subst.
  apply wellBehavedReplace_effective in Hwb.
  eapply (processLoop_Revertible _ _ s Hwb) in E1 as (? & ? & _); [done|].
  split; [apply H0|]. split; [apply H0|]. simpl. constructor.
Qed.

(** C1: on a document whose nodes have their children in the store, and
    with a replacement function (if any) that only creates nodes, every run
    of the engine that returns can be reverted: [revert], which calls the
    recorded inverse operations from the last to the first, does not throw,
    empties the list, and leaves every node of the original document as it
    was before the run: the same kind and text, the same parent, the same
    children in the same order. Nodes created by the run stay in the store,
    out of the tree. *)
Theorem revert_restores_the_document
    (fuel : nat) (s : DOM) (root : nat) (options : Options)
    (f : Finder) (w : World) :
  closed s -> wellBehavedReplace options ->
  findAndReplaceDOMText fuel s root options = (Ok f, w) ->
  exists w',
    revert w = (Ok tt, w') /\ reverts w' = [] /\
    runReverts (rev (reverts w)) (dom w) = Ok (dom w') /\
    take (length s) (dom w') = s.
Proof.
  intros Hcl Hwb E.
  destruct (newFinder_Revertible _ _ _ _ _ _ Hcl Hwb E) as [_ Hu].
  destruct (Hu []) as (t & Et & Ht). rewrite app_nil_r in Et.
  destruct (revert_spec w) as (t' & Et' & Er).
  assert (t' = t) as -> by congruence.
  eexists. split; [exact Er|]. simpl. done.
Qed.

Lemma revert_restores_the_document_witness :
  dom (snd (findAndReplaceDOMText 100 spanDoc 0 spanOptions)) <> spanDoc /\
  exists w',
    revert (snd (findAndReplaceDOMText 100 spanDoc 0 spanOptions)) = (Ok tt, w') /\
    reverts w' = [] /\
    runReverts
      (rev (reverts (snd (findAndReplaceDOMText 100 spanDoc 0 spanOptions))))
      (dom (snd (findAndReplaceDOMText 100 spanDoc 0 spanOptions))) = Ok (dom w') /\
    take (length spanDoc) (dom w') = spanDoc.
Proof.
  split; [by vm_compute|].
  eapply (revert_restores_the_document 100 spanDoc 0 spanOptions).
  - apply closedb_closed. reflexivity.
  - exact I.
  - vm_compute. reflexivity.
Defined.

(** C1, as stated, fails: the replacement function hands out the same
    element, made before the run, for both matches of [a] in the text
    [a-a].  The second insertion takes the element away from the place of
    the first one; the run returns, and [revert] leaves the root without
    children.  (The children of every node of the document are nodes of
    the store.) *)
Lemma revert_loses_a_reused_node :
  closedb reusedDoc = true /\
  Html.innerHTML reusedDoc 0 = txt "a-a" /\
  (exists f, fst (findAndReplaceDOMText 20 reusedDoc 0 reuseOptions) = Ok f) /\
  markupAfter (findAndReplaceDOMText 20 reusedDoc 0 reuseOptions) = "-<b></b>"%string /\
  exists w',
    revert (snd (findAndReplaceDOMText 20 reusedDoc 0 reuseOptions)) = (Ok tt, w') /\
    childrenOf (dom w') 0 = [] /\
    Html.innerHTML (dom w') 0 = [] /\
    take (length reusedDoc) (dom w') <> reusedDoc.
Proof.
  split; [by vm_compute|].
  split; [by vm_compute|]. split; [eexists; by vm_compute|].
  split; [by vm_compute|].
  eexists. split; [by vm_compute|]. split; [by vm_compute|].
  split; [by vm_compute|]. by vm_compute.
Qed.

(** ** Trees and the text aggregation *)

Lemma Tree_nested_ind (P : Tree -> Prop) :
  (forall id d r, P (Txt id d r)) ->
  (forall id, P (Cmt id)) ->
  (forall id, P (Skp id)) ->
  (forall id av kids, Forall P kids -> P (Elt id av kids)) ->
  forall t, P t.
Proof.
  intros H1 H2 H3 H4. fix IH 1.
  intros [id d r|id|id|id av kids]; [apply H1|apply H2|apply H3|].
  apply H4. induction kids as [|k kids IHk]; constructor; [apply IH|apply IHk].
Qed.

Lemma kind_text (s : DOM) id d r :
  kindOf s id = Some (TextNode d r) ->
  isTextNode s id = true /\ isElementNode s id = false /\
  dataOf s id = d /\ instanceofText s id = r.
Proof.
  unfold kindOf, isTextNode, isElementNode, dataOf, instanceofText.
  destruct (s !! id) as [[k ? ?]|]; simpl; [|done]. by intros [= ->].
Qed.

Lemma kind_other (s : DOM) id :
  kindOf s id = Some OtherNode ->
  isTextNode s id = false /\ isElementNode s id = false.
Proof.
  unfold kindOf, isTextNode, isElementNode.
  destruct (s !! id) as [[k ? ?]|]; simpl; [|done]. by intros [= ->].
Qed.

Lemma element_not_text (s : DOM) id :
  isElementNode s id = true -> isTextNode s id = false.
Proof.
  unfold isTextNode, isElementNode.
  by destruct (s !! id) as [[[] ? ?]|].
Qed.

Lemma leaves_app (a b : TextAgg) : leaves (a ++ b) = leaves a ++ leaves b.
Proof. unfold leaves. apply flat_map_app. Qed.

Lemma Repr_text_kid fe (s : DOM) cr k :
  Repr fe s cr k -> isTextNode s (idOf k) = true ->
  textOf k = dataOf s (idOf k) \/ idOf k ∈ cr.
Proof.
  intros H Ht. destruct H as [id d r Hk _ _|id Hk _ _|id Hc _|id He _ _|id kids He];
    simpl in *.
  - left. by destruct (kind_text _ _ _ _ Hk) as (_ & _ & -> & _).
  - destruct (kind_other _ _ Hk). congruence.
  - by right.
  - apply element_not_text in He. congruence.
  - apply element_not_text in He. congruence.
Qed.

(** The leaf strings of the aggregation, one after the other, are the text
    of the tree. *)
Lemma getText_text options (s : DOM) : forall fuel t agg,
  Repr (filterElements options) s [] t ->
  getText options s fuel (idOf t) = Ok agg ->
  concat (leaves agg) = textOf t.
Proof.
  induction fuel as [|fuel IH]; intros t agg HR E; [done|].
  simpl in E.
  destruct HR as [id d r Hk _ _|id Hk _ _|id Hc _|id He _ Hf|id kids He _ Hf Hch _ Hkids];
    simpl in *.
  - destruct (kind_text _ _ _ _ Hk) as (Ht & _ & Hd & _). rewrite Ht, Hd in E.
    inversion E; subst. simpl. by rewrite app_nil_r.
  - destruct (kind_other _ _ Hk) as [Ht He]. rewrite Ht, He in E. simpl in E.
    by inversion E; subst.
  - inversion Hc.
  - rewrite (element_not_text _ _ He), He, Hf in E. simpl in E. by inversion E; subst.
  - rewrite (element_not_text _ _ He), He, Hf, Hch in E. simpl in E.
    clear Hch He Hf.
    match type of E with
    | ?f (map idOf kids) [] [] = _ => set (loop := f) in E
    end.
    assert (Hloop : forall ks cur items agg,
              Forall (Repr (filterElements options) s []) ks ->
              loop (map idOf ks) items cur = Ok agg ->
              concat (leaves agg) = concat (leaves items) ++ cur ++ flat_map textOf ks);
      [|by apply (Hloop kids [] [] agg)].
    clear E Hkids agg kids id.
    intros ks cur items agg Hks. revert cur items.
    induction Hks as [|k ks Hk _ IHk]; intros cur items E; simpl in E.
    + inversion E; subst. rewrite leaves_app, concat_app. simpl.
      by rewrite !app_nil_r.
    + simpl. destruct (isTextNode s (idOf k)) eqn:Ht.
      * destruct (Repr_text_kid _ _ _ _ Hk Ht) as [Hd|Hc]; [|inversion Hc].
        rewrite (IHk _ _ E), Hd. by rewrite <- !app_assoc.
      * destruct (getText options s fuel (idOf k)) as [inner| |] eqn:Ek; try done.
        apply (IH _ _ Hk) in Ek.
        destruct (forcesContext (forceContext options) s (idOf k)).
        { rewrite (IHk _ _ E), leaves_app, concat_app. simpl.
          rewrite <- Ek. unfold leaves at 2. simpl.
          rewrite concat_app. simpl. by rewrite !app_nil_r, <- !app_assoc. }
        destruct inner as [|[first|l] rest].
        -- rewrite (IHk _ _ E). simpl in Ek. by rewrite <- Ek.
        -- destruct rest as [|it rest].
           ++ rewrite (IHk _ _ E). simpl in Ek. rewrite app_nil_r in Ek.
              rewrite <- Ek. by rewrite <- !app_assoc.
           ++ rewrite (IHk _ _ E), leaves_app, concat_app. rewrite <- Ek.
              unfold leaves. simpl. rewrite !concat_app. simpl.
              by rewrite !app_nil_r, <- !app_assoc.
        -- rewrite (IHk _ _ E), leaves_app, concat_app. rewrite <- Ek.
           unfold leaves. simpl. rewrite !concat_app. simpl.
           by rewrite !app_nil_r, <- !app_assoc.
Qed.

(** ** The matches of a search lie in the text in order *)

Lemma substring_nat (s : str) (a b : nat) :
  a <= b -> b <= length s ->
  JS.substring s (Z.of_nat a) (Z.of_nat b) = take (b - a) (drop a s).
Proof.
  intros Hab Hb. unfold JS.substring, JS.clamp. rewrite !Nat2Z.id.
  by rewrite (Nat.min_l a), (Nat.min_l b), Nat.max_r, Nat.min_l by lia.
Qed.

Lemma chain_snoc stream m : forall ms lo hi,
  chain stream lo ms hi ->
  (hi <= startIndex m)%Z -> (startIndex m < endIndex m)%Z ->
  m0 m = JS.substring stream (startIndex m) (endIndex m) ->
  chain stream lo (ms ++ [m]) (endIndex m).
Proof.
  induction ms as [|m' ms IH]; intros lo hi H Hhi Hlt Hm; simpl in *.
  - split; [lia|]. split; [done|]. split; [done|lia].
  - destruct H as (H1 & H2 & H3 & H4). split; [done|]. split; [done|].
    split; [done|]. by eapply IH.
Qed.

Lemma chain_weaken stream : forall ms lo hi hi',
  chain stream lo ms hi -> (hi <= hi')%Z -> chain stream lo ms hi'.
Proof.
  induction ms as [|m ms IH]; intros lo hi hi' H Hle; simpl in *; [lia|].
  destruct H as (H1 & H2 & H3 & H4). repeat split; try done. by eapply IH.
Qed.

Lemma take_drop_middle (pre item post : str) i n :
  i + n <= length item ->
  take n (drop (length pre + i) (pre ++ item ++ post)) = take n (drop i item).
Proof.
  intros H. rewrite <- drop_drop, drop_app_length, drop_app_le by lia.
  rewrite take_app_le; [done|]. rewrite length_drop. lia.
Qed.

(** The match that [prepMatch] makes of a match of the leaf [item]. *)
Lemma prepMatch_chain re pre item post L m mi mm :
  sane re -> exec re item L = Some m ->
  prepMatch m mi (JS.len pre) = Ok mm ->
  (JS.len pre + Z.of_nat L <= startIndex mm)%Z /\
  (startIndex mm < endIndex mm)%Z /\
  endIndex mm = (JS.len pre + Z.of_nat (rindex m + length (r0 m)))%Z /\
  rindex m + length (r0 m) <= length item /\
  m0 mm = JS.substring (pre ++ item ++ post) (startIndex mm) (endIndex mm).
Proof.
  intros Hs He Hp. destruct (Hs _ _ _ He) as (H1 & H2 & H3 & _).
  unfold prepMatch in Hp. destruct (r0 m) as [|c r] eqn:Er; [done|].
  inversion Hp; subst; clear Hp. simpl. unfold JS.len in *.
  split; [lia|]. split; [simpl; lia|]. split; [simpl; lia|]. split; [done|].
  replace (Z.of_nat (length pre) + Z.of_nat (rindex m))%Z
    with (Z.of_nat (length pre + rindex m)) by lia.
  replace (Z.of_nat (length pre + rindex m) + Z.of_nat (length (c :: r)))%Z
    with (Z.of_nat (length pre + rindex m + length (c :: r))) by lia.
  rewrite substring_nat; [|lia|rewrite !length_app; lia].
  replace (length pre + rindex m + length (c :: r) - (length pre + rindex m))
    with (length (c :: r)) by lia.
  by rewrite take_drop_middle.
Qed.

Lemma execLoop_chain re pre item post :
  sane re ->
  forall fuel L st st',
    L <= length item -> offset st = JS.len pre ->
    chain (pre ++ item ++ post) 0 (matches st) (JS.len pre + Z.of_nat L) ->
    execLoop fuel re item L st = Ok st' ->
    offset st' = offset st /\
    chain (pre ++ item ++ post) 0 (matches st') (JS.len pre + JS.len item).
Proof.
  intros Hs. induction fuel as [|fuel IH]; intros L st st' HL Ho Hc E; [done|].
  simpl in E. destruct (exec re item L) as [m|] eqn:Em.
  - destruct (prepMatch m (matchIndex st) (offset st)) as [mm| |] eqn:Ep; try done.
    rewrite Ho in Ep.
    destruct (prepMatch_chain re pre item post L m _ mm Hs Em Ep)
      as (H1 & H2 & H3 & H4 & H5).
    apply IH in E; simpl; [done|done|done|].
    rewrite <- H3. by eapply chain_snoc.
  - inversion E; subst. split; [done|]. eapply chain_weaken; [exact Hc|].
    unfold JS.len. lia.
Qed.

Lemma matchString_chain re pre item post fuel st st' :
  sane re -> offset st = JS.len pre ->
  chain (pre ++ item ++ post) 0 (matches st) (JS.len pre) ->
  matchString fuel re item st = Ok st' ->
  offset st' = JS.len (pre ++ item) /\
  chain (pre ++ item ++ post) 0 (matches st') (JS.len (pre ++ item)).
Proof.
  intros Hs Ho Hc E. unfold matchString in E.
  assert (Hlen : JS.len (pre ++ item) = (JS.len pre + JS.len item)%Z).
  { unfold JS.len. rewrite length_app. lia. }
  rewrite Hlen. destruct (global re).
  - destruct (execLoop fuel re item 0 st) as [st1| |] eqn:E1; try done.
    inversion E; subst; clear E. simpl.
    apply (execLoop_chain re pre item post Hs) in E1 as [Ho1 Hc1];
      [|lia|done|by rewrite Z.add_0_r].
    split; [by rewrite Ho1, Ho|done].
  - destruct (exec re item 0) as [m|] eqn:Em.
    + destruct (prepMatch m 0 (offset st)) as [mm| |] eqn:Ep; try done.
      inversion E; subst; clear E. simpl. rewrite Ho in *.
      destruct (prepMatch_chain re pre item post 0 m _ mm Hs Em Ep)
        as (H1 & H2 & H3 & H4 & H5).
      split; [done|]. eapply chain_weaken.
      * eapply chain_snoc; [exact Hc|lia|done|done].
      * rewrite H3. unfold JS.len. lia.
    + inversion E; subst; clear E. simpl. split; [by rewrite Ho|].
      eapply chain_weaken; [exact Hc|]. unfold JS.len. lia.
Qed.

Lemma matchLeaves_chain re fuel :
  sane re ->
  forall ls pre post st st',
    offset st = JS.len pre ->
    chain (pre ++ concat ls ++ post) 0 (matches st) (JS.len pre) ->
    matchLeaves fuel re ls st = Ok st' ->
    chain (pre ++ concat ls ++ post) 0 (matches st') (JS.len (pre ++ concat ls)).
Proof.
  intros Hs. induction ls as [|l ls IH]; intros pre post st st' Ho Hc E; simpl in *.
  - inversion E; subst. by rewrite app_nil_r.
  - destruct (matchString fuel re l st) as [st1| |] eqn:E1; try done.
    rewrite <- app_assoc in *.
    apply (matchString_chain re pre l (concat ls ++ post)) in E1 as [Ho1 Hc1];
      [|done..].
    rewrite !app_assoc. rewrite !app_assoc in Hc1.
    rewrite <- (app_assoc (pre ++ l)). rewrite <- (app_assoc (pre ++ l)) in Hc1.
    by apply (IH (pre ++ l) post st1 st').
Qed.

(** The matches of [search] on the text [concat (leaves agg)]. *)
Lemma search_inOrder fuel options (s : DOM) root agg ms :
  sane (regexOf (find options)) ->
  getAggregateText fuel options s root = Ok agg ->
  search fuel options s root = Ok ms ->
  inOrder (concat (leaves agg)) 0 ms.
Proof.
  intros Hs Ha E. unfold search in E. rewrite Ha, matchAggregation_leaves in E.
  destruct (matchLeaves _ _ _ _) as [st| |] eqn:El; try done.
  inversion E; subst; clear E. split; [done|].
  pose proof (matchLeaves_chain _ fuel Hs (leaves agg) [] []
                (mkSearch 0 0 []) st eq_refl) as H.
  simpl in H. rewrite app_nil_r in H. apply H; [by simpl|done].
Qed.

(** ** The levels of the traversal *)

Lemma nextAfter_middle x rest : forall ls,
  x ∉ ls -> nextAfter x (ls ++ x :: rest) = head rest.
Proof.
  induction ls as [|y ls IH]; intros H; simpl.
  - by rewrite Nat.eqb_refl.
  - apply not_elem_of_cons in H as [Hne Hl].
    destruct (Nat.eqb_spec y x); [congruence|]. by apply IH.
Qed.

Lemma Suffix_next (s : DOM) p x xs : Suffix s p (x :: xs) -> nextSibling s x = head xs.
Proof.
  intros (ls & Hc & Hnd & H). destruct (H x) as [Hx Hp]; [by left|].
  unfold nextSibling. rewrite Hp, Hc. by apply nextAfter_middle.
Qed.

Lemma Suffix_tail (s : DOM) p x xs : Suffix s p (x :: xs) -> Suffix s p xs.
Proof.
  intros (ls & Hc & Hnd & H). exists (ls ++ [x]).
  split; [by rewrite <- app_assoc|].
  apply NoDup_cons in Hnd as [Hx Hnd]. split; [done|].
  intros y Hy. destruct (H y) as [Hy1 Hy2]; [by right|]. split; [|done].
  rewrite not_elem_of_app. split; [done|].
  intros Hin. apply list_elem_of_singleton in Hin. by subst.
Qed.

Lemma parentOf_lt (s : DOM) x p : parentOf s x = Some p -> x < length s.
Proof.
  unfold parentOf. intros H. apply lookup_lt_is_Some.
  destruct (s !! x); [eauto|done].
Qed.

Lemma childrenOf_lt (s : DOM) p : childrenOf s p <> [] -> p < length s.
Proof.
  unfold childrenOf. intros H. apply lookup_lt_is_Some.
  destruct (s !! p); [eauto|done].
Qed.

Lemma Suffix_lt (s : DOM) p x xs :
  Suffix s p (x :: xs) -> x < length s /\ p < length s.
Proof.
  intros (ls & Hc & Hnd & H). destruct (H x) as [_ Hp]; [by left|].
  split; [by eapply parentOf_lt|]. apply childrenOf_lt. rewrite Hc.
  by destruct ls.
Qed.

Lemma Linked_head root g g' fs st :
  Linked root (g :: fs) st -> fparent g' = fparent g -> Linked root (g' :: fs) st.
Proof.
  intros H E. inversion H; subst.
  - constructor. congruence.
  - rewrite <- E. constructor; [congruence|done..].
Qed.

Lemma Linked_stack root fs st : Linked root fs st -> st = map fparent fs ++ [root].
Proof.
  induction 1 as [f Hf|f g fs st H1 H2 _ IH]; simpl; [by rewrite Hf|].
  by rewrite IH.
Qed.

Lemma popFrames_rest fs r fs2 :
  popFrames fs = Some (r, fs2) ->
  flat_map frest fs = r :: flat_map frest fs2 /\
  option_map fself (head fs2) = Some (idOf r) /\
  exists k, tail fs2 = drop (S k) fs.
Proof.
  induction fs as [|g fs IH]; intros H; simpl in *; [done|].
  destruct (frest g) as [|r' rs] eqn:E.
  - destruct (IH H) as (H1 & H2 & k & H3). split; [done|]. split; [done|].
    exists (S k). by rewrite H3.
  - inversion H; subst. simpl. split; [done|]. split; [done|]. by exists 0.
Qed.

Lemma popFrames_none fs : popFrames fs = None -> flat_map frest fs = [].
Proof.
  induction fs as [|g fs IH]; intros H; simpl in *; [done|].
  destruct (frest g) as [|r' rs] eqn:E; [|done]. by apply IH.
Qed.

Lemma popFrames_suffix (s : DOM) fs r fs2 :
  Forall (fun f => Suffix s (fparent f) (fself f :: map idOf (frest f))) fs ->
  popFrames fs = Some (r, fs2) ->
  Forall (fun f => Suffix s (fparent f) (fself f :: map idOf (frest f))) fs2.
Proof.
  induction 1 as [|g fs Hg Hfs IH]; intros H; simpl in *; [done|].
  destruct (frest g) as [|r' rs] eqn:E; [by apply IH|].
  inversion H; subst. constructor; [|done]. simpl.
  by eapply Suffix_tail.
Qed.

(** The loop that pops [nodeStack] arrives where [popFrames] says. *)
Lemma popUp_frames (s : DOM) root cur dn : forall fs f stack r fs2,
  Linked root (f :: fs) stack ->
  Forall (fun f => Suffix s (fparent f) (fself f :: map idOf (frest f))) fs ->
  popFrames fs = Some (r, fs2) ->
  exists stack2,
    popUp s root stack cur dn = (stack2, Some (idOf r), dn) /\
    Linked root fs2 stack2.
Proof.
  induction fs as [|g fs IH]; intros f stack r fs2 HL HS HP; [done|].
  inversion HL as [|? ? ? st Hself Hroot HL']; subst.
  inversion HS as [|? ? Hg HS']; subst. simpl in *.
  rewrite <- Hself, (Suffix_next _ _ _ _ Hg).
  destruct (frest g) as [|r' rs] eqn:E; simpl.
  - destruct (Nat.eqb_spec (fself g) root) as [|_]; [done|]. by eapply IH.
  - inversion HP; subst. exists st. split; [done|]. by eapply Linked_head.
Qed.


Lemma idOf_idsOf t : idOf t ∈ idsOf t.
Proof. destruct t; simpl; by left. Qed.

Lemma idOf_sublist ts : map idOf ts `sublist_of` flat_map idsOf ts.
Proof.
  induction ts as [|t ts IH]; simpl; [done|].
  destruct t; simpl; try by constructor.
  constructor. by apply sublist_inserts_l.
Qed.

Lemma popFrames_ids f fs r fs2 :
  popFrames (f :: fs) = Some (r, fs2) ->
  agendaIds r fs2 `sublist_of`
    map fself fs ++ flat_map idsOf (flat_map frest (f :: fs)).
Proof.
  intros H. destruct (popFrames_rest _ _ _ H) as (H1 & _ & k & H3).
  unfold agendaIds, ahead. rewrite H1, H3. simpl.
  apply sublist_app; [|done]. rewrite <- (take_drop k fs) at 2.
  rewrite map_app. apply sublist_inserts_l. done.
Qed.

(** A turn that does not go into [curNode] goes to the next tree of the
    agenda. *)
Lemma Agenda_advance fe (s : DOM) cr root c fs stack st r fs2 :
  Agenda fe s cr root c fs stack -> nodeStack st = stack ->
  popFrames fs = Some (r, fs2) ->
  exists stack2,
    nextOf s root st (idOf c) = moveTo st stack2 (Some (idOf r)) (done st) /\
    Agenda fe s cr root r fs2 stack2.
Proof.
  intros [Hself HL HS HR Hnd Hroot] Hst HP.
  destruct fs as [|f fs]; [done|]. simpl in Hself. inversion Hself as [Hf].
  pose proof (popFrames_ids _ _ _ _ HP) as Hsub.
  assert (Hsub' : agendaIds r fs2 `sublist_of` agendaIds c (f :: fs)).
  { etrans; [exact Hsub|]. unfold agendaIds, ahead. simpl.
    apply sublist_app; [done|]. by apply sublist_inserts_l. }
  destruct (popFrames_rest _ _ _ HP) as (Hrest & Hself2 & _).
  assert (Hrepr : Forall (Repr fe s cr) (ahead r fs2)).
  { unfold ahead in *. rewrite <- Hrest. by inversion HR. }
  inversion HS as [|? ? Hsf HS']; subst.
  assert (Hns : nextSibling s (fself f) = head (map idOf (frest f)))
    by by eapply Suffix_next.
  simpl in HP.
  destruct (frest f) as [|r' rs] eqn:E; simpl in Hns; unfold nextOf.
  - destruct (popUp_frames s root (curNode st) (done st) fs f _ r fs2 HL HS' HP)
      as (stack2 & Epop & HL2).
    exists stack2. rewrite Hns. unfold popUpFrom. rewrite Epop. split; [done|].
    split; try done.
    + by eapply popFrames_suffix.
    + by eapply sublist_NoDup.
    + intros Hin. apply Hroot. by eapply elem_of_sublist.
  - inversion HP; subst. exists (nodeStack st). rewrite Hns. split; [done|].
    split; try done.
    + by eapply Linked_head.
    + constructor; [|done]. simpl. by eapply Suffix_tail.
    + by eapply sublist_NoDup.
    + intros Hin. apply Hroot. by eapply elem_of_sublist.
Qed.

(** When nothing is left, no text is left. *)
Lemma Agenda_exhausted c fs :
  popFrames fs = None -> flat_map textOf (ahead c fs) = textOf c.
Proof.
  intros H. unfold ahead. simpl. rewrite (popFrames_none _ H). simpl.
  apply app_nil_r.
Qed.

Lemma Agenda_advance_text c fs r fs2 :
  popFrames fs = Some (r, fs2) ->
  flat_map textOf (ahead c fs) = textOf c ++ flat_map textOf (ahead r fs2).
Proof.
  intros H. unfold ahead. simpl. by rewrite (proj1 (popFrames_rest _ _ _ H)).
Qed.

(** A turn that goes into an element. *)
Lemma Agenda_descend fe (s : DOM) cr root id k ks fs stack :
  Agenda fe s cr root (Elt id false (k :: ks)) fs stack ->
  firstChild s id = Some (idOf k) /\
  Agenda fe s cr root k (mkFrame id (idOf k) ks :: fs) (id :: stack).
Proof.
  intros [Hself HL HS HR Hnd Hroot].
  destruct fs as [|f fs]; [done|].
  assert (Hf : fself f = id) by (simpl in Hself; congruence). clear Hself.
  inversion HR as [|? ? Hc HR']; subst.
  inversion Hc as [| | | |? ? He Hcr Hfe Hch Hpar Hkids]; subst.
  assert (Hperm : agendaIds k (mkFrame (fself f) (idOf k) ks :: f :: fs) ≡ₚ
                  agendaIds (Elt (fself f) false (k :: ks)) (f :: fs)).
  { unfold agendaIds, ahead. simpl.
    rewrite !flat_map_app. rewrite <- !app_assoc.
    rewrite <- Permutation_middle. done. }
  split; [unfold firstChild; by rewrite Hch|]. split.
  - done.
  - apply (LinkedCons root (mkFrame (fself f) (idOf k) ks) f fs stack); [done| |done].
    intros E. apply Hroot. unfold agendaIds, ahead. simpl.
    apply elem_of_app. right. rewrite E. by left.
  - constructor; [|done]. simpl. exists []. split; [done|]. split.
    + apply (sublist_NoDup _ _ Hnd). unfold agendaIds, ahead.
      apply sublist_inserts_l. simpl. apply sublist_cons.
      apply sublist_inserts_r. apply (idOf_sublist (k :: ks)).
    + intros x Hx. split; [apply not_elem_of_nil|].
      change (x ∈ map idOf (k :: ks)) in Hx.
      apply list_elem_of_fmap in Hx as (t & -> & Ht).
      rewrite Forall_forall in Hpar. by apply Hpar.
  - unfold ahead. simpl. inversion Hkids; subst. constructor; [done|].
    apply Forall_app. split; [done|]. done.
  - by rewrite Hperm.
  - by rewrite Hperm.
Qed.

(** ** Trees and levels under the edits of [replaceMatch] *)

Lemma kindOf_lt (s : DOM) i k : kindOf s i = Some k -> i < length s.
Proof.
  unfold kindOf. intros H. apply lookup_lt_is_Some.
  destruct (s !! i); [eauto|done].
Qed.

Lemma isElementNode_lt (s : DOM) i : isElementNode s i = true -> i < length s.
Proof.
  unfold isElementNode. intros H. apply lookup_lt_is_Some.
  destruct (s !! i); [eauto|done].
Qed.

Lemma isElementNode_kind (s s' : DOM) i :
  kindOf s' i = kindOf s i -> isElementNode s' i = isElementNode s i.
Proof.
  unfold kindOf, isElementNode.
  destruct (s' !! i) as [[k' ? ?]|], (s !! i) as [[k ? ?]|]; simpl; intros H;
    try done; by simplify_eq.
Qed.

Lemma bind_sigma_none K i (l : list nat) :
  (forall y, y ∈ l -> K !! y = None) -> l ≫= sigma K i = l.
Proof.
  intros H. rewrite <- (bind_unit l) at 2.
  apply Forall_bind_ext, Forall_forall. intros y Hy.
  unfold sigma. by rewrite (H y Hy).
Qed.

Lemma expectedParent_none K (s : DOM) i :
  K !! i = None -> expectedParent K s i = parentOf s i.
Proof. intros H. unfold expectedParent. by rewrite H. Qed.

Lemma Repr_Rel fe (s s' : DOM) K cr cr' :
  kindOnly fe -> Rel s s' K ->
  (forall x, x ∈ cr -> x ∈ cr') ->
  (forall x, x ∈ cr' -> x ∈ cr \/ length s <= x) ->
  forall t,
    (forall x, x ∈ idsOf t -> K !! x = None) ->
    Repr fe s cr t -> Repr fe s' cr' t.
Proof.
  intros Hfe HR Hin Hout. pose proof (rel_len _ _ _ HR) as Hlen.
  assert (Hnew : forall id, id < length s -> id ∉ cr -> id ∉ cr').
  { intros id Hid Hn Hc. destruct (Hout id Hc); [done|lia]. }
  induction t as [id d r|id|id|id av kids IH] using Tree_nested_ind;
    intros HK H;
    inversion H as [? ? ? Hk Hc Hn|? Hk Hc Hn|? Hc Hl|? He Hn Hf
                   |? ? He Hn Hf Hch Hpar Hkids]; subst.
  - pose proof (kindOf_lt _ _ _ Hk) as Hid. constructor.
    + by rewrite (rel_kind _ _ _ HR id Hid).
    + by rewrite (rel_children _ _ _ HR id Hid), Hc.
    + by apply Hnew.
  - pose proof (kindOf_lt _ _ _ Hk) as Hid. constructor.
    + by rewrite (rel_kind _ _ _ HR id Hid).
    + by rewrite (rel_children _ _ _ HR id Hid), Hc.
    + by apply Hnew.
  - constructor; [by apply Hin|lia].
  - pose proof (isElementNode_lt _ _ He) as Hid.
    pose proof (rel_kind _ _ _ HR id Hid) as Hk. constructor.
    + by rewrite (isElementNode_kind _ _ _ Hk).
    + by apply Hnew.
    + by rewrite (Hfe _ _ _ Hk).
  - pose proof (isElementNode_lt _ _ He) as Hid.
    pose proof (rel_kind _ _ _ HR id Hid) as Hk.
    assert (HKk : forall k, k ∈ kids -> forall x, x ∈ idsOf k -> K !! x = None).
    { intros k Hk' x Hx. apply HK. simpl. right.
      apply list_elem_of_In, in_flat_map. exists k.
      split; by apply list_elem_of_In. }
    constructor.
    + by rewrite (isElementNode_kind _ _ _ Hk).
    + by apply Hnew.
    + by rewrite (Hfe _ _ _ Hk).
    + rewrite (rel_children _ _ _ HR id Hid), Hch. apply bind_sigma_none.
      intros y Hy. apply list_elem_of_fmap in Hy as (k & -> & Hk').
      apply (HKk k Hk'), idOf_idsOf.
    + rewrite Forall_forall in Hpar |- *. intros k Hk'.
      pose proof (Hpar k Hk') as Hp.
      rewrite (rel_parent _ _ _ HR _ (parentOf_lt _ _ _ Hp)).
      rewrite expectedParent_none; [done|]. apply (HKk k Hk'), idOf_idsOf.
    + rewrite Forall_forall in IH, Hkids |- *. intros k Hk'.
      apply IH; [done|by apply HKk|by apply Hkids].
Qed.

Lemma sigma_old K (s s' : DOM) p y x :
  Rel s s' K -> x ∈ sigma K p y -> x < length s -> x = y.
Proof.
  intros HR Hx Hlt. unfold sigma in Hx.
  destruct (K !! y) as [[q ys]|] eqn:E.
  - destruct (Nat.eqb q p); [|by apply list_elem_of_singleton in Hx].
    destruct (rel_key _ _ _ HR _ _ _ E) as (_ & _ & Hys).
    destruct (Hys x Hx) as [->|[? _]]; [done|lia].
  - by apply list_elem_of_singleton in Hx.
Qed.

Lemma Suffix_Rel (s s' : DOM) K p xs :
  Rel s s' K -> (forall x, x ∈ xs -> K !! x = None) ->
  Suffix s p xs -> Suffix s' p xs.
Proof.
  intros HR HK (ls & Hc & Hnd & H).
  destruct xs as [|x0 xs].
  { exists (childrenOf s' p). split; [by rewrite app_nil_r|]. split; [done|].
    intros x Hx. inversion Hx. }
  assert (Hp : p < length s).
  { apply childrenOf_lt. rewrite Hc. by destruct ls. }
  exists (ls ≫= sigma K p). split; [|split; [done|]].
  - rewrite (rel_children _ _ _ HR p Hp), Hc, bind_app.
    by rewrite (bind_sigma_none K p (x0 :: xs)).
  - intros x Hx. destruct (H x Hx) as [Hx1 Hx2].
    pose proof (parentOf_lt _ _ _ Hx2) as Hlt. split.
    + intros Hin. apply list_elem_of_bind in Hin as (y & Hxy & Hy).
      apply (sigma_old _ _ _ _ _ _ HR) in Hxy; [|done]. by subst.
    + rewrite (rel_parent _ _ _ HR x Hlt). rewrite expectedParent_none; [done|].
      by apply HK.
Qed.

Lemma standins_last pre new post :
  exists front, standins pre new post = front ++ [orNode post new].
Proof.
  unfold standins. destruct post as [z|]; simpl.
  - exists (optlist pre ++ [new]). by rewrite <- app_assoc.
  - exists (optlist pre). done.
Qed.

(** The level of the end node of a match, after the match is replaced:
    the traversal goes on from the last stand-in of the end node. *)
Lemma Suffix_replaced (s s' : DOM) K n p q front h xs :
  closed s -> Rel s s' K ->
  K !! n = Some (q, front ++ [h]) -> NoDup (front ++ [h]) -> n ∉ front ++ [h] ->
  (forall x, x ∈ xs -> K !! x = None) ->
  Suffix s p (n :: xs) -> Suffix s' p (h :: xs).
Proof.
  intros Hcl HR HKn Hnd Hn HK (ls & Hc & Hndx & H).
  destruct (H n) as [Hnls Hnp]; [by left|].
  destruct (rel_key _ _ _ HR _ _ _ HKn) as (Hnlt & Hq & Hys).
  assert (q = p) as -> by congruence.
  assert (Hp : p < length s).
  { apply childrenOf_lt. rewrite Hc. by destruct ls. }
  assert (Hcreated : forall z, z ∈ front ++ [h] ->
            length s <= z /\ parentOf s' z = Some p).
  { intros z Hz. destruct (Hys z Hz) as [->|[[? ?] ?]]; [done|]. split; [lia|done]. }
  assert (Hh : h ∈ front ++ [h]) by (apply elem_of_app; right; by left).
  apply NoDup_cons in Hndx as [Hnxs Hndx].
  assert (Hold : forall x, x ∈ xs -> x < length s /\ parentOf s x = Some p /\ x ∉ ls).
  { intros x Hx. destruct (H x) as [? Hp']; [by right|].
    split; [by eapply parentOf_lt|done]. }
  exists ((ls ≫= sigma K p) ++ front). split; [|split].
  - rewrite (rel_children _ _ _ HR p Hp), Hc, bind_app, bind_cons.
    rewrite (bind_sigma_none K p xs) by done.
    unfold sigma at 2. rewrite HKn, Nat.eqb_refl. by rewrite <- !app_assoc.
  - apply NoDup_cons. split; [|done]. intros Hin.
    destruct (Hold _ Hin) as [? _]. destruct (Hcreated h Hh). lia.
  - assert (Hbind : forall x y, y ∈ ls -> x ∈ sigma K p y -> x = y \/
              exists q' ys, K !! y = Some (q', ys) /\ x ∈ ys).
    { intros x y Hy Hx. unfold sigma in Hx.
      destruct (K !! y) as [[q' ys]|] eqn:E.
      - destruct (Nat.eqb q' p); [right; eauto|].
        left. by apply list_elem_of_singleton in Hx.
      - left. by apply list_elem_of_singleton in Hx. }
    intros x Hx. apply elem_of_cons in Hx as [->|Hx].
    + destruct (Hcreated h Hh) as [Hge Hpar]. split; [|done].
      rewrite not_elem_of_app. split.
      * intros Hin. apply list_elem_of_bind in Hin as (y & Hxy & Hy).
        destruct (Hbind _ _ Hy Hxy) as [->|(q' & ys & E & Hin)].
        -- assert (y < length s); [|lia]. apply (Hcl p). rewrite Hc.
           apply elem_of_app. by left.
        -- assert (y = n) as -> by (eapply (rel_disj _ _ _ HR); eauto). done.
      * intros Hin. apply NoDup_app in Hnd as (_ & Hd & _).
        apply (Hd h Hin). by left.
    + destruct (Hold x Hx) as (Hlt & Hpar & Hxls). split.
      * rewrite not_elem_of_app. split.
        -- intros Hin. apply list_elem_of_bind in Hin as (y & Hxy & Hy).
           apply (sigma_old _ _ _ _ _ _ HR) in Hxy; [|done]. by subst.
        -- intros Hin. destruct (Hcreated x); [|lia].
           apply elem_of_app. by left.
      * rewrite (rel_parent _ _ _ HR x Hlt). rewrite expectedParent_none; [done|].
        by apply HK.
Qed.

(** ** Substrings of the searched text *)

Lemma substring_Z (s : str) a b :
  (0 <= a <= b)%Z -> (b <= JS.len s)%Z ->
  JS.substring s a b = take (Z.to_nat (b - a)) (drop (Z.to_nat a) s).
Proof.
  intros Ha Hb. unfold JS.substring, JS.clamp, JS.len in *.
  rewrite (Nat.min_l (Z.to_nat a)), (Nat.min_l (Z.to_nat b)) by lia.
  rewrite Nat.max_r, Nat.min_l by lia. f_equal. lia.
Qed.

Lemma substring_lo (s : str) a b : (a <= 0)%Z -> JS.substring s a b = JS.substring s 0 b.
Proof.
  intros Ha. unfold JS.substring, JS.clamp.
  by replace (Z.to_nat a) with (Z.to_nat 0) by lia.
Qed.

Lemma substring_hi (s : str) a b :
  (JS.len s <= b)%Z -> JS.substring s a b = JS.substring s a (JS.len s).
Proof.
  intros Hb. unfold JS.substring, JS.clamp, JS.len in *.
  by rewrite (Nat.min_r (Z.to_nat b)), (Nat.min_r (Z.to_nat (Z.of_nat (length s))))
    by lia.
Qed.

Lemma substring_all (d : str) : JS.substring d 0 (JS.len d) = d.
Proof.
  rewrite substring_Z by (unfold JS.len; lia). simpl.
  rewrite Z.sub_0_r. unfold JS.len. rewrite Nat2Z.id. apply firstn_all.
Qed.

Lemma substring_length (s : str) a b :
  (0 <= a <= b)%Z -> (b <= JS.len s)%Z ->
  JS.len (JS.substring s a b) = (b - a)%Z.
Proof.
  intros Ha Hb. rewrite substring_Z by done. unfold JS.len in *.
  rewrite length_take, length_drop. lia.
Qed.

Lemma substring_app (s : str) a b c :
  (0 <= a <= b)%Z -> (b <= c)%Z -> (c <= JS.len s)%Z ->
  JS.substring s a b ++ JS.substring s b c = JS.substring s a c.
Proof.
  intros Ha Hb Hc. rewrite !substring_Z by lia.
  replace (Z.to_nat b) with (Z.to_nat a + Z.to_nat (b - a)) by lia.
  rewrite <- drop_drop, take_take_drop. f_equal. lia.
Qed.

Lemma drop_length_le (s d rest : str) n :
  drop n s = d ++ rest -> d <> [] -> n + length d <= length s.
Proof.
  intros H Hd. assert (length (drop n s) = length d + length rest) as Hl.
  { by rewrite H, length_app. }
  rewrite length_drop in Hl. destruct d; [done|]. simpl in *. lia.
Qed.

(** The text of a node, as a part of the searched text. *)
Lemma substring_window (s d rest : str) at_ a b :
  (0 <= at_ <= a)%Z -> (a <= b)%Z -> (b <= at_ + JS.len d)%Z ->
  drop (Z.to_nat at_) s = d ++ rest ->
  JS.substring s a b = JS.substring d (a - at_) (b - at_).
Proof.
  intros Ha Hab Hb Hd.
  destruct (decide (d = [])) as [->|Hne].
  { unfold JS.len in Hb. simpl in Hb. assert (a = b) as -> by lia.
    unfold JS.substring. by rewrite !Nat.max_id, !Nat.min_id, !Nat.sub_diag. }
  pose proof (drop_length_le _ _ _ _ Hd Hne) as Hlen.
  rewrite (substring_Z s), (substring_Z d) by (unfold JS.len in *; lia).
  replace (Z.to_nat a) with (Z.to_nat at_ + Z.to_nat (a - at_)) by lia.
  rewrite <- drop_drop, Hd, drop_app_le by (unfold JS.len in *; lia).
  rewrite take_app_le.
  - f_equal. lia.
  - rewrite length_drop. unfold JS.len in *. lia.
Qed.

(** What is left of the searched text after a part of a node. *)
Lemma drop_window (s d rest : str) at_ e :
  (0 <= at_ <= e)%Z -> (e <= at_ + JS.len d)%Z ->
  drop (Z.to_nat at_) s = d ++ rest ->
  drop (Z.to_nat e) s = JS.substringFrom d (e - at_) ++ rest.
Proof.
  intros Ha He Hd. unfold JS.substringFrom, JS.clamp, JS.len in *.
  replace (Z.to_nat e) with (Z.to_nat at_ + Z.to_nat (e - at_)) by lia.
  rewrite <- drop_drop, Hd, drop_app_le by lia.
  by rewrite Nat.min_l by lia.
Qed.

Lemma chain_hi stream : forall ms lo hi, chain stream lo ms hi -> (lo <= hi)%Z.
Proof.
  induction ms as [|m ms IH]; intros lo hi H; simpl in *; [done|].
  destruct H as (H1 & H2 & _ & H4). apply IH in H4. lia.
Qed.

Lemma offsetsFrom_snoc p : forall ps acc,
  offsetsFrom acc ps ->
  indexInMatch p = (acc + JS.len (concat (map text ps)))%Z ->
  offsetsFrom acc (ps ++ [p]).
Proof.
  induction ps as [|q ps IH]; intros acc H Hp; simpl in *.
  - unfold JS.len in Hp. simpl in Hp. split; [lia|done].
  - destruct H as [H1 H2]. split; [done|]. apply IH; [done|].
    rewrite Hp. unfold JS.len. rewrite length_app. lia.
Qed.

(** ** The text step of a turn *)

Lemma Pending_bounds S ids st m :
  Pending S ids st m ->
  (0 <= atIndex st < endIndex m)%Z /\
  (0 <= startIndex m < endIndex m)%Z /\
  (endIndex m <= JS.len S)%Z /\
  m0 m = JS.substring S (startIndex m) (endIndex m).
Proof.
  intros [_ Hlo (H1 & H2 & H3 & H4) Hat _ _]. apply chain_hi in H4. done.
Qed.

(** The text node in which the pending match ends. *)
Lemma textStep_resolves S ids cur d rest st m :
  Pending S ids st m -> cur ∈ ids ->
  drop (Z.to_nat (atIndex st)) S = d ++ rest ->
  (endIndex m <= atIndex st + JS.len d)%Z ->
  exists sp ep,
    startPortion (textStep cur d m st) = Some sp /\
    endPortion (textStep cur d m st) = Some ep /\
    innerPortions (textStep cur d m st) = innerPortions st /\
    node ep = cur /\ endIndexInNode ep = (endIndex m - atIndex st)%Z /\
    (node sp = cur \/ node sp ∉ ids) /\
    Forall (fun p => node p ∉ ids) (innerPortions st) /\
    reconstructs (mkResolved m sp (innerPortions st) ep) /\
    firstHasText (mkResolved m sp (innerPortions st) ep).
Proof.
  intros HP Hcur Hd Hend.
  destruct (Pending_bounds _ _ _ _ HP) as (Hat & Hlt & Hlen & Hm0).
  destruct HP as [_ _ _ _ He Hs]. unfold textStep. rewrite He. simpl.
  rewrite (proj2 (Z.leb_le _ _) Hend). simpl.
  destruct (startPortion st) as [sp0|] eqn:Es; simpl.
  - destruct Hs as (Hsi & Hne0 & Hcons & Hoff & Htxt & Hnodes).
    eexists _, _. do 5 (split; [reflexivity|]).
    split; [right; by inversion Hnodes|]. split; [by inversion Hnodes|].
    split; [|by right]. split.
    + unfold reconstructs, portionsOf. simpl.
      assert (Hne : node sp0 <> cur).
      { inversion Hnodes as [|? ? Hn0 _]; subst. intros E. apply Hn0. by rewrite E. }
      rewrite (proj2 (Nat.eqb_neq _ _) Hne).
      rewrite app_comm_cons, map_app, concat_app, Htxt. simpl.
      rewrite app_nil_r, (substring_lo d) by lia.
      replace 0%Z with (atIndex st - atIndex st)%Z by lia.
      rewrite <- (substring_window S d rest) by (done || lia).
      rewrite substring_app by lia. done.
    + unfold portionsOf. simpl.
      assert (Hne : node sp0 <> cur).
      { inversion Hnodes as [|? ? Hn0 _]; subst. intros E. apply Hn0. by rewrite E. }
      rewrite (proj2 (Nat.eqb_neq _ _) Hne).
      rewrite app_comm_cons. apply offsetsFrom_snoc; [done|]. simpl in *.
      rewrite Hcons, Htxt, substring_length by lia. lia.
  - destruct Hs as (Hsi & Hin & Hcons).
    assert (Hst : (startIndex m <? atIndex st + JS.len d)%Z = true)
      by (apply Z.ltb_lt; lia).
    rewrite Hst. simpl.
    eexists _, _. do 5 (split; [reflexivity|]).
    split; [by left|]. split; [by rewrite Hin|]. split; [|by left]. split.
    + unfold reconstructs, portionsOf. simpl. rewrite Nat.eqb_refl. simpl.
      rewrite app_nil_r, Hm0. symmetry. by apply (substring_window S d rest); try lia.
    + unfold portionsOf. simpl. rewrite Nat.eqb_refl. simpl. done.
Qed.

(** A text node before the end of the pending match. *)
Lemma textStep_continues S ids ids' cur d rest st m :
  Pending S ids st m ->
  (forall x, x ∈ ids' -> x ∈ ids /\ x <> cur) ->
  drop (Z.to_nat (atIndex st)) S = d ++ rest ->
  (atIndex st + JS.len d < endIndex m)%Z ->
  Pending S ids' (textStep cur d m st) m /\
  atIndex (textStep cur d m st) = (atIndex st + JS.len d)%Z.
Proof.
  intros HP Hids Hd Hend.
  destruct (Pending_bounds _ _ _ _ HP) as (Hat & Hlt & Hlen & Hm0).
  destruct HP as [Hm Hlo Hch _ He Hs]. unfold textStep. rewrite He. simpl.
  rewrite (proj2 (Z.leb_gt _ _) Hend). simpl.
  assert (Hlen0 : (0 <= JS.len d)%Z) by (unfold JS.len; lia).
  assert (Hwhole : d = JS.substring S (atIndex st) (atIndex st + JS.len d)).
  { rewrite (substring_window S d rest (atIndex st)) by (done || lia).
    rewrite Z.sub_diag.
    replace (atIndex st + JS.len d - atIndex st)%Z with (JS.len d) by lia.
    by rewrite substring_all. }
  destruct (startPortion st) as [sp0|] eqn:Es; simpl.
  - destruct Hs as (Hsi & Hne0 & Hcons & Hoff & Htxt & Hnodes).
    split; [|done]. constructor; try done; [simpl; lia|].
    cbn [startPortion innerPortions consumedInMatch atIndex].
    split; [lia|]. split; [done|]. split; [lia|]. split; [|split].
    + rewrite app_comm_cons. apply offsetsFrom_snoc; [done|].
      cbn [indexInMatch]. rewrite Hcons, Htxt, substring_length by lia. lia.
    + rewrite app_comm_cons, map_app, concat_app, Htxt.
      cbn [map concat text]. rewrite app_nil_r. rewrite Hwhole at 1.
      apply substring_app; lia.
    + rewrite app_comm_cons. apply Forall_app. split.
      * eapply Forall_impl; [exact Hnodes|]. intros p Hp Hin. apply Hp.
        by apply Hids.
      * constructor; [|constructor]. simpl. intros Hin. by apply Hids in Hin as [_ ?].
  - destruct Hs as (Hsi & Hin & Hcons). rewrite Es. simpl.
    destruct (Z.ltb_spec (startIndex m) (atIndex st + JS.len d)); simpl.
    + split; [|done]. constructor; try done; [simpl; lia|].
      cbn [startPortion innerPortions consumedInMatch atIndex].
      assert (Htxt : JS.substring d (startIndex m - atIndex st)
                       (endIndex m - atIndex st) =
                     JS.substring S (startIndex m) (atIndex st + JS.len d)).
      { rewrite substring_hi by lia.
        rewrite (substring_window S d rest (atIndex st)) by (done || lia).
        f_equal. lia. }
      rewrite Hin, Htxt. cbn [map concat text offsetsFrom indexInMatch].
      rewrite app_nil_r.
      split; [lia|]. split.
      { intros E0. assert (JS.len (JS.substring S (startIndex m)
                                     (atIndex st + JS.len d)) = 0%Z) as Hl
          by by rewrite E0.
        rewrite substring_length in Hl by lia. lia. }
      split; [by rewrite substring_length by lia|].
      split; [done|]. split; [done|].
      constructor; [|constructor]. simpl. intros Hc. by apply Hids in Hc as [_ ?].
    + split; [|done]. constructor; try done; [simpl; lia|].
      cbn [startPortion innerPortions consumedInMatch atIndex]. rewrite Es.
      split; [lia|done].
Qed.

(** ** The record of the resolved matches is written by the loop alone *)

Lemma keeps_ret {A} (a : A) : keeps (ret a).
Proof. done. Qed.

Lemma keeps_throw {A} e : keeps (@throw A e).
Proof. done. Qed.

Lemma keeps_bind {A B} (m : M A) (k : A -> M B) :
  keeps m -> (forall a, keeps (k a)) -> keeps (bind m k).
Proof.
  intros Hm Hk w. unfold bind. specialize (Hm w).
  destruct (m w) as [[a| |] w1]; simpl in *; [|done..].
  by rewrite Hk.
Qed.

Lemma keeps_getDom : keeps getDom.
Proof. done. Qed.

Lemma keeps_liftAlloc f : keeps (liftAlloc f).
Proof. intros w. unfold liftAlloc. by destruct (f (dom w)). Qed.

Lemma keeps_liftDom f : keeps (liftDom f).
Proof. intros w. unfold liftDom. by destruct (f (dom w)). Qed.

Lemma keeps_addCreated n : keeps (addCreated n).
Proof. done. Qed.

Lemma keeps_pushRevert op : keeps (pushRevert op).
Proof. done. Qed.

Lemma keeps_insertBeforeM p n r : keeps (insertBeforeM p n r).
Proof. destruct p; [apply keeps_liftDom|apply keeps_throw]. Qed.

Lemma keeps_removeChildM p c : keeps (removeChildM p c).
Proof. destruct p; [apply keeps_liftDom|apply keeps_throw]. Qed.

Lemma keeps_replaceChildM p n o : keeps (replaceChildM p n o).
Proof. destruct p; [apply keeps_liftDom|apply keeps_throw]. Qed.

Lemma keeps_createTextNodeIf c d : keeps (createTextNodeIf c d).
Proof.
  unfold createTextNodeIf. destruct c; [|apply keeps_ret].
  apply keeps_bind; [apply keeps_liftAlloc|]. intros. apply keeps_ret.
Qed.

Lemma keeps_insertIfSome o r : keeps (insertIfSome o r).
Proof.
  destruct o; [|apply keeps_ret]. apply keeps_bind; [apply keeps_getDom|].
  intros. apply keeps_insertBeforeM.
Qed.

Ltac keeps_step :=
  first
    [ apply keeps_ret | apply keeps_throw | apply keeps_getDom
    | apply keeps_liftAlloc | apply keeps_liftDom | apply keeps_addCreated
    | apply keeps_pushRevert | apply keeps_insertBeforeM
    | apply keeps_removeChildM | apply keeps_replaceChildM
    | apply keeps_createTextNodeIf | apply keeps_insertIfSome
    | apply keeps_bind; [|intros ?]
    | match goal with
      | |- keeps (if ?c then _ else _) => destruct c
      | |- keeps (match ?x with _ => _ end) => destruct x
      end ].

Lemma keeps_splitAround a n b x : keeps (splitAround a n b x).
Proof. unfold splitAround. repeat keeps_step. Qed.

Lemma keeps_getPortionReplacementNode options portion match_ :
  keeps (getPortionReplacementNode options portion match_).
Proof.
  unfold getPortionReplacementNode.
  destruct (default (ReplString (txt "$&")) (replace options)) as [r|f].
  - apply keeps_bind; [apply keeps_liftAlloc|]. intros textNode.
    destruct (wrap options) as [[[|c name]|stencil]|]; try apply keeps_ret.
    + destruct (Nat.eqb _ 0); [apply keeps_liftAlloc|].
      apply keeps_bind.
      { intros w. by destruct (createElement (c :: name) (dom w)) as [[? ?]| |]. }
      intros el.
      apply keeps_bind; [by destruct (wrapClass options) as [[|? ?]|]|].
      intros _. apply keeps_bind; [done|]. intros _. apply keeps_ret.
    + destruct (Nat.eqb _ 0); [apply keeps_liftAlloc|].
      apply keeps_bind.
      { intros w. by destruct (cloneNode stencil (dom w)) as [[? ?]| |]. }
      intros el.
      apply keeps_bind; [by destruct (wrapClass options) as [[|? ?]|]|].
      intros _. apply keeps_bind; [done|]. intros _. apply keeps_ret.
  - intros w. cbv beta. by destruct (f portion match_ (dom w)) as [s [n|r|z]].
Qed.

Lemma keeps_replaceInner options match_ ips :
  keeps (replaceInner options match_ ips).
Proof.
  induction ips as [|p ips IH]; simpl; [apply keeps_ret|].
  apply keeps_bind; [apply keeps_getPortionReplacementNode|]. intros.
  repeat keeps_step. done.
Qed.

Lemma keeps_replaceMatch options match_ sp ips ep :
  keeps (replaceMatch options match_ sp ips ep).
Proof.
  unfold replaceMatch.
  repeat first
    [ apply keeps_getPortionReplacementNode | apply keeps_splitAround
    | apply keeps_replaceInner | keeps_step ].
Qed.

(** ** The turns of the loop on the agenda *)

Lemma iteration_created options root cur st w :
  inb cur (createdNodes w) = true ->
  iteration options root cur st w = (Ok (nextOf (dom w) root st cur), w).
Proof.
  intros H. unfold iteration, nextOf. rewrite H.
  by destruct (nextSibling (dom w) cur).
Qed.

Lemma iteration_pass options root cur st w :
  inb cur (createdNodes w) = false ->
  endPortion (afterText (dom w) cur st) = None ->
  iteration options root cur st w =
    (Ok (match (if isElementNode (dom w) cur &&
                   filteredOut (filterElements options) (dom w) cur
                then None else firstChild (dom w) cur) with
         | Some child =>
             moveTo (afterText (dom w) cur st)
               (cur :: nodeStack (afterText (dom w) cur st)) (Some child)
               (done (afterText (dom w) cur st))
         | None => nextOf (dom w) root (afterText (dom w) cur st) cur
         end), w).
Proof.
  intros H He. unfold iteration, nextOf. rewrite H, He.
  destruct (startPortion _);
    destruct (if _ : bool then None else firstChild (dom w) cur); try done;
    by destruct (nextSibling (dom w) cur).
Qed.

Lemma iteration_resolve options root cur st w sp ep m :
  inb cur (createdNodes w) = false ->
  startPortion (afterText (dom w) cur st) = Some sp ->
  endPortion (afterText (dom w) cur st) = Some ep ->
  curMatch (afterText (dom w) cur st) = Some m ->
  iteration options root cur st w =
    (do _ <- logResolved
               (mkResolved m sp (innerPortions (afterText (dom w) cur st)) ep);
     do nextNode <-
       replaceMatch options m sp (innerPortions (afterText (dom w) cur st)) ep;
     ret (mkLoop None None [] nextNode
            (head (queue (afterText (dom w) cur st)))
            (tail (queue (afterText (dom w) cur st)))
            (endIndex m) 0 0 (nodeStack (afterText (dom w) cur st))
            (match head (queue (afterText (dom w) cur st)) with
             | Some _ => done (afterText (dom w) cur st)
             | None => true
             end))) w.
Proof. intros H Hs He Hm. unfold iteration. by rewrite H, Hs, He, Hm. Qed.

Lemma Pending_moveTo S ids ids' st m stack cur dn :
  Pending S ids st m -> (forall x, x ∈ ids' -> x ∈ ids) ->
  Pending S ids' (moveTo st stack cur dn) m.
Proof.
  intros [H1 H2 H3 H4 H5 H6] Hsub. constructor; simpl; try done.
  destruct (startPortion st) as [sp|]; [|done].
  destruct H6 as (? & ? & ? & ? & ? & H6). do 5 (split; [done|]).
  eapply Forall_impl; [exact H6|]. intros p Hp Hin. by apply Hp, Hsub.
Qed.

Lemma Repr_ids_lt fe (s : DOM) cr t :
  Repr fe s cr t -> forall x, x ∈ idsOf t -> x < length s.
Proof.
  induction t as [id d r|id|id|id av kids IH] using Tree_nested_ind;
    intros H x Hx;
    inversion H as [? ? ? Hk Hc Hn|? Hk Hc Hn|? Hc Hl|? He Hn Hf
                   |? ? He Hn Hf Hch Hpar Hkids]; subst; simpl in Hx.
  - apply list_elem_of_singleton in Hx. subst. by eapply kindOf_lt.
  - apply list_elem_of_singleton in Hx. subst. by eapply kindOf_lt.
  - apply list_elem_of_singleton in Hx. by subst.
  - apply list_elem_of_singleton in Hx. subst. by apply isElementNode_lt.
  - apply elem_of_cons in Hx as [->|Hx]; [by apply isElementNode_lt|].
    apply list_elem_of_In, in_flat_map in Hx as (k & Hk & Hx).
    apply list_elem_of_In in Hk, Hx. rewrite Forall_forall in IH, Hkids.
    by apply (IH k Hk (Hkids k Hk)).
Qed.

Lemma Agenda_ids_lt fe (s : DOM) cr root c fs stack :
  Agenda fe s cr root c fs stack ->
  root < length s /\ forall x, x ∈ agendaIds c fs -> x < length s.
Proof.
  intros [Hself HL HS HR Hnd Hroot]. split.
  - clear - HL HS. induction HL as [f Hf|f g fs st H1 H2 _ IH].
    + inversion HS as [|? ? Hs _]; subst. by destruct (Suffix_lt _ _ _ _ Hs).
    + inversion HS; subst. by apply IH.
  - intros x Hx. unfold agendaIds in Hx. apply elem_of_app in Hx as [Hx|Hx].
    + apply list_elem_of_fmap in Hx as (g & -> & Hg).
      assert (g ∈ fs) as Hg' by (destruct fs; [done|by right]).
      rewrite Forall_forall in HS. by destruct (Suffix_lt _ _ _ _ (HS g Hg')).
    + apply list_elem_of_In, in_flat_map in Hx as (t & Ht & Hx).
      apply list_elem_of_In in Ht, Hx. rewrite Forall_forall in HR.
      by apply (Repr_ids_lt _ _ _ _ (HR t Ht)).
Qed.

Lemma advance_ids fe (s : DOM) cr root c fs stack r fs2 :
  Agenda fe s cr root c fs stack -> popFrames fs = Some (r, fs2) ->
  forall x, x ∈ agendaIds r fs2 -> x ∈ agendaIds c fs /\ (x ∉ idsOf c).
Proof.
  intros [Hself HL HS HR Hnd Hroot] HP x Hx.
  destruct fs as [|f fs]; [done|].
  pose proof (popFrames_ids _ _ _ _ HP) as Hsub.
  apply (elem_of_sublist _ _ _ Hx) in Hsub.
  unfold agendaIds, ahead in *. simpl in *.
  rewrite (app_assoc _ (idsOf c)) in Hnd.
  apply NoDup_app in Hnd as (Hnd1 & Hd1 & Hnd2).
  apply NoDup_app in Hnd1 as (_ & Hd2 & _).
  apply elem_of_app in Hsub as [Hsub|Hsub].
  - split; [apply elem_of_app; by left|]. by apply Hd2.
  - split; [apply elem_of_app; right; apply elem_of_app; by right|].
    intros Hin. apply (Hd1 x); [|done]. apply elem_of_app. by right.
Qed.

(** A turn that does not go into [curNode], after the text of [curNode]
    was read: the traversal goes to the next tree. *)
Lemma Aligned_advance fe root S st (w : World) c fs m :
  Agenda fe (dom w) (createdNodes w) root c fs (nodeStack st) ->
  (forall ids', (forall x, x ∈ ids' -> x ∈ agendaIds c fs /\ x <> idOf c) ->
     Pending S ids' st m) ->
  flat_map textOf (ahead c fs) = textOf c ++ drop (Z.to_nat (atIndex st)) S ->
  Aligned fe root S (nextOf (dom w) root st (idOf c)) w.
Proof.
  intros HA HP Htxt. destruct (popFrames fs) as [[r fs2]|] eqn:E.
  - destruct (Agenda_advance _ _ _ _ _ _ _ st _ _ HA eq_refl E)
      as (stack2 & -> & HA2).
    assert (Hids : forall x, x ∈ agendaIds r fs2 ->
              x ∈ agendaIds c fs /\ x <> idOf c).
    { intros x Hx. destruct (advance_ids _ _ _ _ _ _ _ _ _ HA E x Hx) as [? Hn].
      split; [done|]. intros ->. apply Hn, idOf_idsOf. }
    exists r, fs2, m. split; [done|]. split; [done|]. split.
    + apply (Pending_moveTo S (agendaIds r fs2)); [by apply HP|done].
    + rewrite (Agenda_advance_text _ _ _ _ E) in Htxt.
      by apply app_inv_head in Htxt.
  - rewrite (Agenda_exhausted _ _ E) in Htxt.
    rewrite <- (app_nil_r (textOf c)) in Htxt at 1.
    apply app_inv_head in Htxt.
    assert (HP0 : Pending S [] st m) by (apply HP; intros x Hx; inversion Hx).
    destruct (Pending_bounds _ _ _ _ HP0) as (Hat & _ & Hlen & _).
    assert (length (drop (Z.to_nat (atIndex st)) S) = 0) as Hl by by rewrite <- Htxt.
    rewrite length_drop in Hl. unfold JS.len in Hlen. lia.
Qed.

Lemma NoDup_replace_middle (A B : list nat) n h :
  NoDup (A ++ n :: B) -> h ∉ A -> h ∉ B -> NoDup (A ++ h :: B).
Proof.
  rewrite !NoDup_app, !NoDup_cons. intros (H1 & H2 & H3 & H4) HA HB.
  split; [done|]. split; [|done].
  intros x Hx Hin. apply elem_of_cons in Hin as [->|Hin]; [done|].
  apply (H2 x Hx). by right.
Qed.

Lemma agendaIds_text n d rl f fs :
  agendaIds (Txt n d rl) (f :: fs) =
  map fself fs ++ n :: flat_map idsOf (frest f ++ flat_map frest fs).
Proof. done. Qed.

Lemma elem_of_flat_ids t (ts : list Tree) x :
  t ∈ ts -> x ∈ idsOf t -> x ∈ flat_map idsOf ts.
Proof.
  intros Ht Hx. apply list_elem_of_In, in_flat_map. exists t.
  split; by apply list_elem_of_In.
Qed.

(** The agenda after [replaceMatch] has replaced a match that ends in the
    text node [n]: the traversal goes on from the text that is left of [n],
    or from the replacement when no text is left. *)
Lemma Agenda_replaced fe (s s' : DOM) cr crn K root n d rl f fs stack p
    pre new post leftover :
  kindOnly fe -> closed s ->
  Agenda fe s cr root (Txt n d rl) (f :: fs) stack ->
  Forall (fun c => c < length s) cr ->
  Rel s s' K ->
  (forall k, is_Some (K !! k) -> k = n \/ k ∉ agendaIds (Txt n d rl) (f :: fs)) ->
  K !! n = Some (p, standins pre new post) ->
  NoDup (standins pre new post) -> n ∉ standins pre new post ->
  (forall c, c ∈ crn -> length s <= c < length s') -> new ∈ crn ->
  (forall z, post = Some z ->
     (z ∉ crn) /\ length s <= z /\
     kindOf s' z = Some (TextNode leftover true) /\ childrenOf s' z = []) ->
  Agenda fe s' (crn ++ cr) root
    (match post with Some z => Txt z leftover true | None => Skp new end)
    (mkFrame (fparent f) (orNode post new) (frest f) :: fs) stack.
Proof.
  intros Hfe Hcl HA Hcr HR Hkeys HKn Hnd Hn Hcrn Hnew Hpost.
  destruct (Agenda_ids_lt _ _ _ _ _ _ _ HA) as [Hrootlt Hlt].
  destruct HA as [Hself HL HS HRp Hndi Hroot].
  assert (Hf : fself f = n) by (simpl in Hself; congruence).
  rewrite agendaIds_text in *.
  set (A := map fself fs) in *.
  set (B := flat_map idsOf (frest f ++ flat_map frest fs)) in *.
  assert (HnA : (n ∉ A) /\ (n ∉ B)).
  { apply NoDup_app in Hndi as (_ & Hd & Hn2). apply NoDup_cons in Hn2 as [? _].
    split; [|done]. intros Hin. apply (Hd n Hin). by left. }
  assert (HKnone : forall x, x ∈ A \/ x ∈ B -> K !! x = None).
  { intros x Hx. apply eq_None_not_Some. intros HS'.
    destruct (Hkeys x HS') as [->|Hni].
    - destruct HnA. by destruct Hx.
    - apply Hni. apply elem_of_app. destruct Hx; [by left|right; by right]. }
  assert (Hh : orNode post new ∈ standins pre new post).
  { apply standins_elem. destruct post; simpl; eauto. }
  assert (Hhge : length s <= orNode post new < length s').
  { destruct (rel_key _ _ _ HR _ _ _ HKn) as (_ & _ & Hys).
    destruct (Hys _ Hh) as [E|[? _]]; [|done]. rewrite E in Hh. done. }
  assert (HhA : (orNode post new ∉ A) /\ (orNode post new ∉ B)).
  { split; intros Hin.
    - assert (orNode post new < length s); [|lia].
      apply Hlt, elem_of_app. by left.
    - assert (orNode post new < length s); [|lia].
      apply Hlt, elem_of_app. right. by right. }
  assert (Hrest : forall t, t ∈ frest f ++ flat_map frest fs ->
            forall x, x ∈ idsOf t -> K !! x = None).
  { intros t Ht x Hx. apply HKnone. right. by eapply elem_of_flat_ids. }
  assert (Hidx : forall ts, (forall t, t ∈ ts -> t ∈ frest f ++ flat_map frest fs) ->
            forall x, x ∈ map idOf ts -> K !! x = None).
  { intros ts Hts x Hx. apply list_elem_of_fmap in Hx as (t & -> & Ht).
    apply (Hrest t (Hts t Ht)), idOf_idsOf. }
  split.
  - simpl. by destruct post.
  - by eapply Linked_head.
  - inversion HS as [|? ? Hsf HS']; subst. constructor.
    + simpl. destruct (standins_last pre new post) as [front Hfront].
      rewrite Hfront in *.
      eapply (Suffix_replaced s s' K (fself f)); eauto.
      apply Hidx. intros t Ht. apply elem_of_app. by left.
    + rewrite Forall_forall in HS' |- *. intros g Hg.
      apply (Suffix_Rel s s' K); [done| |by apply HS'].
      intros x Hx. apply elem_of_cons in Hx as [->|Hx].
      * apply HKnone. left. by apply list_elem_of_fmap_2.
      * revert x Hx. apply Hidx. intros t Ht. apply elem_of_app. right.
        apply list_elem_of_In, in_flat_map. exists g.
        split; by apply list_elem_of_In.
  - unfold ahead in *. simpl in *. inversion HRp as [|? ? _ HRr]; subst.
    constructor.
    + destruct post as [z|].
      * destruct (Hpost z eq_refl) as (Hz1 & Hz2 & Hz3 & Hz4).
        constructor; [done|done|]. rewrite not_elem_of_app. split; [done|].
        intros Hin. rewrite Forall_forall in Hcr. apply Hcr in Hin. lia.
      * constructor; [apply elem_of_app; by left|]. by apply Hcrn.
    + rewrite Forall_forall in HRr |- *. intros t Ht.
      apply (Repr_Rel fe s s' K cr (crn ++ cr) Hfe HR).
      * intros x Hx. apply elem_of_app. by right.
      * intros x Hx. apply elem_of_app in Hx as [Hx|Hx]; [|by left].
        right. by apply Hcrn.
      * by apply Hrest.
      * by apply HRr.
  - unfold agendaIds, ahead. simpl.
    replace (idsOf (match post with
                    | Some z => Txt z leftover true
                    | None => Skp new
                    end)) with [orNode post new] by by destruct post.
    simpl. fold A B. apply (NoDup_replace_middle A B n); [done|apply HhA..].
  - unfold agendaIds, ahead. simpl.
    replace (idsOf (match post with
                    | Some z => Txt z leftover true
                    | None => Skp new
                    end)) with [orNode post new] by by destruct post.
    simpl. fold A B. intros Hin. apply elem_of_app in Hin as [Hin|Hin].
    + apply Hroot. apply elem_of_app. by left.
    + apply elem_of_cons in Hin as [E|Hin]; [lia|].
      apply Hroot. apply elem_of_app. right. by right.
Qed.

(** ** One turn of the loop *)

Lemma Pending_mono S ids ids' st m :
  Pending S ids st m -> (forall x, x ∈ ids' -> x ∈ ids) -> Pending S ids' st m.
Proof.
  intros [H1 H2 H3 H4 H5 H6] Hsub. constructor; try done.
  destruct (startPortion st) as [sp|]; [|done].
  destruct H6 as (? & ? & ? & ? & ? & H6). do 5 (split; [done|]).
  eapply Forall_impl; [exact H6|]. intros p Hp Hin. by apply Hp, Hsub.
Qed.

Lemma descend_ids id k ks f fs :
  fself f = id ->
  agendaIds k (mkFrame id (idOf k) ks :: f :: fs) ≡ₚ
  agendaIds (Elt id false (k :: ks)) (f :: fs).
Proof.
  intros Hf. unfold agendaIds, ahead. simpl. rewrite Hf.
  rewrite !flat_map_app. rewrite <- !app_assoc.
  by rewrite <- Permutation_middle.
Qed.

Lemma drop_after (S d rest : str) at_ :
  (0 <= at_)%Z -> drop (Z.to_nat at_) S = d ++ rest ->
  drop (Z.to_nat (at_ + JS.len d)) S = rest.
Proof.
  intros Ha H. unfold JS.len.
  replace (Z.to_nat (at_ + Z.of_nat (length d))) with (Z.to_nat at_ + length d)
    by lia.
  by rewrite <- drop_drop, H, drop_app_length.
Qed.

(** A turn at a node that the traversal passes over. *)
Lemma pass_Aligned fe root S st (w : World) c fs m :
  Agenda fe (dom w) (createdNodes w) root c fs (nodeStack st) ->
  Pending S (agendaIds c fs) st m ->
  flat_map textOf (ahead c fs) = drop (Z.to_nat (atIndex st)) S ->
  textOf c = [] ->
  Aligned fe root S (nextOf (dom w) root st (idOf c)) w.
Proof.
  intros HA HP Htxt Hc. apply (Aligned_advance _ _ _ _ _ c fs m); [done| |].
  - intros ids' Hids. apply (Pending_mono _ _ _ _ _ HP). intros x Hx.
    by apply Hids.
  - by rewrite Hc.
Qed.

(** The variables of the loop after a match was replaced, when another
    match is left. *)
Lemma Pending_next S ids m m' q stack cur dn :
  (0 <= startIndex m < endIndex m)%Z ->
  chain S (endIndex m) (m' :: q) (JS.len S) ->
  Pending S ids
    (mkLoop None None [] cur (Some m') q (endIndex m) 0 0 stack dn) m'.
Proof.
  intros Hm Hch. pose proof Hch as (H1 & H2 & H3 & H4).
  constructor; simpl; try done; lia.
Qed.

Lemma substringFrom_all (d : str) z : (JS.len d <= z)%Z -> JS.substringFrom d z = [].
Proof.
  intros H. unfold JS.substringFrom, JS.clamp, JS.len in *.
  rewrite Nat.min_r by lia. apply drop_all.
Qed.

(** A turn in which a match was replaced and another match is left. *)
Lemma replaced_Aligned fe root S (w1 w2 : World) n d rl f fs stack m sp ips ep r ops
    m' q dn at_ :
  kindOnly fe -> closed (dom w1) -> CreatedOK w1 ->
  Agenda fe (dom w1) (createdNodes w1) root (Txt n d rl) (f :: fs) stack ->
  node ep = n -> endIndexInNode ep = (endIndex m - at_)%Z ->
  node sp = n \/ node sp ∉ agendaIds (Txt n d rl) (f :: fs) ->
  Forall (fun p => node p ∉ agendaIds (Txt n d rl) (f :: fs)) ips ->
  Replaced w1 sp ips ep r ops w2 ->
  (0 <= at_ < endIndex m)%Z -> (endIndex m <= at_ + JS.len d)%Z ->
  (0 <= startIndex m < endIndex m)%Z ->
  flat_map textOf (ahead (Txt n d rl) (f :: fs)) = drop (Z.to_nat at_) S ->
  chain S (endIndex m) (m' :: q) (JS.len S) ->
  CreatedOK w2 /\
  Aligned fe root S
    (mkLoop None None [] r (Some m') q (endIndex m) 0 0 stack dn) w2.
Proof.
  intros Hfe Hcl Hcr HA Hep Hend Hsp Hips HRep Hat Hei Hsi Htxt Hch.
  destruct HRep as (K & cr & pre & new & post & p & HM & HE & Hg & Hkeys & HKe
                    & Hr & Hnew & Hcrn & Hnd & Hnin & Hpost & Hnone).
  destruct HM as [HR Hcl2 Hrev Hcreated Hres].
  assert (Hd : dataOf (dom w1) n = d).
  { pose proof (ag_repr _ _ _ _ _ _ _ HA) as HRp.
    inversion HRp as [|? ? Hc _]; subst.
    inversion Hc as [? ? ? Hk _ _| | | |]; subst.
    by destruct (kind_text _ _ _ _ Hk) as (_ & _ & ? & _). }
  rewrite Hep, Hd, Hend in *.
  set (leftover := JS.substringFrom d (endIndex m - at_)) in *.
  split.
  { unfold CreatedOK in *. rewrite Hcreated. apply Forall_app. split.
    - apply Forall_forall. intros c Hc. by apply Hcrn.
    - eapply Forall_impl; [exact Hcr|]. intros c Hc. simpl in Hc.
      destruct Hg as [? _]. lia. }
  assert (HA2 : Agenda fe (dom w2) (createdNodes w2) root
            (match post with Some z => Txt z leftover true | None => Skp new end)
            (mkFrame (fparent f) (orNode post new) (frest f) :: fs) stack).
  { rewrite Hcreated.
    eapply (Agenda_replaced fe (dom w1) (dom w2) (createdNodes w1) cr K root n d rl);
      eauto.
    intros k Hk. destruct (Hkeys k Hk) as [->|[->|Hk']].
    - done.
    - by left.
    - right. apply list_elem_of_fmap in Hk' as (ip & -> & Hip).
      rewrite Forall_forall in Hips. by apply Hips. }
  exists (match post with Some z => Txt z leftover true | None => Skp new end),
    (mkFrame (fparent f) (orNode post new) (frest f) :: fs), m'.
  split; [|split; [done|split]].
  - simpl. rewrite Hr. by destruct post.
  - by apply Pending_next.
  - unfold ahead in *. simpl in *.
    rewrite (drop_window S d _ at_ (endIndex m)) by (done || lia).
    f_equal. destruct post as [z|]; [done|]. simpl. symmetry.
    apply substringFrom_all. apply Z.ltb_ge. by apply Hnone.
Qed.

Lemma afterText_other (s : DOM) cur st :
  isTextNode s cur = false -> afterText s cur st = st.
Proof. intros H. unfold afterText. rewrite H. by destruct (curMatch st). Qed.

Lemma afterText_text (s : DOM) cur st m d r :
  curMatch st = Some m -> kindOf s cur = Some (TextNode d r) ->
  afterText s cur st = textStep cur d m st.
Proof.
  intros Hm Hk. destruct (kind_text _ _ _ _ Hk) as (Ht & _ & Hd & _).
  unfold afterText. by rewrite Hm, Ht, Hd.
Qed.

(** One turn of the loop keeps the traversal and the search aligned, and
    the match it resolves, if any, has portions that give its text back. *)
Lemma iteration_Aligned options root s0 S cur st w res w' :
  wellBehavedReplace options -> kindOnly (filterElements options) ->
  Revertible s0 st w -> CreatedOK w -> LogOK w ->
  Aligned (filterElements options) root S st w ->
  curNode st = Some cur ->
  iteration options root cur st w = (res, w') ->
  LogOK w' /\
  match res with
  | Ok st' =>
      CreatedOK w' /\
      (curNode st' = None \/ done st' = true \/
       Aligned (filterElements options) root S st' w')
  | _ => True
  end.
Proof.
  intros Hwb Hfe (Hcl & _ & Hinner) Hcr Hlog (c & fs & m & Hc & HA & HP & Htxt)
    Hcur E.
  assert (cur = idOf c) as -> by congruence.
  pose proof (ag_repr _ _ _ _ _ _ _ HA) as HRp.
  apply Forall_inv in HRp.
  assert (Hpass : forall st1, textOf c = [] ->
            (res, w') = (Ok (nextOf (dom w) root st1 (idOf c)), w) ->
            st1 = st ->
            LogOK w' /\
            match res with
            | Ok st' =>
                CreatedOK w' /\
                (curNode st' = None \/ done st' = true \/
                 Aligned (filterElements options) root S st' w')
            | _ => True
            end).
  { intros st1 Hc0 [= -> ->] ->. split; [done|]. split; [done|]. right. right.
    by eapply pass_Aligned. }
  inversion HRp as [id d r Hk Hch Hn Hid|id Hk Hch Hn Hid|id Hin Hl Hid
                   |id He Hn Hf Hid|id kids He Hn Hf Hch Hpar Hkids Hid];
    rewrite <- Hid in *; simpl in *.
  - (* a text node *)
    apply inb_false in Hn.
    pose proof (afterText_text _ _ _ _ _ _ (pd_match _ _ _ _ HP) Hk) as Haft.
    pose proof (textStep_frame id d m st) as Hfr. cbv zeta in Hfr.
    destruct Hfr as (Hq & Hstack & _ & Hm' & Hdone).
    destruct (Pending_bounds _ _ _ _ HP) as (Hat & Hsi & Hlen & Hm0).
    assert (Hhere : id ∈ agendaIds (Txt id d r) fs).
    { unfold agendaIds, ahead. simpl. apply elem_of_app. right. by left. }
    destruct (Z.le_gt_cases (endIndex m) (atIndex st + JS.len d)) as [Hend|Hend].
    + (* the match ends in it *)
      destruct (textStep_resolves S _ id d _ st m HP Hhere (eq_sym Htxt) Hend)
        as (sp & ep & Hsp & Hep & Hin' & Hnode & Hendidx & Hspn & Hipsn & Hrec).
      rewrite (iteration_resolve options root id st w sp ep m) in E;
        [|done|by rewrite Haft|by rewrite Haft|rewrite Haft, Hm'; apply HP].
      rewrite Haft, Hin', Hq, Hstack, Hdone in E.
      unfold bind at 1, logResolved at 1 in E. unfold bind at 1 in E.
      set (w1 := mkWorld (dom w) (reverts w) (createdNodes w)
                   (resolved w ++ [mkResolved m sp (innerPortions st) ep])) in *.
      assert (Hlog1 : LogOK w1).
      { unfold LogOK, w1. cbn [resolved]. apply Forall_app. split; [done|].
        by constructor. }
      pose proof (keeps_replaceMatch options m sp (innerPortions st) ep w1) as Hkeep.
      pose proof (replaceMatch_spec options m sp (innerPortions st) ep w1
                    Hwb Hcl Hinner) as Hwp.
      destruct (replaceMatch options m sp (innerPortions st) ep w1)
        as [[rn| |] w2] eqn:Er; cbn [snd] in Hkeep;
        inversion E; subst res w'; clear E;
        (split; [unfold LogOK; by rewrite Hkeep|]); [|done..].
      unfold wp in Hwp. rewrite Er in Hwp.
      destruct Hwp as [[-> ->]|[ops Hrep]]; [split; [done|by left]|].
      destruct fs as [|f fs]; [by destruct HA|].
      destruct (queue st) as [|m' q] eqn:Eq.
      { split; [|right; by left].
        destruct Hrep as (K & cr & pre & new & post & p & HM & _ & Hg & _ & _ & _
                          & _ & Hcrn & _).
        unfold CreatedOK in *. rewrite (mid_created _ _ _ _ _ HM).
        apply Forall_app. split.
        - apply Forall_forall. intros x Hx. by apply Hcrn.
        - eapply Forall_impl; [exact Hcr|]. intros x Hx. cbn beta in Hx.
          destruct Hg as [Hg _]. unfold w1 in Hg. cbn [dom] in Hg. lia. }
      cbn [head tail].
      destruct (replaced_Aligned (filterElements options) root S w1 w2 id d r f fs
                  (nodeStack st) m sp (innerPortions st) ep rn ops m' q (done st)
                  (atIndex st)) as [Hcr2 HAl]; try done.
      * pose proof (pd_chain _ _ _ _ HP) as (_ & _ & _ & Hch'). by rewrite Eq in Hch'.
      * split; [done|]. right. by right.
    + (* the match goes on after it *)
      destruct (kind_text _ _ _ _ Hk) as (_ & Hel & _ & _).
      assert (Hcont : forall ids',
                (forall x, x ∈ ids' -> x ∈ agendaIds (Txt id d r) fs /\ x <> id) ->
                Pending S ids' (textStep id d m st) m /\
                atIndex (textStep id d m st) = (atIndex st + JS.len d)%Z).
      { intros ids' Hids.
        by apply (textStep_continues S _ ids' id d _ st m HP Hids (eq_sym Htxt)). }
      destruct (Hcont [] ltac:(intros x Hx; inversion Hx)) as [HP0 Hat'].
      rewrite (iteration_pass options root id st w) in E;
        [|done|rewrite Haft; apply HP0].
      rewrite Haft, Hel in E. simpl in E. unfold firstChild in E.
      rewrite Hch in E. simpl in E. inversion E; subst res w'; clear E.
      split; [done|]. split; [done|]. right. right.
      apply (Aligned_advance _ _ _ _ _ (Txt id d r) fs m).
      * by rewrite Hstack.
      * intros ids' Hids. by apply Hcont.
      * cbn [textOf]. rewrite Hat'. unfold ahead in *. cbn [flat_map textOf] in *.
        f_equal. symmetry. apply (drop_after S d); [lia|by rewrite <- Htxt].
  - (* a node that is neither a text node nor an element *)
    apply inb_false in Hn. destruct (kind_other _ _ Hk) as [Ht Hel].
    rewrite (iteration_pass options root id st w) in E;
      [|done|rewrite afterText_other by done; apply HP].
    rewrite afterText_other, Hel in E by done. simpl in E.
    unfold firstChild in E. rewrite Hch in E. simpl in E.
    by apply (Hpass st).
  - (* a node of createdNodes *)
    apply inb_elem_of in Hin. rewrite iteration_created in E by done.
    by apply (Hpass st).
  - (* an element that the filter keeps the traversal out of *)
    apply inb_false in Hn. pose proof (element_not_text _ _ He) as Ht.
    rewrite (iteration_pass options root id st w) in E;
      [|done|rewrite afterText_other by done; apply HP].
    rewrite afterText_other, He, Hf in E by done. simpl in E.
    by apply (Hpass st).
  - (* an element *)
    apply inb_false in Hn. pose proof (element_not_text _ _ He) as Ht.
    rewrite (iteration_pass options root id st w) in E;
      [|done|rewrite afterText_other by done; apply HP].
    rewrite afterText_other, He, Hf in E by done. simpl in E.
    destruct kids as [|k ks].
    + unfold firstChild in E. rewrite Hch in E. simpl in E. by apply (Hpass st).
    + destruct (Agenda_descend _ _ _ _ _ _ _ _ _ HA) as [Hfc HA2].
      rewrite Hfc in E. inversion E; subst res w'; clear E.
      split; [done|]. split; [done|]. right. right.
      exists k, (mkFrame id (idOf k) ks :: fs), m.
      split; [done|]. split; [done|]. split.
      * apply (Pending_moveTo _ _ _ _ _ _ _ _ HP). intros x Hx.
        destruct fs as [|f fs]; [by destruct HA|].
        rewrite <- (descend_ids id k ks f fs); [done|].
        pose proof (ag_self _ _ _ _ _ _ _ HA) as Hs. simpl in Hs. congruence.
      * simpl. rewrite <- Htxt. unfold ahead. simpl.
        by rewrite !flat_map_app, <- !app_assoc.
Qed.

(** ** C3: the portions of every resolved match *)

Lemma processLoop_LogOK options root s0 S :
  wellBehavedReplace options -> kindOnly (filterElements options) ->
  forall fuel st w res w',
    Revertible s0 st w -> CreatedOK w -> LogOK w ->
    (curNode st = None \/ done st = true \/
     Aligned (filterElements options) root S st w) ->
    processLoop options root fuel st w = (res, w') -> LogOK w'.
Proof.
  intros Hwb Hfe. induction fuel as [|fuel IH];
    intros st w res w' Hrev Hcr Hlog Hal E; simpl in E.
  - by inversion E; subst.
  - destruct (curNode st) as [cur|] eqn:Ecur; [|by inversion E; subst].
    destruct (done st) eqn:Edone; [by inversion E; subst|].
    destruct Hal as [?|[?|Hal]]; try done.
    unfold bind in E.
    destruct (iteration options root cur st w) as [r1 w1] eqn:E1.
    pose proof (iteration_Aligned _ _ _ _ _ _ _ _ _ Hwb Hfe Hrev Hcr Hlog Hal Ecur E1)
      as [Hlog1 Hres].
    destruct r1 as [st1| |]; [|by inversion E; subst..].
    destruct Hres as [Hcr1 Hal1].
    eapply (IH st1 w1); [|done|done|done|exact E].
    by eapply iteration_Revertible.
Qed.

(** The first turn of the loop: the traversal goes into the root. *)
Lemma first_turn options root (s : DOM) S t m ms :
  Repr (filterElements options) s [] t -> idOf t = root ->
  isElementNode s root = true -> NoDup (idsOf t) -> textOf t = S ->
  chain S 0 (m :: ms) (JS.len S) ->
  exists st1,
    iteration options root root
      (mkLoop None None [] (Some root) (Some m) ms 0 0 0 [root] false)
      (freshWorld s) = (Ok st1, freshWorld s) /\
    innerPortions st1 = [] /\
    Aligned (filterElements options) root S st1 (freshWorld s).
Proof.
  intros HR Hid He Hnd Htxt Hch.
  pose proof Hch as (Hlo & Hlt & Hm0 & Hrest). apply chain_hi in Hrest.
  assert (Hne : S <> []).
  { intros ->. unfold JS.len in Hrest. simpl in Hrest. lia. }
  set (st0 := mkLoop None None [] (Some root) (Some m) ms 0 0 0 [root] false).
  inversion HR as [id d r Hk _ _ Hid'|id Hk _ _ Hid'|id Hin _ Hid'
                  |id He' _ Hf Hid'|id kids He' _ Hf Hchd Hpar Hkids Hid'];
    rewrite <- Hid' in *; simpl in Hid; subst id.
  - destruct (kind_text _ _ _ _ Hk) as (_ & Hel & _). congruence.
  - destruct (kind_other _ _ Hk) as (_ & Hel). congruence.
  - inversion Hin.
  - by simpl in Htxt.
  - destruct kids as [|k ks]; [by simpl in Htxt|].
    pose proof (element_not_text _ _ He) as Ht.
    rewrite (iteration_pass options root root st0 (freshWorld s));
      [|done|by rewrite afterText_other].
    rewrite afterText_other by done. cbn [dom freshWorld].
    rewrite He, Hf. unfold firstChild. rewrite Hchd. cbn [andb map head].
    eexists. split; [reflexivity|]. split; [done|].
    exists k, [mkFrame root (idOf k) ks], m.
    simpl in Hnd. apply NoDup_cons in Hnd as [Hroot Hnd].
    assert (Hids : agendaIds k [mkFrame root (idOf k) ks] =
                   flat_map idsOf (k :: ks)).
    { unfold agendaIds, ahead. simpl. by rewrite app_nil_r. }
    split; [done|]. split; [|split].
    + split.
      * done.
      * by constructor.
      * constructor; [|constructor]. simpl. exists []. split; [done|]. split.
        -- apply (sublist_NoDup _ _ Hnd). apply (idOf_sublist (k :: ks)).
        -- intros x Hx. split; [apply not_elem_of_nil|].
           change (x ∈ map idOf (k :: ks)) in Hx.
           apply list_elem_of_fmap in Hx as (t' & -> & Ht').
           rewrite Forall_forall in Hpar. by apply Hpar.
      * unfold ahead. simpl. by rewrite app_nil_r.
      * by rewrite Hids.
      * by rewrite Hids.
    + destruct Hch as (H1 & H2 & H3 & H4).
      constructor; simpl; [done|lia| |lia|done|split; [lia|done]].
      split; [lia|]. split; [done|]. split; [done|done].
    + unfold ahead. simpl. rewrite app_nil_r. simpl in Htxt. by rewrite Htxt.
Qed.

(** Every run of the engine keeps the record of the resolved matches in
    order, whatever its outcome. *)
Lemma run_LogOK
    (fuel : nat) (s : DOM) (root : nat) (options : Options) (t : Tree)
    (res : Res Finder) (w : World) :
  sane (regexOf (find options)) ->
  wellBehavedReplace options ->
  kindOnly (filterElements (effectiveOptions options)) ->
  closed s ->
  Repr (filterElements (effectiveOptions options)) s [] t ->
  idOf t = root -> isElementNode s root = true -> NoDup (idsOf t) ->
  findAndReplaceDOMText fuel s root options = (res, w) ->
  LogOK w.
Proof.
  intros Hs Hwb Hfe Hcl HR Hid He Hnd E.
  unfold findAndReplaceDOMText, newFinder in E. cbn [dom freshWorld] in E.
  destruct (search fuel (effectiveOptions options) s root) as [ms| |] eqn:Es;
    [|inversion E; subst; constructor..].
  destruct ms as [|m ms]; [inversion E; subst; constructor|].
  assert (exists agg, getAggregateText fuel (effectiveOptions options) s root = Ok agg)
    as [agg Hagg].
  { unfold search in Es.
    destruct (getAggregateText fuel (effectiveOptions options) s root); eauto;
      done. }
  rewrite <- (find_effectiveOptions options) in Hs.
  pose proof (search_inOrder _ _ _ _ _ _ Hs Hagg Es) as [_ Hch].
  assert (Htxt : textOf t = concat (leaves agg)).
  { symmetry. apply (getText_text (effectiveOptions options) s fuel); [done|].
    by rewrite Hid. }
  apply wellBehavedReplace_effective in Hwb.
  unfold bind, processMatches in E. cbn [head tail] in E.
  assert (LogOK (snd (processLoop (effectiveOptions options) root fuel
            (mkLoop None None [] (Some root) (Some m) ms 0 0 0 [root] false)
            (freshWorld s)))) as Hlog.
  { destruct fuel as [|fuel]; [constructor|]. simpl. unfold bind.
    destruct (first_turn (effectiveOptions options) root s _ t m ms
                HR Hid He Hnd Htxt Hch) as (st1 & E1 & Hin1 & Hal).
    rewrite E1.
    destruct (processLoop (effectiveOptions options) root fuel st1 (freshWorld s))
      as [r2 w2] eqn:E2.
    eapply (processLoop_LogOK _ root s) in E2; try done.
    - split; [done|]. split; [apply Undoable_start|]. by rewrite Hin1.
    - by constructor.
    - constructor.
    - right. by right. }
  destruct (processLoop _ _ _ _ _) as [[st2| |] w2]; inversion E; subst; done.
Qed.

(** C3: on a document that is a tree below the root element, searched with
    a pattern engine whose matches are parts of its input, every match that
    the traversal resolves has portions that give the text of the match
    back: the texts of the portions that are handed to the replacement,
    one after the other, are the matched text, and every portion is in the
    match at the offset that is the length of the texts of the portions
    before it.  The filter of elements may depend on the node only, and a
    replacement function only creates nodes. *)
Theorem portions_reconstruct_the_match
    (fuel : nat) (s : DOM) (root : nat) (options : Options) (t : Tree)
    (res : Res Finder) (w : World) :
  sane (regexOf (find options)) ->
  wellBehavedReplace options ->
  kindOnly (filterElements (effectiveOptions options)) ->
  closed s ->
  Repr (filterElements (effectiveOptions options)) s [] t ->
  idOf t = root -> isElementNode s root = true -> NoDup (idsOf t) ->
  findAndReplaceDOMText fuel s root options = (res, w) ->
  Forall reconstructs (resolved w).
Proof.
  intros Hs Hwb Hfe Hcl HR Hid He Hnd E.
  pose proof (run_LogOK _ _ _ _ _ _ _ Hs Hwb Hfe Hcl HR Hid He Hnd E) as Hlog.
  eapply Forall_impl; [exact Hlog|]. by intros e [? _].
Qed.

Ltac repr_step :=
  match goal with
  | |- Repr _ _ _ (Elt _ false _) => apply ReprElt
  | |- Repr _ _ _ (Txt _ _ _) => apply ReprTxt
  | |- Forall _ _ => constructor
  | |- _ ∉ [] => apply not_elem_of_nil
  | |- _ = _ => vm_compute; reflexivity
  | |- _ => progress cbv beta
  end.

Lemma portions_reconstruct_the_match_witness :
  length (resolved (snd (findAndReplaceDOMText 100 spanDoc 0 spanOptions))) = 1 /\
  Forall reconstructs
    (resolved (snd (findAndReplaceDOMText 100 spanDoc 0 spanOptions))).
Proof.
  split; [by vm_compute|].
  eapply (portions_reconstruct_the_match 100 spanDoc 0 spanOptions spanTree).
  - apply literal_sane.
  - exact I.
  - intros s s' n _. reflexivity.
  - apply closedb_closed. reflexivity.
  - unfold spanTree. repeat repr_step.
  - reflexivity.
  - reflexivity.
  - apply NoDup_ListNoDup. repeat (constructor; [simpl; intuition lia|]).
    constructor.
  - apply surjective_pairing.
Defined.

(** C3, as stated, fails: the replacement function hands out the element
    [i] of the document, which lies after the first match of [a].  The
    engine moves the element to the place of the first match and, as it is
    now one of the nodes of [createdNodes], passes over it and over its
    text; the second match of [a] is then resolved in the wrong place, with
    one portion, whose text is [q]. *)
Lemma moved_element_shifts_the_portions :
  Html.innerHTML movedDoc 0 = txt "xa<i>bc</i>zzaqq" /\
  (exists f, fst (findAndReplaceDOMText 40 movedDoc 0 reuseOptions) = Ok f) /\
  map (fun e => (m0 (rmatch e), map text (portionsOf e)))
    (resolved (snd (findAndReplaceDOMText 40 movedDoc 0 reuseOptions))) =
    [(txt "a", [txt "a"]); (txt "a", [txt "q"])] /\
  ~ Forall reconstructs
      (resolved (snd (findAndReplaceDOMText 40 movedDoc 0 reuseOptions))).
Proof.
  split; [by vm_compute|]. split; [eexists; by vm_compute|].
  split; [by vm_compute|].
  intros H. apply Forall_lookup_1 with (i := 1)
    (x := mkResolved (mkMatch (txt "a") [] 6 7 1 (txt "xabczzaqq"))
            (mkPortion 4 1 (txt "q") 0 4 5 false) []
            (mkPortion 4 0 (txt "q") 0 4 5 true)) in H; [|by vm_compute].
  destruct H as [H _]. by vm_compute in H.
Qed.

(** ** C8: portions without replacement text *)

Lemma offsetsFrom_ge : forall ps acc,
  offsetsFrom acc ps -> Forall (fun p => (acc <= indexInMatch p)%Z) ps.
Proof.
  induction ps as [|p ps IH]; intros acc H; simpl in *; [constructor|].
  destruct H as [H1 H2]. constructor; [lia|].
  eapply Forall_impl; [by apply IH|]. intros q Hq. simpl in Hq.
  unfold JS.len in Hq. lia.
Qed.

Lemma isFirstMode_effective options :
  isFirstMode (effectiveOptions options) = isFirstMode options.
Proof.
  unfold isFirstMode, effectiveOptions.
  destruct (preset options) as [[]|]; simpl; by destruct (portionMode options) as [[]|].
Qed.

Lemma replace_effective options :
  replace (effectiveOptions options) = replace options.
Proof. unfold effectiveOptions. by destruct (preset options) as [[]|]. Qed.

Lemma first_mode_first options r p m :
  isFirstMode options = true -> (indexInMatch p <= 0)%Z ->
  prepareReplacementString options r p m = interpolate m r None.
Proof.
  intros Hf Hi. unfold prepareReplacementString. rewrite Hf.
  by rewrite (proj2 (Z.ltb_ge _ _) Hi).
Qed.

Lemma first_mode_later options r p m :
  isFirstMode options = true -> (0 < indexInMatch p)%Z ->
  prepareReplacementString options r p m = [].
Proof.
  intros Hf Hi. unfold prepareReplacementString. rewrite Hf.
  by rewrite (proj2 (Z.ltb_lt _ _) Hi).
Qed.

Lemma first_mode_portions options r e :
  isFirstMode options = true -> reconstructs e -> firstHasText e ->
  firstGetsAll options r e.
Proof.
  intros Hf [_ Hoff] Hfirst. unfold firstGetsAll, firstHasText, portionsOf in *.
  destruct (Nat.eqb_spec (node (rstart e)) (node (rend e))) as [Heq|Hne].
  - destruct Hoff as [H0 _]. split; [|constructor].
    apply first_mode_first; [done|lia].
  - destruct Hfirst as [?|Htxt]; [done|]. destruct Hoff as [H0 Hoff].
    split; [apply first_mode_first; [done|lia]|].
    apply offsetsFrom_ge in Hoff. eapply Forall_impl; [exact Hoff|].
    intros p Hp. simpl in Hp. apply first_mode_later; [done|].
    assert (0 < JS.len (text (rstart e)))%Z; [|lia].
    unfold JS.len. destruct (text (rstart e)); [done|]. simpl. lia.
Qed.

(** C8: with a string replacement, a portion whose replacement text is
    empty gets an empty text node and nothing else is created for it: with
    a wrap option the wrapper is neither created nor cloned (a second empty
    text node is created and returned instead), without one the text node
    itself is returned.  Under [portionMode: 'first'] a portion at a
    positive offset in its match has the empty replacement text and a
    portion at offset zero has the whole interpolated replacement; in every
    run of the engine the first portion of a resolved match is at offset
    zero and the portions after it are at positive offsets, so that the
    first portion has the whole replacement and the others have none. *)
Theorem empty_replacement_has_no_wrapper (options : Options) (r : str) :
  default (ReplString (txt "$&")) (replace options) = ReplString r ->
  (forall portion match_ w,
     prepareReplacementString options r portion match_ = [] ->
     exists n k w',
       getPortionReplacementNode options portion match_ w = (Ok n, w') /\
       dom w' = dom w ++ replicate k emptyText /\ 1 <= k <= 2 /\
       dom w' !! n = Some emptyText /\
       reverts w' = reverts w /\ createdNodes w' = createdNodes w) /\
  (isFirstMode options = true ->
   (forall portion match_,
      (0 < indexInMatch portion)%Z ->
      prepareReplacementString options r portion match_ = []) /\
   (forall portion match_,
      (indexInMatch portion <= 0)%Z ->
      prepareReplacementString options r portion match_ = interpolate match_ r None) /\
   (forall fuel s root t res w,
      sane (regexOf (find options)) ->
      kindOnly (filterElements (effectiveOptions options)) ->
      closed s ->
      Repr (filterElements (effectiveOptions options)) s [] t ->
      idOf t = root -> isElementNode s root = true -> NoDup (idsOf t) ->
      findAndReplaceDOMText fuel s root options = (res, w) ->
      Forall (firstGetsAll (effectiveOptions options) r) (resolved w))).
Proof.
  intros Hr. split.
  - intros portion match_ w He. unfold getPortionReplacementNode. rewrite Hr, He.
    unfold bind, liftAlloc, createTextNode, alloc, ret. simpl.
    destruct (wrap options) as [[[|c name]|stencil]|]; simpl.
    + exists (length (dom w)), 1, (withDom (dom w ++ [emptyText]) w).
      simpl. repeat split; try done; try lia.
      by rewrite lookup_app_r, Nat.sub_diag by lia.
    + exists (length (dom w ++ [emptyText])), 2,
        (withDom ((dom w ++ [emptyText]) ++ [emptyText]) w).
      simpl. repeat split; try done; try lia; [by rewrite <- app_assoc|].
      by rewrite lookup_app_r, Nat.sub_diag by lia.
    + exists (length (dom w ++ [emptyText])), 2,
        (withDom ((dom w ++ [emptyText]) ++ [emptyText]) w).
      simpl. repeat split; try done; try lia; [by rewrite <- app_assoc|].
      by rewrite lookup_app_r, Nat.sub_diag by lia.
    + exists (length (dom w)), 1, (withDom (dom w ++ [emptyText]) w).
      simpl. repeat split; try done; try lia.
      by rewrite lookup_app_r, Nat.sub_diag by lia.
  - intros Hf. split; [|split].
    + intros portion match_ Hi. by apply first_mode_later.
    + intros portion match_ Hi. by apply first_mode_first.
    + intros fuel s root t res w Hs Hfe Hcl HR Hid He Hnd E.
      assert (Hwb : wellBehavedReplace options).
      { unfold wellBehavedReplace. destruct (replace options) as [[|f]|]; done. }
      pose proof (run_LogOK _ _ _ _ _ _ _ Hs Hwb Hfe Hcl HR Hid He Hnd E) as Hlog.
      eapply Forall_impl; [exact Hlog|]. intros e [H1 H2].
      apply first_mode_portions; [|done..]. by rewrite isFirstMode_effective.
Qed.

Lemma empty_replacement_has_no_wrapper_witness :
  (exists n k w',
     getPortionReplacementNode firstSpan secondPortion helloMatch
       (freshWorld spanDoc) = (Ok n, w') /\
     dom w' = spanDoc ++ replicate k emptyText /\ 1 <= k <= 2 /\
     dom w' !! n = Some emptyText /\
     reverts w' = [] /\ createdNodes w' = []) /\
  length (resolved (snd (findAndReplaceDOMText 100 spanDoc 0 firstSpan))) = 1 /\
  Forall (firstGetsAll (effectiveOptions firstSpan) (txt "[$&]"))
    (resolved (snd (findAndReplaceDOMText 100 spanDoc 0 firstSpan))).
Proof.
  destruct (empty_replacement_has_no_wrapper firstSpan (txt "[$&]") eq_refl)
    as (H1 & H2).
  destruct (H2 eq_refl) as (H3 & H4 & H5).
  split; [apply H1, H3; reflexivity|]. split; [by vm_compute|].
  eapply (H5 100 spanDoc 0 spanTree).
  - apply literal_sane.
  - intros s s' n _. reflexivity.
  - apply closedb_closed. reflexivity.
  - unfold spanTree. repeat repr_step.
  - reflexivity.
  - reflexivity.
  - apply NoDup_ListNoDup. repeat (constructor; [simpl; intuition lia|]).
    constructor.
  - apply surjective_pairing.
Defined.
(** * More of the search *)

(** ** The order of the matches *)

Lemma chain_ranges stream : forall ms lo hi,
  (0 <= lo)%Z -> chain stream lo ms hi ->
  Forall (fun m => (lo <= startIndex m < endIndex m)%Z /\ (endIndex m <= hi)%Z /\
                   m0 m = JS.substring stream (startIndex m) (endIndex m)) ms.
Proof.
  induction ms as [|m ms IH]; intros lo hi Hlo H; [constructor|].
  destruct H as (H1 & H2 & H3 & H4). constructor.
  - split; [lia|]. split; [|done]. apply chain_hi in H4. lia.
  - eapply Forall_impl; [apply (IH (endIndex m) hi); [lia|done]|].
    intros x (Hx1 & Hx2 & Hx3). cbn beta. repeat split; try done; lia.
Qed.

Lemma chain_sorted stream : forall ms lo hi,
  chain stream lo ms hi ->
  forall i j a b, ms !! i = Some a -> ms !! j = Some b -> i < j ->
    (endIndex a <= startIndex b)%Z.
Proof.
  induction ms as [|m ms IH]; intros lo hi H i j a b Ha Hb Hij; [done|].
  destruct H as (H1 & H2 & H3 & H4). destruct j as [|j]; [lia|].
  destruct i as [|i]; simpl in Ha, Hb.
  - inversion Ha; subst a.
    assert (Hin : b ∈ ms) by (by eapply list_elem_of_lookup_2).
    pose proof (chain_ranges stream ms (endIndex m) hi) as HF.
    assert (0 <= endIndex m \/ endIndex m < 0)%Z as [Hz|Hz] by lia.
    + rewrite Forall_forall in HF. destruct (HF Hz H4 b Hin) as (Hb1 & _). lia.
    + clear HF. revert Hb H4. clear. revert j. generalize (endIndex m) as lo.
      induction ms as [|m' ms IH]; intros lo j Hb H; [done|].
      destruct H as (H1 & H2 & H3 & H4). destruct j as [|j]; simpl in Hb.
      * inversion Hb; subst. lia.
      * specialize (IH _ _ Hb H4). lia.
  - eapply (IH _ _ H4 i j); [done|done|lia].
Qed.

(** X1: the matches that a search returns lie in the text of the document
    one after the other.  With a pattern engine whose matches are parts of
    its input, every match is a range of the searched text that is not
    empty, its text is the text of that range, and a match that comes later
    in the list starts at or after the end of every match before it. *)
Theorem matches_lie_in_document_order
    (fuel : nat) (options : Options) (s : DOM) (root : nat)
    (agg : TextAgg) (ms : list MatchWithMeta) :
  sane (regexOf (find options)) ->
  getAggregateText fuel options s root = Ok agg ->
  search fuel options s root = Ok ms ->
  Forall (fun m =>
            (0 <= startIndex m < endIndex m)%Z /\
            (endIndex m <= JS.len (streamOf agg))%Z /\
            m0 m = JS.substring (streamOf agg) (startIndex m) (endIndex m)) ms /\
  (forall i j a b, ms !! i = Some a -> ms !! j = Some b -> i < j ->
     (endIndex a <= startIndex b)%Z).
Proof.
  intros Hs Ha E. destruct (search_inOrder _ _ _ _ _ _ Hs Ha E) as [H0 Hc].
  split; [by apply chain_ranges|]. by apply (chain_sorted _ _ _ _ Hc).
Qed.

Lemma matches_lie_in_document_order_witness :
  Forall (fun m =>
            (0 <= startIndex m < endIndex m)%Z /\
            (endIndex m <= JS.len (streamOf [AggStr (txt "aa")]))%Z /\
            m0 m = JS.substring (streamOf [AggStr (txt "aa")])
                     (startIndex m) (endIndex m))
    [mkMatch (txt "a") [] 0 1 0 (txt "aa"); mkMatch (txt "a") [] 1 2 1 (txt "aa")] /\
  (forall i j a b,
     [mkMatch (txt "a") [] 0 1 0 (txt "aa"); mkMatch (txt "a") [] 1 2 1 (txt "aa")]
       !! i = Some a ->
     [mkMatch (txt "a") [] 0 1 0 (txt "aa"); mkMatch (txt "a") [] 1 2 1 (txt "aa")]
       !! j = Some b ->
     i < j -> (endIndex a <= startIndex b)%Z).
Proof.
  apply (matches_lie_in_document_order 10 replaceAllA foreignFirst 0);
    [apply lit_sane|vm_compute; reflexivity..].
Defined.

(** ** The numbers of the matches *)

Lemma prepMatch_Ok m i o mm :
  prepMatch m i o = Ok mm ->
  r0 m <> [] /\
  mm = mkMatch (r0 m) (rcaptures m) (o + Z.of_nat (rindex m))%Z
         (o + Z.of_nat (rindex m) + JS.len (r0 m))%Z i (rinput m).
Proof.
  unfold prepMatch. destruct (r0 m) eqn:E; [done|]. intros [= <-]. by split.
Qed.

(** The matches that the scan of one string adds. *)
Lemma execLoop_new re item : forall fuel L st st',
  execLoop fuel re item L st = Ok st' ->
  offset st' = offset st /\
  exists new,
    matches st' = matches st ++ new /\
    matchIndex st' = (matchIndex st + Z.of_nat (length new))%Z /\
    map index new = map (fun k => (matchIndex st + Z.of_nat k)%Z) (seq 0 (length new)) /\
    Forall (fun mm => exists m L' i,
              exec re item L' = Some m /\ prepMatch m i (offset st) = Ok mm) new.
Proof.
  induction fuel as [|fuel IH]; intros L st st' E; [done|]. simpl in E.
  destruct (exec re item L) as [m|] eqn:Em.
  - destruct (prepMatch m (matchIndex st) (offset st)) as [mm| |] eqn:Ep; try done.
    apply IH in E as (Ho & new & Hm & Hi & Hn & HF). simpl in *.
    split; [done|]. exists (mm :: new). split; [by rewrite Hm, <- app_assoc|].
    split; [simpl; lia|]. split.
    + simpl. f_equal.
      * apply prepMatch_Ok in Ep as [_ ->]. simpl. lia.
      * rewrite Hn, <- seq_shift, map_map. apply map_ext. intros k. lia.
    + constructor; [by exists m, L, (matchIndex st)|done].
  - inversion E; subst. split; [done|]. exists []. rewrite app_nil_r. simpl.
    split; [done|]. split; [lia|]. split; [done|constructor].
Qed.

(** The same of [matchString], with or without the global flag. *)
Lemma matchString_new re item fuel st st' :
  matchString fuel re item st = Ok st' ->
  offset st' = (offset st + JS.len item)%Z /\
  exists new,
    matches st' = matches st ++ new /\
    (if global re then
       matchIndex st' = (matchIndex st + Z.of_nat (length new))%Z /\
       map index new =
         map (fun k => (matchIndex st + Z.of_nat k)%Z) (seq 0 (length new))
     else Forall (fun mm => index mm = 0%Z) new) /\
    Forall (fun mm => exists m L' i,
              exec re item L' = Some m /\ prepMatch m i (offset st) = Ok mm) new.
Proof.
  unfold matchString. intros E. destruct (global re).
  - destruct (execLoop fuel re item 0 st) as [st1| |] eqn:E1; try done.
    inversion E; subst; clear E. simpl.
    apply execLoop_new in E1 as (Ho & new & Hm & Hi & Hn & HF).
    split; [by rewrite Ho|]. by exists new.
  - destruct (exec re item 0) as [m|] eqn:Em.
    + destruct (prepMatch m 0 (offset st)) as [mm| |] eqn:Ep; try done.
      inversion E; subst; clear E. simpl. split; [done|]. exists [mm].
      split; [done|]. split.
      * constructor; [|constructor]. by apply prepMatch_Ok in Ep as [_ ->].
      * constructor; [|constructor]. by exists m, 0, 0%Z.
    + inversion E; subst; clear E. simpl. split; [done|]. exists [].
      rewrite app_nil_r. split; [done|]. split; constructor.
Qed.

Lemma map_seq_shift {A} (f : nat -> A) : forall n a,
  map f (seq a n) = map (fun k => f (a + k)) (seq 0 n).
Proof.
  intros n. revert f. induction n as [|n IH]; intros f a; [done|]. simpl.
  rewrite Nat.add_0_r. f_equal. rewrite (IH f (S a)), (IH _ 1).
  apply map_ext. intros k. f_equal. lia.
Qed.

Lemma matchLeaves_numbers re fuel : forall ls st st',
  matchLeaves fuel re ls st = Ok st' ->
  exists new,
    matches st' = matches st ++ new /\
    if global re then
      matchIndex st' = (matchIndex st + Z.of_nat (length new))%Z /\
      map index new =
        map (fun k => (matchIndex st + Z.of_nat k)%Z) (seq 0 (length new))
    else Forall (fun mm => index mm = 0%Z) new.
Proof.
  induction ls as [|l ls IH]; intros st st' E; simpl in E.
  - inversion E; subst. exists []. rewrite app_nil_r. split; [done|].
    destruct (global re); [|constructor]. simpl. split; [lia|done].
  - destruct (matchString fuel re l st) as [st1| |] eqn:E1; try done.
    apply matchString_new in E1 as (_ & n1 & Hm1 & Hg1 & _).
    apply IH in E as (n2 & Hm2 & Hg2). exists (n1 ++ n2).
    split; [by rewrite Hm2, Hm1, <- app_assoc|].
    destruct (global re).
    + destruct Hg1 as [Hi1 Hn1], Hg2 as [Hi2 Hn2]. rewrite length_app. split; [lia|].
      rewrite map_app, seq_app, map_app, Hn1, Hn2. f_equal.
      rewrite Hi1, (map_seq_shift _ _ (0 + length n1)). apply map_ext. intros k. lia.
    + by apply Forall_app.
Qed.

(** X2: the field [index] of the matches.  With the global flag (and so
    for every string that is searched for), the matches of a search are
    numbered 0, 1, 2, ... through the whole document, in the order in which
    they are returned; without it, every match has the number 0. *)
Theorem matches_are_numbered
    (fuel : nat) (options : Options) (s : DOM) (root : nat)
    (ms : list MatchWithMeta) :
  search fuel options s root = Ok ms ->
  map index ms =
    if global (regexOf (find options)) then map Z.of_nat (seq 0 (length ms))
    else replicate (length ms) 0%Z.
Proof.
  intros E. unfold search in E.
  destruct (getAggregateText fuel options s root) as [agg| |]; try done.
  rewrite matchAggregation_leaves in E.
  destruct (matchLeaves _ _ _ _) as [st| |] eqn:El; try done.
  inversion E; subst; clear E.
  apply matchLeaves_numbers in El as (new & Hm & Hg). simpl in Hm. subst new.
  destruct (global (regexOf (find options))).
  - destruct Hg as [_ ->]. apply map_ext. intros k. simpl. lia.
  - induction Hg as [|x l Hx _ IH]; [done|]. simpl. by rewrite Hx, IH.
Qed.

Lemma matches_are_numbered_witness :
  map index
    [mkMatch (txt "a") [] 0 1 0 (txt "aa"); mkMatch (txt "a") [] 1 2 1 (txt "aa")] =
  if global (regexOf (find replaceAllA)) then map Z.of_nat (seq 0 2)
  else replicate 2 0%Z.
Proof.
  apply (matches_are_numbered 10 replaceAllA foreignFirst 0). vm_compute. reflexivity.
Defined.

(** ** Matches and the strings of the aggregation *)

Lemma matchLeaves_within re fuel : sane re -> forall ls before st st',
  offset st = JS.len (concat before) ->
  matchLeaves fuel re ls st = Ok st' ->
  exists new,
    matches st' = matches st ++ new /\
    Forall (fun m => exists pre leaf post,
              before ++ ls = pre ++ leaf :: post /\
              (JS.len (concat pre) <= startIndex m)%Z /\
              (endIndex m <= JS.len (concat pre) + JS.len leaf)%Z /\
              input m = leaf) new.
Proof.
  intros Hs. induction ls as [|l ls IH]; intros before st st' Ho E; simpl in E.
  - inversion E; subst. exists []. rewrite app_nil_r. split; [done|constructor].
  - destruct (matchString fuel re l st) as [st1| |] eqn:E1; try done.
    apply matchString_new in E1 as (Ho1 & n1 & Hm1 & _ & HF1).
    apply (IH (before ++ [l])) in E as (n2 & Hm2 & HF2).
    + exists (n1 ++ n2). split; [by rewrite Hm2, Hm1, <- app_assoc|].
      apply Forall_app. split.
      * eapply Forall_impl; [exact HF1|]. intros mm (m & L & i & Hex & Hp).
        exists before, l, ls. split; [done|].
        destruct (Hs _ _ _ Hex) as (Hs1 & Hs2 & _ & Hs4).
        apply prepMatch_Ok in Hp as [_ ->]. simpl. rewrite Ho. unfold JS.len in *.
        repeat split; try done; lia.
      * eapply Forall_impl; [exact HF2|]. intros mm (pre & leaf & post & Heq & H).
        exists pre, leaf, post. by rewrite <- app_assoc in Heq.
    + rewrite Ho1, Ho, concat_app. simpl. rewrite app_nil_r. unfold JS.len.
      rewrite length_app. lia.
Qed.

(** X3: no match crosses the border between two strings of the
    aggregation.  Every match of a search lies within one of the strings
    that [getAggregateText] returns (the text of one context), and its
    [input] is that string. *)
Theorem matches_stay_within_a_context
    (fuel : nat) (options : Options) (s : DOM) (root : nat)
    (agg : TextAgg) (ms : list MatchWithMeta) :
  sane (regexOf (find options)) ->
  getAggregateText fuel options s root = Ok agg ->
  search fuel options s root = Ok ms ->
  Forall (fun m => exists pre leaf post,
            leaves agg = pre ++ leaf :: post /\
            (JS.len (concat pre) <= startIndex m)%Z /\
            (endIndex m <= JS.len (concat pre) + JS.len leaf)%Z /\
            input m = leaf) ms.
Proof.
  intros Hs Ha E. unfold search in E. rewrite Ha, matchAggregation_leaves in E.
  destruct (matchLeaves _ _ _ _) as [st| |] eqn:El; try done.
  inversion E; subst; clear E.
  apply (matchLeaves_within _ _ Hs _ []) in El as (new & Hm & HF); [|done].
  simpl in Hm. by subst new.
Qed.

Lemma matches_stay_within_a_context_witness :
  Forall (fun m => exists pre leaf post,
            leaves [AggStr []; AggNested [AggStr (txt "hello")]; AggStr (txt "xay")] =
              pre ++ leaf :: post /\
            (JS.len (concat pre) <= startIndex m)%Z /\
            (endIndex m <= JS.len (concat pre) + JS.len leaf)%Z /\
            input m = leaf)
    [mkMatch (txt "a") [] 6 7 0 (txt "xay")].
Proof.
  apply (matches_stay_within_a_context 10 (contextOptions "x") contextDoc2 0);
    [apply lit_sane|vm_compute; reflexivity..].
Defined.
(** * More of the text aggregation and of the replacement text *)

Ltac tree_step :=
  match goal with
  | |- Repr _ _ _ (Elt _ false _) => apply ReprElt
  | |- Repr _ _ _ (Txt _ _ _) => apply ReprTxt
  | |- Forall _ _ => constructor
  | |- _ ∉ [] => apply not_elem_of_nil
  | |- _ = _ => vm_compute; reflexivity
  | |- _ => progress cbv beta
  end.

(** X4: the text that is searched is the text of the document.  The strings
    that [getAggregateText] returns, one after the other, are the data of
    the text nodes of the subtree in document order, without the text below
    the elements that [filterElements] rejects; [forceContext] decides where
    the strings are cut, not what they hold together. *)
Theorem searched_text_is_the_document_text
    (fuel : nat) (options : Options) (s : DOM) (t : Tree) (agg : TextAgg) :
  Repr (filterElements options) s [] t ->
  getAggregateText fuel options s (idOf t) = Ok agg ->
  streamOf agg = textOf t.
Proof. intros HR E. by apply (getText_text options s fuel). Qed.

Lemma searched_text_is_the_document_text_witness :
  streamOf [AggStr []; AggNested [AggStr (txt "hello")]; AggStr (txt "xay")] =
  textOf contextTree.
Proof.
  apply (searched_text_is_the_document_text 10 (contextOptions "x") contextDoc2).
  - unfold contextTree. repeat tree_step.
  - vm_compute. reflexivity.
Defined.

(** ** Replacement templates *)

(** X5: a replacement string without a dollar sign is taken as it is. *)
Theorem plain_template_is_literal (match_ : MatchWithMeta) (tpl : str) :
  (forall c, c ∈ tpl -> c <> "$"%char) ->
  interpolate match_ tpl None = tpl.
Proof.
  induction tpl as [|c tpl IH]; intros H; [done|]. simpl.
  destruct (Ascii.eqb c "$") eqn:E.
  - apply Ascii.eqb_eq in E. exfalso. apply (H c); [by left|done].
  - rewrite IH; [done|]. intros x Hx. apply H. by right.
Qed.

Lemma plain_template_is_literal_witness :
  interpolate helloMatch (txt "bye") None = txt "bye".
Proof.
  apply (plain_template_is_literal helloMatch (txt "bye")).
  intros c Hc. vm_compute in Hc.
  repeat (apply elem_of_cons in Hc as [->|Hc]; [done|]). inversion Hc.
Defined.

Lemma tokenText_cases match_ t r :
  tokenText match_ t = Some r ->
  isDigit t = false /\ (t = "&" \/ t = "`" \/ t = "'")%char.
Proof.
  unfold tokenText. intros H.
  destruct (Ascii.eqb t "&") eqn:E1; [apply Ascii.eqb_eq in E1; subst; auto|].
  destruct (Ascii.eqb t "`") eqn:E2; [apply Ascii.eqb_eq in E2; subst; auto|].
  destruct (Ascii.eqb t "'") eqn:E3; [apply Ascii.eqb_eq in E3; subst; auto|].
  done.
Qed.

Lemma interpolate_digit match_ c rest k :
  isDigit c = true ->
  interpolate match_ (c :: rest) (Some k) =
    interpolate match_ rest (Some (10 * k + digitValue c)).
Proof. intros H. cbn [interpolate]. by rewrite H. Qed.

Lemma interpolate_group match_ c rest k :
  isDigit c = false ->
  interpolate match_ (c :: rest) (Some k) =
    groupText match_ k ++ interpolate match_ (c :: rest) None.
Proof. intros H. cbn [interpolate]. by rewrite H. Qed.

(** A dollar sign ends what is before it: the scan of a replacement string
    starts anew at every dollar sign. *)
Lemma interpolate_split match_ rest :
  forall n a digits, length a <= n ->
    interpolate match_ (a ++ "$"%char :: rest) digits =
      interpolate match_ a digits ++ interpolate match_ ("$"%char :: rest) None.
Proof.
  assert (Hhere : forall digits,
            interpolate match_ ("$"%char :: rest) digits =
            interpolate match_ [] digits ++ interpolate match_ ("$"%char :: rest) None).
  { intros [k|]; [|done]. by rewrite interpolate_group. }
  induction n as [|n IH]; intros a digits Hn.
  { destruct a; [|simpl in Hn; lia]. apply Hhere. }
  destruct a as [|c a]; [apply Hhere|]. simpl in Hn.
  assert (Hplain : interpolate match_ ((c :: a) ++ "$"%char :: rest) None =
                   interpolate match_ (c :: a) None ++
                   interpolate match_ ("$"%char :: rest) None).
  { change ((c :: a) ++ ?x) with (c :: (a ++ x)).
    remember (interpolate match_ ("$"%char :: rest) None) as tail_ eqn:Et.
    cbn [interpolate]. destruct (Ascii.eqb c "$") eqn:Ec.
    - destruct a as [|d a].
      + cbn [app]. change (isDigit "$") with false. cbv iota.
        change (tokenText match_ "$") with (@None str). cbv iota. by rewrite <- Et.
      + cbn [app]. simpl in Hn. destruct (isDigit d).
        * apply IH. lia.
        * destruct (tokenText match_ d).
          -- rewrite (IH a None) by lia. by rewrite <- app_assoc.
          -- change (d :: a ++ ?x) with ((d :: a) ++ x).
             by rewrite (IH (d :: a) None) by (simpl; lia).
    - by rewrite (IH a None) by lia. }
  destruct digits as [k|]; [|exact Hplain].
  change ((c :: a) ++ ?x) with (c :: (a ++ x)) in *.
  destruct (isDigit c) eqn:Ed.
  - rewrite !(interpolate_digit _ _ _ _ Ed). apply IH. lia.
  - rewrite !(interpolate_group _ _ _ _ Ed), Hplain. by rewrite <- app_assoc.
Qed.

Lemma interpolate_token_here match_ t r b :
  tokenText match_ t = Some r ->
  interpolate match_ ("$"%char :: t :: b) None = r ++ interpolate match_ b None.
Proof.
  intros H. destruct (tokenText_cases _ _ _ H) as [Hd _].
  cbn [interpolate]. change (Ascii.eqb "$" "$") with true. cbv iota.
  by rewrite Hd, H.
Qed.

Lemma interpolate_token match_ t r a b :
  tokenText match_ t = Some r ->
  interpolate match_ (a ++ "$"%char :: t :: b) None =
    interpolate match_ a None ++ r ++ interpolate match_ b None.
Proof.
  intros H. rewrite (interpolate_split _ _ (length a)) by done.
  by rewrite (interpolate_token_here _ _ r).
Qed.

(** X6: the tokens of a replacement string.  Wherever [$&] stands in the
    string, the text of the match is put, and the text before the match
    and the text after it for the other two tokens; what is before the
    token and what is after it is replaced on its own. *)
Theorem template_tokens_are_replaced_in_place
    (match_ : MatchWithMeta) (before after : str) :
  interpolate match_ (before ++ txt "$&" ++ after) None =
    interpolate match_ before None ++ m0 match_ ++ interpolate match_ after None /\
  interpolate match_ (before ++ txt "$`" ++ after) None =
    interpolate match_ before None ++
    JS.substring (input match_) 0 (startIndex match_) ++
    interpolate match_ after None /\
  interpolate match_ (before ++ txt "$'" ++ after) None =
    interpolate match_ before None ++
    JS.substringFrom (input match_) (endIndex match_) ++
    interpolate match_ after None.
Proof.
  split; [|split]; by apply interpolate_token.
Qed.

(** The number that a run of digits spells, read after [acc]. *)
Lemma interpolate_digits match_ after :
  match after with [] => True | c :: _ => isDigit c = false end ->
  forall ds k, Forall (fun d => isDigit d = true) ds ->
    interpolate match_ (ds ++ after) (Some k) =
      groupText match_ (numberOf k ds) ++ interpolate match_ after None.
Proof.
  intros Ha. induction ds as [|d ds IH]; intros k Hds.
  - cbn [app numberOf]. destruct after as [|c after].
    + by rewrite app_nil_r.
    + by rewrite interpolate_group.
  - apply Forall_cons in Hds as [Hd Hds]. cbn [app numberOf].
    rewrite interpolate_digit by done. by apply IH.
Qed.

(** X7: the group references of a replacement string.  A dollar sign with
    the digits after it, up to the first character that is no digit, is
    replaced by the text of the group of that number: the whole match for
    the number 0, and the empty string for a group that took no part in
    the match or that the pattern does not have. *)
Theorem group_references_are_replaced
    (match_ : MatchWithMeta) (before digits after : str) :
  digits <> [] -> Forall (fun d => isDigit d = true) digits ->
  match after with [] => True | c :: _ => isDigit c = false end ->
  interpolate match_ (before ++ txt "$" ++ digits ++ after) None =
    interpolate match_ before None ++
    match numberOf 0 digits with
    | 0 => m0 match_
    | S n => match captures match_ !! n with Some (Some g) => g | _ => [] end
    end ++
    interpolate match_ after None.
Proof.
  intros Hne Hds Ha. cbn [txt list_ascii_of_string app].
  rewrite (interpolate_split _ _ (length before)) by done. f_equal.
  destruct digits as [|d ds]; [done|]. apply Forall_cons in Hds as [Hd Hds].
  cbn [app interpolate]. change (Ascii.eqb "$" "$") with true. cbv iota.
  rewrite Hd, interpolate_digits by done. reflexivity.
Qed.

Lemma group_references_are_replaced_witness :
  interpolate groupMatch (txt "<" ++ txt "$" ++ txt "02" ++ txt ">") None =
    interpolate groupMatch (txt "<") None ++
    match numberOf 0 (txt "02") with
    | 0 => m0 groupMatch
    | S n => match captures groupMatch !! n with Some (Some g) => g | _ => [] end
    end ++
    interpolate groupMatch (txt ">") None.
Proof.
  apply (group_references_are_replaced groupMatch (txt "<") (txt "02") (txt ">")).
  - done.
  - repeat constructor.
  - reflexivity.
Defined.
(** * More of the replacement nodes *)

Lemma lookup_snoc_here {A} (s : list A) a b : (s ++ [a; b]) !! length s = Some a.
Proof. by rewrite lookup_app_r, Nat.sub_diag by lia. Qed.

Lemma lookup_snoc_next {A} (s : list A) a b : (s ++ [a; b]) !! S (length s) = Some b.
Proof.
  rewrite lookup_app_r by lia. by replace (S (length s) - length s) with 1 by lia.
Qed.

Lemma alter_snoc_here {A} (f : A -> A) (s : list A) a b :
  alter f (length s) (s ++ [a; b]) = s ++ [f a; b].
Proof.
  rewrite (alter_app_r_alt f s [a; b] (length s)) by lia.
  by rewrite Nat.sub_diag.
Qed.

Lemma alter_snoc_next {A} (f : A -> A) (s : list A) a b :
  alter f (S (length s)) (s ++ [a; b]) = s ++ [a; f b].
Proof.
  rewrite (alter_app_r_alt f s [a; b] (S (length s))) by lia.
  by replace (S (length s) - length s) with 1 by lia.
Qed.

(** [el.appendChild(textNode)] for the two nodes that were created last. *)
Lemma appendChild_wrapped (s : DOM) data k :
  appendChild (S (length s)) (length s)
    (s ++ [mkNode (TextNode data true) None []; mkNode k None []]) =
  withWrapped s data k.
Proof.
  unfold appendChild, detach, parentOf. rewrite lookup_snoc_here. cbn [parentNode].
  unfold mapChildren, setParent. rewrite alter_snoc_next, alter_snoc_here. done.
Qed.

Lemma setClassName_wrapped (s : DOM) a name cls c :
  setClassName (S (length s)) c (s ++ [a; mkNode (ElementNode name cls) None []]) =
  s ++ [a; mkNode (ElementNode name c) None []].
Proof.
  unfold setClassName. rewrite lookup_snoc_next. cbn [kind].
  unfold setKind. by rewrite alter_snoc_next.
Qed.

(** The statements of [getPortionReplacementNode] after the wrapper [el]
    was made. *)
Lemma wrap_the_text (s : DOM) data name cls wrapClass :
  appendChild (S (length s)) (length s)
    (match wrapClass with
     | Some (c :: cs) =>
         setClassName (S (length s)) (c :: cs)
           (s ++ [mkNode (TextNode data true) None [];
                  mkNode (ElementNode name cls) None []])
     | _ => s ++ [mkNode (TextNode data true) None [];
                  mkNode (ElementNode name cls) None []]
     end) =
  withWrapped s data (ElementNode name (classAfter wrapClass cls)).
Proof.
  destruct wrapClass as [[|c cs]|]; cbn [classAfter];
    rewrite ?setClassName_wrapped; apply appendChild_wrapped.
Qed.

(** X8: a portion that is wrapped in an element of a given name.  With a
    replacement string and a string that is not empty for [wrap], a portion
    whose replacement text is not empty gets a new text node with the
    replacement text and then, when the string is a name that
    [document.createElement] takes, a new element of that name, with the
    class [wrapClass] when there is one, whose only child is the text node;
    the nodes of the document stay as they are.  When the string is no such
    name, the call throws the InvalidCharacterError of [createElement], and
    the text node has been made. *)
Theorem wrapper_of_a_tag_name
    (options : Options) (r name : str) (portion : Portion)
    (match_ : MatchWithMeta) (w : World) :
  default (ReplString (txt "$&")) (replace options) = ReplString r ->
  wrap options = Some (WrapName name) -> name <> [] ->
  prepareReplacementString options r portion match_ <> [] ->
  getPortionReplacementNode options portion match_ w =
    if validName name then
      (Ok (S (length (dom w))),
       withDom
         (withWrapped (dom w) (prepareReplacementString options r portion match_)
            (ElementNode name (classAfter (wrapClass options) [])))
         w)
    else
      (Throw InvalidCharacterError,
       withDom
         (dom w ++
          [mkNode (TextNode (prepareReplacementString options r portion match_) true)
             None []])
         w).
Proof.
  intros Hr Hw Hn Ht. unfold getPortionReplacementNode. rewrite Hr, Hw.
  destruct name as [|c name]; [done|].
  remember (prepareReplacementString options r portion match_) as data eqn:Ed.
  unfold bind, liftAlloc, createTextNode, createElement, alloc, ret. cbn [dom withDom].
  destruct data as [|d ds]; [done|]. cbn [length Nat.eqb].
  destruct (validName (c :: name)); [|done].
  destruct (wrapClass options) as [[|k ks]|] eqn:Ec;
    unfold withDom; cbn [dom reverts createdNodes resolved];
    rewrite length_app; cbn [length]; rewrite Nat.add_1_r, <- app_assoc; cbn [app];
    do 2 f_equal;
    [apply (wrap_the_text _ _ _ _ (Some []))
    |apply (wrap_the_text _ _ _ _ (Some (k :: ks)))
    |apply (wrap_the_text _ _ _ _ None)].
Qed.

Lemma wrapper_of_a_tag_name_witness :
  getPortionReplacementNode nameOptions wordPortion wordMatch (freshWorld oneWord) =
    if validName (txt "em") then
      (Ok (S (length (dom (freshWorld oneWord)))),
       withDom
         (withWrapped (dom (freshWorld oneWord))
            (prepareReplacementString nameOptions (txt "$&") wordPortion wordMatch)
            (ElementNode (txt "em") (classAfter (wrapClass nameOptions) [])))
         (freshWorld oneWord))
    else
      (Throw InvalidCharacterError,
       withDom
         (dom (freshWorld oneWord) ++
          [mkNode
             (TextNode
                (prepareReplacementString nameOptions (txt "$&") wordPortion wordMatch)
                true)
             None []])
         (freshWorld oneWord)).
Proof.
  apply (wrapper_of_a_tag_name nameOptions (txt "$&") (txt "em") wordPortion wordMatch
           (freshWorld oneWord)); [reflexivity|reflexivity|done|by vm_compute].
Defined.

(** X9: a portion that is wrapped in a copy of a stencil.  With a
    replacement string and an element for [wrap], a portion whose replacement
    text is not empty gets a new element with the name of the stencil and
    with its class, or with the class [wrapClass] when there is one; the
    new element has no child but a new text node with the replacement
    text, and the stencil itself stays as it is and where it is. *)
Theorem wrapper_of_a_stencil
    (options : Options) (r : str) (stencil : nat) (name cls : str)
    (portion : Portion) (match_ : MatchWithMeta) (w : World) :
  default (ReplString (txt "$&")) (replace options) = ReplString r ->
  wrap options = Some (WrapStencil stencil) ->
  kindOf (dom w) stencil = Some (ElementNode name cls) ->
  prepareReplacementString options r portion match_ <> [] ->
  getPortionReplacementNode options portion match_ w =
    (Ok (S (length (dom w))),
     withDom
       (withWrapped (dom w) (prepareReplacementString options r portion match_)
          (ElementNode name (classAfter (wrapClass options) cls)))
       w).
Proof.
  intros Hr Hw Hk Ht. unfold getPortionReplacementNode. rewrite Hr, Hw.
  remember (prepareReplacementString options r portion match_) as data eqn:Ed.
  unfold bind, liftAlloc, createTextNode, cloneNode, alloc, ret. cbn [dom withDom].
  destruct data as [|d ds]; [done|]. cbn [length Nat.eqb].
  unfold kindOf in Hk. destruct (dom w !! stencil) as [nd|] eqn:El; [|done].
  inversion Hk as [Hk']. unfold withDom. cbn [dom reverts createdNodes resolved].
  rewrite (lookup_app_l_Some _ _ _ _ El). rewrite Hk'.
  destruct (wrapClass options) as [[|k ks]|] eqn:Ec;
    unfold withDom; cbn [dom reverts createdNodes resolved];
    rewrite length_app; cbn [length]; rewrite Nat.add_1_r, <- app_assoc; cbn [app];
    do 2 f_equal;
    [apply (wrap_the_text _ _ _ _ (Some []))
    |apply (wrap_the_text _ _ _ _ (Some (k :: ks)))
    |apply (wrap_the_text _ _ _ _ None)].
Qed.

Lemma wrapper_of_a_stencil_witness :
  getPortionReplacementNode stencilOptions wordPortion wordMatch
    (freshWorld stencilDoc) =
    (Ok 4,
     withDom
       (withWrapped stencilDoc
          (prepareReplacementString stencilOptions (txt "$&") wordPortion wordMatch)
          (ElementNode (txt "mark") (classAfter (wrapClass stencilOptions) (txt "hit"))))
       (freshWorld stencilDoc)).
Proof.
  apply (wrapper_of_a_stencil stencilOptions (txt "$&") 2 (txt "mark") (txt "hit")
           wordPortion wordMatch (freshWorld stencilDoc));
    [reflexivity|reflexivity|reflexivity|by vm_compute].
Defined.
(** * The turns of the loop of [processMatches] *)

Lemma popUp_done (s : DOM) root : forall stack cur dn stack' cur' dn',
  popUp s root stack cur dn = (stack', cur', dn') ->
  dn' = dn \/ (cur' = None /\ dn' = true).
Proof.
  induction stack as [|p stack IH]; intros cur dn stack' cur' dn' E; simpl in E.
  - inversion E; subst. by left.
  - destruct (nextSibling s p).
    + inversion E; subst. by left.
    + destruct (Nat.eqb p root).
      * inversion E; subst. by right.
      * by eapply IH.
Qed.

Lemma sameWork_refl st : sameWork st st.
Proof. by repeat split. Qed.

Lemma sameWork_moveTo st stack cur dn : sameWork (moveTo st stack cur dn) st.
Proof. by repeat split. Qed.

Lemma sameWork_popUpFrom s root st : sameWork (popUpFrom s root st) st.
Proof.
  unfold popUpFrom. destruct (popUp _ _ _ _ _) as [[? ?] ?]. apply sameWork_moveTo.
Qed.

Lemma done_popUpFrom s root st :
  done (popUpFrom s root st) = done st \/
  (curNode (popUpFrom s root st) = None /\ done (popUpFrom s root st) = true).
Proof.
  unfold popUpFrom. destruct (popUp _ _ _ _ _) as [[stack cur] dn] eqn:E.
  apply popUp_done in E. simpl. done.
Qed.

Lemma sameWork_nextOf s root st cur : sameWork (nextOf s root st cur) st.
Proof.
  unfold nextOf. destruct (nextSibling s cur);
    [apply sameWork_moveTo|apply sameWork_popUpFrom].
Qed.

Lemma done_nextOf s root st cur :
  done (nextOf s root st cur) = done st \/
  (curNode (nextOf s root st cur) = None /\ done (nextOf s root st cur) = true).
Proof.
  unfold nextOf. destruct (nextSibling s cur); [by left|apply done_popUpFrom].
Qed.

(** A turn of the loop is a move of the traversal, which leaves the world
    as it is, or a call of [replaceMatch] for the match that the turn has
    resolved. *)
Lemma iteration_cases options root cur st w res w' :
  iteration options root cur st w = (res, w') ->
  (w' = w /\ exists st',
     res = Ok st' /\
     (done st' = done st \/ (curNode st' = None /\ done st' = true)) /\
     ((inb cur (createdNodes w) = true /\ sameWork st' st) \/
      (inb cur (createdNodes w) = false /\
       sameWork st' (afterText (dom w) cur st) /\
       (startPortion (afterText (dom w) cur st) = None \/
        endPortion (afterText (dom w) cur st) = None \/
        curMatch (afterText (dom w) cur st) = None)))) \/
  (inb cur (createdNodes w) = false /\
   exists sp ep m rr,
     startPortion (afterText (dom w) cur st) = Some sp /\
     endPortion (afterText (dom w) cur st) = Some ep /\
     curMatch (afterText (dom w) cur st) = Some m /\
     replaceMatch options m sp (innerPortions (afterText (dom w) cur st)) ep
       (logged w (mkResolved m sp (innerPortions (afterText (dom w) cur st)) ep)) =
       (rr, w') /\
     res = turnOf (afterText (dom w) cur st) m rr).
Proof.
  intros E. destruct (inb cur (createdNodes w)) eqn:Ein.
  { rewrite iteration_created in E by done. inversion E; subst. left.
    split; [done|]. eexists. split; [done|]. split; [apply done_nextOf|].
    left. split; [done|apply sameWork_nextOf]. }
  pose proof (afterText_frame (dom w) cur st) as Hfr. cbv zeta in Hfr.
  destruct Hfr as (_ & _ & _ & _ & Hdone).
  set (st1 := afterText (dom w) cur st) in *.
  assert (Hmove : endPortion st1 = None \/ startPortion st1 = None \/
                  curMatch st1 = None ->
          w' = w /\ exists st',
            res = Ok st' /\
            (done st' = done st \/ (curNode st' = None /\ done st' = true)) /\
            sameWork st' st1).
  { intros Hnone. unfold iteration in E. rewrite Ein in E. fold st1 in E.
    assert (E' : (res, w') =
              (Ok (match (if isElementNode (dom w) cur &&
                            filteredOut (filterElements options) (dom w) cur
                          then None else firstChild (dom w) cur) with
                   | Some child => moveTo st1 (cur :: nodeStack st1) (Some child) (done st1)
                   | None => nextOf (dom w) root st1 cur
                   end), w)).
    { rewrite <- E. unfold nextOf.
      assert (Hsame :
        match (if isElementNode (dom w) cur &&
                  filteredOut (filterElements options) (dom w) cur
               then None else firstChild (dom w) cur) with
        | Some child =>
            (Ok (moveTo st1 (cur :: nodeStack st1) (Some child) (done st1)), w)
        | None =>
            match nextSibling (dom w) cur with
            | Some sibling =>
                (Ok (moveTo st1 (nodeStack st1) (Some sibling) (done st1)), w)
            | None => (Ok (popUpFrom (dom w) root st1), w)
            end
        end =
        (Ok match (if isElementNode (dom w) cur &&
                      filteredOut (filterElements options) (dom w) cur
                   then None else firstChild (dom w) cur) with
            | Some child =>
                moveTo st1 (cur :: nodeStack st1) (Some child) (done st1)
            | None =>
                match nextSibling (dom w) cur with
                | Some sibling =>
                    moveTo st1 (nodeStack st1) (Some sibling) (done st1)
                | None => popUpFrom (dom w) root st1
                end
            end, w)).
      { destruct (if _ : bool then None else firstChild (dom w) cur); [done|].
        by destruct (nextSibling (dom w) cur). }
      destruct (startPortion st1) as [sp|]; [|exact Hsame].
      destruct (endPortion st1) as [ep|]; [|exact Hsame].
      destruct (curMatch st1) as [m|]; [|exact Hsame].
      destruct Hnone as [?|[?|?]]; done. }
    inversion E'; subst res w'. split; [done|]. eexists. split; [done|].
    destruct (if _ : bool then None else firstChild (dom w) cur).
    - split; [left; by rewrite <- Hdone|apply sameWork_moveTo].
    - split; [|apply sameWork_nextOf]. rewrite <- Hdone. apply done_nextOf. }
  destruct (startPortion st1) as [sp|] eqn:Esp;
    [|left; destruct Hmove as (-> & st' & -> & ? & ?); [by right; left|];
      split; [done|]; exists st'; split; [done|]; split; [done|]; right; auto].
  destruct (endPortion st1) as [ep|] eqn:Eep;
    [|left; destruct Hmove as (-> & st' & -> & ? & ?); [by left|];
      split; [done|]; exists st'; split; [done|]; split; [done|]; right; auto].
  destruct (curMatch st1) as [m|] eqn:Em;
    [|left; destruct Hmove as (-> & st' & -> & ? & ?); [by right; right|];
      split; [done|]; exists st'; split; [done|]; split; [done|]; right; auto].
  right. split; [done|]. clear Hmove.
  rewrite (iteration_resolve options root cur st w sp ep m) in E by done.
  fold st1 in E. unfold bind at 1, logResolved at 1 in E. unfold bind at 1 in E.
  fold (logged w (mkResolved m sp (innerPortions st1) ep)) in E.
  destruct (replaceMatch options m sp (innerPortions st1) ep
              (logged w (mkResolved m sp (innerPortions st1) ep)))
    as [rr w2] eqn:Er.
  exists sp, ep, m, rr. split; [done|]. split; [done|]. split; [done|].
  destruct rr as [n| |]; inversion E; subst; done.
Qed.

(** The block of a text node, for a match that is not empty and with no
    end portion yet. *)
Lemma textStep_turn cur d m st :
  endPortion st = None -> (startIndex m < endIndex m)%Z ->
  atIndex (textStep cur d m st) = (atIndex st + JS.len d)%Z /\
  if (endIndex m <=? atIndex st + JS.len d)%Z then
    endPortion (textStep cur d m st) =
      Some (portionHere cur d m (atIndex st) (portionIndex st)
              (consumedInMatch st) true) /\
    innerPortions (textStep cur d m st) = innerPortions st /\
    startPortion (textStep cur d m st) =
      Some (match startPortion st with
            | Some sp => sp
            | None =>
                portionHere cur d m (atIndex st) (portionIndex st + 1) 0 false
            end)
  else
    endPortion (textStep cur d m st) = None /\
    match startPortion st with
    | Some sp =>
        startPortion (textStep cur d m st) = Some sp /\
        innerPortions (textStep cur d m st) =
          innerPortions st ++
          [mkPortion cur (portionIndex st) d (consumedInMatch st) 0 (JS.len d) false] /\
        portionIndex (textStep cur d m st) = (portionIndex st + 1)%Z
    | None =>
        innerPortions (textStep cur d m st) = innerPortions st /\
        if (startIndex m <? atIndex st + JS.len d)%Z then
          startPortion (textStep cur d m st) =
            Some (portionHere cur d m (atIndex st) (portionIndex st) 0 false) /\
          portionIndex (textStep cur d m st) = (portionIndex st + 1)%Z
        else
          startPortion (textStep cur d m st) = None /\
          portionIndex (textStep cur d m st) = portionIndex st
    end.
Proof.
  intros He Hlt. unfold textStep. rewrite He. cbn [isNone andb].
  destruct (endIndex m <=? atIndex st + JS.len d)%Z eqn:E1.
  - apply Z.leb_le in E1.
    assert ((startIndex m <? atIndex st + JS.len d)%Z = true) as E2
      by (apply Z.ltb_lt; lia).
    destruct (startPortion st) as [sp|] eqn:Es; cbn; rewrite ?E2; cbn; done.
  - destruct (startPortion st) as [sp|] eqn:Es; cbn; rewrite ?He, ?Es; cbn;
      [done|].
    destruct (startIndex m <? atIndex st + JS.len d)%Z; cbn; done.
Qed.
(** * Runs of the engine, turn by turn *)

(** What holds before every turn of the loop holds when the loop is left. *)
Lemma processLoop_invariant options root
    (Inv : Loop -> World -> Prop) (Fin : World -> Prop) :
  (forall st w, Inv st w -> Fin w) ->
  (forall cur st w res w',
     Inv st w -> curNode st = Some cur -> done st = false ->
     iteration options root cur st w = (res, w') ->
     Fin w' /\ match res with Ok st' => Inv st' w' | _ => True end) ->
  forall fuel st w res w',
    Inv st w -> processLoop options root fuel st w = (res, w') ->
    Fin w' /\ match res with Ok st' => Inv st' w' | _ => True end.
Proof.
  intros Hfin Hstep. induction fuel as [|fuel IH]; intros st w res w' HI E; simpl in E.
  - inversion E; subst. split; [by eapply Hfin|done].
  - destruct (curNode st) as [cur|] eqn:Ecur;
      [|inversion E; subst; split; [by eapply Hfin|done]].
    destruct (done st) eqn:Edone; [inversion E; subst; split; [by eapply Hfin|done]|].
    unfold bind in E.
    destruct (iteration options root cur st w) as [r1 w1] eqn:E1.
    destruct (Hstep _ _ _ _ _ HI Ecur Edone E1) as [Hf1 H1].
    destruct r1 as [st1| |]; [|by inversion E; subst..].
    by eapply IH.
Qed.

(** The constructor: no match and no call of [processMatches], or the loop
    of [processMatches] from its first state. *)
Lemma run_cases fuel s root options res w :
  findAndReplaceDOMText fuel s root options = (res, w) ->
  (w = freshWorld s /\
   (forall f, res = Ok f ->
      search fuel (effectiveOptions options) s root = Ok [] /\
      f = mkFinder root (effectiveOptions options) [])) \/
  (exists m ms r,
     search fuel (effectiveOptions options) s root = Ok (m :: ms) /\
     processLoop (effectiveOptions options) root fuel (firstLoop root m ms)
       (freshWorld s) = (r, w) /\
     res = finderOf root (effectiveOptions options) (m :: ms) r).
Proof.
  unfold findAndReplaceDOMText, newFinder. cbn [dom freshWorld]. intros E.
  destruct (search fuel (effectiveOptions options) s root) as [ms| |];
    [|left; inversion E; subst; by split..].
  destruct ms as [|m ms].
  { left. inversion E; subst. split; [done|]. by intros f [= <-]. }
  right. unfold bind, processMatches in E. cbn [head tail] in E.
  fold (firstLoop root m ms) in E. fold (freshWorld s) in E.
  destruct (processLoop (effectiveOptions options) root fuel (firstLoop root m ms)
              (freshWorld s)) as [r w1] eqn:E1.
  exists m, ms, r. split; [done|].
  destruct r; inversion E; subst; by split.
Qed.

(** ** The order in which the matches are resolved *)

Lemma pendingMatches_sameWork st st' :
  sameWork st' st -> pendingMatches st' = pendingMatches st.
Proof.
  intros (_ & _ & _ & Hm & Hq & _). unfold pendingMatches. by rewrite Hm, Hq.
Qed.

Lemma pendingMatches_afterText s cur st :
  pendingMatches (afterText s cur st) = pendingMatches st.
Proof.
  pose proof (afterText_frame s cur st) as H. cbv zeta in H.
  destruct H as (Hq & _ & _ & Hm & _). unfold pendingMatches. by rewrite Hm, Hq.
Qed.

Lemma iteration_order options root ms cur st w res w' :
  ms = map rmatch (resolved w) ++ pendingMatches st ->
  iteration options root cur st w = (res, w') ->
  map rmatch (resolved w') `prefix_of` ms /\
  match res with
  | Ok st' => ms = map rmatch (resolved w') ++ pendingMatches st'
  | _ => True
  end.
Proof.
  intros Hms E.
  destruct (iteration_cases _ _ _ _ _ _ _ E)
    as [(-> & st' & -> & _ & Hw)|(_ & sp & ep & m & rr & Hsp & Hep & Hm & Er & ->)].
  - split; [by eexists|].
    destruct Hw as [[_ Hw]|(_ & Hw & _)]; rewrite (pendingMatches_sameWork _ _ Hw);
      [done|by rewrite pendingMatches_afterText].
  - pose proof (keeps_replaceMatch options m sp
                  (innerPortions (afterText (dom w) cur st)) ep
                  (logged w (mkResolved m sp
                     (innerPortions (afterText (dom w) cur st)) ep))) as Hk.
    rewrite Er in Hk. cbn [snd logged resolved] in Hk.
    rewrite <- pendingMatches_afterText with (s := dom w) (cur := cur) in Hms.
    unfold pendingMatches in Hms. rewrite Hm in Hms. cbn [option_list app] in Hms.
    assert (Hms' : ms = map rmatch (resolved w') ++
                        queue (afterText (dom w) cur st)).
    { rewrite Hk, map_app, <- app_assoc. done. }
    split; [by eexists|]. destruct rr as [n| |]; cbn [turnOf]; [|done..].
    rewrite Hms'. f_equal. unfold pendingMatches, afterMatch. cbn [curMatch queue].
    by destruct (queue (afterText (dom w) cur st)).
Qed.

(** X10: the matches are resolved in the order of the search.  In every
    run, whatever the document and whatever the outcome, the calls of
    [replaceMatch] are for the first matches that the search has returned,
    one call for each of them, in the order of the search. *)
Theorem matches_are_resolved_in_order
    (fuel : nat) (s : DOM) (root : nat) (options : Options)
    (res : Res Finder) (w : World) (ms : list MatchWithMeta) :
  search fuel (effectiveOptions options) s root = Ok ms ->
  findAndReplaceDOMText fuel s root options = (res, w) ->
  map rmatch (resolved w) `prefix_of` ms /\
  (forall f, res = Ok f -> finderMatches f = ms).
Proof.
  intros Hs E.
  destruct (run_cases _ _ _ _ _ _ E)
    as [[-> Hf]|(m & ms' & r & Hs' & El & ->)].
  - split; [by eexists|]. intros f Hok. destruct (Hf f Hok) as [Hs0 ->].
    rewrite Hs in Hs0. by inversion Hs0.
  - rewrite Hs in Hs'. inversion Hs'; subst ms.
    destruct (processLoop_invariant (effectiveOptions options) root
                (fun st w => m :: ms' = map rmatch (resolved w) ++ pendingMatches st)
                (fun w => map rmatch (resolved w) `prefix_of` (m :: ms')))
      with (fuel := fuel) (st := firstLoop root m ms') (w := freshWorld s)
           (res := r) (w' := w) as [Hfin _].
    + intros st0 w0 H0. by eexists.
    + intros cur st0 w0 res0 w0' H0 _ _ E0. by eapply iteration_order.
    + done.
    + done.
    + split; [done|]. intros f Hok. destruct r; inversion Hok. done.
Qed.

Lemma matches_are_resolved_in_order_witness :
  map rmatch (resolved (snd (findAndReplaceDOMText 20 foreignFirst 0 replaceAllA)))
    `prefix_of`
    [mkMatch (txt "a") [] 0 1 0 (txt "aa"); mkMatch (txt "a") [] 1 2 1 (txt "aa")] /\
  (forall f, fst (findAndReplaceDOMText 20 foreignFirst 0 replaceAllA) = Ok f ->
     finderMatches f =
       [mkMatch (txt "a") [] 0 1 0 (txt "aa"); mkMatch (txt "a") [] 1 2 1 (txt "aa")]).
Proof.
  apply (matches_are_resolved_in_order 20 foreignFirst 0 replaceAllA).
  - vm_compute. reflexivity.
  - apply surjective_pairing.
Defined.
(** * What a run leaves of the document *)

Lemma portionOK_mono w w' cr p :
  portionOK w p -> grows (dom w) (dom w') ->
  createdNodes w' = cr ++ createdNodes w ->
  (forall c, c ∈ cr -> length (dom w) <= c) ->
  portionOK w' p.
Proof.
  intros (Hn & d & r & Hk & Ht) (_ & Hg & _) Hc Hcr.
  pose proof (kindOf_lt _ _ _ Hk) as Hlt. split.
  - rewrite Hc. intros [Hin|Hin]%elem_of_app; [|done].
    apply Hcr in Hin. lia.
  - exists d, r. by rewrite Hg.
Qed.

(** The portions after the block of a text node: those of before, and
    portions in that node. *)
Lemma textStep_portions (P : Portion -> Prop) cur d m st :
  Forall P (workPortions st) ->
  (forall p, node p = cur ->
     text p = JS.substring d (indexInNode p) (endIndexInNode p) -> P p) ->
  Forall P (workPortions (textStep cur d m st)).
Proof.
  intros Hold Hnew.
  assert (Hhere : forall ix k e, P (portionHere cur d m (atIndex st) ix k e))
    by (intros; by apply Hnew).
  assert (Hin : forall ix k,
            P (mkPortion cur ix d k 0 (JS.len d) false)).
  { intros. apply Hnew; [done|]. cbn. by rewrite substring_all. }
  unfold workPortions in *. apply Forall_app in Hold as [Hs Hold].
  apply Forall_app in Hold as [Hi He].
  unfold textStep.
  destruct (endPortion st) as [ep|] eqn:Ee, (startPortion st) as [sp|] eqn:Es;
    cbn [isNone andb negb];
    repeat match goal with
           | |- context [if ?c then _ else _] => destruct c
           end;
    cbn; rewrite ?Ee, ?Es; cbn;
    repeat first [ apply Forall_nil_2 | apply Forall_cons_2 | apply Forall_app_2
                 | assumption | apply Hhere | apply Hin
                 | by inversion Hs | by inversion He ].
Qed.

Lemma afterText_portions (w : World) cur st :
  inb cur (createdNodes w) = false ->
  Forall (portionOK w) (workPortions st) ->
  Forall (portionOK w) (workPortions (afterText (dom w) cur st)).
Proof.
  intros Hin H. unfold afterText. destruct (curMatch st) as [m|]; [|done].
  destruct (isTextNode (dom w) cur) eqn:Et; [|done].
  apply textStep_portions; [done|]. intros p Hp Htxt. split.
  - rewrite Hp. by apply inb_false.
  - rewrite Hp. unfold isTextNode in Et. unfold kindOf, dataOf in *.
    destruct (dom w !! cur) as [[[d r| |] ? ?]|]; try done. by exists d, r.
Qed.

Lemma workPortions_sameWork st st' :
  sameWork st' st -> workPortions st' = workPortions st.
Proof.
  intros (H1 & H2 & H3 & _). unfold workPortions. by rewrite H1, H2, H3.
Qed.

Lemma iteration_Kept options root s cur st w st' w' :
  wellBehavedReplace options -> Kept s st w ->
  iteration options root cur st w = (Ok st', w') ->
  Kept s st' w'.
Proof.
  intros Hwb (Hrev & Hg & Hcr & Hwork & Hlog) E.
  pose proof (iteration_Revertible _ _ _ _ _ _ _ _ Hwb Hrev E) as Hrev'.
  destruct (iteration_cases _ _ _ _ _ _ _ E)
    as [(-> & st1 & [= <-] & _ & Hw)|(Hin & sp & ep & m & rr & Hsp & Hep & Hm & Er & Hres)].
  - split; [done|]. split; [done|]. split; [done|]. split; [|done].
    destruct Hw as [[_ Hw]|(Hin & Hw & _)]; rewrite (workPortions_sameWork _ _ Hw);
      [done|by apply afterText_portions].
  - set (st1 := afterText (dom w) cur st) in *.
    set (e := mkResolved m sp (innerPortions st1) ep) in *.
    destruct rr as [n| |]; try done. cbn [turnOf] in Hres. inversion Hres; subst st'.
    pose proof (afterText_portions w cur st Hin Hwork) as Hwork1. fold st1 in Hwork1.
    assert (He : Forall (portionOK w) (allPortions e)).
    { unfold workPortions in Hwork1. rewrite Hsp, Hep in Hwork1.
      unfold allPortions, e. cbn [rstart rinner rend]. exact Hwork1. }
    destruct Hrev as (Hcl & _ & Hinner).
    pose proof (afterText_inner (dom w) cur st Hinner) as Hinner1. fold st1 in Hinner1.
    pose proof (replaceMatch_spec options m sp (innerPortions st1) ep (logged w e)
                  Hwb Hcl Hinner1) as Hwp.
    pose proof (keeps_replaceMatch options m sp (innerPortions st1) ep (logged w e))
      as Hk.
    unfold wp in Hwp. rewrite Er in Hwp, Hk. cbn [snd logged resolved] in Hk.
    split; [done|].
    assert (Hlog1 : Forall (fun e => Forall (portionOK w) (allPortions e))
                      (resolved w ++ [e])).
    { apply Forall_app. split; [done|]. by constructor. }
    destruct Hwp as [[_ ->]|[ops Hrep]].
    + split; [done|]. split; [done|]. split; [constructor|]. exact Hlog1.
    + destruct Hrep as (K & cr & pre & new & post & p & HM & _ & Hg' & _ & _ & _
                        & _ & Hcrn & _).
      cbn [dom logged] in Hg', Hcrn.
      pose proof (mid_created _ _ _ _ _ HM) as Hc. cbn [createdNodes logged] in Hc.
      assert (Hlen : length (dom w) <= length (dom w')) by apply Hg'.
      split; [by eapply grows_trans|]. split; [|split; [constructor|]].
      * rewrite Hc. apply Forall_app. split.
        -- apply Forall_forall. intros c Hc'. apply Hcrn in Hc'.
           destruct Hg as [Hg _]. lia.
        -- eapply Forall_impl; [exact Hcr|]. intros c Hc'. cbn beta in Hc'. lia.
      * rewrite Hk. eapply Forall_impl; [exact Hlog1|]. intros e' He'. cbn beta in *.
        eapply Forall_impl; [exact He'|]. intros q Hq.
        apply (portionOK_mono w w' cr); [done|done|done|].
        intros c Hc'. by apply Hcrn.
Qed.

Lemma run_Kept fuel s root options f w :
  closed s -> wellBehavedReplace options ->
  findAndReplaceDOMText fuel s root options = (Ok f, w) ->
  grows s (dom w) /\
  Forall (fun c => length s <= c < length (dom w)) (createdNodes w) /\
  Forall (fun e => Forall (portionOK w) (allPortions e)) (resolved w).
Proof.
  intros Hcl Hwb E. apply wellBehavedReplace_effective in Hwb.
  destruct (run_cases _ _ _ _ _ _ E) as [[-> _]|(m & ms & r & _ & El & Hr)].
  { split; [apply grows_refl|]. split; constructor. }
  destruct r as [st| |]; try done.
  destruct (processLoop_invariant (effectiveOptions options) root (Kept s)
              (fun _ => True))
    with (fuel := fuel) (st := firstLoop root m ms) (w := freshWorld s)
         (res := Ok st) (w' := w) as [_ (_ & Hg & Hc & _ & Hl)]; try done.
  - intros cur st0 w0 res0 w0' H0 _ _ E0. split; [done|].
    destruct res0 as [st0'| |]; [|done..]. by eapply iteration_Kept.
  - split; [|split; [apply grows_refl|split; [constructor|split; constructor]]].
    split; [done|]. split; [apply Undoable_start|constructor].
Qed.

(** X11: a run changes no node of the document.  When the constructor
    returns, every node that the document had before has the kind it had:
    the data of a text node and the name and the class of an element are
    as they were.  The nodes that the engine holds in [createdNodes] are
    nodes that were made in the run.  A replacement function is taken to
    make nodes only and to return nodes that it has made. *)
Theorem a_run_changes_no_node
    (fuel : nat) (s : DOM) (root : nat) (options : Options)
    (f : Finder) (w : World) :
  closed s -> wellBehavedReplace options ->
  findAndReplaceDOMText fuel s root options = (Ok f, w) ->
  (forall n, n < length s -> kindOf (dom w) n = kindOf s n) /\
  Forall (fun c => length s <= c < length (dom w)) (createdNodes w).
Proof.
  intros Hcl Hwb E. destruct (run_Kept _ _ _ _ _ _ Hcl Hwb E) as ((_ & Hg & _) & Hc & _).
  by split.
Qed.

Lemma a_run_changes_no_node_witness :
  (forall n, n < length spanDoc ->
     kindOf (dom (snd (findAndReplaceDOMText 100 spanDoc 0 spanOptions))) n =
     kindOf spanDoc n) /\
  Forall (fun c =>
            length spanDoc <= c <
            length (dom (snd (findAndReplaceDOMText 100 spanDoc 0 spanOptions))))
    (createdNodes (snd (findAndReplaceDOMText 100 spanDoc 0 spanOptions))).
Proof.
  eapply (a_run_changes_no_node 100 spanDoc 0 spanOptions).
  - apply closedb_closed. reflexivity.
  - exact I.
  - vm_compute. reflexivity.
Defined.

(** X12: the portions are parts of text nodes.  Let the children of every
    node of the document be nodes of the store, and let a replacement
    function make nodes only and return nodes that it has made.  When the
    constructor returns, every portion of every match that was resolved
    lies in a text node that is no replacement node of the engine, and the
    text of the portion is the part of the data of that node between the
    offsets [indexInNode] and [endIndexInNode] of the portion. *)
Theorem portions_are_parts_of_text_nodes
    (fuel : nat) (s : DOM) (root : nat) (options : Options)
    (f : Finder) (w : World) :
  closed s -> wellBehavedReplace options ->
  findAndReplaceDOMText fuel s root options = (Ok f, w) ->
  Forall (fun e => Forall (portionOK w) (allPortions e)) (resolved w).
Proof.
  intros Hcl Hwb E. by destruct (run_Kept _ _ _ _ _ _ Hcl Hwb E) as (_ & _ & H).
Qed.

Lemma portions_are_parts_of_text_nodes_witness :
  length (resolved (snd (findAndReplaceDOMText 100 spanDoc 0 spanOptions))) = 1 /\
  Forall (fun e =>
            Forall (portionOK (snd (findAndReplaceDOMText 100 spanDoc 0 spanOptions)))
              (allPortions e))
    (resolved (snd (findAndReplaceDOMText 100 spanDoc 0 spanOptions))).
Proof.
  split; [by vm_compute|].
  eapply (portions_are_parts_of_text_nodes 100 spanDoc 0 spanOptions).
  - apply closedb_closed. reflexivity.
  - exact I.
  - vm_compute. reflexivity.
Defined.
(** * The moves of the traversal *)

(** A turn that leaves the world as it is leaves the traversal and the
    search in agreement: the traversal does not run out of nodes while a
    match is pending. *)
Lemma move_stays_Aligned options root S cur st w res :
  kindOnly (filterElements options) ->
  Aligned (filterElements options) root S st w ->
  curNode st = Some cur ->
  iteration options root cur st w = (res, w) ->
  exists st', res = Ok st' /\ Aligned (filterElements options) root S st' w.
Proof.
  intros Hfe (c & fs & m & Hc & HA & HP & Htxt) Hcur E.
  assert (cur = idOf c) as -> by congruence.
  pose proof (ag_repr _ _ _ _ _ _ _ HA) as HRp.
  apply Forall_inv in HRp.
  assert (Hpass : textOf c = [] ->
            (res, w) = (Ok (nextOf (dom w) root st (idOf c)), w) ->
            exists st', res = Ok st' /\
              Aligned (filterElements options) root S st' w).
  { intros Hc0 [= ->]. eexists. split; [done|]. by eapply pass_Aligned. }
  inversion HRp as [id d r Hk Hch Hn Hid|id Hk Hch Hn Hid|id Hin Hl Hid
                   |id He Hn Hf Hid|id kids He Hn Hf Hch Hpar Hkids Hid];
    rewrite <- Hid in *; simpl in *.
  - (* a text node *)
    apply inb_false in Hn.
    pose proof (afterText_text _ _ _ _ _ _ (pd_match _ _ _ _ HP) Hk) as Haft.
    pose proof (textStep_frame id d m st) as Hfr. cbv zeta in Hfr.
    destruct Hfr as (Hq & Hstack & _ & Hm' & Hdone).
    destruct (Pending_bounds _ _ _ _ HP) as (Hat & Hsi & Hlen & Hm0).
    assert (Hhere : id ∈ agendaIds (Txt id d r) fs).
    { unfold agendaIds, ahead. simpl. apply elem_of_app. right. by left. }
    destruct (Z.le_gt_cases (endIndex m) (atIndex st + JS.len d)) as [Hend|Hend].
    + (* the match ends in it: the world is another *)
      exfalso.
      destruct (textStep_resolves S _ id d _ st m HP Hhere (eq_sym Htxt) Hend)
        as (sp & ep & Hsp & Hep & _).
      destruct (iteration_cases _ _ _ _ _ _ _ E)
        as [(_ & st' & _ & _ & [[Hin _]|(_ & _ & Hnone)])
           |(_ & sp' & ep' & m' & rr & _ & _ & _ & Er & _)].
      * congruence.
      * rewrite Haft, Hsp, Hep, Hm', (pd_match _ _ _ _ HP) in Hnone.
        by destruct Hnone as [?|[?|?]].
      * pose proof (keeps_replaceMatch options m' sp'
                      (innerPortions (afterText (dom w) id st)) ep'
                      (logged w (mkResolved m' sp'
                         (innerPortions (afterText (dom w) id st)) ep'))) as Hk'.
        rewrite Er in Hk'. cbn [snd logged resolved] in Hk'.
        apply (f_equal length) in Hk'. rewrite length_app in Hk'. simpl in Hk'. lia.
    + (* the match goes on after it *)
      destruct (kind_text _ _ _ _ Hk) as (_ & Hel & _ & _).
      assert (Hcont : forall ids',
                (forall x, x ∈ ids' -> x ∈ agendaIds (Txt id d r) fs /\ x <> id) ->
                Pending S ids' (textStep id d m st) m /\
                atIndex (textStep id d m st) = (atIndex st + JS.len d)%Z).
      { intros ids' Hids.
        by apply (textStep_continues S _ ids' id d _ st m HP Hids (eq_sym Htxt)). }
      destruct (Hcont [] ltac:(intros x Hx; inversion Hx)) as [HP0 Hat'].
      rewrite (iteration_pass options root id st w) in E;
        [|done|rewrite Haft; apply HP0].
      rewrite Haft, Hel in E. simpl in E. unfold firstChild in E.
      rewrite Hch in E. simpl in E. inversion E; subst res; clear E.
      eexists. split; [done|].
      apply (Aligned_advance _ _ _ _ _ (Txt id d r) fs m).
      * by rewrite Hstack.
      * intros ids' Hids. by apply Hcont.
      * cbn [textOf]. rewrite Hat'. unfold ahead in *. cbn [flat_map textOf] in *.
        f_equal. symmetry. apply (drop_after S d); [lia|by rewrite <- Htxt].
  - (* a node that is neither a text node nor an element *)
    apply inb_false in Hn. destruct (kind_other _ _ Hk) as [Ht Hel].
    rewrite (iteration_pass options root id st w) in E;
      [|done|rewrite afterText_other by done; apply HP].
    rewrite afterText_other, Hel in E by done. simpl in E.
    unfold firstChild in E. rewrite Hch in E. simpl in E.
    by apply Hpass.
  - (* a node of createdNodes *)
    apply inb_elem_of in Hin. rewrite iteration_created in E by done.
    by apply Hpass.
  - (* an element that the filter keeps the traversal out of *)
    apply inb_false in Hn. pose proof (element_not_text _ _ He) as Ht.
    rewrite (iteration_pass options root id st w) in E;
      [|done|rewrite afterText_other by done; apply HP].
    rewrite afterText_other, He, Hf in E by done. simpl in E.
    by apply Hpass.
  - (* an element *)
    apply inb_false in Hn. pose proof (element_not_text _ _ He) as Ht.
    rewrite (iteration_pass options root id st w) in E;
      [|done|rewrite afterText_other by done; apply HP].
    rewrite afterText_other, He, Hf in E by done. simpl in E.
    destruct kids as [|k ks].
    + unfold firstChild in E. rewrite Hch in E. simpl in E. by apply Hpass.
    + destruct (Agenda_descend _ _ _ _ _ _ _ _ _ HA) as [Hfc HA2].
      rewrite Hfc in E. inversion E; subst res; clear E.
      eexists. split; [done|].
      exists k, (mkFrame id (idOf k) ks :: fs), m.
      split; [done|]. split; [done|]. split.
      * apply (Pending_moveTo _ _ _ _ _ _ _ _ HP). intros x Hx.
        destruct fs as [|f fs]; [by destruct HA|].
        rewrite <- (descend_ids id k ks f fs); [done|].
        pose proof (ag_self _ _ _ _ _ _ _ HA) as Hs. simpl in Hs. congruence.
      * simpl. rewrite <- Htxt. unfold ahead. simpl.
        by rewrite !flat_map_app, <- !app_assoc.
Qed.

(** In a state in which the traversal and the search agree, the node of
    the turn is one that the traversal has before it, no end portion is
    held, and a start portion that is held lies in another node. *)
Lemma Aligned_here fe root S st w cur :
  Aligned fe root S st w -> curNode st = Some cur ->
  exists m,
    curMatch st = Some m /\ (0 <= startIndex m < endIndex m)%Z /\
    endPortion st = None /\
    (startPortion st = None -> innerPortions st = []) /\
    Forall (fun p => node p <> cur) (option_list (startPortion st) ++ innerPortions st).
Proof.
  intros (c & fs & m & Hc & HA & HP & Htxt) Hcur.
  assert (cur = idOf c) as -> by congruence.
  destruct (Pending_bounds _ _ _ _ HP) as (_ & Hsi & _).
  exists m. split; [apply HP|]. split; [done|]. split; [apply HP|].
  assert (Hhere : idOf c ∈ agendaIds c fs).
  { unfold agendaIds, ahead. apply elem_of_app. right. cbn [flat_map].
    apply elem_of_app. left. apply idOf_idsOf. }
  pose proof (pd_start _ _ _ _ HP) as Hst.
  destruct (startPortion st) as [sp|].
  - split; [done|]. destruct Hst as (_ & _ & _ & _ & _ & HF). cbn [option_list app].
    eapply Forall_impl; [exact HF|]. intros p Hp. cbn beta in Hp. congruence.
  - destruct Hst as (_ & -> & _). split; [done|]. constructor.
Qed.
(** * Runs on a document that is a tree *)

Lemma processLoop_final options root : forall fuel st w st' w',
  processLoop options root fuel st w = (Ok st', w') ->
  curNode st' = None \/ done st' = true.
Proof.
  induction fuel as [|fuel IH]; intros st w st' w' E; simpl in E; [done|].
  destruct (curNode st) as [cur|] eqn:Ecur; [|inversion E; subst; by left].
  destruct (done st) eqn:Ed; [inversion E; subst; by right|].
  unfold bind in E. destruct (iteration options root cur st w) as [[st1| |] w1]; try done.
  by eapply IH.
Qed.

(** The rule for the runs on a tree: what holds of the first state of the
    loop and is kept by every turn from a state in which the traversal and
    the search agree, holds when the constructor returns. *)
Lemma run_invariant
    (fuel : nat) (s : DOM) (root : nat) (options : Options) (t : Tree)
    (res : Res Finder) (w : World)
    (I : Loop -> World -> Prop) (F : World -> Prop) :
  sane (regexOf (find options)) ->
  wellBehavedReplace options ->
  kindOnly (filterElements (effectiveOptions options)) ->
  closed s ->
  Repr (filterElements (effectiveOptions options)) s [] t ->
  idOf t = root -> isElementNode s root = true -> NoDup (idsOf t) ->
  F (freshWorld s) ->
  (forall st w, I st w -> F w) ->
  (forall m ms st1,
     search fuel (effectiveOptions options) s root = Ok (m :: ms) ->
     sameWork st1 (firstLoop root m ms) -> curNode st1 <> None -> done st1 = false ->
     I st1 (freshWorld s)) ->
  (forall S cur st w res w',
     Revertible s st w -> CreatedOK w -> LogOK w ->
     Aligned (filterElements (effectiveOptions options)) root S st w ->
     curNode st = Some cur -> done st = false -> I st w ->
     iteration (effectiveOptions options) root cur st w = (res, w') ->
     F w' /\ match res with Ok st' => I st' w' | _ => True end) ->
  findAndReplaceDOMText fuel s root options = (res, w) ->
  F w /\
  (forall f, res = Ok f ->
     search fuel (effectiveOptions options) s root = Ok [] \/
     exists st, I st w /\ (curNode st = None \/ done st = true)).
Proof.
  intros Hs Hwb Hfe Hcl HR Hid He Hnd HF0 HIF Hfirst Hstep E.
  destruct (run_cases _ _ _ _ _ _ E) as [[-> Hf]|(m & ms & r & Es & El & ->)].
  { split; [done|]. intros f Hok. left. by destruct (Hf f Hok). }
  assert (exists agg, getAggregateText fuel (effectiveOptions options) s root = Ok agg)
    as [agg Hagg].
  { unfold search in Es.
    destruct (getAggregateText fuel (effectiveOptions options) s root); eauto;
      done. }
  rewrite <- (find_effectiveOptions options) in Hs.
  pose proof (search_inOrder _ _ _ _ _ _ Hs Hagg Es) as [_ Hch].
  assert (Htxt : textOf t = concat (leaves agg)).
  { symmetry. apply (getText_text (effectiveOptions options) s fuel); [done|].
    by rewrite Hid. }
  apply wellBehavedReplace_effective in Hwb.
  destruct fuel as [|fuel].
  { simpl in El. inversion El; subst. split; [done|]. by intros f. }
  simpl in El. unfold bind in El.
  destruct (first_turn (effectiveOptions options) root s _ t m ms
              HR Hid He Hnd Htxt Hch) as (st1 & E1 & Hin1 & Hal).
  fold (firstLoop root m ms) in E1. rewrite E1 in El.
  set (fe := filterElements (effectiveOptions options)) in *.
  set (S := concat (leaves agg)) in *.
  assert (HI1 : I st1 (freshWorld s)).
  { destruct Hal as (c & fs & m1 & Hc1 & _).
    destruct (iteration_cases _ _ _ _ _ _ _ E1)
      as [(_ & st' & [= <-] & Hd & Hw)|(_ & sp & ep & m' & rr & Hsp & _)].
    - apply (Hfirst m ms); [done| |congruence|].
      + destruct Hw as [[_ Hw]|(_ & Hw & _)]; [done|].
        rewrite afterText_other in Hw; [done|]. by apply element_not_text.
      + destruct Hd as [Hd|[Hd _]]; [done|congruence].
    - rewrite afterText_other in Hsp by (by apply element_not_text). done. }
  destruct (processLoop_invariant (effectiveOptions options) root
              (fun st w =>
                 Revertible s st w /\ CreatedOK w /\ LogOK w /\
                 (curNode st = None \/ done st = true \/ Aligned fe root S st w) /\
                 I st w) F)
    with (fuel := fuel) (st := st1) (w := freshWorld s) (res := r) (w' := w)
    as [HF Hr].
  - intros st0 w0 (_ & _ & _ & _ & H0). by eapply HIF.
  - intros cur st0 w0 res0 w0' (Hrev & Hcr & Hlog & Hal0 & HI0) Hcur Hdone E0.
    destruct Hal0 as [?|[?|Hal0]]; [congruence..|].
    pose proof (iteration_Aligned _ _ _ _ _ _ _ _ _ Hwb Hfe Hrev Hcr Hlog Hal0 Hcur E0)
      as [Hlog1 Hres].
    destruct (Hstep _ _ _ _ _ _ Hrev Hcr Hlog Hal0 Hcur Hdone HI0 E0) as [HF1 HI1'].
    split; [done|]. destruct res0 as [st0'| |]; [|done..].
    destruct Hres as [Hcr1 Hal1]. split; [by eapply iteration_Revertible|].
    done.
  - split; [|split; [by constructor|split; [constructor|split; [by right; right|done]]]].
    split; [done|]. split; [apply Undoable_start|by rewrite Hin1].
  - done.
  - split; [done|]. intros f Hok. right. destruct r as [st2| |]; [|done..].
    exists st2. split; [apply Hr|]. by eapply processLoop_final.
Qed.

(** ** The numbers and the marks of the portions *)

Lemma Numbered_sameWork st st' : sameWork st' st -> Numbered st -> Numbered st'.
Proof.
  intros (H1 & H2 & H3 & _ & _ & _ & H7 & _). unfold Numbered, heldPortions.
  by rewrite H1, H2, H3, H7.
Qed.

Lemma seq_snoc_map (k : nat) :
  map Z.of_nat (seq 0 (k + 1)) = map Z.of_nat (seq 0 k) ++ [Z.of_nat k].
Proof. by rewrite seq_app, map_app. Qed.

Lemma isEnd_replicate (ps : list Portion) :
  Forall (fun p => isEnd p = false) ps -> map isEnd ps = replicate (length ps) false.
Proof. induction 1 as [|p ps Hp _ IH]; [done|]. simpl. by rewrite Hp, IH. Qed.

(** The block of a text node either leaves the portions in order, or
    resolves the match with portions that are in order. *)
Lemma textStep_Numbered cur d m st :
  Numbered st -> (startIndex m < endIndex m)%Z ->
  Forall (fun p => node p <> cur) (heldPortions st) ->
  (endPortion (textStep cur d m st) = None /\ Numbered (textStep cur d m st)) \/
  (exists sp ep,
     startPortion (textStep cur d m st) = Some sp /\
     endPortion (textStep cur d m st) = Some ep /\
     shaped (mkResolved m sp (innerPortions (textStep cur d m st)) ep)).
Proof.
  intros (He & Hix & Hpi & Hend & Hnone) Hlt Hcur.
  destruct (textStep_turn cur d m st He Hlt) as [_ H].
  unfold heldPortions in *.
  destruct (endIndex m <=? atIndex st + JS.len d)%Z.
  - right. destruct H as (Hep & Hin & Hsp).
    eexists _, _. split; [exact Hsp|]. split; [exact Hep|]. rewrite Hin.
    unfold shaped, portionsOf. cbn [rstart rend rinner].
    destruct (startPortion st) as [sp|] eqn:Es.
    + cbn [option_list option_rect app] in *.
      pose proof (Forall_inv Hcur) as Hsp'. cbn beta in Hsp'.
      cbn [node portionHere]. apply Nat.eqb_neq in Hsp'. rewrite Hsp'.
      change (sp :: innerPortions st ++ ?x) with ((sp :: innerPortions st) ++ x).
      remember (sp :: innerPortions st) as held eqn:Eh.
      rewrite !map_app, !length_app, seq_snoc_map, Hix, Hpi.
      cbn [length map pindex isEnd portionHere]. split; [done|].
      rewrite isEnd_replicate by done. do 2 f_equal. lia.
    + cbn [node portionHere]. rewrite Nat.eqb_refl.
      rewrite (Hnone eq_refl) in Hpi. cbn in Hpi. cbn. by rewrite Hpi.
  - left. destruct H as [Hep H]. split; [done|]. unfold Numbered, heldPortions.
    destruct (startPortion st) as [sp|] eqn:Es.
    + destruct H as (Hsp & Hin & Hpi'). split; [done|]. rewrite Hsp, Hin, Hpi'.
      cbn [option_list option_rect app] in *.
      change (sp :: innerPortions st ++ ?x) with ((sp :: innerPortions st) ++ x).
      remember (sp :: innerPortions st) as held eqn:Eh.
      rewrite !map_app, !length_app, seq_snoc_map, Hix, Hpi.
      cbn [length map pindex]. split; [done|]. split; [lia|].
      split; [|done]. apply Forall_app. split; [done|]. by constructor.
    + destruct H as (Hin & H). rewrite (Hnone eq_refl) in *. cbn in Hpi.
      destruct (startIndex m <? atIndex st + JS.len d)%Z.
      * destruct H as [Hsp Hpi']. split; [done|]. rewrite Hsp, Hin, Hpi', Hpi.
        cbn. split; [done|]. split; [done|]. split; [by constructor|done].
      * destruct H as [Hsp Hpi']. split; [done|]. rewrite Hsp, Hin, Hpi', Hpi.
        cbn. split; [done|]. split; [done|]. split; [constructor|done].
Qed.

Lemma iteration_Numbered options root S cur st w res w' :
  Aligned (filterElements options) root S st w -> curNode st = Some cur ->
  Numbered st -> Forall shaped (resolved w) ->
  iteration options root cur st w = (res, w') ->
  Forall shaped (resolved w') /\
  match res with
  | Ok st' => Numbered st'
  | _ => True
  end.
Proof.
  intros Hal Hcur Hnum Hlog E.
  destruct (Aligned_here _ _ _ _ _ _ Hal Hcur) as (m & Hm & Hlt & He & _ & Hcurs).
  assert (Hstep : afterText (dom w) cur st = st \/
                  afterText (dom w) cur st = textStep cur (dataOf (dom w) cur) m st).
  { unfold afterText. rewrite Hm. destruct (isTextNode (dom w) cur); auto. }
  pose proof (textStep_Numbered cur (dataOf (dom w) cur) m st Hnum
                ltac:(lia) Hcurs) as Hts.
  pose proof (afterText_frame (dom w) cur st) as Hfr. cbv zeta in Hfr.
  destruct Hfr as (_ & _ & _ & Hm1 & _).
  destruct (iteration_cases _ _ _ _ _ _ _ E)
    as [(-> & st' & -> & _ & Hw)|(_ & sp & ep & m' & rr & Hsp & Hep & Hm' & Er & ->)].
  - split; [done|].
    destruct Hw as [[_ Hw]|(_ & Hw & Hnone)];
      apply (Numbered_sameWork _ _ Hw); [done|].
    destruct Hstep as [E1|E1]; rewrite E1 in *; [done|].
    destruct Hts as [[_ ?]|(sp & ep & Hsp & Hep & _)]; [done|].
    exfalso. rewrite Hsp, Hep, Hm1, Hm in Hnone. by destruct Hnone as [?|[?|?]].
  - pose proof (keeps_replaceMatch options m' sp
                  (innerPortions (afterText (dom w) cur st)) ep
                  (logged w (mkResolved m' sp
                     (innerPortions (afterText (dom w) cur st)) ep))) as Hk.
    rewrite Er in Hk. cbn [snd logged resolved] in Hk.
    assert (m' = m) as -> by congruence.
    destruct Hstep as [E1|E1]; rewrite E1 in *; [congruence|].
    destruct Hts as [[? _]|(sp0 & ep0 & Hsp0 & Hep0 & Hshape)]; [congruence|].
    assert (sp0 = sp) as -> by congruence. assert (ep0 = ep) as -> by congruence.
    split.
    + rewrite Hk. apply Forall_app. split; [done|]. by constructor.
    + destruct rr as [n| |]; cbn [turnOf]; [|done..].
      unfold Numbered, heldPortions, afterMatch. cbn. done.
Qed.

(** The portions of every match that a run on a tree resolves are in
    order. *)
Lemma run_shaped
    (fuel : nat) (s : DOM) (root : nat) (options : Options) (t : Tree)
    (res : Res Finder) (w : World) :
  sane (regexOf (find options)) ->
  wellBehavedReplace options ->
  kindOnly (filterElements (effectiveOptions options)) ->
  closed s ->
  Repr (filterElements (effectiveOptions options)) s [] t ->
  idOf t = root -> isElementNode s root = true -> NoDup (idsOf t) ->
  findAndReplaceDOMText fuel s root options = (res, w) ->
  Forall shaped (resolved w).
Proof.
  intros Hs Hwb Hfe Hcl HR Hid He Hnd E.
  destruct (run_invariant fuel s root options t res w
              (fun st w => Numbered st /\ Forall shaped (resolved w))
              (fun w => Forall shaped (resolved w))
              Hs Hwb Hfe Hcl HR Hid He Hnd) as [H _]; [| | | |exact E|exact H].
  - constructor.
  - by intros st0 w0 [_ ?].
  - intros m ms st1 _ Hw _ _. split; [|constructor].
    apply (Numbered_sameWork _ _ Hw). unfold Numbered, heldPortions, firstLoop.
    cbn. done.
  - intros S cur st0 w0 res0 w0' _ _ _ Hal Hcur _ [Hnum Hlog] E0.
    destruct (iteration_Numbered _ _ _ _ _ _ _ _ Hal Hcur Hnum Hlog E0) as [H1 H2].
    split; [done|]. by destruct res0.
Qed.

(** X13: the numbers and the marks of the portions.  Let the document be a
    tree below a root element, with the children of every node in the
    store; let the pattern engine return matches that are parts of its
    input; let the answer of [filterElements] depend on the kind of the
    node alone; and let a replacement function make nodes only and return
    nodes that it has made.  Then the portions of a match that are handed
    to the replacement have the numbers 0, 1, 2, ... in their field
    [index], in the order of the document, and the last of them, and no
    other, has [isEnd]. *)
Theorem portions_are_numbered_and_marked
    (fuel : nat) (s : DOM) (root : nat) (options : Options) (t : Tree)
    (res : Res Finder) (w : World) :
  sane (regexOf (find options)) ->
  wellBehavedReplace options ->
  kindOnly (filterElements (effectiveOptions options)) ->
  closed s ->
  Repr (filterElements (effectiveOptions options)) s [] t ->
  idOf t = root -> isElementNode s root = true -> NoDup (idsOf t) ->
  findAndReplaceDOMText fuel s root options = (res, w) ->
  Forall shaped (resolved w).
Proof. apply run_shaped. Qed.

Ltac span_tree :=
  match goal with
  | |- Repr _ _ _ (Elt _ false _) => apply ReprElt
  | |- Repr _ _ _ (Txt _ _ _) => apply ReprTxt
  | |- Forall _ _ => constructor
  | |- _ ∉ [] => apply not_elem_of_nil
  | |- _ = _ => vm_compute; reflexivity
  | |- _ => progress cbv beta
  end.

Lemma portions_are_numbered_and_marked_witness :
  Forall (fun e => length (portionsOf e) = 4)
    (resolved (snd (findAndReplaceDOMText 100 spanDoc 0 spanOptions))) /\
  length (resolved (snd (findAndReplaceDOMText 100 spanDoc 0 spanOptions))) = 1 /\
  Forall shaped (resolved (snd (findAndReplaceDOMText 100 spanDoc 0 spanOptions))).
Proof.
  split; [vm_compute; by repeat constructor|]. split; [by vm_compute|].
  eapply (portions_are_numbered_and_marked 100 spanDoc 0 spanOptions spanTree).
  - apply literal_sane.
  - exact I.
  - intros s s' n _. reflexivity.
  - apply closedb_closed. reflexivity.
  - unfold spanTree. repeat span_tree.
  - reflexivity.
  - reflexivity.
  - apply NoDup_ListNoDup. repeat (constructor; [simpl; intuition lia|]).
    constructor.
  - apply surjective_pairing.
Defined.
(** * The replacement text under [portionMode: 'retain'] *)

Lemma substring_clamped (s : str) a b :
  (0 <= a <= b)%Z ->
  JS.substring s a b =
    take (JS.clamp (length s) b - JS.clamp (length s) a) (drop (JS.clamp (length s) a) s).
Proof.
  intros H. unfold JS.substring.
  assert (JS.clamp (length s) a <= JS.clamp (length s) b) by (unfold JS.clamp; lia).
  by rewrite Nat.min_l, Nat.max_r by done.
Qed.

Lemma substring_join (s : str) a b c :
  (0 <= a <= b)%Z -> (b <= c)%Z ->
  JS.substring s a b ++ JS.substring s b c = JS.substring s a c.
Proof.
  intros Hab Hbc. rewrite !substring_clamped by lia.
  set (a' := JS.clamp (length s) a). set (b' := JS.clamp (length s) b).
  set (c' := JS.clamp (length s) c).
  assert (a' <= b' <= c') by (unfold a', b', c', JS.clamp; lia).
  replace (c' - a') with ((b' - a') + (c' - b')) by lia.
  rewrite <- take_take_drop, drop_drop. do 3 f_equal. lia.
Qed.

Lemma substring_rest (s : str) a b :
  (0 <= a <= b)%Z ->
  JS.substring s a b ++ JS.substringFrom s b = JS.substringFrom s a.
Proof.
  intros Hab. rewrite substring_clamped by lia. unfold JS.substringFrom.
  set (a' := JS.clamp (length s) a). set (b' := JS.clamp (length s) b).
  assert (a' <= b') by (unfold a', b', JS.clamp; lia).
  rewrite <- (take_drop (b' - a') (drop a' s)) at 2. f_equal.
  rewrite drop_drop. f_equal. lia.
Qed.

Lemma substringFrom_zero (s : str) : JS.substringFrom s 0 = s.
Proof. done. Qed.

Lemma retain_piece options r p m :
  isFirstMode options = false -> isEnd p = false ->
  prepareReplacementString options r p m =
    JS.substring (interpolate m r None) (indexInMatch p)
      (indexInMatch p + JS.len (text p)).
Proof. intros Hf He. unfold prepareReplacementString. by rewrite Hf, He. Qed.

Lemma retain_last options r p m :
  isFirstMode options = false -> isEnd p = true ->
  prepareReplacementString options r p m =
    JS.substringFrom (interpolate m r None) (indexInMatch p).
Proof. intros Hf He. unfold prepareReplacementString. by rewrite Hf, He. Qed.

(** The replacement texts of portions that follow one another and of which
    none is the end: the part of the replacement between the offset of the
    first and the offset after the last. *)
Lemma retain_pieces options r m :
  isFirstMode options = false ->
  forall ps acc, (0 <= acc)%Z -> offsetsFrom acc ps ->
    Forall (fun p => isEnd p = false) ps ->
    concat (map (fun p => prepareReplacementString options r p m) ps) =
      JS.substring (interpolate m r None) acc
        (acc + JS.len (concat (map text ps))).
Proof.
  intros Hf. induction ps as [|p ps IH]; intros acc Hacc Hoff Hend.
  - cbn. rewrite Z.add_0_r. rewrite substring_clamped by lia.
    by rewrite Nat.sub_diag.
  - destruct Hoff as [Hp Hoff]. apply Forall_cons in Hend as [He Hend].
    cbn [map concat]. rewrite (retain_piece _ _ _ _ Hf He), Hp.
    assert (0 <= JS.len (text p))%Z by (unfold JS.len; lia).
    rewrite (IH (acc + JS.len (text p))%Z) by (done || lia).
    assert (0 <= JS.len (concat (map text ps)))%Z by (unfold JS.len; lia).
    rewrite substring_join by lia. f_equal.
    unfold JS.len. rewrite length_app. lia.
Qed.

Lemma offsetsFrom_app ps qs : forall acc,
  offsetsFrom acc (ps ++ qs) ->
  offsetsFrom acc ps /\ offsetsFrom (acc + JS.len (concat (map text ps)))%Z qs.
Proof.
  induction ps as [|p ps IH]; intros acc H; cbn in *.
  - by rewrite Z.add_0_r.
  - destruct H as [Hp H]. apply IH in H as [H1 H2]. split; [done|].
    replace (acc + JS.len (text p ++ concat (map text ps)))%Z
      with (acc + JS.len (text p) + JS.len (concat (map text ps)))%Z; [done|].
    unfold JS.len. rewrite length_app. lia.
Qed.

(** A list of portions of which the last, and no other, is the end. *)
Lemma marks_split (ps : list Portion) :
  map isEnd ps = replicate (length ps - 1) false ++ [true] ->
  exists init last,
    ps = init ++ [last] /\ Forall (fun p => isEnd p = false) init /\
    isEnd last = true.
Proof.
  intros H. destruct (decide (ps = [])) as [->|Hne].
  { by destruct (replicate (0 - 1) false). }
  destruct (exists_last Hne) as (init & last & ->). exists init, last.
  rewrite length_app in H. cbn [length] in H.
  replace (length init + 1 - 1) with (length init) in H by lia.
  rewrite map_app in H. cbn [map] in H.
  apply app_inj_tail in H as [H1 H2]. split; [done|]. split; [|done].
  clear -H1. induction init as [|p init IH]; [constructor|].
  cbn in H1. injection H1 as Hp Hi. constructor; [done|by apply IH].
Qed.

Lemma retain_portions options r e :
  isFirstMode options = false -> reconstructs e -> shaped e ->
  spreadsAll options r e.
Proof.
  intros Hf [_ Hoff] [_ Hmarks]. unfold spreadsAll.
  destruct (marks_split _ Hmarks) as (init & last & Heq & Hinit & Hlast).
  rewrite Heq in *. apply offsetsFrom_app in Hoff as [Hoff1 Hoff2].
  destruct Hoff2 as [Hl _]. rewrite Z.add_0_l in Hl.
  rewrite map_app, concat_app. cbn [map concat]. rewrite app_nil_r.
  rewrite (retain_pieces _ _ _ Hf init 0) by done.
  rewrite (retain_last _ _ _ _ Hf Hlast), Hl, Z.add_0_l.
  assert (0 <= JS.len (concat (map text init)))%Z by (unfold JS.len; lia).
  by rewrite substring_rest by lia.
Qed.

(** X14: under [portionMode: 'retain'] the replacement string is spread
    over the portions.  Let the document be a tree below a root element,
    with the children of every node in the store; let the pattern engine
    return matches that are parts of its input; and let the answer of
    [filterElements] depend on the kind of the node alone.  With a
    replacement string and without [portionMode: 'first'], the replacement
    texts of the portions of a match, one after the other in the order of
    the document, are the whole replacement string with its tokens
    replaced: every portion gets the part at its own offset in the match,
    and the last portion gets all that is left. *)
Theorem replacement_is_spread_over_the_portions
    (fuel : nat) (s : DOM) (root : nat) (options : Options) (r : str) (t : Tree)
    (res : Res Finder) (w : World) :
  default (ReplString (txt "$&")) (replace options) = ReplString r ->
  isFirstMode options = false ->
  sane (regexOf (find options)) ->
  kindOnly (filterElements (effectiveOptions options)) ->
  closed s ->
  Repr (filterElements (effectiveOptions options)) s [] t ->
  idOf t = root -> isElementNode s root = true -> NoDup (idsOf t) ->
  findAndReplaceDOMText fuel s root options = (res, w) ->
  Forall (spreadsAll (effectiveOptions options) r) (resolved w).
Proof.
  intros Hr Hf Hs Hfe Hcl HR Hid He Hnd E.
  assert (Hwb : wellBehavedReplace options).
  { unfold wellBehavedReplace. destruct (replace options) as [[|f]|]; done. }
  pose proof (run_LogOK _ _ _ _ _ _ _ Hs Hwb Hfe Hcl HR Hid He Hnd E) as Hlog.
  pose proof (run_shaped _ _ _ _ _ _ _ Hs Hwb Hfe Hcl HR Hid He Hnd E) as Hsh.
  apply Forall_forall. intros e Hin.
  unfold LogOK in Hlog. rewrite Forall_forall in Hlog, Hsh.
  destruct (Hlog e Hin) as [Hrec _].
  apply retain_portions; [by rewrite isFirstMode_effective|done|by apply Hsh].
Qed.

Ltac retain_tree :=
  match goal with
  | |- Repr _ _ _ (Elt _ false _) => apply ReprElt
  | |- Repr _ _ _ (Txt _ _ _) => apply ReprTxt
  | |- Forall _ _ => constructor
  | |- _ ∉ [] => apply not_elem_of_nil
  | |- _ = _ => vm_compute; reflexivity
  | |- _ => progress cbv beta
  end.

Lemma replacement_is_spread_over_the_portions_witness :
  length (resolved (snd (findAndReplaceDOMText 100 spanDoc 0 retainSpan))) = 1 /\
  Forall (spreadsAll (effectiveOptions retainSpan) (txt "[$&]"))
    (resolved (snd (findAndReplaceDOMText 100 spanDoc 0 retainSpan))).
Proof.
  split; [by vm_compute|].
  eapply (replacement_is_spread_over_the_portions 100 spanDoc 0 retainSpan
            (txt "[$&]") spanTree).
  - reflexivity.
  - reflexivity.
  - apply literal_sane.
  - intros s s' n _. reflexivity.
  - apply closedb_closed. reflexivity.
  - unfold spanTree. repeat retain_tree.
  - reflexivity.
  - reflexivity.
  - apply NoDup_ListNoDup. repeat (constructor; [simpl; intuition lia|]).
    constructor.
  - apply surjective_pairing.
Defined.
(** * Every match is replaced *)

(** ** Text nodes stay instances of [Text] *)

Lemma allText_same (s s' : DOM) :
  (forall i, kindOf s' i = kindOf s i) -> allText s -> allText s'.
Proof. intros H Ha n d r Hk. rewrite H in Hk. by eapply Ha. Qed.

Lemma kindOf_detach c s i : kindOf (detach c s) i = kindOf s i.
Proof.
  unfold detach. destruct (parentOf s c); [|done].
  by rewrite kindOf_setParent, kindOf_mapChildren.
Qed.

Lemma allText_insertBefore p n r s s' :
  insertBefore p n r s = Ok s' -> allText s -> allText s'.
Proof.
  unfold insertBefore. destruct (parentOf s r); [|done].
  destruct (Nat.eqb _ p); [|done]. destruct (Nat.eqb n r); intros [= <-]; [done|].
  apply allText_same. intros i.
  by rewrite kindOf_setParent, kindOf_mapChildren, kindOf_detach.
Qed.

Lemma allText_removeChild p c s s' :
  removeChild p c s = Ok s' -> allText s -> allText s'.
Proof.
  unfold removeChild. destruct (parentOf s c); [|done].
  destruct (Nat.eqb _ p); [|done]. intros [= <-].
  apply allText_same. intros i. by rewrite kindOf_setParent, kindOf_mapChildren.
Qed.

Lemma allText_replaceChild p n o s s' :
  replaceChild p n o s = Ok s' -> allText s -> allText s'.
Proof.
  unfold replaceChild. destruct (parentOf s o); [|done].
  destruct (Nat.eqb _ p); [|done]. destruct (Nat.eqb n o); intros [= <-]; [done|].
  apply allText_same. intros i.
  by rewrite !kindOf_setParent, kindOf_mapChildren, kindOf_detach.
Qed.

Lemma allText_appendChild p c s : allText s -> allText (appendChild p c s).
Proof.
  apply allText_same. intros i. unfold appendChild.
  by rewrite kindOf_setParent, kindOf_mapChildren, kindOf_detach.
Qed.

Lemma allText_alloc k s :
  (forall d r, k = TextNode d r -> r = true) ->
  allText s -> allText (s ++ [mkNode k None []]).
Proof.
  intros Hk Ha n d r Hn. unfold kindOf in Hn.
  destruct ((s ++ [mkNode k None []]) !! n) as [nd|] eqn:El; [|done].
  apply lookup_snoc_Some in El as [[_ El]|[_ <-]].
  - apply (Ha n d r). unfold kindOf. by rewrite El.
  - simpl in Hn. inversion Hn. by eapply Hk.
Qed.

Lemma allText_setClassName el c s : allText s -> allText (setClassName el c s).
Proof.
  intros Ha. unfold setClassName. destruct (s !! el) as [nd|] eqn:El; [|done].
  destruct (kind nd) as [| name cls |] eqn:Ek; try done.
  intros n d r Hn. unfold kindOf, setKind in Hn. rewrite list_lookup_alter in Hn.
  case_decide as Hd.
  - subst n. rewrite El in Hn. simpl in Hn. congruence.
  - apply (Ha n d r). by unfold kindOf.
Qed.

Lemma allText_cloneNode el s n s' :
  cloneNode el s = Ok (n, s') -> allText s -> allText s'.
Proof.
  unfold cloneNode, alloc. destruct (s !! el) as [nd|] eqn:El; [|done].
  intros [= <- <-] Ha. apply allText_alloc; [|done].
  intros d r Hk. apply (Ha el d r). unfold kindOf. by rewrite El, Hk.
Qed.

Lemma keepsText_ret {A} (a : A) : keepsText (ret a).
Proof. intros w Hw. exact Hw. Qed.

Lemma keepsText_throw {A} e : keepsText (@throw A e).
Proof. intros w Hw. exact Hw. Qed.

Lemma keepsText_bind {A B} (m : M A) (k : A -> M B) :
  keepsText m -> (forall a, keepsText (k a)) -> keepsText (bind m k).
Proof.
  intros Hm Hk w Hw. unfold bind. specialize (Hm w Hw).
  destruct (m w) as [[a| |] w1]; simpl in *; [|done..].
  by apply Hk.
Qed.

Lemma keepsText_getDom : keepsText getDom.
Proof. intros w Hw. exact Hw. Qed.

Lemma keepsText_createTextNode d : keepsText (liftAlloc (createTextNode d)).
Proof.
  intros w Hw. unfold liftAlloc, createTextNode, alloc. simpl.
  apply allText_alloc; [|done]. by intros ? ? [= _ <-].
Qed.

Lemma keepsText_createElement name :
  keepsText (fun w =>
               match createElement name (dom w) with
               | Ok (n, s) => (Ok n, withDom s w)
               | Throw e => (Throw e, w)
               | OutOfFuel => (OutOfFuel, w)
               end).
Proof.
  intros w Hw. unfold createElement, alloc. destruct (validName name); [|done].
  simpl. by apply allText_alloc.
Qed.

Lemma keepsText_liftDom f :
  (forall s s', f s = Ok s' -> allText s -> allText s') -> keepsText (liftDom f).
Proof.
  intros Hf w Hw. unfold liftDom. destruct (f (dom w)) as [s'| |] eqn:E; [|done..].
  simpl. by eapply Hf.
Qed.

Lemma keepsText_addCreated n : keepsText (addCreated n).
Proof. intros w Hw. exact Hw. Qed.

Lemma keepsText_pushRevert op : keepsText (pushRevert op).
Proof. intros w Hw. exact Hw. Qed.

Lemma keepsText_insertBeforeM p n r : keepsText (insertBeforeM p n r).
Proof.
  destruct p; [|apply keepsText_throw]. apply keepsText_liftDom.
  intros s s'. apply allText_insertBefore.
Qed.

Lemma keepsText_removeChildM p c : keepsText (removeChildM p c).
Proof.
  destruct p; [|apply keepsText_throw]. apply keepsText_liftDom.
  intros s s'. apply allText_removeChild.
Qed.

Lemma keepsText_replaceChildM p n o : keepsText (replaceChildM p n o).
Proof.
  destruct p; [|apply keepsText_throw]. apply keepsText_liftDom.
  intros s s'. apply allText_replaceChild.
Qed.

Lemma keepsText_createTextNodeIf c d : keepsText (createTextNodeIf c d).
Proof.
  unfold createTextNodeIf. destruct c; [|apply keepsText_ret].
  apply keepsText_bind; [apply keepsText_createTextNode|]. intros.
  apply keepsText_ret.
Qed.

Lemma keepsText_insertIfSome o r : keepsText (insertIfSome o r).
Proof.
  destruct o; [|apply keepsText_ret]. apply keepsText_bind; [apply keepsText_getDom|].
  intros. apply keepsText_insertBeforeM.
Qed.

Ltac keepsText_step :=
  first
    [ apply keepsText_ret | apply keepsText_throw | apply keepsText_getDom
    | apply keepsText_createTextNode | apply keepsText_createElement
    | apply keepsText_addCreated
    | apply keepsText_pushRevert | apply keepsText_insertBeforeM
    | apply keepsText_removeChildM | apply keepsText_replaceChildM
    | apply keepsText_createTextNodeIf | apply keepsText_insertIfSome
    | apply keepsText_bind; [|intros ?]
    | match goal with
      | |- keepsText (if ?c then _ else _) => destruct c
      | |- keepsText (match ?x with _ => _ end) => destruct x
      end ].

Lemma keepsText_splitAround a n b x : keepsText (splitAround a n b x).
Proof. unfold splitAround. repeat keepsText_step. Qed.

Lemma keepsText_getPortionReplacementNode options portion match_ :
  sameRealm options ->
  keepsText (getPortionReplacementNode options portion match_).
Proof.
  intros Hsr. unfold getPortionReplacementNode.
  destruct (default (ReplString (txt "$&")) (replace options)) as [r|f] eqn:Ed.
  - apply keepsText_bind; [apply keepsText_createTextNode|]. intros textNode.
    destruct (wrap options) as [[[|c name]|stencil]|]; try apply keepsText_ret;
    (destruct (Nat.eqb _ 0); [apply keepsText_createTextNode|]);
    (apply keepsText_bind;
       [first [apply keepsText_createElement
              |intros w Hw;
               destruct (cloneNode stencil (dom w)) as [[n s']| |] eqn:Ec; [|done..];
               simpl; by eapply allText_cloneNode]
       |intros el;
        apply keepsText_bind;
          [destruct (wrapClass options) as [[|? ?]|]; try apply keepsText_ret;
           intros w Hw; simpl; by apply allText_setClassName
          |intros _; apply keepsText_bind;
             [intros w Hw; simpl; by apply allText_appendChild
             |intros _; apply keepsText_ret]]]).
  - assert (Hf : forall p m s, allText s -> allText (fst (f p m s))).
    { unfold sameRealm in Hsr.
      destruct (replace options) as [[r'|f']|]; simpl in Ed; inversion Ed; by subst. }
    intros w Hw. cbv beta. pose proof (Hf portion match_ (dom w) Hw) as Hs.
    destruct (f portion match_ (dom w)) as [s [r|z|n]]; cbn [fst] in Hs;
      [apply (keepsText_createTextNode _ (withDom s w) Hs)
      |apply (keepsText_createTextNode _ (withDom s w) Hs)|done].
Qed.

Lemma keepsText_replaceInner options match_ ips :
  sameRealm options -> keepsText (replaceInner options match_ ips).
Proof.
  intros Hsr. induction ips as [|p ips IH]; simpl; [apply keepsText_ret|].
  apply keepsText_bind; [by apply keepsText_getPortionReplacementNode|]. intros.
  repeat keepsText_step. done.
Qed.

Lemma keepsText_replaceMatch options match_ sp ips ep :
  sameRealm options -> keepsText (replaceMatch options match_ sp ips ep).
Proof.
  intros Hsr. unfold replaceMatch.
  repeat first
    [ apply (keepsText_getPortionReplacementNode _ _ _ Hsr)
    | apply keepsText_splitAround
    | apply (keepsText_replaceInner _ _ _ Hsr) | keepsText_step ].
Qed.

(** ** A call of [replaceMatch] for text nodes returns a node *)

Lemma yields_bind {A} (m : M A) (k : A -> M (option nat)) :
  (forall a, yields (k a)) -> yields (bind m k).
Proof.
  intros Hk w n w' E. unfold bind in E.
  destruct (m w) as [[a| |] w1]; [|done..]. by eapply Hk.
Qed.

Lemma yields_ret n : yields (ret (Some n)).
Proof. by intros w n' w' [= <- _]. Qed.

Lemma replaceMatch_some options match_ sp ips ep w n w' :
  instanceofText (dom w) (node sp) = true ->
  instanceofText (dom w) (node ep) = true ->
  replaceMatch options match_ sp ips ep w = (Ok n, w') -> n <> None.
Proof.
  intros Hsp Hep E. unfold replaceMatch in E. unfold bind at 1 in E.
  unfold getDom at 1 in E. rewrite Hsp, Hep in E. cbn [negb orb] in E.
  remember (dom w) as s eqn:Es. clear Es Hsp Hep. revert w n w' E.
  match goal with
  | |- forall w n w', ?m w = (Ok n, w') -> n <> None => change (yields m)
  end.
  destruct (Nat.eqb (node sp) (node ep));
    repeat first [apply yields_ret | apply yields_bind; intros ?].
Qed.

(** ** The turns of a run in which every match is replaced *)

Lemma allTextb_allText s : allTextb s = true -> allText s.
Proof.
  unfold allTextb, allText, kindOf. rewrite forallb_forall. intros H n d r Hk.
  destruct (s !! n) as [nd|] eqn:El; [|done]. inversion Hk as [Hk'].
  apply list_elem_of_lookup_2, list_elem_of_In, H in El. by rewrite Hk' in El.
Qed.

Lemma sameRealm_effective options :
  sameRealm options -> sameRealm (effectiveOptions options).
Proof. unfold sameRealm. by rewrite replace_effective. Qed.

Lemma afterText_instances (w : World) cur st :
  allText (dom w) ->
  Forall (fun p => instanceofText (dom w) (node p) = true) (workPortions st) ->
  Forall (fun p => instanceofText (dom w) (node p) = true)
    (workPortions (afterText (dom w) cur st)).
Proof.
  intros Ha H. unfold afterText. destruct (curMatch st) as [m|]; [|done].
  destruct (isTextNode (dom w) cur) eqn:Et; [|done].
  apply textStep_portions; [done|]. intros p Hp _. rewrite Hp.
  unfold isTextNode in Et. unfold instanceofText.
  destruct (dom w !! cur) as [[[d r| |] ? ?]|] eqn:El; try done.
  apply (Ha cur d r). unfold kindOf. by rewrite El.
Qed.

Lemma iteration_Replacing options root s0 S ms cur st w res w' :
  wellBehavedReplace options -> sameRealm options ->
  kindOnly (filterElements options) ->
  Revertible s0 st w ->
  Aligned (filterElements options) root S st w ->
  curNode st = Some cur -> done st = false ->
  Replacing ms st w ->
  iteration options root cur st w = (res, w') ->
  match res with
  | Ok st' => Replacing ms st' w'
  | _ => True
  end.
Proof.
  intros Hwb Hsr Hfe (Hcl & _ & Hinner) Hal Hcur Hdone
    (Hms & Hat & Hinst & Hc & Hr & Hfin) E.
  destruct (iteration_order _ _ _ _ _ _ _ _ Hms E) as [_ Hms'].
  pose proof (afterText_frame (dom w) cur st) as Hfr. cbv zeta in Hfr.
  destruct Hfr as (_ & _ & _ & _ & Hdone1).
  destruct (iteration_cases _ _ _ _ _ _ _ E)
    as [(-> & st' & -> & Hd & Hw)|(_ & sp & ep & m & rr & Hsp & Hep & Hm & Er & ->)].
  - destruct (move_stays_Aligned _ _ _ _ _ _ _ Hfe Hal Hcur E)
      as (st'' & [= <-] & (c & fs & m' & Hc' & _)).
    split; [done|]. split; [done|]. split; [|split; [done|split; [done|]]].
    + destruct Hw as [[_ Hw]|(_ & Hw & _)]; rewrite (workPortions_sameWork _ _ Hw);
        [done|by apply afterText_instances].
    + intros [?|Ht]; [congruence|]. destruct Hd as [Hd|[? _]]; congruence.
  - destruct rr as [n| |]; cbn [turnOf] in *; [|done..].
    set (st1 := afterText (dom w) cur st) in *.
    set (e := mkResolved m sp (innerPortions st1) ep) in *.
    pose proof (afterText_instances w cur st Hat Hinst) as Hinst1. fold st1 in Hinst1.
    unfold workPortions in Hinst1. rewrite Hsp, Hep in Hinst1.
    cbn [option_list option_rect app] in Hinst1.
    pose proof (Forall_inv Hinst1) as Hisp. cbn beta in Hisp.
    assert (Hiep : instanceofText (dom w) (node ep) = true).
    { apply Forall_inv_tail, Forall_app in Hinst1 as [_ H1].
      by apply Forall_inv in H1. }
    pose proof (replaceMatch_some options m sp (innerPortions st1) ep (logged w e)
                  n w' Hisp Hiep Er) as Hn.
    pose proof (afterText_inner (dom w) cur st Hinner) as Hinner1. fold st1 in Hinner1.
    pose proof (replaceMatch_spec options m sp (innerPortions st1) ep (logged w e)
                  Hwb Hcl Hinner1) as Hwp.
    pose proof (keeps_replaceMatch options m sp (innerPortions st1) ep (logged w e))
      as Hk.
    pose proof (keepsText_replaceMatch options m sp (innerPortions st1) ep Hsr
                  (logged w e) Hat) as Hat'.
    unfold wp in Hwp. rewrite Er in Hwp, Hk, Hat'. cbn [snd logged resolved] in Hk, Hat'.
    destruct Hwp as [[-> _]|[ops Hrep]]; [done|].
    destruct Hrep as (K & cr & pre & new & post & p & HM & HE & _ & _ & HK & _
                      & Hnew & _).
    pose proof (mid_created _ _ _ _ _ HM) as Hcr'.
    pose proof (mid_reverts _ _ _ _ _ HM) as Hrv'.
    cbn [createdNodes reverts logged] in Hcr', Hrv'.
    assert (Hops : 1 <= length ops).
    { destruct HE as (_ & _ & _ & _ & HE).
      destruct (HE (node ep)) as [[? Hk0]|Hin]; [by eexists|by rewrite lookup_empty in Hk0|].
      destruct ops; [inversion Hin|simpl; lia]. }
    assert (Hcrl : 1 <= length cr).
    { destruct cr; [inversion Hnew|simpl; lia]. }
    split; [done|]. split; [done|]. split; [constructor|].
    rewrite Hk, Hcr', Hrv', !length_app. cbn [length].
    split; [lia|]. split; [lia|].
    intros [Hnone|Hdn]; cbn [curNode done afterMatch] in *; [congruence|].
    unfold pendingMatches. cbn [curMatch queue afterMatch].
    destruct (queue st1) as [|m1 q]; [done|]. cbn [head] in Hdn. fold st1 in Hdone1.
    congruence.
Qed.

(** X15: no match is left out.  Let the document be a tree below a root
    element, with the children of every node in the store, and let its
    text nodes be instances of [Text]; let the pattern engine return
    matches that are parts of its input; let the answer of
    [filterElements] depend on the kind of the node alone; and let a
    replacement function make nodes only, return nodes that it has made,
    and make no text node of another global object.  When the constructor
    returns, there was one call of [replaceMatch] for every match of the
    search, in the order of the search: no match was passed over, and the
    traversal did not end before the last match.  The nodes in
    [createdNodes] and the closures in [reverts] are then at least as many
    as the matches. *)
Theorem every_match_is_replaced
    (fuel : nat) (s : DOM) (root : nat) (options : Options) (t : Tree)
    (f : Finder) (w : World) :
  sane (regexOf (find options)) ->
  wellBehavedReplace options -> sameRealm options ->
  kindOnly (filterElements (effectiveOptions options)) ->
  closed s -> allText s ->
  Repr (filterElements (effectiveOptions options)) s [] t ->
  idOf t = root -> isElementNode s root = true -> NoDup (idsOf t) ->
  findAndReplaceDOMText fuel s root options = (Ok f, w) ->
  map rmatch (resolved w) = finderMatches f /\
  length (finderMatches f) <= length (createdNodes w) /\
  length (finderMatches f) <= length (reverts w).
Proof.
  intros Hs Hwb Hsr Hfe Hcl Hat HR Hid He Hnd E.
  destruct (run_cases _ _ _ _ _ _ E) as [[-> Hf]|(m & ms & r & Es & _ & Hr)].
  { destruct (Hf f eq_refl) as [_ ->]. simpl. split; [done|]. split; lia. }
  destruct r as [st0| |]; [|done..]. cbn [finderOf] in Hr. inversion Hr; subst f.
  cbn [finderMatches].
  destruct (run_invariant fuel s root options t (Ok (mkFinder root
              (effectiveOptions options) (m :: ms))) w
              (fun st w => Replacing (m :: ms) st w) (fun _ => True)
              Hs Hwb Hfe Hcl HR Hid He Hnd) as [_ H]; [| | | |exact E|].
  - done.
  - done.
  - intros m' ms' st1 Es' Hw Hcur Hdone. rewrite Es in Es'. inversion Es'; subst m' ms'.
    split; [|split; [done|split; [|split; [done|split; [done|]]]]].
    + by rewrite (pendingMatches_sameWork _ _ Hw).
    + rewrite (workPortions_sameWork _ _ Hw). constructor.
    + intros [?|?]; congruence.
  - intros S cur st1 w1 res1 w1' Hrev _ _ Hal Hcur Hdone HI E1. split; [done|].
    apply (iteration_Replacing _ _ s S _ _ _ _ _ _
             (wellBehavedReplace_effective _ Hwb) (sameRealm_effective _ Hsr)
             Hfe Hrev Hal Hcur Hdone HI E1).
  - destruct (H _ eq_refl) as [Hnil|(st & (Hms & _ & _ & Hc & Hr' & Hfin) & Hend)];
      [congruence|].
    rewrite (Hfin Hend), app_nil_r in Hms.
    assert (Hlen : length (m :: ms) = length (resolved w))
      by (by rewrite Hms, length_map).
    rewrite Hlen. by split.
Qed.

Ltac text_tree :=
  match goal with
  | |- Repr _ _ _ (Elt _ false _) => apply ReprElt
  | |- Repr _ _ _ (Txt _ _ _) => apply ReprTxt
  | |- Forall _ _ => constructor
  | |- _ ∉ [] => apply not_elem_of_nil
  | |- _ = _ => vm_compute; reflexivity
  | |- _ => progress cbv beta
  end.

Lemma every_match_is_replaced_witness :
  length (resolved (snd (findAndReplaceDOMText 100 spanDoc 0 spanOptions))) = 1 /\
  exists f,
    fst (findAndReplaceDOMText 100 spanDoc 0 spanOptions) = Ok f /\
    map rmatch (resolved (snd (findAndReplaceDOMText 100 spanDoc 0 spanOptions))) =
      finderMatches f /\
    length (finderMatches f) <=
      length (createdNodes (snd (findAndReplaceDOMText 100 spanDoc 0 spanOptions))) /\
    length (finderMatches f) <=
      length (reverts (snd (findAndReplaceDOMText 100 spanDoc 0 spanOptions))).
Proof.
  split; [by vm_compute|]. eexists. split; [by vm_compute|].
  eapply (every_match_is_replaced 100 spanDoc 0 spanOptions spanTree).
  - apply literal_sane.
  - exact I.
  - exact I.
  - intros s s' n _. reflexivity.
  - apply closedb_closed. reflexivity.
  - apply allTextb_allText. reflexivity.
  - unfold spanTree. repeat text_tree.
  - reflexivity.
  - reflexivity.
  - apply NoDup_ListNoDup. repeat (constructor; [simpl; intuition lia|]).
    constructor.
  - vm_compute. reflexivity.
Defined.
(** * The search ends *)

(** With fuel for the depth of the tree, the aggregation of the text
    returns. *)
Lemma getText_returns options (s : DOM) : forall fuel t,
  Repr (filterElements options) s [] t -> height t <= fuel ->
  exists agg, getText options s fuel (idOf t) = Ok agg.
Proof.
  induction fuel as [|fuel IH]; intros t HR Hh.
  { destruct t; simpl in Hh; lia. }
  simpl.
  destruct HR as [id d r Hk _ _|id Hk _ _|id Hc _|id He _ Hf|id kids He _ Hf Hch _ Hkids];
    simpl in *.
  - destruct (kind_text _ _ _ _ Hk) as (Ht & _). rewrite Ht. eauto.
  - destruct (kind_other _ _ Hk) as [Ht He]. rewrite Ht, He. simpl. eauto.
  - inversion Hc.
  - rewrite (element_not_text _ _ He), He, Hf. simpl. eauto.
  - rewrite (element_not_text _ _ He), He, Hf, Hch. simpl.
    assert (Hks : Forall (fun k => height k <= fuel) kids).
    { apply Forall_forall. intros k Hk. apply Nat.succ_le_mono in Hh.
      clear -Hk Hh. induction kids as [|k' kids IHk]; [inversion Hk|].
      cbn [foldr map] in Hh. apply elem_of_cons in Hk as [->|Hk]; [lia|].
      apply IHk; first [done|lia]. }
    clear Hch He Hf Hh.
    match goal with
    | |- exists agg, ?f (map idOf kids) [] [] = Ok agg => set (loop := f)
    end.
    generalize (@nil TextAggItem) as items. generalize (@nil ascii) as cur.
    induction kids as [|k kids IHk]; intros cur items; simpl; [eauto|].
    apply Forall_cons in Hkids as [Hk Hkids]. apply Forall_cons in Hks as [Hhk Hks].
    destruct (isTextNode s (idOf k)); [by apply IHk|].
    destruct (IH k Hk Hhk) as [inner ->].
    destruct (forcesContext (forceContext options) s (idOf k)); [by apply IHk|].
    destruct inner as [|[first|l] rest]; [by apply IHk| |by apply IHk].
    destruct rest; by apply IHk.
Qed.

Lemma matchLeaves_ends regex fuel : sane regex -> forall ls st,
  Forall (fun l => length l < fuel) ls ->
  (exists st', matchLeaves fuel regex ls st = Ok st') \/
  matchLeaves fuel regex ls st = Throw ZeroLengthMatch.
Proof.
  intros Hs. induction ls as [|l ls IH]; intros st Hls; simpl; [eauto|].
  apply Forall_cons in Hls as [Hl Hls].
  destruct (matchString_ends regex l fuel st Hs Hl) as [[st' ->]| ->]; [|by right].
  by apply IH.
Qed.

Lemma leaf_length (ls : list str) :
  Forall (fun l => length l <= length (concat ls)) ls.
Proof.
  induction ls as [|l ls IH]; [constructor|]. simpl. rewrite length_app.
  constructor; [lia|]. eapply Forall_impl; [exact IH|]. intros x Hx. simpl in Hx. lia.
Qed.

(** X16: the search ends.  On a document that is a tree, with a pattern
    engine whose matches are parts of its input, the search returns its
    matches or throws the error of a match of length zero: with fuel for
    the depth of the tree and for the length of its text, the loops of the
    search do not run out of fuel. *)
Theorem the_search_ends
    (fuel : nat) (options : Options) (s : DOM) (t : Tree) :
  sane (regexOf (find options)) ->
  Repr (filterElements options) s [] t ->
  height t <= fuel -> length (textOf t) < fuel ->
  (exists ms, search fuel options s (idOf t) = Ok ms) \/
  search fuel options s (idOf t) = Throw ZeroLengthMatch.
Proof.
  intros Hs HR Hh Hl. unfold search, getAggregateText.
  destruct (getText_returns options s fuel t HR Hh) as [agg Ea]. rewrite Ea.
  rewrite matchAggregation_leaves.
  pose proof (getText_text options s fuel t agg HR Ea) as Htxt.
  destruct (matchLeaves_ends _ fuel Hs (leaves agg) (mkSearch 0 0 []))
    as [[st' ->]| ->]; [|eauto|by right].
  eapply Forall_impl; [apply leaf_length|]. intros l Hlen. cbn beta in Hlen.
  rewrite Htxt in Hlen. lia.
Qed.

Ltac end_tree :=
  match goal with
  | |- Repr _ _ _ (Elt _ false _) => apply ReprElt
  | |- Repr _ _ _ (Txt _ _ _) => apply ReprTxt
  | |- Forall _ _ => constructor
  | |- _ ∉ [] => apply not_elem_of_nil
  | |- _ = _ => vm_compute; reflexivity
  | |- _ => progress cbv beta
  end.

Lemma the_search_ends_witness :
  (exists ms, search 27 spanOptions spanDoc (idOf spanTree) = Ok ms) \/
  search 27 spanOptions spanDoc (idOf spanTree) = Throw ZeroLengthMatch.
Proof.
  apply (the_search_ends 27 spanOptions spanDoc spanTree).
  - apply literal_sane.
  - unfold spanTree. repeat end_tree.
  - vm_compute. lia.
  - vm_compute. lia.
Defined.
(** * The prose preset *)

Lemma streq_eq a : forall b, streq a b = true -> a = b.
Proof.
  induction a as [|x a IH]; intros [|y b] H; simpl in H; try done.
  apply andb_true_iff in H as [Hx Hab]. apply Ascii.eqb_eq in Hx.
  f_equal; [done|by apply IH].
Qed.

Lemma keyIn_elem key obj :
  keyIn key obj = true -> exists k, k ∈ obj ++ inheritedKeys /\ key = txt k.
Proof.
  unfold keyIn. rewrite existsb_exists. intros (k & Hin & Heq).
  exists k. split; [by apply list_elem_of_In|by apply streq_eq].
Qed.

(** X17: what the prose preset leaves out, it also takes as a border.
    Every element that the filter of the prose preset keeps out of the
    search is an element for which the preset's [forceContext] holds, so
    that the text before such an element and the text after it are
    searched apart. *)
Theorem prose_filter_cuts_the_context (s : DOM) (el : nat) :
  proseFilter s el = false -> NON_INLINE_PROSE s el = true.
Proof.
  unfold proseFilter, NON_INLINE_PROSE. intros H. apply negb_false_iff in H.
  apply keyIn_elem in H as (k & Hk & ->).
  assert (Hall : forallb (fun k => keyIn (txt k) NON_CONTIGUOUS_PROSE_ELEMENTS)
                   (NON_PROSE_ELEMENTS ++ inheritedKeys) = true)
    by (vm_compute; reflexivity).
  rewrite forallb_forall in Hall. apply Hall. by apply list_elem_of_In.
Qed.

Lemma prose_filter_cuts_the_context_witness :
  proseFilter scriptDoc 1 = false /\ NON_INLINE_PROSE scriptDoc 1 = true.
Proof.
  split; [reflexivity|].
  apply (prose_filter_cuts_the_context scriptDoc 1). reflexivity.
Defined.
(** * The run ends *)

(** ** No step of [replaceMatch] asks for fuel *)

Lemma fueled_ret {A} (a : A) : fueled (ret a).
Proof. by intros w. Qed.

Lemma fueled_throw {A} e : fueled (@throw A e).
Proof. by intros w. Qed.

Lemma fueled_bind {A B} (m : M A) (k : A -> M B) :
  fueled m -> (forall a, fueled (k a)) -> fueled (bind m k).
Proof.
  intros Hm Hk w. unfold bind. specialize (Hm w).
  destruct (m w) as [[a| |] w1]; simpl in *; [|done..].
  apply Hk.
Qed.

Lemma fueled_getDom : fueled getDom.
Proof. by intros w. Qed.

Lemma fueled_liftAlloc f : fueled (liftAlloc f).
Proof. intros w. unfold liftAlloc. by destruct (f (dom w)). Qed.

Lemma fueled_liftDom f :
  (forall s, f s <> OutOfFuel) -> fueled (liftDom f).
Proof.
  intros Hf w. unfold liftDom. specialize (Hf (dom w)).
  by destruct (f (dom w)).
Qed.

Lemma fueled_addCreated n : fueled (addCreated n).
Proof. by intros w. Qed.

Lemma fueled_pushRevert op : fueled (pushRevert op).
Proof. by intros w. Qed.

Lemma fueled_insertBeforeM p n r : fueled (insertBeforeM p n r).
Proof.
  destruct p; [|apply fueled_throw]. apply fueled_liftDom. intros s.
  unfold insertBefore. destruct (parentOf s r); [|done].
  destruct (Nat.eqb _ _); [|done]. by destruct (Nat.eqb n r).
Qed.

Lemma fueled_removeChildM p c : fueled (removeChildM p c).
Proof.
  destruct p; [|apply fueled_throw]. apply fueled_liftDom. intros s.
  unfold removeChild. destruct (parentOf s c); [|done].
  by destruct (Nat.eqb _ _).
Qed.

Lemma fueled_replaceChildM p n o : fueled (replaceChildM p n o).
Proof.
  destruct p; [|apply fueled_throw]. apply fueled_liftDom. intros s.
  unfold replaceChild. destruct (parentOf s o); [|done].
  destruct (Nat.eqb _ _); [|done]. by destruct (Nat.eqb n o).
Qed.

Lemma fueled_createTextNodeIf c d : fueled (createTextNodeIf c d).
Proof.
  unfold createTextNodeIf. destruct c; [|apply fueled_ret].
  apply fueled_bind; [apply fueled_liftAlloc|]. intros. apply fueled_ret.
Qed.

Lemma fueled_insertIfSome o r : fueled (insertIfSome o r).
Proof.
  destruct o; [|apply fueled_ret]. apply fueled_bind; [apply fueled_getDom|].
  intros. apply fueled_insertBeforeM.
Qed.

Ltac fueled_step :=
  first
    [ apply fueled_ret | apply fueled_throw | apply fueled_getDom
    | apply fueled_liftAlloc | apply fueled_addCreated
    | apply fueled_pushRevert | apply fueled_insertBeforeM
    | apply fueled_removeChildM | apply fueled_replaceChildM
    | apply fueled_createTextNodeIf | apply fueled_insertIfSome
    | apply fueled_bind; [|intros ?]
    | match goal with
      | |- fueled (if ?c then _ else _) => destruct c
      | |- fueled (match ?x with _ => _ end) => destruct x
      end ].

Lemma fueled_splitAround a n b x : fueled (splitAround a n b x).
Proof. unfold splitAround. repeat fueled_step. Qed.

Lemma fueled_getPortionReplacementNode options portion match_ :
  fueled (getPortionReplacementNode options portion match_).
Proof.
  unfold getPortionReplacementNode.
  destruct (default (ReplString (txt "$&")) (replace options)) as [r|f].
  - apply fueled_bind; [apply fueled_liftAlloc|]. intros textNode.
    destruct (wrap options) as [[[|c name]|stencil]|]; try apply fueled_ret.
    + destruct (Nat.eqb _ 0); [apply fueled_liftAlloc|].
      apply fueled_bind.
      { intros w. unfold createElement. by destruct (validName (c :: name)). }
      intros el.
      apply fueled_bind; [by destruct (wrapClass options) as [[|? ?]|]|].
      intros _. apply fueled_bind; [done|]. intros _. apply fueled_ret.
    + destruct (Nat.eqb _ 0); [apply fueled_liftAlloc|].
      apply fueled_bind.
      { intros w. unfold cloneNode. by destruct (dom w !! stencil). }
      intros el.
      apply fueled_bind; [by destruct (wrapClass options) as [[|? ?]|]|].
      intros _. apply fueled_bind; [done|]. intros _. apply fueled_ret.
  - intros w. cbv beta. by destruct (f portion match_ (dom w)) as [s [n|r|z]].
Qed.

Lemma fueled_replaceInner options match_ ips :
  fueled (replaceInner options match_ ips).
Proof.
  induction ips as [|p ips IH]; simpl; [apply fueled_ret|].
  apply fueled_bind; [apply fueled_getPortionReplacementNode|]. intros.
  repeat fueled_step. done.
Qed.

Lemma fueled_replaceMatch options match_ sp ips ep :
  fueled (replaceMatch options match_ sp ips ep).
Proof.
  unfold replaceMatch.
  repeat first
    [ apply fueled_getPortionReplacementNode | apply fueled_splitAround
    | apply fueled_replaceInner | fueled_step ].
Qed.

Lemma fueled_iteration options root cur st : fueled (iteration options root cur st).
Proof.
  intros w. destruct (iteration options root cur st w) as [res w'] eqn:E.
  destruct (iteration_cases _ _ _ _ _ _ _ E)
    as [(_ & st' & -> & _)|(_ & sp & ep & m & rr & _ & _ & _ & Er & ->)]; [done|].
  pose proof (fueled_replaceMatch options m sp
                (innerPortions (afterText (dom w) cur st)) ep
                (logged w (mkResolved m sp
                   (innerPortions (afterText (dom w) cur st)) ep))) as Hf.
  rewrite Er in Hf. simpl in *. by destruct rr.
Qed.

(** ** The work left decreases *)

Lemma sizeOf_pos t : 1 <= sizeOf t.
Proof. destruct t; simpl; lia. Qed.

Lemma sum_sizes_app (a b : list Tree) :
  foldr Nat.add 0 (map sizeOf (a ++ b)) =
  foldr Nat.add 0 (map sizeOf a) + foldr Nat.add 0 (map sizeOf b).
Proof. induction a as [|x a IH]; simpl; [done|]. rewrite IH. lia. Qed.

Lemma load_advance c fs r fs2 :
  popFrames fs = Some (r, fs2) -> load r fs2 + sizeOf c = load c fs.
Proof.
  intros H. destruct (popFrames_rest _ _ _ H) as (Hrest & _).
  unfold load, ahead. rewrite Hrest. simpl. lia.
Qed.

Lemma load_descend id k ks fs :
  load k (mkFrame id (idOf k) ks :: fs) + 1 = load (Elt id false (k :: ks)) fs.
Proof.
  unfold load, ahead. cbn [flat_map frest map foldr sizeOf].
  rewrite sum_sizes_app. lia.
Qed.

(** The traversal goes from a node that it has passed to the next one. *)
Lemma advance_At fe root S st (w : World) c fs m :
  Agenda fe (dom w) (createdNodes w) root c fs (nodeStack st) ->
  (forall ids', (forall x, x ∈ ids' -> x ∈ agendaIds c fs /\ x <> idOf c) ->
     Pending S ids' st m) ->
  flat_map textOf (ahead c fs) = textOf c ++ drop (Z.to_nat (atIndex st)) S ->
  exists r fs2,
    popFrames fs = Some (r, fs2) /\
    AlignedAt fe root S (nextOf (dom w) root st (idOf c)) w r fs2 m.
Proof.
  intros HA HP Htxt. destruct (popFrames fs) as [[r fs2]|] eqn:E.
  - destruct (Agenda_advance _ _ _ _ _ _ _ st _ _ HA eq_refl E)
      as (stack2 & -> & HA2).
    assert (Hids : forall x, x ∈ agendaIds r fs2 ->
              x ∈ agendaIds c fs /\ x <> idOf c).
    { intros x Hx. destruct (advance_ids _ _ _ _ _ _ _ _ _ HA E x Hx) as [? Hn].
      split; [done|]. intros ->. apply Hn, idOf_idsOf. }
    exists r, fs2. split; [done|]. split; [done|]. split; [done|]. split.
    + apply (Pending_moveTo S (agendaIds r fs2)); [by apply HP|done].
    + rewrite (Agenda_advance_text _ _ _ _ E) in Htxt.
      by apply app_inv_head in Htxt.
  - exfalso. rewrite (Agenda_exhausted _ _ E) in Htxt.
    rewrite <- (app_nil_r (textOf c)) in Htxt at 1.
    apply app_inv_head in Htxt.
    assert (HP0 : Pending S [] st m) by (apply HP; intros x Hx; inversion Hx).
    destruct (Pending_bounds _ _ _ _ HP0) as (Hat & _ & Hlen & _).
    assert (length (drop (Z.to_nat (atIndex st)) S) = 0) as Hl by by rewrite <- Htxt.
    rewrite length_drop in Hl. unfold JS.len in Hlen. lia.
Qed.

(** A turn in which a match was replaced and another match is left: the
    traversal goes on from one node in the place of the text node. *)
Lemma replaced_At fe root S (w1 w2 : World) n d rl f fs stack m sp ips ep r ops
    m' q dn at_ :
  kindOnly fe -> closed (dom w1) -> CreatedOK w1 ->
  Agenda fe (dom w1) (createdNodes w1) root (Txt n d rl) (f :: fs) stack ->
  node ep = n -> endIndexInNode ep = (endIndex m - at_)%Z ->
  node sp = n \/ node sp ∉ agendaIds (Txt n d rl) (f :: fs) ->
  Forall (fun p => node p ∉ agendaIds (Txt n d rl) (f :: fs)) ips ->
  Replaced w1 sp ips ep r ops w2 ->
  (0 <= at_ < endIndex m)%Z -> (endIndex m <= at_ + JS.len d)%Z ->
  (0 <= startIndex m < endIndex m)%Z ->
  flat_map textOf (ahead (Txt n d rl) (f :: fs)) = drop (Z.to_nat at_) S ->
  chain S (endIndex m) (m' :: q) (JS.len S) ->
  exists c' f',
    sizeOf c' = 1 /\ frest f' = frest f /\
    AlignedAt fe root S
      (mkLoop None None [] r (Some m') q (endIndex m) 0 0 stack dn) w2
      c' (f' :: fs) m'.
Proof.
  intros Hfe Hcl Hcr HA Hep Hend Hsp Hips HRep Hat Hei Hsi Htxt Hch.
  destruct HRep as (K & cr & pre & new & post & p & HM & HE & Hg & Hkeys & HKe
                    & Hr & Hnew & Hcrn & Hnd & Hnin & Hpost & Hnone).
  destruct HM as [HR Hcl2 Hrev Hcreated Hres].
  assert (Hd : dataOf (dom w1) n = d).
  { pose proof (ag_repr _ _ _ _ _ _ _ HA) as HRp.
    inversion HRp as [|? ? Hc _]; subst.
    inversion Hc as [? ? ? Hk _ _| | | |]; subst.
    by destruct (kind_text _ _ _ _ Hk) as (_ & _ & ? & _). }
  rewrite Hep, Hd, Hend in *.
  set (leftover := JS.substringFrom d (endIndex m - at_)) in *.
  assert (HA2 : Agenda fe (dom w2) (createdNodes w2) root
            (match post with Some z => Txt z leftover true | None => Skp new end)
            (mkFrame (fparent f) (orNode post new) (frest f) :: fs) stack).
  { rewrite Hcreated.
    eapply (Agenda_replaced fe (dom w1) (dom w2) (createdNodes w1) cr K root n d rl);
      eauto.
    intros k Hk. destruct (Hkeys k Hk) as [->|[->|Hk']].
    - done.
    - by left.
    - right. apply list_elem_of_fmap in Hk' as (ip & -> & Hip).
      rewrite Forall_forall in Hips. by apply Hips. }
  exists (match post with Some z => Txt z leftover true | None => Skp new end),
    (mkFrame (fparent f) (orNode post new) (frest f)).
  split; [by destruct post|]. split; [done|].
  split; [|split; [done|split]].
  - simpl. rewrite Hr. by destruct post.
  - by apply Pending_next.
  - unfold ahead in *. simpl in *.
    rewrite (drop_window S d _ at_ (endIndex m)) by (done || lia).
    f_equal. destruct post as [z|]; [done|]. simpl. symmetry.
    apply substringFrom_all. apply Z.ltb_ge. by apply Hnone.
Qed.

Lemma workLeft_sameWork c fs st st' :
  sameWork st' st -> workLeft c fs st' = workLeft c fs st.
Proof. intros (_ & _ & _ & _ & Hq & _). unfold workLeft. by rewrite Hq. Qed.

(** A turn from a state in which the traversal and the search agree ends
    the loop or leaves less work. *)
Lemma iteration_At options root s0 S st w res w' c fs m :
  wellBehavedReplace options -> kindOnly (filterElements options) ->
  Revertible s0 st w -> CreatedOK w ->
  AlignedAt (filterElements options) root S st w c fs m ->
  iteration options root (idOf c) st w = (res, w') ->
  match res with
  | Ok st' =>
      CreatedOK w' /\
      (curNode st' = None \/ done st' = true \/
       exists c' fs' m',
         AlignedAt (filterElements options) root S st' w' c' fs' m' /\
         workLeft c' fs' st' < workLeft c fs st)
  | _ => True
  end.
Proof.
  intros Hwb Hfe (Hcl & _ & Hinner) Hcr (Hc & HA & HP & Htxt) E.
  pose proof (ag_repr _ _ _ _ _ _ _ HA) as HRp.
  apply Forall_inv in HRp.
  pose proof (sizeOf_pos c) as Hpos.
  assert (Hadv : forall st1,
            queue st1 = queue st ->
            nodeStack st1 = nodeStack st ->
            (forall ids', (forall x, x ∈ ids' -> x ∈ agendaIds c fs /\ x <> idOf c) ->
               Pending S ids' st1 m) ->
            flat_map textOf (ahead c fs) =
              textOf c ++ drop (Z.to_nat (atIndex st1)) S ->
            (res, w') = (Ok (nextOf (dom w) root st1 (idOf c)), w) ->
            match res with
            | Ok st' =>
                CreatedOK w' /\
                (curNode st' = None \/ done st' = true \/
                 exists c' fs' m',
                   AlignedAt (filterElements options) root S st' w' c' fs' m' /\
                   workLeft c' fs' st' < workLeft c fs st)
            | _ => True
            end).
  { intros st1 Hw Hstack HP1 Htxt1 [= -> ->]. split; [done|]. right. right.
    rewrite <- Hstack in HA.
    destruct (advance_At _ _ _ _ _ _ _ _ HA HP1 Htxt1) as (r & fs2 & Epop & Hat).
    exists r, fs2, m. split; [done|].
    rewrite (workLeft_sameWork _ _ _ _ (sameWork_nextOf _ _ _ _)).
    unfold workLeft. rewrite Hw.
    pose proof (load_advance c fs r fs2 Epop). lia. }
  assert (Hpass : textOf c = [] ->
            (res, w') = (Ok (nextOf (dom w) root st (idOf c)), w) ->
            match res with
            | Ok st' =>
                CreatedOK w' /\
                (curNode st' = None \/ done st' = true \/
                 exists c' fs' m',
                   AlignedAt (filterElements options) root S st' w' c' fs' m' /\
                   workLeft c' fs' st' < workLeft c fs st)
            | _ => True
            end).
  { intros Hc0 E'. apply (Hadv st); [done|done| |by rewrite Hc0|done].
    intros ids' Hids. apply (Pending_mono _ _ _ _ _ HP). intros x Hx.
    by apply Hids. }
  inversion HRp as [id d r Hk Hch Hn Hid|id Hk Hch Hn Hid|id Hin Hl Hid
                   |id He Hn Hf Hid|id kids He Hn Hf Hch Hpar Hkids Hid];
    rewrite <- Hid in *; simpl in *.
  - (* a text node *)
    apply inb_false in Hn.
    pose proof (afterText_text _ _ _ _ _ _ (pd_match _ _ _ _ HP) Hk) as Haft.
    pose proof (textStep_frame id d m st) as Hfr. cbv zeta in Hfr.
    destruct Hfr as (Hq & Hstack & _ & Hm' & Hdone).
    destruct (Pending_bounds _ _ _ _ HP) as (Hat & Hsi & Hlen & Hm0).
    assert (Hhere : id ∈ agendaIds (Txt id d r) fs).
    { unfold agendaIds, ahead. simpl. apply elem_of_app. right. by left. }
    destruct (Z.le_gt_cases (endIndex m) (atIndex st + JS.len d)) as [Hend|Hend].
    + (* the match ends in it *)
      destruct (textStep_resolves S _ id d _ st m HP Hhere (eq_sym Htxt) Hend)
        as (sp & ep & Hsp & Hep & Hin' & Hnode & Hendidx & Hspn & Hipsn & Hrec).
      rewrite (iteration_resolve options root id st w sp ep m) in E;
        [|done|by rewrite Haft|by rewrite Haft|rewrite Haft, Hm'; apply HP].
      rewrite Haft, Hin', Hq, Hstack, Hdone in E.
      unfold bind at 1, logResolved at 1 in E. unfold bind at 1 in E.
      set (w1 := mkWorld (dom w) (reverts w) (createdNodes w)
                   (resolved w ++ [mkResolved m sp (innerPortions st) ep])) in *.
      pose proof (replaceMatch_spec options m sp (innerPortions st) ep w1
                    Hwb Hcl Hinner) as Hwp.
      destruct (replaceMatch options m sp (innerPortions st) ep w1)
        as [[rn| |] w2] eqn:Er; inversion E; subst res w'; clear E; [|done..].
      unfold wp in Hwp. rewrite Er in Hwp.
      destruct Hwp as [[-> ->]|[ops Hrep]]; [split; [done|by left]|].
      assert (Hcr2 : CreatedOK w2).
      { destruct Hrep as (K & cr & pre & new & post & p & HM & _ & Hg & _ & _ & _
                          & _ & Hcrn & _).
        unfold CreatedOK in *. rewrite (mid_created _ _ _ _ _ HM).
        apply Forall_app. split.
        - apply Forall_forall. intros x Hx. by apply Hcrn.
        - eapply Forall_impl; [exact Hcr|]. intros x Hx. cbn beta in Hx.
          destruct Hg as [Hg _]. unfold w1 in Hg. cbn [dom] in Hg. lia. }
      split; [done|].
      destruct fs as [|f fs]; [by destruct HA|].
      destruct (queue st) as [|m1 q] eqn:Eq; [right; by left|].
      cbn [head tail]. right. right.
      destruct (replaced_At (filterElements options) root S w1 w2 id d r f fs
                  (nodeStack st) m sp (innerPortions st) ep rn ops m1 q (done st)
                  (atIndex st)) as (c' & f' & Hsz & Hfr' & HAt); try done.
      * pose proof (pd_chain _ _ _ _ HP) as (_ & _ & _ & Hch'). by rewrite Eq in Hch'.
      * exists c', (f' :: fs), m1. split; [done|]. unfold workLeft, load, ahead.
        cbn [queue flat_map map foldr sizeOf length]. rewrite Hsz, Hfr', Eq.
        cbn [length]. lia.
    + (* the match goes on after it *)
      destruct (kind_text _ _ _ _ Hk) as (_ & Hel & _ & _).
      assert (Hcont : forall ids',
                (forall x, x ∈ ids' -> x ∈ agendaIds (Txt id d r) fs /\ x <> id) ->
                Pending S ids' (textStep id d m st) m /\
                atIndex (textStep id d m st) = (atIndex st + JS.len d)%Z).
      { intros ids' Hids.
        by apply (textStep_continues S _ ids' id d _ st m HP Hids (eq_sym Htxt)). }
      destruct (Hcont [] ltac:(intros x Hx; inversion Hx)) as [HP0 Hat'].
      rewrite (iteration_pass options root id st w) in E;
        [|done|rewrite Haft; apply HP0].
      rewrite Haft, Hel in E. simpl in E. unfold firstChild in E.
      rewrite Hch in E. simpl in E.
      apply (Hadv (textStep id d m st)); [done|done| | |by rewrite <- E].
      * intros ids' Hids. by apply Hcont.
      * cbn [textOf]. rewrite Hat'. unfold ahead in *. cbn [flat_map textOf] in *.
        f_equal. symmetry. apply (drop_after S d); [lia|by rewrite <- Htxt].
  - (* a node that is neither a text node nor an element *)
    apply inb_false in Hn. destruct (kind_other _ _ Hk) as [Ht Hel].
    rewrite (iteration_pass options root id st w) in E;
      [|done|rewrite afterText_other by done; apply HP].
    rewrite afterText_other, Hel in E by done. simpl in E.
    unfold firstChild in E. rewrite Hch in E. simpl in E.
    by apply Hpass.
  - (* a node of createdNodes *)
    apply inb_elem_of in Hin. rewrite iteration_created in E by done.
    by apply Hpass.
  - (* an element that the filter keeps the traversal out of *)
    apply inb_false in Hn. pose proof (element_not_text _ _ He) as Ht.
    rewrite (iteration_pass options root id st w) in E;
      [|done|rewrite afterText_other by done; apply HP].
    rewrite afterText_other, He, Hf in E by done. simpl in E.
    by apply Hpass.
  - (* an element *)
    apply inb_false in Hn. pose proof (element_not_text _ _ He) as Ht.
    rewrite (iteration_pass options root id st w) in E;
      [|done|rewrite afterText_other by done; apply HP].
    rewrite afterText_other, He, Hf in E by done. simpl in E.
    destruct kids as [|k ks].
    + unfold firstChild in E. rewrite Hch in E. simpl in E. by apply Hpass.
    + destruct (Agenda_descend _ _ _ _ _ _ _ _ _ HA) as [Hfc HA2].
      rewrite Hfc in E. inversion E; subst res w'; clear E.
      split; [done|]. right. right.
      exists k, (mkFrame id (idOf k) ks :: fs), m. split.
      * split; [done|]. split; [done|]. split.
        -- apply (Pending_moveTo _ _ _ _ _ _ _ _ HP). intros x Hx.
           destruct fs as [|f fs]; [by destruct HA|].
           rewrite <- (descend_ids id k ks f fs); [done|].
           pose proof (ag_self _ _ _ _ _ _ _ HA) as Hs. simpl in Hs. congruence.
        -- simpl. rewrite <- Htxt. unfold ahead. simpl.
           by rewrite !flat_map_app, <- !app_assoc.
      * unfold workLeft. cbn [queue moveTo].
        pose proof (load_descend id k ks fs). lia.
Qed.

(** ** The loop and the constructor *)

(** The first turn of the loop, with the trees that the traversal has
    before it after that turn. *)
Lemma first_turn_At options root (s : DOM) S t m ms :
  Repr (filterElements options) s [] t -> idOf t = root ->
  isElementNode s root = true -> NoDup (idsOf t) -> textOf t = S ->
  chain S 0 (m :: ms) (JS.len S) ->
  exists st1 k ks,
    t = Elt root false (k :: ks) /\
    iteration options root root (firstLoop root m ms) (freshWorld s) =
      (Ok st1, freshWorld s) /\
    innerPortions st1 = [] /\ queue st1 = ms /\
    AlignedAt (filterElements options) root S st1 (freshWorld s)
      k [mkFrame root (idOf k) ks] m.
Proof.
  intros HR Hid He Hnd Htxt Hch.
  pose proof Hch as (Hlo & Hlt & Hm0 & Hrest). apply chain_hi in Hrest.
  assert (Hne : S <> []).
  { intros ->. unfold JS.len in Hrest. simpl in Hrest. lia. }
  set (st0 := firstLoop root m ms).
  inversion HR as [id d r Hk _ _ Hid'|id Hk _ _ Hid'|id Hin _ Hid'
                  |id He' _ Hf Hid'|id kids He' _ Hf Hchd Hpar Hkids Hid'];
    rewrite <- Hid' in *; simpl in Hid; subst id.
  - destruct (kind_text _ _ _ _ Hk) as (_ & Hel & _). congruence.
  - destruct (kind_other _ _ Hk) as (_ & Hel). congruence.
  - inversion Hin.
  - by simpl in Htxt.
  - destruct kids as [|k ks]; [by simpl in Htxt|].
    pose proof (element_not_text _ _ He) as Ht.
    rewrite (iteration_pass options root root st0 (freshWorld s));
      [|done|by rewrite afterText_other].
    rewrite afterText_other by done. cbn [dom freshWorld].
    rewrite He, Hf. unfold firstChild. rewrite Hchd. cbn [andb map head].
    eexists _, k, ks. split; [done|]. split; [reflexivity|]. split; [done|].
    split; [done|].
    simpl in Hnd. apply NoDup_cons in Hnd as [Hroot Hnd].
    assert (Hids : agendaIds k [mkFrame root (idOf k) ks] =
                   flat_map idsOf (k :: ks)).
    { unfold agendaIds, ahead. simpl. by rewrite app_nil_r. }
    split; [done|]. split; [|split].
    + split.
      * done.
      * by constructor.
      * constructor; [|constructor]. simpl. exists []. split; [done|]. split.
        -- apply (sublist_NoDup _ _ Hnd). apply (idOf_sublist (k :: ks)).
        -- intros x Hx. split; [apply not_elem_of_nil|].
           change (x ∈ map idOf (k :: ks)) in Hx.
           apply list_elem_of_fmap in Hx as (t' & -> & Ht').
           rewrite Forall_forall in Hpar. by apply Hpar.
      * unfold ahead. simpl. by rewrite app_nil_r.
      * by rewrite Hids.
      * by rewrite Hids.
    + destruct Hch as (H1 & H2 & H3 & H4).
      constructor; simpl; [done|lia| |lia|done|split; [lia|done]].
      split; [lia|]. split; [done|]. split; [done|done].
    + unfold ahead. simpl. rewrite app_nil_r. simpl in Htxt. by rewrite Htxt.
Qed.

(** With fuel for the work that is left, the loop does not run out of
    fuel. *)
Lemma processLoop_ends options root s0 S :
  wellBehavedReplace options -> kindOnly (filterElements options) ->
  forall fuel st w c fs m,
    Revertible s0 st w -> CreatedOK w ->
    AlignedAt (filterElements options) root S st w c fs m ->
    workLeft c fs st < fuel ->
    fst (processLoop options root fuel st w) <> OutOfFuel.
Proof.
  intros Hwb Hfe. induction fuel as [|fuel IH];
    intros st w c fs m Hrev Hcr Hat Hlt; [lia|].
  simpl. pose proof Hat as (Hc & _). rewrite Hc.
  destruct (done st); [done|]. unfold bind.
  destruct (iteration options root (idOf c) st w) as [res w'] eqn:E.
  pose proof (fueled_iteration options root (idOf c) st w) as Hf.
  rewrite E in Hf. simpl in Hf.
  pose proof (iteration_At _ _ _ _ _ _ _ _ _ _ _ Hwb Hfe Hrev Hcr Hat E) as Hres.
  destruct res as [st'| |]; [|done..].
  destruct Hres as [Hcr' Hnext].
  pose proof (iteration_Revertible _ _ _ _ _ _ _ _ Hwb Hrev E) as Hrev'.
  assert (Hpos : 1 <= workLeft c fs st).
  { unfold workLeft, load, ahead. simpl. pose proof (sizeOf_pos c). lia. }
  destruct Hnext as [Hn|[Hd|(c' & fs' & m' & Hat' & Hless)]].
  - destruct fuel; [lia|]. simpl. by rewrite Hn.
  - destruct fuel; [lia|]. simpl. rewrite Hd. by destruct (curNode st').
  - apply (IH st' w' c' fs' m'); [done|done|done|lia].
Qed.

Lemma chain_count stream : forall ms lo hi,
  chain stream lo ms hi -> (Z.of_nat (length ms) <= hi - lo)%Z.
Proof.
  induction ms as [|m ms IH]; intros lo hi H; simpl in *; [lia|].
  destruct H as (H1 & H2 & _ & H4). apply IH in H4. lia.
Qed.

Lemma height_sizeOf t : height t <= sizeOf t.
Proof.
  induction t as [| | |id av kids IH] using Tree_nested_ind; simpl; try lia.
  apply le_n_S. induction IH as [|k kids Hk _ IHk]; simpl; [done|]. lia.
Qed.

(** X18: the run ends.  Let the document be a tree below a root element,
    with the children of every node in the store; let the pattern engine
    return matches that are parts of its input; let the answer of
    [filterElements] depend on the kind of the node alone; and let a
    replacement function make nodes only and return nodes that it has
    made.  Then the constructor returns or throws: with fuel for the nodes
    of the tree and twice the length of its text, neither the search nor
    the loop of [processMatches] runs out of fuel.  (Every turn of the loop
    passes a node, goes into an element or replaces a match.) *)
Theorem the_run_ends
    (fuel : nat) (s : DOM) (root : nat) (options : Options) (t : Tree) :
  sane (regexOf (find options)) ->
  wellBehavedReplace options ->
  kindOnly (filterElements (effectiveOptions options)) ->
  closed s ->
  Repr (filterElements (effectiveOptions options)) s [] t ->
  idOf t = root -> isElementNode s root = true -> NoDup (idsOf t) ->
  sizeOf t + 2 * length (textOf t) + 2 <= fuel ->
  fst (findAndReplaceDOMText fuel s root options) <> OutOfFuel.
Proof.
  intros Hs Hwb Hfe Hcl HR Hid He Hnd Hfuel.
  destruct (findAndReplaceDOMText fuel s root options) as [res w] eqn:E.
  rewrite <- (find_effectiveOptions options) in Hs.
  pose proof (height_sizeOf t) as Hh.
  destruct (getText_returns (effectiveOptions options) s fuel t HR ltac:(lia))
    as [agg Ea].
  rewrite Hid in Ea.
  assert (Htxt : textOf t = concat (leaves agg)).
  { symmetry. apply (getText_text (effectiveOptions options) s fuel); [done|].
    by rewrite Hid. }
  assert (Hsearch : search fuel (effectiveOptions options) s root <> OutOfFuel).
  { unfold search, getAggregateText. rewrite Ea, matchAggregation_leaves.
    destruct (matchLeaves_ends _ fuel Hs (leaves agg) (mkSearch 0 0 []))
      as [[st' ->]| ->]; [|done..].
    eapply Forall_impl; [apply leaf_length|]. intros l Hlen. cbn beta in Hlen.
    rewrite <- Htxt in Hlen. lia. }
  unfold findAndReplaceDOMText, newFinder in E. cbn [dom freshWorld] in E.
  destruct (search fuel (effectiveOptions options) s root) as [[|m ms]| |] eqn:Es;
    [by inversion E| |by inversion E|done].
  unfold bind, processMatches in E. cbn [head tail] in E.
  fold (firstLoop root m ms) in E. fold (freshWorld s) in E.
  pose proof (search_inOrder _ _ _ _ _ _ Hs Ea Es) as [_ Hch].
  pose proof (chain_count _ _ _ _ Hch) as Hcount. rewrite <- Htxt in *.
  unfold JS.len in Hcount. cbn [length] in Hcount.
  apply wellBehavedReplace_effective in Hwb.
  destruct fuel as [|fuel]; [lia|].
  simpl in E. unfold bind in E.
  destruct (first_turn_At (effectiveOptions options) root s _ t m ms
              HR Hid He Hnd eq_refl Hch)
    as (st1 & k & ks & Ht & E1 & Hin1 & Hq1 & Hat).
  rewrite E1 in E.
  pose proof (processLoop_ends (effectiveOptions options) root s (textOf t) Hwb Hfe
                fuel st1 (freshWorld s) k [mkFrame root (idOf k) ks] m) as Hends.
  destruct (processLoop (effectiveOptions options) root fuel st1 (freshWorld s))
    as [r w1] eqn:El.
  simpl in *. intros Hr. apply Hends.
  - split; [done|]. split; [apply Undoable_start|by rewrite Hin1].
  - by constructor.
  - done.
  - unfold workLeft, load, ahead. rewrite Hq1. cbn [flat_map frest].
    rewrite app_nil_r. rewrite Ht in Hfuel, Hcount. cbn [sizeOf] in Hfuel.
    cbn [map foldr] in *. lia.
  - destruct r; inversion E; congruence.
Qed.

Ltac run_tree :=
  match goal with
  | |- Repr _ _ _ (Elt _ false _) => apply ReprElt
  | |- Repr _ _ _ (Txt _ _ _) => apply ReprTxt
  | |- Forall _ _ => constructor
  | |- _ ∉ [] => apply not_elem_of_nil
  | |- _ = _ => vm_compute; reflexivity
  | |- _ => progress cbv beta
  end.

Lemma the_run_ends_witness :
  fst (findAndReplaceDOMText 62 spanDoc 0 spanOptions) <> OutOfFuel.
Proof.
  apply (the_run_ends 62 spanDoc 0 spanOptions spanTree).
  - apply literal_sane.
  - exact I.
  - intros s s' n _. reflexivity.
  - apply closedb_closed. reflexivity.
  - unfold spanTree. repeat run_tree.
  - reflexivity.
  - reflexivity.
  - apply NoDup_ListNoDup. repeat (constructor; [simpl; intuition lia|]).
    constructor.
  - vm_compute. lia.
Defined.
(** ** Calls of [replaceMatch] that return *)

Lemma returns_bind {A B} (m : M A) (k : A -> M B) Q w :
  returns m (fun a w1 => returns (k a) Q w1) w -> returns (bind m k) Q w.
Proof. unfold returns, bind. by destruct (m w) as [[a| |] w1]. Qed.

Lemma returns_ret {A} (a : A) (Q : A -> World -> Prop) w :
  Q a w -> returns (ret a) Q w.
Proof. done. Qed.

Lemma returns_getDom (Q : DOM -> World -> Prop) w :
  Q (dom w) w -> returns getDom Q w.
Proof. done. Qed.

Lemma returns_mono {A} (m : M A) (Q Q' : A -> World -> Prop) w :
  returns m Q w -> (forall a w', Q a w' -> Q' a w') -> returns m Q' w.
Proof. unfold returns. destruct (m w) as [[a| |] w1]; auto. Qed.

Lemma parentOf_detach c s i : i <> c -> parentOf (detach c s) i = parentOf s i.
Proof.
  intros Hne. unfold detach. destruct (parentOf s c); [|done].
  rewrite parentOf_setParent, parentOf_mapChildren.
  by destruct (Nat.eqb_spec i c).
Qed.

Lemma length_detach c s : length (detach c s) = length s.
Proof.
  unfold detach. destruct (parentOf s c); [|done].
  by rewrite length_setParent, length_mapChildren.
Qed.

Lemma steady_refl s0 : steady s0 [] s0.
Proof. by split. Qed.

Lemma steady_more s0 g g' s :
  steady s0 g s -> (forall x, x ∈ g -> x ∈ g') -> steady s0 g' s.
Proof. intros [Hl Hp] Hg. split; [done|]. intros x Hx Hn. apply Hp; auto. Qed.

Lemma steady_ext s0 g s s' :
  steady s0 g s -> take (length s) s' = s -> steady s0 g s'.
Proof.
  intros [Hl Hp] Ht.
  assert (Hs : s' = s ++ drop (length s) s').
  { rewrite <- Ht at 1. by rewrite take_drop. }
  split.
  - rewrite Hs, length_app. lia.
  - intros x Hx Hn. rewrite Hs, parentOf_app_l by lia. by apply Hp.
Qed.

Lemma steady_parent s0 g s n p :
  steady s0 g s -> n < length s0 -> n ∉ g -> parentOf s0 n = Some p ->
  parentOf s n = Some p.
Proof. intros [_ Hp] Hn Hg <-. by apply Hp. Qed.

Lemma insertBefore_steady s0 g s p z n :
  steady s0 g s -> parentOf s n = Some p -> length s0 <= z ->
  exists s', insertBefore p z n s = Ok s' /\ steady s0 g s'.
Proof.
  intros [Hl Hp] Hn Hz. unfold insertBefore. rewrite Hn, Nat.eqb_refl.
  destruct (Nat.eqb z n); [by eexists|]. eexists. split; [done|]. split.
  - by rewrite length_setParent, length_mapChildren, length_detach.
  - intros x Hx Hg.
    rewrite parentOf_setParent, parentOf_mapChildren.
    destruct (Nat.eqb_spec x z) as [->|Hne]; [lia|]. cbn [andb].
    rewrite parentOf_detach by done. by apply Hp.
Qed.

Lemma removeChild_steady s0 g s p n :
  steady s0 g s -> parentOf s n = Some p ->
  exists s', removeChild p n s = Ok s' /\ steady s0 (n :: g) s'.
Proof.
  intros [Hl Hp] Hn. unfold removeChild. rewrite Hn, Nat.eqb_refl.
  eexists. split; [done|]. split.
  - by rewrite length_setParent, length_mapChildren.
  - intros x Hx Hg. apply not_elem_of_cons in Hg as [Hne Hg].
    rewrite parentOf_setParent, parentOf_mapChildren.
    destruct (Nat.eqb_spec x n); [done|]. by apply Hp.
Qed.

Lemma replaceChild_steady s0 g s p z n :
  steady s0 g s -> parentOf s n = Some p -> length s0 <= z ->
  exists s', replaceChild p z n s = Ok s' /\ steady s0 (n :: g) s'.
Proof.
  intros [Hl Hp] Hn Hz. unfold replaceChild. rewrite Hn, Nat.eqb_refl.
  destruct (Nat.eqb z n).
  { eexists. split; [done|]. split; [done|]. intros x Hx Hg.
    apply not_elem_of_cons in Hg as [_ Hg]. by apply Hp. }
  eexists. split; [done|]. split.
  - by rewrite !length_setParent, length_mapChildren, length_detach.
  - intros x Hx Hg. apply not_elem_of_cons in Hg as [Hne Hg].
    rewrite !parentOf_setParent, parentOf_mapChildren.
    destruct (Nat.eqb_spec x z) as [->|Hnz]; [lia|].
    destruct (Nat.eqb_spec x n); [done|]. cbn [andb].
    rewrite parentOf_detach by done. by apply Hp.
Qed.

(** *** The steps of [replaceMatch] *)

Lemma returns_createTextNode s0 g w d :
  steady s0 g (dom w) ->
  returns (liftAlloc (createTextNode d))
    (fun z w' => length s0 <= z /\ steady s0 g (dom w')) w.
Proof.
  intros Hs. unfold returns, liftAlloc, createTextNode, alloc. cbn [dom withDom].
  split; [apply Hs|]. eapply steady_ext; [exact Hs|].
  by rewrite take_app_length.
Qed.

Lemma returns_createTextNodeIf s0 g w c d :
  steady s0 g (dom w) ->
  returns (createTextNodeIf c d)
    (fun o w' => (forall z, o = Some z -> length s0 <= z) /\ steady s0 g (dom w')) w.
Proof.
  intros Hs. unfold createTextNodeIf. destruct c.
  - apply returns_bind. eapply returns_mono; [by apply returns_createTextNode|].
    intros z w' [Hz Hs']. apply returns_ret. split; [|done]. by intros ? [= <-].
  - apply returns_ret. split; [|done]. by intros ? [=].
Qed.

Lemma getPortionReplacementNode_Ok options portion match_ w :
  wrapIn options (dom w) ->
  exists n w', getPortionReplacementNode options portion match_ w = (Ok n, w').
Proof.
  intros Hw. unfold getPortionReplacementNode.
  destruct (default (ReplString (txt "$&")) (replace options)) as [r|f].
  - unfold bind, liftAlloc, createTextNode, createElement, alloc, ret.
    cbn [dom withDom]. unfold wrapIn in Hw.
    destruct (wrap options) as [[[|c name]|stencil]|]; try by eexists _, _.
    + destruct (Nat.eqb _ 0); [by eexists _, _|].
      unfold createElement. rewrite Hw. unfold alloc.
      destruct (wrapClass options) as [[|? ?]|]; by eexists _, _.
    + destruct (Nat.eqb _ 0); [by eexists _, _|].
      unfold cloneNode, withDom. cbn [dom].
      destruct (lookup_lt_is_Some_2 (dom w ++ [mkNode (TextNode
                  (prepareReplacementString options r portion match_) true) None []])
                  stencil) as [nd ->].
      { rewrite length_app. lia. }
      unfold alloc. destruct (wrapClass options) as [[|? ?]|]; by eexists _, _.
  - cbv beta. destruct (f portion match_ (dom w)) as [s [n|r|z]]; by eexists _, _.
Qed.

Lemma returns_getPortionReplacementNode s0 g w options portion match_ :
  wellBehavedReplace options -> wrapIn options s0 -> steady s0 g (dom w) ->
  returns (getPortionReplacementNode options portion match_)
    (fun z w' => length s0 <= z /\ steady s0 g (dom w')) w.
Proof.
  intros Hwb Hw Hs.
  destruct (getPortionReplacementNode_Ok options portion match_ w) as (n & w' & E).
  { unfold wrapIn in *. destruct (wrap options) as [[[|c name]|stencil]|]; try done.
    destruct Hs. lia. }
  pose proof (getPortionReplacementNode_new options portion match_ w Hwb) as Hnew.
  unfold wp in Hnew. unfold returns. rewrite E in *.
  destruct Hnew as (Ht & Hn & _). split; [destruct Hs; lia|].
  by eapply steady_ext.
Qed.

Lemma returns_addCreated s0 g w n :
  steady s0 g (dom w) ->
  returns (addCreated n) (fun _ w' => steady s0 g (dom w')) w.
Proof. done. Qed.

Lemma returns_pushRevert s0 g w op :
  steady s0 g (dom w) ->
  returns (pushRevert op) (fun _ w' => steady s0 g (dom w')) w.
Proof. done. Qed.

Lemma returns_insertBeforeM s0 g w p z n :
  steady s0 g (dom w) -> n < length s0 -> n ∉ g -> parentOf s0 n = Some p ->
  length s0 <= z ->
  returns (insertBeforeM (Some p) z n) (fun _ w' => steady s0 g (dom w')) w.
Proof.
  intros Hs Hn Hg Hp Hz. unfold returns, insertBeforeM, liftDom.
  destruct (insertBefore_steady s0 g (dom w) p z n) as (s' & -> & Hs'); try done.
  by eapply steady_parent.
Qed.

Lemma returns_removeChildM s0 g w p n :
  steady s0 g (dom w) -> n < length s0 -> n ∉ g -> parentOf s0 n = Some p ->
  returns (removeChildM (Some p) n) (fun _ w' => steady s0 (n :: g) (dom w')) w.
Proof.
  intros Hs Hn Hg Hp. unfold returns, removeChildM, liftDom.
  destruct (removeChild_steady s0 g (dom w) p n) as (s' & -> & Hs'); try done.
  by eapply steady_parent.
Qed.

Lemma returns_replaceChildM s0 g w p z n :
  steady s0 g (dom w) -> n < length s0 -> n ∉ g -> parentOf s0 n = Some p ->
  length s0 <= z ->
  returns (replaceChildM (Some p) z n) (fun _ w' => steady s0 (n :: g) (dom w')) w.
Proof.
  intros Hs Hn Hg Hp Hz. unfold returns, replaceChildM, liftDom.
  destruct (replaceChild_steady s0 g (dom w) p z n) as (s' & -> & Hs'); try done.
  by eapply steady_parent.
Qed.

Lemma returns_insertIfSome s0 g w o p n :
  steady s0 g (dom w) -> n < length s0 -> n ∉ g -> parentOf s0 n = Some p ->
  (forall z, o = Some z -> length s0 <= z) ->
  returns (insertIfSome o n) (fun _ w' => steady s0 g (dom w')) w.
Proof.
  intros Hs Hn Hg Hp Ho. unfold insertIfSome. destruct o as [z|]; [|by apply returns_ret].
  apply returns_bind, returns_getDom.
  rewrite (steady_parent _ _ _ _ _ Hs Hn Hg Hp).
  apply returns_insertBeforeM; auto.
Qed.

(** The statements that split a text node around a match. *)
Lemma returns_splitAround s0 g w pre new post p n :
  steady s0 g (dom w) -> n < length s0 -> n ∉ g -> parentOf s0 n = Some p ->
  (forall z, pre = Some z -> length s0 <= z) -> length s0 <= new ->
  (forall z, post = Some z -> length s0 <= z) ->
  returns (splitAround pre new post n)
    (fun _ w' => steady s0 (n :: g) (dom w')) w.
Proof.
  intros Hs Hn Hg Hp Hpre Hnew Hpost. unfold splitAround.
  apply returns_bind. eapply returns_mono; [by eapply returns_insertIfSome|].
  intros ? w1 Hs1. cbv beta in *.
  apply returns_bind. eapply returns_mono.
  { apply (returns_insertIfSome s0 g w1 (Some new) p n); try done.
    by intros ? [= <-]. }
  intros ? w2 Hs2. cbv beta in *.
  apply returns_bind. eapply returns_mono; [by eapply returns_insertIfSome|].
  intros ? w3 Hs3. cbv beta in *.
  apply returns_bind, returns_getDom.
  rewrite (steady_parent _ _ _ _ _ Hs3 Hn Hg Hp).
  by apply returns_removeChildM.
Qed.

(** The loop over the inner portions. *)
Lemma returns_replaceInner s0 options match_ :
  wellBehavedReplace options -> wrapIn options s0 ->
  forall ips g w,
    steady s0 g (dom w) -> NoDup (map node ips) -> attached s0 (map node ips) ->
    Forall (fun x => x ∉ g) (map node ips) ->
    returns (replaceInner options match_ ips)
      (fun _ w' => steady s0 (map node ips ++ g) (dom w')) w.
Proof.
  intros Hwb Hw. induction ips as [|portion ips IH]; intros g w Hs Hnd Hat Hg.
  { by apply returns_ret. }
  cbn [map] in *. apply NoDup_cons in Hnd as [Hni Hnd].
  apply Forall_cons in Hat as [[Hn [p Hp]] Hat]. apply Forall_cons in Hg as [Hng Hg].
  cbn [replaceInner].
  apply returns_bind. eapply returns_mono; [by apply returns_getPortionReplacementNode|].
  intros z w1 [Hz Hs1]. cbv beta in *.
  apply returns_bind, returns_getDom.
  rewrite (steady_parent _ _ _ _ _ Hs1 Hn Hng Hp).
  apply returns_bind. eapply returns_mono; [by apply returns_replaceChildM|].
  intros ? w2 Hs2. cbv beta in *.
  apply returns_bind. eapply returns_mono; [by apply returns_addCreated|].
  intros ? w3 Hs3. cbv beta in *.
  apply returns_bind. eapply returns_mono; [by apply returns_pushRevert|].
  intros ? w4 Hs4. cbv beta in *.
  eapply returns_mono.
  { apply (IH (node portion :: g) w4); try done.
    rewrite Forall_forall in Hg |- *. intros x Hx.
    apply not_elem_of_cons. split; [|by apply Hg]. by intros ->. }
  intros ? w5 Hs5. cbv beta. eapply steady_more; [exact Hs5|].
  intros x. cbn [map app]. rewrite ?elem_of_cons, ?elem_of_app, ?elem_of_cons. tauto.
Qed.

(** [if (cond) { z = document.createTextNode(data); parent.insertBefore(z, n) }] *)
Lemma returns_splitOff s0 g w p n (cond : bool) data :
  steady s0 g (dom w) -> n < length s0 -> n ∉ g -> parentOf s0 n = Some p ->
  returns (if cond then
             do z <- liftAlloc (createTextNode data);
             do _ <- insertBeforeM (Some p) z n;
             ret (Some z)
           else ret None)
    (fun _ w' => steady s0 g (dom w')) w.
Proof.
  intros Hs Hn Hg Hp. destruct cond; [|by apply returns_ret].
  apply returns_bind. eapply returns_mono; [by apply returns_createTextNode|].
  intros z w1 [Hz Hs1]. cbv beta in *.
  apply returns_bind. eapply returns_mono; [by apply returns_insertBeforeM|].
  intros ? w2 Hs2. cbv beta in *. by apply returns_ret.
Qed.

(** A call of [replaceMatch] returns when the text nodes of the portions
    have a parent and, for a match in several text nodes, differ. *)
Lemma replaceMatch_returns options match_ sp ips ep w :
  wellBehavedReplace options -> wrapIn options (dom w) ->
  node sp = node ep \/ NoDup (node sp :: map node ips ++ [node ep]) ->
  attached (dom w) (node sp :: map node ips ++ [node ep]) ->
  returns (replaceMatch options match_ sp ips ep) (fun _ _ => True) w.
Proof.
  intros Hwb Hw Hnd Hat. pose proof (steady_refl (dom w)) as Hs.
  apply Forall_cons in Hat as [[Hsn [p Hp]] Hat].
  apply Forall_app in Hat as [Hips Hep].
  apply Forall_cons in Hep as [[Hen [q Hq]] _].
  unfold replaceMatch. apply returns_bind, returns_getDom.
  destruct (negb (instanceofText (dom w) (node sp)) ||
            negb (instanceofText (dom w) (node ep))); [by apply returns_ret|].
  destruct (Nat.eqb (node sp) (node ep)) eqn:E.
  - (* the match lies in one text node *)
    rewrite Hp.
    apply returns_bind. eapply returns_mono.
    { apply (returns_splitOff (dom w) [] w p (node sp)); try done.
      apply not_elem_of_nil. }
    intros pre w1 Hs1. cbv beta in *.
    apply returns_bind.
    eapply returns_mono; [by apply returns_getPortionReplacementNode|].
    intros new w2 [Hnew Hs2]. cbv beta in *.
    apply returns_bind. eapply returns_mono.
    { apply returns_insertBeforeM; try done. apply not_elem_of_nil. }
    intros ? w3 Hs3. cbv beta in *.
    apply returns_bind. eapply returns_mono; [by apply returns_addCreated|].
    intros ? w4 Hs4. cbv beta in *.
    apply returns_bind, returns_getDom.
    apply returns_bind. eapply returns_mono.
    { apply (returns_splitOff (dom w) [] w4 p (node sp)); try done.
      apply not_elem_of_nil. }
    intros post w5 Hs5. cbv beta in *.
    apply returns_bind. eapply returns_mono.
    { apply returns_removeChildM; try done. apply not_elem_of_nil. }
    intros ? w6 Hs6. cbv beta in *.
    apply returns_bind. eapply returns_mono; [by apply returns_pushRevert|].
    intros ? w7 Hs7. by apply returns_ret.
  - (* the match spans several text nodes *)
    apply Nat.eqb_neq in E. destruct Hnd as [?|Hnd]; [done|].
    apply NoDup_cons in Hnd as [Hsp Hnd]. apply NoDup_app in Hnd as (Hnd & Hdis & _).
    apply returns_bind. eapply returns_mono; [by apply returns_createTextNodeIf|].
    intros a w1 [Ha Hs1]. cbv beta in *.
    apply returns_bind. eapply returns_mono; [by apply returns_createTextNodeIf|].
    intros b w2 [Hb Hs2]. cbv beta in *.
    apply returns_bind.
    eapply returns_mono; [by apply returns_getPortionReplacementNode|].
    intros first w3 [Hfirst Hs3]. cbv beta in *.
    apply returns_bind. eapply returns_mono; [by apply returns_addCreated|].
    intros ? w4 Hs4. cbv beta in *.
    apply returns_bind. eapply returns_mono.
    { apply (returns_splitAround (dom w) [] w4 a first b p (node sp)); try done.
      apply not_elem_of_nil. }
    intros ? w5 Hs5. cbv beta in *.
    apply returns_bind. eapply returns_mono.
    { apply (returns_replaceInner (dom w) options match_ Hwb Hw ips [node sp] w5);
        try done.
      rewrite Forall_forall. intros x Hx Hin.
      apply list_elem_of_singleton in Hin. subst x. apply Hsp.
      apply elem_of_app. by left. }
    intros ? w6 Hs6. cbv beta in *.
    apply returns_bind.
    eapply returns_mono; [by apply returns_getPortionReplacementNode|].
    intros last w7 [Hlast Hs7]. cbv beta in *.
    apply returns_bind. eapply returns_mono; [by apply returns_addCreated|].
    intros ? w8 Hs8. cbv beta in *.
    apply returns_bind, returns_getDom.
    apply returns_bind. eapply returns_mono; [by apply returns_createTextNodeIf|].
    intros c w9 [Hc Hs9]. cbv beta in *.
    apply returns_bind. eapply returns_mono; [by apply returns_createTextNodeIf|].
    intros d w10 [Hd Hs10]. cbv beta in *.
    apply returns_bind. eapply returns_mono.
    { apply (returns_splitAround (dom w) (map node ips ++ [node sp]) w10
               c last d q (node ep)); try done.
      intros Hin. apply elem_of_app in Hin as [Hin|Hin].
      - apply (Hdis _ Hin). by left.
      - apply list_elem_of_singleton in Hin. done. }
    intros ? w11 Hs11. cbv beta in *.
    apply returns_bind. eapply returns_mono; [by apply returns_pushRevert|].
    intros ? w12 Hs12. by apply returns_ret.
Qed.

(** ** The search throws nothing but its own error *)

Lemma getText_quiet options (s : DOM) e : forall fuel n,
  getText options s fuel n <> Throw e.
Proof.
  induction fuel as [|fuel IH]; intros n; [done|]. simpl.
  destruct (isTextNode s n); [done|].
  destruct (negb (isElementNode s n)); [done|].
  destruct (filteredOut (filterElements options) s n); [done|].
  match goal with
  | |- ?f (childrenOf s n) [] [] <> _ => set (loop := f)
  end.
  generalize (@nil TextAggItem) as items. generalize (@nil ascii) as cur.
  induction (childrenOf s n) as [|k kids IHk]; intros cur items; [done|].
  simpl. destruct (isTextNode s k); [by apply IHk|].
  pose proof (IH k) as Hk.
  destruct (getText options s fuel k) as [inner| |]; [|done..].
  destruct (forcesContext (forceContext options) s k); [by apply IHk|].
  destruct inner as [|[first|l] rest]; [by apply IHk| |by apply IHk].
  destruct rest; by apply IHk.
Qed.

Lemma prepMatch_quiet m i o e :
  prepMatch m i o = Throw e -> e = ZeroLengthMatch.
Proof. unfold prepMatch. destruct (r0 m); [|done]. by intros [= <-]. Qed.

Lemma execLoop_quiet regex item e : forall fuel lastIndex st,
  execLoop fuel regex item lastIndex st = Throw e -> e = ZeroLengthMatch.
Proof.
  induction fuel as [|fuel IH]; intros lastIndex st; [done|]. simpl.
  destruct (exec regex item lastIndex) as [m|]; [|done].
  destruct (prepMatch m (matchIndex st) (offset st)) as [mm| |] eqn:E; [| |done].
  - apply IH.
  - intros [= <-]. by eapply prepMatch_quiet.
Qed.

Lemma matchString_quiet fuel regex item st e :
  matchString fuel regex item st = Throw e -> e = ZeroLengthMatch.
Proof.
  unfold matchString. destruct (global regex).
  - destruct (execLoop fuel regex item 0 st) eqn:E; [done| |done].
    intros [= <-]. by eapply execLoop_quiet.
  - destruct (exec regex item 0) as [m|]; [|done].
    destruct (prepMatch m 0 (offset st)) eqn:E; [done| |done].
    intros [= <-]. by eapply prepMatch_quiet.
Qed.

Lemma matchLeaves_quiet fuel regex e : forall ls st,
  matchLeaves fuel regex ls st = Throw e -> e = ZeroLengthMatch.
Proof.
  induction ls as [|l ls IH]; intros st; [done|]. simpl.
  destruct (matchString fuel regex l st) eqn:E; [apply IH| |done].
  intros [= <-]. by eapply matchString_quiet.
Qed.

Lemma search_quiet fuel options (s : DOM) root e :
  search fuel options s root = Throw e -> e = ZeroLengthMatch.
Proof.
  unfold search, getAggregateText.
  pose proof (getText_quiet options s e fuel root) as Hg.
  destruct (getText options s fuel root) as [agg|e0|]; [|congruence|done].
  rewrite matchAggregation_leaves.
  destruct (matchLeaves fuel (regexOf (find options)) (leaves agg) (mkSearch 0 0 []))
    eqn:E; [done| |done].
  intros [= <-]. by eapply matchLeaves_quiet.
Qed.

(** ** The loop hands text nodes of the tree to [replaceMatch] *)

Lemma Aligned_parent fe root S st w cur :
  Aligned fe root S st w -> curNode st = Some cur ->
  cur < length (dom w) /\ is_Some (parentOf (dom w) cur).
Proof.
  intros (c & fs & m & Hc & HA & _) Hcur.
  assert (cur = idOf c) as -> by congruence.
  pose proof (ag_self _ _ _ _ _ _ _ HA) as Hself.
  pose proof (ag_suffix _ _ _ _ _ _ _ HA) as Hsuf.
  destruct fs as [|f fs]; [done|]. cbn [head option_map] in Hself.
  apply Forall_inv in Hsuf. destruct Hsuf as (ls & _ & _ & Hpar).
  destruct (Hpar (fself f)) as [_ Hp]; [by left|].
  assert (fself f = idOf c) as <- by congruence.
  split; [by eapply parentOf_lt|by eexists].
Qed.

Lemma Held_sameWork st st' w : sameWork st' st -> Held st w -> Held st' w.
Proof.
  intros (H1 & _ & H3 & _). unfold Held, heldPortions. by rewrite H1, H3.
Qed.

Lemma attached_one (s : DOM) x :
  x < length s -> is_Some (parentOf s x) -> attached s [x].
Proof. intros. by repeat constructor. Qed.

(** The portions after the text block of a turn. *)
Lemma afterText_Held fe root S st w cur :
  Aligned fe root S st w -> curNode st = Some cur -> Held st w ->
  Held (afterText (dom w) cur st) w /\
  forall ep, endPortion (afterText (dom w) cur st) = Some ep ->
    node ep = cur /\
    forall sp, startPortion (afterText (dom w) cur st) = Some sp ->
      node sp = cur \/ cur ∉ map node (heldPortions (afterText (dom w) cur st)).
Proof.
  intros Hal Hcur [Hnd Hat].
  destruct (Aligned_here _ _ _ _ _ _ Hal Hcur) as (m & Hm & Hlt & Hend & Hnone & Hne).
  destruct (Aligned_parent _ _ _ _ _ _ Hal Hcur) as [Hlen Hpar].
  assert (Hnot : cur ∉ map node (heldPortions st)).
  { intros Hin. apply list_elem_of_fmap in Hin as (p & Hp & Hin).
    rewrite Forall_forall in Hne. by apply (Hne p Hin). }
  unfold afterText. rewrite Hm.
  destruct (isTextNode (dom w) cur).
  2:{ split; [done|]. intros ep Hep. congruence. }
  destruct (textStep_turn cur (dataOf (dom w) cur) m st Hend ltac:(lia)) as [_ Ht].
  set (st1 := textStep cur (dataOf (dom w) cur) m st) in *.
  unfold Held, heldPortions in *.
  destruct (endIndex m <=? atIndex st + JS.len (dataOf (dom w) cur))%Z.
  - destruct Ht as (Hep & Hin & Hsp). rewrite Hsp, Hin.
    destruct (startPortion st) as [sp|] eqn:Es.
    + split; [done|]. rewrite Hep. intros ep [= <-]. split; [done|].
      intros sp0 _. by right.
    + rewrite (Hnone eq_refl). cbn [option_list app map portionHere node].
      split; [split; [apply NoDup_singleton|by apply attached_one]|].
      rewrite Hep. intros ep [= <-]. split; [done|]. intros sp0 [= <-]. by left.
  - destruct Ht as (Hep & Ht). split; [|intros ep Hep'; congruence].
    destruct (startPortion st) as [sp|] eqn:Es.
    + destruct Ht as (-> & -> & _). rewrite app_assoc, map_app. cbn [map node].
      split.
      * apply NoDup_app. split; [done|]. split; [|apply NoDup_singleton].
        intros x Hx Hin. apply list_elem_of_singleton in Hin. by subst.
      * apply Forall_app. split; [done|]. by apply attached_one.
    + destruct Ht as (-> & Ht). rewrite (Hnone eq_refl) in *.
      destruct (startIndex m <? atIndex st + JS.len (dataOf (dom w) cur))%Z.
      * destruct Ht as (-> & _). cbn [option_list app map portionHere node].
        split; [apply NoDup_singleton|by apply attached_one].
      * destruct Ht as (-> & _). done.
Qed.

(** A turn of the loop throws nothing, and the portions that the loop
    holds after it lie in nodes that differ and that have a parent. *)
Lemma iteration_Held options root S cur st w res w' :
  wellBehavedReplace options -> wrapIn options (dom w) ->
  Aligned (filterElements options) root S st w -> curNode st = Some cur ->
  Held st w ->
  iteration options root cur st w = (res, w') ->
  match res with
  | Ok st' => Held st' w'
  | Throw _ => False
  | OutOfFuel => True
  end.
Proof.
  intros Hwb Hw Hal Hcur Hheld E.
  destruct (afterText_Held _ _ _ _ _ _ Hal Hcur Hheld) as [Hheld1 Hend1].
  destruct (iteration_cases _ _ _ _ _ _ _ E)
    as [(-> & st1 & -> & _ & Hsame)|(_ & sp & ep & m & rr & Hsp & Hep & _ & Er & ->)].
  - destruct Hsame as [[_ Hsame]|(_ & Hsame & _)]; by eapply Held_sameWork.
  - set (st1 := afterText (dom w) cur st) in *.
    destruct (Hend1 ep Hep) as [Hepn Hspn]. specialize (Hspn sp Hsp).
    destruct (Aligned_parent _ _ _ _ _ _ Hal Hcur) as [Hlen Hpar].
    destruct Hheld1 as [Hnd1 Hat1]. unfold heldPortions in *. rewrite Hsp in *.
    cbn [option_list app map] in *.
    pose proof (replaceMatch_returns options m sp (innerPortions st1) ep
                  (logged w (mkResolved m sp (innerPortions st1) ep)) Hwb Hw) as Hret.
    unfold returns in Hret. rewrite Er in Hret.
    destruct rr as [n| |]; [by split; constructor| |done].
    apply Hret.
    + destruct Hspn as [->|Hspn]; [by left|]. right.
      rewrite app_comm_cons. apply NoDup_app. split; [done|].
      split; [|apply NoDup_singleton].
      intros x Hx Hin. apply list_elem_of_singleton in Hin. subst x.
      by rewrite Hepn in Hx.
    + cbn [dom logged]. rewrite app_comm_cons. apply Forall_app. split; [done|].
      rewrite Hepn. by apply attached_one.
Qed.

(** ** The outcome of a run *)

(** What every turn of the loop keeps, and what no turn throws. *)
Lemma processLoop_outcome options root
    (Inv : Loop -> World -> Prop) (P : Exn -> Prop) :
  (forall cur st w res w',
     Inv st w -> curNode st = Some cur -> done st = false ->
     iteration options root cur st w = (res, w') ->
     match res with
     | Ok st' => Inv st' w'
     | Throw e => P e
     | OutOfFuel => True
     end) ->
  forall fuel st w, Inv st w ->
    match fst (processLoop options root fuel st w) with
    | Throw e => P e
    | _ => True
    end.
Proof.
  intros Hstep. induction fuel as [|fuel IH]; intros st w HI; simpl; [done|].
  destruct (curNode st) as [cur|] eqn:Ecur; [|done].
  destruct (done st) eqn:Edone; [done|].
  unfold bind. destruct (iteration options root cur st w) as [r1 w1] eqn:E1.
  pose proof (Hstep _ _ _ _ _ HI Ecur Edone E1) as H1.
  destruct r1 as [st1|e|]; [by apply IH|done|done].
Qed.

Lemma wrapIn_effective options (s s' : DOM) :
  wrapIn options s -> length s <= length s' -> wrapIn (effectiveOptions options) s'.
Proof.
  unfold wrapIn, effectiveOptions. intros H Hl.
  destruct (wrap options) as [[[|c name]|el]|]; destruct (preset options) as [[]|];
    simpl; try done; lia.
Qed.

(** X19: a run raises no exception of the DOM.  Let the document be a
    tree below a root element, with the children of every node in the
    store; let the pattern engine return matches that are parts of its
    input; let the answer of [filterElements] depend on the kind of the
    node alone; let a replacement function create nodes only and return a
    node that it created; and let [wrap] be such that the DOM takes it: a
    string that is a name for [document.createElement], or a stencil
    element that is a node of the store.  Then the constructor, whatever
    the fuel, throws neither a TypeError (a read of a property of null),
    nor a NotFoundError (of insertBefore, removeChild or replaceChild), nor
    an InvalidCharacterError (of createElement): every text node that
    [replaceMatch] splits or replaces still has its parent when its turn
    comes. *)
Theorem a_run_raises_no_DOM_exception
    (fuel : nat) (s : DOM) (root : nat) (options : Options) (t : Tree) :
  sane (regexOf (find options)) ->
  wellBehavedReplace options ->
  kindOnly (filterElements (effectiveOptions options)) ->
  closed s -> wrapIn options s ->
  Repr (filterElements (effectiveOptions options)) s [] t ->
  idOf t = root -> isElementNode s root = true -> NoDup (idsOf t) ->
  fst (findAndReplaceDOMText fuel s root options) <> Throw TypeError /\
  fst (findAndReplaceDOMText fuel s root options) <> Throw NotFoundError /\
  fst (findAndReplaceDOMText fuel s root options) <> Throw InvalidCharacterError.
Proof.
  intros Hs Hwb Hfe Hcl Hw HR Hid He Hnd.
  assert (Hz : forall e, fst (findAndReplaceDOMText fuel s root options) = Throw e ->
            e = ZeroLengthMatch).
  2:{ repeat split; intros E; by apply Hz in E. }
  intros e. unfold findAndReplaceDOMText, newFinder. cbn [dom freshWorld].
  destruct (search fuel (effectiveOptions options) s root) as [[|m ms]|e0|] eqn:Es;
    [done| |intros [= <-]; by eapply search_quiet|done].
  unfold bind, processMatches. cbn [head tail].
  fold (firstLoop root m ms). fold (freshWorld s).
  assert (exists agg, getAggregateText fuel (effectiveOptions options) s root = Ok agg)
    as [agg Hagg].
  { unfold search in Es.
    destruct (getAggregateText fuel (effectiveOptions options) s root); eauto;
      done. }
  rewrite <- (find_effectiveOptions options) in Hs.
  pose proof (search_inOrder _ _ _ _ _ _ Hs Hagg Es) as [_ Hch].
  assert (Htxt : textOf t = concat (leaves agg)).
  { symmetry. apply (getText_text (effectiveOptions options) s fuel); [done|].
    by rewrite Hid. }
  apply wellBehavedReplace_effective in Hwb.
  destruct fuel as [|fuel]; [done|].
  simpl. unfold bind.
  destruct (first_turn (effectiveOptions options) root s _ t m ms
              HR Hid He Hnd Htxt Hch) as (st1 & E1 & Hin1 & Hal).
  fold (firstLoop root m ms) in E1. rewrite E1.
  set (fe := filterElements (effectiveOptions options)) in *.
  set (S := concat (leaves agg)) in *.
  assert (Hsame : sameWork st1 (firstLoop root m ms)).
  { destruct (iteration_cases _ _ _ _ _ _ _ E1)
      as [(_ & st' & [= <-] & _ & Hsw)|(_ & sp & ep & m' & rr & Hsp & _)].
    - destruct Hsw as [[_ Hsw]|(_ & Hsw & _)]; [done|].
      rewrite afterText_other in Hsw; [done|]. by apply element_not_text.
    - rewrite afterText_other in Hsp by (by apply element_not_text). done. }
  pose proof (processLoop_outcome (effectiveOptions options) root
                (fun st w =>
                   Kept s st w /\ CreatedOK w /\ LogOK w /\
                   (curNode st = None \/ done st = true \/ Aligned fe root S st w) /\
                   Held st w) (fun _ => False)) as Hloop.
  specialize (Hloop) with (fuel := fuel) (st := st1) (w := freshWorld s).
  destruct (processLoop (effectiveOptions options) root fuel st1 (freshWorld s))
    as [r w1].
  cbn [fst] in *. destruct r as [st2|e1|]; [done| |done].
  exfalso. apply Hloop.
  - intros cur st0 w0 res0 w0' (Hk & Hcr & Hlog & Hal0 & Hh) Hcur Hdone E0.
    destruct Hal0 as [?|[?|Hal0]]; [congruence..|].
    pose proof Hk as (Hrev & Hg & _).
    pose proof (iteration_Aligned _ _ _ _ _ _ _ _ _ Hwb Hfe Hrev Hcr Hlog Hal0 Hcur E0)
      as [Hlog1 Hres].
    pose proof (iteration_Held _ _ _ _ _ _ _ _ Hwb
                  (wrapIn_effective _ _ _ Hw (proj1 Hg)) Hal0 Hcur Hh E0) as Hh1.
    destruct res0 as [st0'| |]; [|done..].
    destruct Hres as [Hcr1 Hal1].
    split; [by eapply iteration_Kept|]. done.
  - split; [|split; [by constructor|split; [constructor|split; [by right; right|]]]].
    + split; [split; [done|split; [apply Undoable_start|by rewrite Hin1]]|].
      split; [apply grows_refl|]. split; [constructor|].
      rewrite (workPortions_sameWork _ _ Hsame). split; constructor.
    + apply (Held_sameWork (firstLoop root m ms)); [done|]. split; constructor.
Qed.

Lemma a_run_raises_no_DOM_exception_witness :
  fst (findAndReplaceDOMText 10 stencilDoc 0 stencilOptions) <> Throw TypeError /\
  fst (findAndReplaceDOMText 10 stencilDoc 0 stencilOptions) <> Throw NotFoundError /\
  fst (findAndReplaceDOMText 10 stencilDoc 0 stencilOptions) <>
    Throw InvalidCharacterError.
Proof.
  apply (a_run_raises_no_DOM_exception 10 stencilDoc 0 stencilOptions
           (Elt 0 false [Txt 1 (txt "word") true])).
  - apply literal_sane.
  - exact I.
  - intros s s' n _. reflexivity.
  - apply closedb_closed. reflexivity.
  - unfold wrapIn. simpl. lia.
  - repeat run_tree.
  - reflexivity.
  - reflexivity.
  - vm_compute. repeat constructor; rewrite ?elem_of_cons, ?elem_of_nil; intuition lia.
Defined.
(** ** A match in one text node: what [replaceMatch] does to the document *)

Lemma kept_refl s : kept s s.
Proof. by split. Qed.

Lemma kept_trans s1 s2 s3 : kept s1 s2 -> kept s2 s3 -> kept s1 s3.
Proof.
  intros [H1 K1] [H2 K2]. split; [lia|]. intros i Hi.
  rewrite K2 by lia. by apply K1.
Qed.

Lemma kept_ext (s s' : DOM) : take (length s) s' = s -> kept s s'.
Proof.
  intros Ht.
  assert (Hs : s' = s ++ drop (length s) s').
  { rewrite <- Ht at 1. by rewrite take_drop. }
  split.
  - rewrite Hs, length_app. lia.
  - intros i Hi. rewrite Hs. by apply kindOf_app_l.
Qed.

Lemma Cut_start w p n l1 l2 :
  parentOf (dom w) n = Some p -> childrenOf (dom w) p = l1 ++ n :: l2 ->
  Cut w p n l1 [] l2 [] w.
Proof. intros Hp Hc. by split. Qed.

(** The store gets more nodes. *)
Lemma Cut_ext w0 p n l1 mid l2 cr w w' :
  Cut w0 p n l1 mid l2 cr w -> take (length (dom w)) (dom w') = dom w ->
  reverts w' = reverts w -> createdNodes w' = createdNodes w ->
  Cut w0 p n l1 mid l2 cr w'.
Proof.
  intros [Hk Hc Hp Hm Hr Hcr] Ht Hr' Hcr'.
  assert (Hs : dom w' = dom w ++ drop (length (dom w)) (dom w')).
  { rewrite <- Ht at 1. by rewrite take_drop. }
  assert (Hpl : p < length (dom w)).
  { apply childrenOf_lt. rewrite Hc. by destruct l1, mid. }
  split; try congruence.
  - eapply kept_trans; [exact Hk|]. by apply kept_ext.
  - rewrite Hs, childrenOf_app_l; done.
  - rewrite Hs, parentOf_app_l; [done|]. by eapply parentOf_lt.
  - eapply Forall_impl; [exact Hm|]. intros z [Hz Hpz]. cbn beta.
    rewrite Hs, length_app, parentOf_app_l by lia. split; [lia|done].
Qed.

Lemma substChild_here n xs l1 mid l2 :
  n ∉ l1 -> n ∉ mid -> n ∉ l2 ->
  substChild n xs (l1 ++ mid ++ n :: l2) = l1 ++ mid ++ xs ++ l2.
Proof.
  intros H1 Hm H2.
  rewrite !substChild_app, substChild_cons, Nat.eqb_refl.
  by rewrite !substChild_absent.
Qed.

Lemma Cut_mid_fresh w0 p n l1 mid l2 cr w :
  Cut w0 p n l1 mid l2 cr w -> n < length (dom w0) -> n ∉ mid.
Proof.
  intros HC Hn Hin. pose proof (cut_mid _ _ _ _ _ _ _ _ HC) as Hm.
  rewrite Forall_forall in Hm. apply Hm in Hin. lia.
Qed.

(** [parent.insertBefore(z, n)] for a new node [z] without a parent. *)
Lemma returns_Cut_insert w0 p n l1 mid l2 cr w z :
  Cut w0 p n l1 mid l2 cr w -> n < length (dom w0) -> n ∉ l1 -> n ∉ l2 ->
  parentOf (dom w) z = None -> length (dom w0) <= z < length (dom w) ->
  returns (insertBeforeM (Some p) z n)
    (fun _ w' => Cut w0 p n l1 (mid ++ [z]) l2 cr w' /\ kept (dom w) (dom w')) w.
Proof.
  intros HC Hn H1 H2 Hz Hzl. pose proof (Cut_mid_fresh _ _ _ _ _ _ _ _ HC Hn) as Hm.
  destruct HC as [Hk Hc Hp Hmid Hr Hcr].
  unfold returns, insertBeforeM, liftDom, insertBefore. rewrite Hp, Nat.eqb_refl.
  destruct (Nat.eqb_spec z n) as [->|Hne]; [lia|].
  rewrite detach_unattached by done.
  assert (Hkept : kept (dom w)
            (setParent z (Some p) (mapChildren p (substChild n [z; n]) (dom w)))).
  { split; [by rewrite length_setParent, length_mapChildren|].
    intros i _. by rewrite kindOf_setParent, kindOf_mapChildren. }
  split; [|done]. split; cbn [dom withDom reverts createdNodes]; try done.
  - by eapply kept_trans.
  - rewrite childrenOf_setParent, childrenOf_mapChildren, Nat.eqb_refl, Hc
      by apply substChild_nil.
    rewrite substChild_here by done. by rewrite <- !app_assoc.
  - rewrite parentOf_setParent, parentOf_mapChildren.
    by destruct (Nat.eqb_spec n z) as [->|_].
  - rewrite length_setParent, length_mapChildren.
    assert (Hzb : Nat.ltb z (length (mapChildren p (substChild n [z; n]) (dom w))) = true).
    { rewrite length_mapChildren. apply Nat.ltb_lt. lia. }
    apply Forall_app. split.
    + eapply Forall_impl; [exact Hmid|]. intros y [Hy Hpy]. cbn beta.
      split; [done|]. rewrite parentOf_setParent, parentOf_mapChildren, Hzb.
      by destruct (Nat.eqb y z).
    + constructor; [|constructor]. split; [done|].
      by rewrite parentOf_setParent, Nat.eqb_refl, Hzb.
Qed.

(** [if (cond) { z = document.createTextNode(data); parent.insertBefore(z, n) }] *)
Lemma returns_Cut_splitOff w0 p n l1 mid l2 cr w (cond : bool) data :
  Cut w0 p n l1 mid l2 cr w -> n < length (dom w0) -> n ∉ l1 -> n ∉ l2 ->
  returns (if cond then
             do z <- liftAlloc (createTextNode data);
             do _ <- insertBeforeM (Some p) z n;
             ret (Some z)
           else ret None)
    (fun o w' =>
       Cut w0 p n l1 (mid ++ optlist o) l2 cr w' /\ kept (dom w) (dom w') /\
       leftover (dom w') o cond data) w.
Proof.
  intros HC Hn H1 H2. destruct cond.
  2:{ apply returns_ret. cbn [optlist]. rewrite app_nil_r.
      split; [done|]. split; [apply kept_refl|done]. }
  apply returns_bind. unfold returns at 1, liftAlloc, createTextNode, alloc.
  set (w1 := withDom (dom w ++ [mkNode (TextNode data true) None []]) w).
  assert (HC1 : Cut w0 p n l1 mid l2 cr w1).
  { eapply Cut_ext; [exact HC| |done|done]. cbn [w1 dom withDom].
    apply take_app_prefix. }
  assert (Hk1 : kept (dom w) (dom w1)).
  { apply kept_ext. apply take_app_prefix. }
  apply returns_bind. eapply returns_mono.
  { apply (returns_Cut_insert w0 p n l1 mid l2 cr w1 (length (dom w))); try done.
    - apply parentOf_alloc.
    - cbn [w1 dom withDom]. rewrite length_app. cbn [length].
      destruct HC as [[Hl _] _ _ _ _ _]. lia. }
  intros ? w2 [HC2 Hk2]. cbv beta in *. apply returns_ret. cbn [optlist].
  split; [done|]. split; [by eapply kept_trans|].
  exists (length (dom w)). split; [done|].
  destruct Hk2 as [_ Hk2]. rewrite Hk2.
  - apply kindOf_alloc.
  - cbn [w1 dom withDom]. rewrite length_app. cbn [length]. lia.
Qed.

(** [parent.removeChild(n)] *)
Lemma returns_Cut_remove w0 p n l1 mid l2 cr w :
  Cut w0 p n l1 mid l2 cr w -> n < length (dom w0) -> n ∉ l1 -> n ∉ l2 ->
  returns (removeChildM (Some p) n)
    (fun _ w' =>
       kept (dom w) (dom w') /\
       childrenOf (dom w') p = l1 ++ mid ++ l2 /\
       parentOf (dom w') n = None /\
       Forall (fun z => parentOf (dom w') z = Some p) mid /\
       reverts w' = reverts w0 /\ createdNodes w' = cr ++ createdNodes w0) w.
Proof.
  intros HC Hn H1 H2. pose proof (Cut_mid_fresh _ _ _ _ _ _ _ _ HC Hn) as Hm.
  destruct HC as [Hk Hc Hp Hmid Hr Hcr].
  unfold returns, removeChildM, liftDom, removeChild. rewrite Hp, Nat.eqb_refl.
  cbn [dom withDom reverts createdNodes].
  assert (Hnl : Nat.ltb n (length (mapChildren p (substChild n []) (dom w))) = true).
  { rewrite length_mapChildren. apply Nat.ltb_lt. destruct Hk. lia. }
  split; [|split; [|split; [|split; [|done]]]].
  - split; [by rewrite length_setParent, length_mapChildren|].
    intros i _. by rewrite kindOf_setParent, kindOf_mapChildren.
  - rewrite childrenOf_setParent, childrenOf_mapChildren, Nat.eqb_refl, Hc
      by apply substChild_nil.
    by rewrite substChild_here.
  - by rewrite parentOf_setParent, Nat.eqb_refl, Hnl.
  - rewrite Forall_forall in Hmid |- *. intros z Hz.
    rewrite parentOf_setParent, parentOf_mapChildren.
    destruct (Nat.eqb_spec z n) as [->|_]; [done|]. by apply Hmid.
Qed.

(** The replacement node of a portion. *)
Lemma returns_Cut_replacement w0 p n l1 mid l2 cr w options portion match_ :
  wellBehavedReplace options -> wrapIn options (dom w) ->
  Cut w0 p n l1 mid l2 cr w ->
  returns (getPortionReplacementNode options portion match_)
    (fun new w' =>
       Cut w0 p n l1 mid l2 cr w' /\ kept (dom w) (dom w') /\
       length (dom w) <= new < length (dom w') /\
       parentOf (dom w') new = None /\
       (wrap options = None ->
        forall r, default (ReplString (txt "$&")) (replace options) = ReplString r ->
          kindOf (dom w') new =
            Some (TextNode (prepareReplacementString options r portion match_) true))) w.
Proof.
  intros Hwb Hw HC.
  destruct (getPortionReplacementNode_Ok options portion match_ w Hw) as (new & w' & E).
  pose proof (getPortionReplacementNode_new options portion match_ w Hwb) as Hnew.
  unfold wp in Hnew. unfold returns. rewrite E in *.
  destruct Hnew as (Ht & Hn & Hp & _ & Hr & Hcr & _).
  split; [by eapply Cut_ext|]. split; [by apply kept_ext|].
  split; [done|]. split; [done|].
  intros Hwrap r Hrep. unfold getPortionReplacementNode in E.
  rewrite Hrep, Hwrap in E.
  unfold bind, liftAlloc, createTextNode, alloc, ret in E. cbn [dom withDom] in E.
  inversion E; subst. cbn [dom withDom]. apply kindOf_alloc.
Qed.

Lemma leftover_kept (s s' : DOM) o cond data :
  kept s s' -> leftover s o cond data -> leftover s' o cond data.
Proof.
  intros [_ Hk]. unfold leftover. destruct cond; [|done].
  intros (z & -> & Hz). exists z. split; [done|].
  rewrite Hk; [done|]. by eapply kindOf_lt.
Qed.

Lemma wrapIn_kept options (s s' : DOM) :
  wrapIn options s -> kept s s' -> wrapIn options s'.
Proof.
  unfold wrapIn. intros H [Hl _].
  destruct (wrap options) as [[[|c name]|el]|]; try done. lia.
Qed.

Lemma returns_Cut_addCreated w0 p n l1 mid l2 cr w z :
  Cut w0 p n l1 mid l2 cr w ->
  returns (addCreated z)
    (fun _ w' => Cut w0 p n l1 mid l2 (z :: cr) w' /\ dom w' = dom w) w.
Proof.
  intros [Hk Hc Hp Hm Hr Hcr]. unfold returns, addCreated.
  split; [|done]. split; cbn [dom reverts createdNodes]; try done.
  by rewrite Hcr.
Qed.

(** X20: a match in one text node is cut out of it.  Let a replacement
    function create nodes only and return a node that it created, and let
    [wrap] be such that the DOM takes it: a string that is a name for
    [document.createElement], or a stencil element that is a node of the
    store.  When both portions of a match lie in the text node [n], an
    instance of Text that is a child of [p] and occurs once among the
    children of [p], [replaceMatch] returns, and the children of [p] are
    then as before with, in the place of [n]: a new text node with the text
    of [n] before the match, when there is such text; the replacement node;
    and a new text node with the text of [n] after the match, when there
    is such text.  These nodes have the parent [p], and [n] has none.
    Without [wrap], the replacement node of a replacement string is a text
    node with the replacement text.  Every node that was in the document
    has the kind it had; the replacement node is added to [createdNodes],
    and one closure to [reverts].  The call returns the node after the
    match, or else the replacement node. *)
Theorem a_match_in_one_text_node_is_cut_out
    (options : Options) (m : MatchWithMeta) (sp : Portion) (ips : list Portion)
    (ep : Portion) (w : World) (n p : nat) (l1 l2 : list nat) :
  wellBehavedReplace options -> wrapIn options (dom w) ->
  node sp = n -> node ep = n -> instanceofText (dom w) n = true ->
  parentOf (dom w) n = Some p -> childrenOf (dom w) p = l1 ++ n :: l2 ->
  (n ∉ l1) -> (n ∉ l2) ->
  exists pre new post w',
    replaceMatch options m sp ips ep w = (Ok (Some (orNode post new)), w') /\
    childrenOf (dom w') p = l1 ++ standins pre new post ++ l2 /\
    Forall (fun z => parentOf (dom w') z = Some p) (standins pre new post) /\
    parentOf (dom w') n = None /\
    leftover (dom w') pre (0 <? indexInNode sp)%Z
      (JS.substring (dataOf (dom w) n) 0 (indexInNode sp)) /\
    leftover (dom w') post (endIndexInNode ep <? JS.len (dataOf (dom w) n))%Z
      (JS.substringFrom (dataOf (dom w) n) (endIndexInNode ep)) /\
    length (dom w) <= new < length (dom w') /\
    (wrap options = None ->
     forall r, default (ReplString (txt "$&")) (replace options) = ReplString r ->
       kindOf (dom w') new =
         Some (TextNode (prepareReplacementString options r ep m) true)) /\
    kept (dom w) (dom w') /\
    createdNodes w' = new :: createdNodes w /\
    reverts w' = reverts w ++ [RevertSingle pre post new n p].
Proof.
  intros Hwb Hw Hsp Hep Hinst Hp Hc H1 H2.
  pose proof (parentOf_lt _ _ _ Hp) as Hn.
  assert (Hret : returns (replaceMatch options m sp ips ep)
            (fun r w' => exists pre new post,
               r = Some (orNode post new) /\
               childrenOf (dom w') p = l1 ++ standins pre new post ++ l2 /\
               Forall (fun z => parentOf (dom w') z = Some p) (standins pre new post) /\
               parentOf (dom w') n = None /\
               leftover (dom w') pre (0 <? indexInNode sp)%Z
                 (JS.substring (dataOf (dom w) n) 0 (indexInNode sp)) /\
               leftover (dom w') post
                 (endIndexInNode ep <? JS.len (dataOf (dom w) n))%Z
                 (JS.substringFrom (dataOf (dom w) n) (endIndexInNode ep)) /\
               length (dom w) <= new < length (dom w') /\
               (wrap options = None ->
                forall r, default (ReplString (txt "$&")) (replace options) =
                          ReplString r ->
                  kindOf (dom w') new =
                    Some (TextNode (prepareReplacementString options r ep m) true)) /\
               kept (dom w) (dom w') /\
               createdNodes w' = new :: createdNodes w /\
               reverts w' = reverts w ++ [RevertSingle pre post new n p]) w).
  2:{ unfold returns in Hret.
      destruct (replaceMatch options m sp ips ep w) as [[r| |] w']; [|done..].
      destruct Hret as (pre & new & post & -> & Hrest).
      by exists pre, new, post, w'. }
  unfold replaceMatch. rewrite Hsp, Hep.
  apply returns_bind, returns_getDom. rewrite Hinst, Nat.eqb_refl, Hp. cbn [negb orb].
  pose proof (Cut_start w p n l1 l2 Hp Hc) as HC0.
  (* the text before the match *)
  apply returns_bind. eapply returns_mono.
  { by apply (returns_Cut_splitOff w p n l1 [] l2 [] w). }
  intros pre w1 (HC1 & Hk1 & Hpre). cbv beta in *. cbn [app] in HC1.
  (* the replacement *)
  apply returns_bind. eapply returns_mono.
  { apply (returns_Cut_replacement w p n l1 (optlist pre) l2 [] w1); try done.
    by eapply wrapIn_kept. }
  intros new w2 (HC2 & Hk2 & Hnew & Hpnew & Hknew). cbv beta in *.
  apply returns_bind. eapply returns_mono.
  { apply (returns_Cut_insert w p n l1 (optlist pre) l2 [] w2 new); try done.
    destruct Hk1. lia. }
  intros ? w3 (HC3 & Hk3). cbv beta in *.
  apply returns_bind. eapply returns_mono; [by apply returns_Cut_addCreated|].
  intros ? w4 (HC4 & Hd4). cbv beta in *.
  apply returns_bind, returns_getDom.
  assert (Hk04 : kept (dom w) (dom w4)) by apply HC4.
  assert (Hdata : dataOf (dom w4) n = dataOf (dom w) n).
  { apply dataOf_kind. by apply Hk04. }
  rewrite Hdata.
  (* the text after the match *)
  apply returns_bind. eapply returns_mono.
  { by apply (returns_Cut_splitOff w p n l1 (optlist pre ++ [new]) l2 [new] w4). }
  intros post w5 (HC5 & Hk5 & Hpost). cbv beta in *.
  apply returns_bind. eapply returns_mono; [by apply returns_Cut_remove|].
  intros ? w6 (Hk6 & Hc6 & Hp6 & Hm6 & Hr6 & Hcr6). cbv beta in *.
  apply returns_bind. unfold returns at 1, pushRevert. apply returns_ret.
  cbn [dom reverts createdNodes].
  assert (Hk36 : kept (dom w3) (dom w6)).
  { rewrite <- Hd4. by eapply kept_trans. }
  assert (Hk26 : kept (dom w2) (dom w6)) by (by eapply kept_trans).
  exists pre, new, post.
  assert (Hst : (optlist pre ++ [new]) ++ optlist post = standins pre new post).
  { unfold standins. by rewrite <- app_assoc. }
  rewrite Hst in *.
  split; [done|]. split; [done|]. split; [done|]. split; [done|].
  split.
  { eapply leftover_kept; [|exact Hpre]. eapply kept_trans; [exact Hk2|exact Hk26]. }
  split; [eapply leftover_kept; [exact Hk6|exact Hpost]|].
  split; [destruct Hk1, Hk26; lia|].
  split.
  { intros Hwrap r Hrep. destruct Hk26 as [_ Hk26]. rewrite Hk26 by lia.
    by apply Hknew. }
  split; [eapply kept_trans; [exact Hk04|]; by eapply kept_trans|].
  split; [by rewrite Hcr6|by rewrite Hr6].
Qed.

Lemma a_match_in_one_text_node_is_cut_out_witness :
  exists pre new post w',
    replaceMatch (plainOptions (FindString (txt "or"))) wordMatch wordPortion []
      wordPortion (freshWorld oneWord) = (Ok (Some (orNode post new)), w') /\
    childrenOf (dom w') 0 = [] ++ standins pre new post ++ [] /\
    Forall (fun z => parentOf (dom w') z = Some 0) (standins pre new post) /\
    parentOf (dom w') 1 = None /\
    leftover (dom w') pre (0 <? indexInNode wordPortion)%Z
      (JS.substring (dataOf (dom (freshWorld oneWord)) 1) 0
         (indexInNode wordPortion)) /\
    leftover (dom w') post
      (endIndexInNode wordPortion <? JS.len (dataOf (dom (freshWorld oneWord)) 1))%Z
      (JS.substringFrom (dataOf (dom (freshWorld oneWord)) 1)
         (endIndexInNode wordPortion)) /\
    length (dom (freshWorld oneWord)) <= new < length (dom w') /\
    (wrap (plainOptions (FindString (txt "or"))) = None ->
     forall r,
       default (ReplString (txt "$&")) (replace (plainOptions (FindString (txt "or")))) =
         ReplString r ->
       kindOf (dom w') new =
         Some (TextNode
                 (prepareReplacementString (plainOptions (FindString (txt "or"))) r
                    wordPortion wordMatch)
                 true)) /\
    kept (dom (freshWorld oneWord)) (dom w') /\
    createdNodes w' = new :: createdNodes (freshWorld oneWord) /\
    reverts w' = reverts (freshWorld oneWord) ++ [RevertSingle pre post new 1 0].
Proof.
  apply (a_match_in_one_text_node_is_cut_out (plainOptions (FindString (txt "or")))
           wordMatch wordPortion [] wordPortion (freshWorld oneWord) 1 0 [] []).
  - exact I.
  - exact I.
  - reflexivity.
  - reflexivity.
  - reflexivity.
  - reflexivity.
  - reflexivity.
  - apply not_elem_of_nil.
  - apply not_elem_of_nil.
Defined.
